(** * Kapybara memory records: identifiers, store contract, split-layout
    migration and neighbourhood traversal.

    A shallow embedding of
    - [k/agent/memory/entities.py]       (modules [Ident] and [Entities]),
    - [k/agent/memory/store.py]          (module [Store], the protocol's contract),
    - [k/agent/memory/migrate_split.py]  (modules [Json], [Migrate] and
                                          [MigrateSteps]),
    - [skills/meta/retrieve-memory/neighborhood.py] (module [Neighborhood]),
    followed by the properties proved about them. *)

From Stdlib Require Import ZArith NArith List Bool Ascii String Lia SpecFloat DecimalString.
From Stdlib Require DecimalFacts DecimalPos.
From stdpp Require Import base option list gmap sorting strings.

Set Default Proof Using "Type".
Open Scope Z_scope.

(* ================================================================== *)
(** * Python values shared by all modules *)
(* ================================================================== *)

(** A Python [str] is a sequence of Unicode code points. *)
Definition pystr := list N.

(** Literals of the source are written [py "..."]. *)
Definition py (s : string) : pystr := N_of_ascii <$> list_ascii_of_string s.

(** The exception classes the modelled code raises or catches. *)
Inductive exn :=
| ValueError
| JSONDecodeError
| BinasciiError
| UnicodeError
| TypeError
| OverflowError
| KeyError
| RecursionError
| FileNotFoundError
| DuplicateIdError
| MissingParentError
| MissingRecordError.

(** [isinstance e ValueError]: [json.JSONDecodeError], [binascii.Error] and
    the [UnicodeError] family derive from [ValueError]. *)
Definition is_ValueError (e : exn) : bool :=
  match e with
  | ValueError | JSONDecodeError | BinasciiError | UnicodeError => true
  | _ => false
  end.

Definition is_TypeError (e : exn) : bool :=
  match e with TypeError => true | _ => false end.

(** The outcome of a call: a value, or a raised exception. *)
Inductive result (A : Type) :=
| Ok (a : A)
| Raise (e : exn).
Arguments Ok {A} a.
Arguments Raise {A} e.

(** The call raised [RecursionError]. *)
Definition hit_recursion_limit {A : Type} (r : result A) : bool :=
  match r with
  | Raise RecursionError => true
  | _ => false
  end.

(** Sequencing: an exception raised by the first call propagates. *)
Global Instance result_bind : MBind result := fun A B k r =>
  match r with Ok a => k a | Raise e => Raise e end.
Global Instance result_ret : MRet result := fun A a => Ok a.

(** [try: body / except <classes>: handler]. *)
Definition try_except {A} (body : result A) (catches : exn -> bool)
    (handler : result A) : result A :=
  match body with
  | Ok a => Ok a
  | Raise e => if catches e then handler else Raise e
  end.

Definition raises {A} (r : result A) (e : exn) : Prop := r = Raise e.

(** Closes an equation between closed terms by evaluating both sides. *)
Ltac vm_refl :=
  match goal with |- ?l = ?r => exact (@eq_refl _ r <: l = r) end.

(** [P] holds of every number below [n]: a check by enumeration. *)
Definition below (n : nat) (P : N -> bool) : bool :=
  forallb P (N.of_nat <$> seq 0 n).

Definition below2 (n m : nat) (P : N -> N -> bool) : bool :=
  below n (fun x => below m (P x)).

Module PyStr.

Definition LF : N := 10%N.
Definition CR : N := 13%N.
Definition QUOTE : N := 34%N.
Definition BACKSLASH : N := 92%N.

Definition inrange (lo hi c : N) : bool := (lo <=? c)%N && (c <=? hi)%N.

(** [str.endswith]. *)
Definition endswith (s suffix : pystr) : bool :=
  bool_decide (drop (length s - length suffix)%nat s = suffix).

Definition startswith (s prefix : pystr) : bool :=
  bool_decide (take (length prefix) s = prefix).

(** [s[:-n]] for [n > 0]. *)
Definition drop_last (n : nat) (s : pystr) : pystr := take (length s - n)%nat s.

(** [sep.join(parts)]. *)
Fixpoint join (sep : pystr) (parts : list pystr) : pystr :=
  match parts with
  | [] => []
  | [p] => p
  | p :: rest => p ++ sep ++ join sep rest
  end.

(** The line boundaries of [str.splitlines]. *)
Definition is_linebreak (c : N) : bool :=
  inrange 10 13 c || inrange 28 30 c || (c =? 133)%N || (c =? 8232)%N || (c =? 8233)%N.

(** The characters [str.strip] removes ([str.isspace]). *)
Definition is_space (c : N) : bool :=
  inrange 9 13 c || inrange 28 32 c || (c =? 133)%N || (c =? 160)%N
  || (c =? 5760)%N || inrange 8192 8202 c || (c =? 8232)%N || (c =? 8233)%N
  || (c =? 8239)%N || (c =? 8287)%N || (c =? 12288)%N.

(** [str.splitlines()]: CR LF is one boundary, a final boundary opens no
    further line. *)
Fixpoint splitlines_from (cur : pystr) (s : pystr) : list pystr :=
  match s with
  | [] => match cur with [] => [] | _ => [cur] end
  | c :: r =>
      if (c =? CR)%N then
        match r with
        | c' :: r' => if (c' =? LF)%N then cur :: splitlines_from [] r'
                      else cur :: splitlines_from [] r
        | [] => cur :: splitlines_from [] r
        end
      else if is_linebreak c then cur :: splitlines_from [] r
      else splitlines_from (cur ++ [c]) r
  end.

Definition splitlines (s : pystr) : list pystr := splitlines_from [] s.

Fixpoint lstrip (s : pystr) : pystr :=
  match s with
  | c :: r => if is_space c then lstrip r else s
  | [] => []
  end.

Definition strip (s : pystr) : pystr := reverse (lstrip (reverse (lstrip s))).

(** Lexicographic comparison of strings by code point ([<=] on [str]). *)
Fixpoint le (a b : pystr) : bool :=
  match a, b with
  | [], _ => true
  | _ :: _, [] => false
  | x :: a', y :: b' => (x <? y)%N || ((x =? y)%N && le a' b')
  end.

End PyStr.

(* ================================================================== *)
(** * entities.py: the identifier scheme *)
(* ================================================================== *)

Module Ident.
Import PyStr.

(** ** Library functions used by the module *)

(** Python floats are IEEE 754 binary64 values. *)
Definition prec : Z := 53.
Definition emax : Z := 1024.

Definition float_of_int (z : Z) : spec_float := binary_normalize prec emax z 0 false.

Definition float_mul (x y : spec_float) : spec_float := SFmul prec emax x y.

(** The exact quotient of two integers rounded to a float ([int / int]). *)
Definition int_true_div (a b : Z) : spec_float :=
  match a, b with
  | Z0, _ => S754_zero false
  | _, Z0 => S754_nan
  | _, _ =>
      SFdiv prec emax (S754_finite (a <? 0) (Z.to_pos (Z.abs a)) 0)
                      (S754_finite (b <? 0) (Z.to_pos (Z.abs b)) 0)
  end.

(** [int(x)] for a float: truncation toward zero; [OverflowError] for an
    infinity and [ValueError] for a NaN. *)
Definition int_of_float (x : spec_float) : result Z :=
  match x with
  | S754_zero _ => Ok 0
  | S754_infinity _ => Raise OverflowError
  | S754_nan => Raise ValueError
  | S754_finite s m e =>
      let a := match e with
               | Z0 => Zpos m
               | Zpos p => Zpos m * 2 ^ e
               | Zneg p => Zpos m / 2 ^ (Zpos p)
               end in
      Ok (if s then - a else a)
  end.

(** [math.floor(x)], for comparison with [int(x)]. *)
Definition floor_of_float (x : spec_float) : result Z :=
  match x with
  | S754_zero _ => Ok 0
  | S754_infinity _ => Raise OverflowError
  | S754_nan => Raise ValueError
  | S754_finite s m e =>
      match e with
      | Z0 => Ok (if s then - Zpos m else Zpos m)
      | Zpos p => Ok ((if s then - Zpos m else Zpos m) * 2 ^ e)
      | Zneg p => Ok ((if s then - Zpos m else Zpos m) / 2 ^ (Zpos p))
      end
  end.

(** A [datetime] is observed by the module only through [timestamp()]. An
    aware datetime [us] microseconds from the epoch has timestamp
    [us / 10**6] ([timedelta.total_seconds]). *)
Record datetime := mk_datetime { timestamp : spec_float }.

Definition datetime_of_epoch_us (us : Z) : datetime :=
  mk_datetime (int_true_div us 1000000).

(** [n.to_bytes(len, byteorder="big", signed=False)]. *)
Fixpoint be_bytes (len : nat) (n : Z) : list N :=
  match len with
  | O => []
  | S k => Z.to_N (Z.land (Z.shiftr n (8 * Z.of_nat k)) 255) :: be_bytes k n
  end.

Definition to_bytes (n : Z) (len : nat) : result (list N) :=
  if (n <? 0) || (2 ^ (8 * Z.of_nat len) <=? n) then Raise OverflowError
  else Ok (be_bytes len n).

(** [int.from_bytes(bs, "big")]. *)
Definition from_bytes (bs : list N) : Z :=
  fold_left (fun acc b => acc * 256 + Z.of_N b) bs 0.

(** The base64 alphabet, standard and URL-safe. *)
Definition b64_char (i : N) : N :=
  if (i <? 26)%N then (65 + i)%N
  else if (i <? 52)%N then (97 + (i - 26))%N
  else if (i <? 62)%N then (48 + (i - 52))%N
  else if (i =? 62)%N then 43%N else 47%N.

Definition b64_value (c : N) : option N :=
  if inrange 65 90 c then Some (c - 65)%N
  else if inrange 97 122 c then Some (c - 97 + 26)%N
  else if inrange 48 57 c then Some (c - 48 + 52)%N
  else if (c =? 43)%N then Some 62%N
  else if (c =? 47)%N then Some 63%N
  else None.

Definition PAD : N := 61%N.

(** [binascii.b2a_base64] without the newline. *)
Fixpoint b64encode (bs : list N) : list N :=
  match bs with
  | [] => []
  | [a] =>
      [b64_char (N.shiftr a 2); b64_char (N.shiftl (N.land a 3) 4); PAD; PAD]
  | [a; b] =>
      [b64_char (N.shiftr a 2);
       b64_char (N.lor (N.shiftl (N.land a 3) 4) (N.shiftr b 4));
       b64_char (N.shiftl (N.land b 15) 2); PAD]
  | a :: b :: c :: r =>
      [b64_char (N.shiftr a 2);
       b64_char (N.lor (N.shiftl (N.land a 3) 4) (N.shiftr b 4));
       b64_char (N.lor (N.shiftl (N.land b 15) 2) (N.shiftr c 6));
       b64_char (N.land c 63)] ++ b64encode r
  end.

Definition urlsafe_translate (c : N) : N :=
  if (c =? 43)%N then 45%N else if (c =? 47)%N then 95%N else c.

Definition urlsafe_untranslate (c : N) : N :=
  if (c =? 45)%N then 43%N else if (c =? 95)%N then 47%N else c.

(** [base64.urlsafe_b64encode(raw).decode("ascii")]. *)
Definition urlsafe_b64encode (raw : list N) : pystr :=
  urlsafe_translate <$> b64encode raw.

(** [binascii.a2b_base64] in its default, non-strict mode: characters
    outside the alphabet are skipped, a complete pad sequence ends the
    input, an incomplete final quad is an error. State: position in the
    quad, left-over bits, pads seen, bytes produced. *)
Fixpoint a2b_base64 (s : list N) (quad_pos : nat) (leftchar : N) (pads : nat)
    (out : list N) : result (list N) :=
  match s with
  | [] => match quad_pos with O => Ok out | _ => Raise BinasciiError end
  | ch :: r =>
      if (ch =? PAD)%N then
        if (2 <=? quad_pos)%nat && (4 <=? quad_pos + S pads)%nat then Ok out
        else a2b_base64 r quad_pos leftchar
               (if (2 <=? quad_pos)%nat then S pads else pads) out
      else
        match b64_value ch with
        | None => a2b_base64 r quad_pos leftchar pads out
        | Some v =>
            match quad_pos with
            | 0%nat => a2b_base64 r 1 v 0 out
            | 1%nat =>
                a2b_base64 r 2 (N.land v 15) 0
                  (out ++ [N.land (N.lor (N.shiftl leftchar 2) (N.shiftr v 4)) 255])
            | 2%nat =>
                a2b_base64 r 3 (N.land v 3) 0
                  (out ++ [N.land (N.lor (N.shiftl leftchar 4) (N.shiftr v 2)) 255])
            | _ =>
                a2b_base64 r 0 0 0
                  (out ++ [N.land (N.lor (N.shiftl leftchar 6) v) 255])
            end
        end
  end.

(** [base64.urlsafe_b64decode(s)] for a [str] argument: non-ASCII input is
    a [ValueError]; [-] and [_] are translated, then the data is decoded. *)
Definition urlsafe_b64decode (s : pystr) : result (list N) :=
  if forallb (fun c => (c <? 128)%N) s
  then a2b_base64 (urlsafe_untranslate <$> s) 0 0 0 []
  else Raise ValueError.

(** [_B64URL_8_RE.fullmatch(value)] for [^[A-Za-z0-9_-]{8}$]. *)
Definition is_b64url_char (c : N) : bool :=
  inrange 65 90 c || inrange 97 122 c || inrange 48 57 c
  || (c =? 95)%N || (c =? 45)%N.

Definition B64URL_8_fullmatch (value : pystr) : bool :=
  (length value =? 8)%nat && forallb is_b64url_char value.

(** ** The module's functions *)

(** [memory_record_id_from_created_at]; [created_at_millis] is its first
    line, [int(created_at.timestamp() * 1000)]. *)
Definition created_at_millis (created_at : datetime) : result Z :=
  int_of_float (float_mul (timestamp created_at) (float_of_int 1000)).

Definition memory_record_id_from_created_at (created_at : datetime) : result pystr :=
  millis ← created_at_millis created_at;
  if (millis <? 0) || (Z.shiftl 1 48 <=? millis) then Raise ValueError
  else
    raw ← to_bytes millis 6;
    Ok (urlsafe_b64encode raw).

Section WithUUID.

(** [uuid.UUID(value)] belongs to the standard library: it either builds a
    UUID or raises. Only whether it returns matters here. *)
Variable UUID : pystr -> result unit.

(** [is_memory_record_id]. *)
Definition is_memory_record_id (value : pystr) : result bool :=
  try_except (UUID value ;; Ok true) is_ValueError
    (if negb (B64URL_8_fullmatch value) then Ok false
     else
       try_except
         (decoded ← urlsafe_b64decode value; Ok (length decoded =? 6)%nat)
         (fun e => is_ValueError e || is_TypeError e)
         (Ok false)).

End WithUUID.

(** A sample parser for instantiating [UUID]: it accepts the canonical
    8-4-4-4-12 hexadecimal form only and raises [ValueError] otherwise
    ([uuid.UUID] accepts a few more spellings of the same 32 digits). *)
Definition is_hex_digit (c : N) : bool :=
  inrange 48 57 c || inrange 97 102 c || inrange 65 70 c.

Definition UUID_canonical (value : pystr) : result unit :=
  if (length value =? 36)%nat
     && forallb (fun '(i, c) =>
          if bool_decide (i ∈ [8; 13; 18; 23]%nat) then (c =? 45)%N
          else is_hex_digit c) (imap pair value)
  then Ok tt else Raise ValueError.

End Ident.

(* ================================================================== *)
(** * store.py: the store protocol *)
(* ================================================================== *)

Module Store.
Import PyStr Ident.

(** [entities.MemoryRecord]. The [detailed] trace is opaque to the store
    and is left out. *)
Record MemoryRecord := mk_record {
  created_at : datetime;
  id_ : pystr;
  parents : list pystr;
  children : list pystr;
  raw_pair : pystr * pystr;
  compacted : list pystr
}.

Definition with_children (r : MemoryRecord) (cs : list pystr) : MemoryRecord :=
  {| created_at := created_at r; id_ := id_ r; parents := parents r;
     children := cs; raw_pair := raw_pair r; compacted := compacted r |}.

(** Modelled from the spec: [store.py] declares only the [MemoryStore]
    protocol; no class implementing it is part of the sources. The state of
    a store is what it has persisted: its records in append order, and
    whether it enforces that parents exist (the spec leaves the choice to
    the implementation). *)
Record store := mk_store {
  records : list MemoryRecord;
  strict_parents : bool
}.

(** Modelled from the spec: [get_by_id(id) -> record | none]. *)
Definition get_by_id (st : store) (id : pystr) : option MemoryRecord :=
  find (fun r => bool_decide (id_ r = id)) (records st).

Definition contains (st : store) (id : pystr) : bool :=
  bool_decide (is_Some (get_by_id st id)).

(** Modelled from the spec: [get_latest() -> id | none], the tail of the
    append order. *)
Definition get_latest (st : store) : option pystr := id_ <$> last (records st).

(** Modelled from the spec: [get_children(record_or_id, strict=false)]
    returns the stored [children] list, order preserved; with [strict] every
    listed id must exist in the store. *)
Definition get_children (st : store) (id : pystr) (strict : bool)
    : result (list pystr) :=
  match get_by_id st id with
  | None => if strict then Raise MissingRecordError else Ok []
  | Some r =>
      if strict && negb (forallb (contains st) (children r))
      then Raise MissingRecordError
      else Ok (children r)
  end.

(** The back-link update: [child] is appended to the record's [children]
    unless it is already there. *)
Definition add_child (child : pystr) (r : MemoryRecord) : MemoryRecord :=
  if bool_decide (child ∈ children r) then r
  else with_children r (children r ++ [child]).

(** Modelled from the spec: [append(record)] fails with [DuplicateIdError]
    if the id is stored already, with [MissingParentError] only under strict
    parent enforcement; otherwise it persists the record at the tail of the
    append order and adds its id to the [children] of every stored record
    named in [record.parents]. *)
Definition append (st : store) (record : MemoryRecord) : result store :=
  if contains st (id_ record) then Raise DuplicateIdError
  else if strict_parents st && negb (forallb (contains st) (parents record))
  then Raise MissingParentError
  else
    Ok {| records :=
            ((fun p => if bool_decide (id_ p ∈ parents record)
                       then add_child (id_ record) p else p) <$> records st)
            ++ [record];
          strict_parents := strict_parents st |}.

End Store.

(* ================================================================== *)
(** * entities.py and store.py: validation of record ids *)
(* ================================================================== *)

Module Entities.
Import PyStr Ident Store.

Definition with_id (r : MemoryRecord) (id : pystr) : MemoryRecord :=
  {| created_at := created_at r; id_ := id; parents := parents r;
     children := children r; raw_pair := raw_pair r; compacted := compacted r |}.

(** [MemoryRecord.short_id]: [self.id_[:8]]. *)
Definition short_id (r : MemoryRecord) : pystr := take 8 (id_ r).

(** The last two characters of an id, from its last two bytes. *)
Definition id_char6 (e f : N) : N :=
  urlsafe_translate (b64_char (N.lor (N.shiftl (N.land e 15) 2) (N.shiftr f 6))).

Definition id_char7 (f : N) : N := urlsafe_translate (b64_char (N.land f 63)).

Section WithUUID.

Variable UUID : pystr -> result unit.

(** [[i for i in ids if not is_memory_record_id(i)]]. *)
Fixpoint bad_ids (ids : list pystr) : result (list pystr) :=
  match ids with
  | [] => Ok []
  | i :: rest =>
      ok ← is_memory_record_id UUID i;
      bad ← bad_ids rest;
      Ok (if (ok : bool) then bad else i :: bad)
  end.

(** The two checks of the validator, made once the id is settled: on the
    id, then on the [parents] and [children] links. *)
Definition check_ids (self : MemoryRecord) : result MemoryRecord :=
  valid ← is_memory_record_id UUID (id_ self);
  if negb (valid : bool) then Raise ValueError
  else
    bad ← bad_ids (parents self);
    match bad with
    | _ :: _ => Raise ValueError
    | [] =>
        bad ← bad_ids (children self);
        match bad with
        | _ :: _ => Raise ValueError
        | [] => Ok self
        end
    end.

(** [MemoryRecord._finalize_and_validate_ids], the validator pydantic runs
    after the fields are set: an empty [id_] is replaced by the id derived
    from [created_at]; then the id and every link must be valid ids. *)
Definition _finalize_and_validate_ids (self : MemoryRecord) : result MemoryRecord :=
  self ←
    (if bool_decide (id_ self = []) then
       id ← memory_record_id_from_created_at (created_at self);
       Ok (with_id self id)
     else Ok self);
  check_ids self.

Definition all_valid (self : MemoryRecord) : Prop :=
  is_memory_record_id UUID (id_ self) = Ok true
  /\ Forall (fun i => is_memory_record_id UUID i = Ok true) (parents self)
  /\ Forall (fun i => is_memory_record_id UUID i = Ok true) (children self).

(** [store.coerce_record_id]. *)
Definition coerce_record_id (value : pystr) : result pystr :=
  valid ← is_memory_record_id UUID value;
  if negb (valid : bool) then Raise ValueError else Ok value.

End WithUUID.

End Entities.

(* ================================================================== *)
(** * The [json] library, as migrate_split.py uses it *)
(* ================================================================== *)

Module Json.
Import PyStr.

(** A decoded JSON document. An object is a [dict]: its keys are distinct
    and keep their insertion order. A float is kept as the literal it was
    read from. *)
#[local] Unset Elimination Schemes.
Inductive json :=
| JNull
| JBool (b : bool)
| JInt (z : Z)
| JFloat (literal : pystr)
| JStr (s : pystr)
| JArr (items : list json)
| JObj (members : list (pystr * json)).
#[local] Set Elimination Schemes.

(** [d.get(k)] and [d[k] = v] on a [dict]. *)
Fixpoint dict_get (d : list (pystr * json)) (k : pystr) : option json :=
  match d with
  | [] => None
  | (k', v) :: r => if decide (k' = k) then Some v else dict_get r k
  end.

Fixpoint dict_set (d : list (pystr * json)) (k : pystr) (v : json)
    : list (pystr * json) :=
  match d with
  | [] => [(k, v)]
  | (k', v') :: r =>
      if decide (k' = k) then (k', v) :: r else (k', v') :: dict_set r k v
  end.

(** [dict(pairs)]: a repeated key keeps its first place and its last value. *)
Definition dict_of_pairs (pairs : list (pystr * json)) : list (pystr * json) :=
  fold_left (fun d kv => dict_set d kv.1 kv.2) pairs [].

(** [d.get(k)] with Python's [None] for a missing key. *)
Definition py_get (d : list (pystr * json)) (k : pystr) : json :=
  default JNull (dict_get d k).

(** ** [json.dumps(..., ensure_ascii=False)] *)

(** The encoder enters the recursion guard at each list and object, as
    the decoder does. It is left out here: what [migrate_record_file]
    encodes nests no deeper than the record it has decoded before, or two
    levels ([MigrateIdem.core_payload_nesting],
    [MigrateIdem.tool_calls_nesting]). *)

Definition hex_digit (n : N) : N :=
  if (n <? 10)%N then (48 + n)%N else (87 + n)%N.

(** Only the quote, the backslash and the control characters below U+0020
    are escaped; every other code point is written as it is. *)
Definition escape_char (c : N) : pystr :=
  if (c =? QUOTE)%N then [BACKSLASH; QUOTE]
  else if (c =? BACKSLASH)%N then [BACKSLASH; BACKSLASH]
  else if (c =? 10)%N then [BACKSLASH; 110%N]
  else if (c =? 13)%N then [BACKSLASH; 114%N]
  else if (c =? 9)%N then [BACKSLASH; 116%N]
  else if (c =? 8)%N then [BACKSLASH; 98%N]
  else if (c =? 12)%N then [BACKSLASH; 102%N]
  else if (c <? 32)%N then
    [BACKSLASH; 117%N; 48%N; 48%N; hex_digit (c / 16); hex_digit (c mod 16)]
  else [c].

Definition encode_basestring (s : pystr) : pystr :=
  [QUOTE] ++ concat (escape_char <$> s) ++ [QUOTE].

Definition int_repr (z : Z) : pystr := py (NilZero.string_of_int (Z.to_int z)).

Section Dumps.

(** The text [float.__repr__] gives for the double nearest to a literal
    (with [NaN], [Infinity], [-Infinity] for the non-finite ones). *)
Variable float_repr : pystr -> pystr.

(** The two separators of [json.dumps]. *)
Variables item_separator key_separator : pystr.

Fixpoint dumps (v : json) : pystr :=
  match v with
  | JNull => py "null"
  | JBool true => py "true"
  | JBool false => py "false"
  | JInt z => int_repr z
  | JFloat literal => float_repr literal
  | JStr s => encode_basestring s
  | JArr items => py "[" ++ join item_separator (dumps <$> items) ++ py "]"
  | JObj members =>
      py "{"
      ++ join item_separator
           ((fun kv => encode_basestring kv.1 ++ key_separator ++ dumps kv.2)
              <$> members)
      ++ py "}"
  end.

End Dumps.

(** [json.dumps(v, ensure_ascii=False)]. *)
Definition dumps_default (float_repr : pystr -> pystr) (v : json) : pystr :=
  dumps float_repr (py ", ") (py ": ") v.

(** [json.dumps(v, ensure_ascii=False, separators=(",", ":"))]. *)
Definition dumps_compact (float_repr : pystr -> pystr) (v : json) : pystr :=
  dumps float_repr (py ",") (py ":") v.

(** A text without line feed, such as one line of a file. *)
Definition no_lf (s : pystr) : Prop := LF ∉ s.

(** ** [json.loads] *)

Definition is_ws (c : N) : bool :=
  (c =? 32)%N || (c =? 9)%N || (c =? 10)%N || (c =? 13)%N.

Fixpoint skip_ws (s : pystr) : pystr :=
  match s with
  | c :: r => if is_ws c then skip_ws r else s
  | [] => []
  end.

Definition is_digit (c : N) : bool := inrange 48 57 c.

Fixpoint take_digits (s : pystr) : pystr * pystr :=
  match s with
  | c :: r =>
      if is_digit c then let '(ds, rest) := take_digits r in (c :: ds, rest)
      else ([], s)
  | [] => ([], [])
  end.

Definition hex_value (c : N) : option N :=
  if inrange 48 57 c then Some (c - 48)%N
  else if inrange 97 102 c then Some (c - 87)%N
  else if inrange 65 70 c then Some (c - 55)%N
  else None.

Definition hex4 (h1 h2 h3 h4 : N) : option N :=
  a ← hex_value h1; b ← hex_value h2; c ← hex_value h3; d ← hex_value h4;
  Some (((a * 16 + b) * 16 + c) * 16 + d)%N.

Definition backslash_char (e : N) : option N :=
  if (e =? QUOTE)%N then Some QUOTE
  else if (e =? BACKSLASH)%N then Some BACKSLASH
  else if (e =? 47)%N then Some 47%N
  else if (e =? 98)%N then Some 8%N
  else if (e =? 102)%N then Some 12%N
  else if (e =? 110)%N then Some 10%N
  else if (e =? 114)%N then Some 13%N
  else if (e =? 116)%N then Some 9%N
  else None.

(** [scanstring] in strict mode, from just after the opening quote: the
    decoded string and the text after the closing quote. *)
Fixpoint scanstring (s : pystr) (acc : pystr) : option (pystr * pystr) :=
  match s with
  | [] => None
  | c :: r =>
      if (c =? QUOTE)%N then Some (acc, r)
      else if (c =? BACKSLASH)%N then
        match r with
        | [] => None
        | e :: r1 =>
            if (e =? 117)%N then
              match r1 with
              | h1 :: h2 :: h3 :: h4 :: r2 =>
                  match hex4 h1 h2 h3 h4 with
                  | None => None
                  | Some uni =>
                      if inrange 55296 56319 uni then
                        match r2 with
                        | b :: u :: r3 =>
                            if (b =? BACKSLASH)%N && (u =? 117)%N then
                              match r3 with
                              | g1 :: g2 :: g3 :: g4 :: r4 =>
                                  match hex4 g1 g2 g3 g4 with
                                  | None => None
                                  | Some uni2 =>
                                      if inrange 56320 57343 uni2 then
                                        scanstring r4
                                          (acc ++ [65536 + (N.lor (N.shiftl (uni - 55296) 10)
                                                                  (uni2 - 56320))]%N)
                                      else scanstring r2 (acc ++ [uni])
                                  end
                              | _ => None
                              end
                            else scanstring r2 (acc ++ [uni])
                        | _ => scanstring r2 (acc ++ [uni])
                        end
                      else scanstring r2 (acc ++ [uni])
                  end
              | _ => None
              end
            else
              match backslash_char e with
              | Some ch => scanstring r1 (acc ++ [ch])
              | None => None
              end
        end
      else if (c <? 32)%N then None
      else scanstring r (acc ++ [c])
  end.

Definition digits_value (ds : pystr) : Z :=
  fold_left (fun acc c => acc * 10 + Z.of_N (c - 48)) ds 0.

(** [int(text)] refuses more than 4300 digits. *)
Definition max_str_digits : nat := 4300.

(** The decoder's number pattern at the start of [s]: an optional minus,
    then 0 or a digit string without leading zero, then an optional
    fraction (a dot and digits), then an optional exponent (e or E, an
    optional sign, digits). No match, or the value and the rest; a number
    with a fraction or an exponent is a float, any other an [int]. *)
Definition match_number (s : pystr) : option (result json * pystr) :=
  let '(sign, s1) := match s with
                     | c :: r => if (c =? 45)%N then ([45%N], r) else ([], s)
                     | [] => ([], s)
                     end in
  let int_part :=
    match s1 with
    | c :: r =>
        if (c =? 48)%N then Some ([c], r)
        else if is_digit c then let '(ds, rest) := take_digits r in Some (c :: ds, rest)
        else None
    | [] => None
    end in
  match int_part with
  | None => None
  | Some (ds, s2) =>
      let '(frac, s3) :=
        match s2 with
        | c :: r =>
            if (c =? 46)%N then
              match take_digits r with
              | ([], _) => ([], s2)
              | (fs, rest) => (c :: fs, rest)
              end
            else ([], s2)
        | [] => ([], s2)
        end in
      let '(exp, s4) :=
        match s3 with
        | c :: r =>
            if (c =? 101)%N || (c =? 69)%N then
              let '(esign, r') :=
                match r with
                | c' :: r0 => if (c' =? 43)%N || (c' =? 45)%N then ([c'], r0) else ([], r)
                | [] => ([], r)
                end in
              match take_digits r' with
              | ([], _) => ([], s3)
              | (es, rest) => (c :: esign ++ es, rest)
              end
            else ([], s3)
        | [] => ([], s3)
        end in
      match frac, exp with
      | [], [] =>
          if (max_str_digits <? length ds)%nat then Some (Raise ValueError, s4)
          else Some (Ok (JInt (if sign is [] then digits_value ds
                               else - digits_value ds)), s4)
      | _, _ => Some (Ok (JFloat (sign ++ ds ++ frac ++ exp)), s4)
      end
  end.

(** The element loop of [JSONArray], entered at the first element. The
    loop ends with the text; [fuel] bounds the number of its rounds. *)
Fixpoint array_items (scan : pystr -> result (json * pystr)) (fuel : nat)
    (s : pystr) (acc : list json) : result (list json * pystr) :=
  match fuel with
  | O => Raise RecursionError
  | S fuel' =>
      '(v, rest) ← scan s;
      match skip_ws rest with
      | c :: r =>
          if (c =? 93)%N then Ok (acc ++ [v], r)
          else if (c =? 44)%N then array_items scan fuel' (skip_ws r) (acc ++ [v])
          else Raise JSONDecodeError
      | [] => Raise JSONDecodeError
      end
  end.

(** The member loop of [JSONObject], entered just after the opening quote
    of a key. *)
Fixpoint object_members (scan : pystr -> result (json * pystr)) (fuel : nat)
    (s : pystr) (acc : list (pystr * json)) : result (list (pystr * json) * pystr) :=
  match fuel with
  | O => Raise RecursionError
  | S fuel' =>
      match scanstring s [] with
      | None => Raise JSONDecodeError
      | Some (key, rest) =>
          match skip_ws rest with
          | c :: r =>
              if (c =? 58)%N then
                '(v, rest2) ← scan (skip_ws r);
                match skip_ws rest2 with
                | c2 :: r2 =>
                    if (c2 =? 125)%N then Ok (acc ++ [(key, v)], r2)
                    else if (c2 =? 44)%N then
                      match skip_ws r2 with
                      | c3 :: r3 =>
                          if (c3 =? QUOTE)%N
                          then object_members scan fuel' r3 (acc ++ [(key, v)])
                          else Raise JSONDecodeError
                      | [] => Raise JSONDecodeError
                      end
                    else Raise JSONDecodeError
                | [] => Raise JSONDecodeError
                end
              else Raise JSONDecodeError
          | [] => Raise JSONDecodeError
          end
      end
  end.

(** [scan_once]: one JSON value at the start of [s]. The scanner enters
    the interpreter's recursion guard at each opening brace or bracket
    ([Py_EnterRecursiveCall]) and leaves it at the end of the object or
    array: [depth] is the number of levels that may still be entered, and
    one more raises [RecursionError]. Strings, numbers and constants need
    no level. The budgets of the two loops are an upper bound of the
    number of elements, above the length of the text left, and are
    never used up ([JsonFacts.array_items_budget],
    [JsonFacts.object_members_budget]). *)
Fixpoint scan_once (depth : nat) (s : pystr) : result (json * pystr) :=
  match s with
  | [] => Raise JSONDecodeError
  | c :: r =>
      if (c =? QUOTE)%N then
        match scanstring r [] with
        | Some (str, rest) => Ok (JStr str, rest)
        | None => Raise JSONDecodeError
        end
      else if (c =? 123)%N then
        match depth with
        | O => Raise RecursionError
        | S depth' =>
            match skip_ws r with
            | c1 :: r1 =>
                if (c1 =? 125)%N then Ok (JObj [], r1)
                else if (c1 =? QUOTE)%N then
                  '(pairs, rest) ← object_members (scan_once depth') (S (length r1)) r1 [];
                  Ok (JObj (dict_of_pairs pairs), rest)
                else Raise JSONDecodeError
            | [] => Raise JSONDecodeError
            end
        end
      else if (c =? 91)%N then
        match depth with
        | O => Raise RecursionError
        | S depth' =>
            match skip_ws r with
            | c1 :: r1 =>
                if (c1 =? 93)%N then Ok (JArr [], r1)
                else
                  '(items, rest) ← array_items (scan_once depth') (S (S (length r1))) (c1 :: r1) [];
                  Ok (JArr items, rest)
            | [] => Raise JSONDecodeError
            end
        end
      else if startswith s (py "null") then Ok (JNull, drop 4 s)
      else if startswith s (py "true") then Ok (JBool true, drop 4 s)
      else if startswith s (py "false") then Ok (JBool false, drop 5 s)
      else
        match match_number s with
        | Some (Ok v, rest) => Ok (v, rest)
        | Some (Raise e, _) => Raise e
        | None =>
            if startswith s (py "NaN") then Ok (JFloat (py "NaN"), drop 3 s)
            else if startswith s (py "Infinity")
            then Ok (JFloat (py "Infinity"), drop 8 s)
            else if startswith s (py "-Infinity")
            then Ok (JFloat (py "-Infinity"), drop 9 s)
            else Raise JSONDecodeError
        end
  end.

(** [json.loads(s)] for a [str], called where the interpreter still
    allows [recursion_limit] nested calls of the scanner: a document
    nested deeper raises [RecursionError], which is not a [ValueError]. *)
Definition loads (recursion_limit : nat) (s : pystr) : result json :=
  if startswith s [65279%N] then Raise JSONDecodeError
  else
    '(v, rest) ← scan_once recursion_limit (skip_ws s);
    match skip_ws rest with
    | [] => Ok v
    | _ => Raise JSONDecodeError
    end.

End Json.

(* ================================================================== *)
(** * migrate_split.py: migration to the split core/detailed layout *)
(* ================================================================== *)

Module Migrate.
Import PyStr Json.

(** ** Paths and the file system *)

(** A [pathlib.Path]: the components of the directory, and the final
    component. *)
Record Path := mkPath { parent : list pystr; name : pystr }.

Global Instance Path_eq_dec : EqDecision Path.
Proof. solve_decision. Defined.

(** [path.with_name(n)]. *)
Definition with_name (path : Path) (n : pystr) : Path := mkPath (parent path) n.

(** Index of the last dot of a name, if any. *)
Fixpoint rfind_dot (s : pystr) : option nat :=
  match s with
  | [] => None
  | c :: r =>
      match rfind_dot r with
      | Some i => Some (S i)
      | None => if (c =? 46)%N then Some 0%nat else None
      end
  end.

(** [path.stem]: the name without its last suffix; a leading or a trailing
    dot starts no suffix. *)
Definition stem (path : Path) : pystr :=
  match rfind_dot (name path) with
  | Some i =>
      if (0 <? i)%nat && (i <? length (name path) - 1)%nat
      then take i (name path) else name path
  | None => name path
  end.

(** What happened to the files, in order: a text written to a path, a
    path deleted, and a temporary file of a write that failed left behind
    beside a path. *)
Inductive fs_event :=
| EvWrite (path : Path) (text : pystr)
| EvUnlink (path : Path)
| EvTempLeft (path : Path).

(** The files of a directory tree as a list of entries, each a path with
    the text it holds. A path is looked up at its first entry; writing
    replaces that entry, or adds one at the end; deleting removes the
    path's entries. *)
Definition dir := list (Path * pystr).

Fixpoint dir_lookup (path : Path) (d : dir) : option pystr :=
  match d with
  | [] => None
  | (q, text) :: d' => if decide (q = path) then Some text else dir_lookup path d'
  end.

Fixpoint dir_insert (path : Path) (text : pystr) (d : dir) : dir :=
  match d with
  | [] => [(path, text)]
  | (q, old) :: d' =>
      if decide (q = path) then (path, text) :: d'
      else (q, old) :: dir_insert path text d'
  end.

Fixpoint dir_delete (path : Path) (d : dir) : dir :=
  match d with
  | [] => []
  | (q, text) :: d' =>
      if decide (q = path) then dir_delete path d'
      else (q, text) :: dir_delete path d'
  end.

Global Instance dir_lookup_inst : Lookup Path pystr dir := dir_lookup.
Global Instance dir_insert_inst : Insert Path pystr dir := dir_insert.
Global Instance dir_delete_inst : Delete Path dir := dir_delete.

(** The record files as text, and the log of what happened to them so
    far. Temporary files, named [.<name>.<random>.tmp], are kept out of
    [files]: no function of the module looks at such a name. *)
Record fs := mk_fs {
  files : dir;
  events : list fs_event
}.

(** [path.exists()]. *)
Definition path_exists (st : fs) (path : Path) : bool :=
  match files st !! path with
  | Some _ => true
  | None => false
  end.

(** [path.read_text(encoding=encoding)]. *)
Definition read_text (st : fs) (path : Path) : result pystr :=
  match files st !! path with
  | Some text => Ok text
  | None => Raise FileNotFoundError
  end.

(** [text.encode("utf-8")] succeeds unless the text holds a surrogate
    code point, U+D800 to U+DFFF: [json.loads] builds one from an escape
    such as [\ud800] that stands alone, and [json.dumps] with
    [ensure_ascii=False] writes it out as it is. *)
Definition is_surrogate (c : N) : bool := inrange 55296 57343 c.

Definition encodable (text : pystr) : bool :=
  forallb (fun c => negb (is_surrogate c)) text.

(** A step that changes the file system gives its outcome and the file
    system it leaves, also when it raises. *)
Definition and_then {A B : Type} (step : result A * fs)
    (next : A -> fs -> result B * fs) : result B * fs :=
  match step with
  | (Ok a, st) => next a st
  | (Raise e, st) => (Raise e, st)
  end.

(** [atomic_write_text]: a fresh temporary file is created beside [path],
    the text is written to it, encoded as UTF-8, and the file is renamed
    onto [path]; afterwards [path] holds the text and the temporary name
    is gone. A text that cannot be encoded raises [UnicodeEncodeError] at
    [tf.write]: [path] is left as it was, and the temporary file stays
    behind, empty. *)
Definition atomic_write_text (path : Path) (text : pystr) (st : fs)
    : result unit * fs :=
  if encodable text then
    (Ok tt, {| files := <[path := text]> (files st);
               events := events st ++ [EvWrite path text] |})
  else
    (Raise UnicodeError, {| files := files st;
                            events := events st ++ [EvTempLeft path] |}).

(** [path.unlink()]. *)
Definition unlink (path : Path) (st : fs) : fs :=
  {| files := delete path (files st);
     events := events st ++ [EvUnlink path] |}.

(** [path1 <= path2]: paths compare as their lists of components. *)
Fixpoint parts_le (a b : list pystr) : bool :=
  match a, b with
  | [], _ => true
  | _ :: _, [] => false
  | x :: a', y :: b' => if decide (x = y) then parts_le a' b' else PyStr.le x y
  end.

Definition path_le (p q : Path) : Prop :=
  Is_true (parts_le (parent p ++ [name p]) (parent q ++ [name q])).

Global Instance path_le_dec p q : Decision (path_le p q).
Proof. unfold path_le. apply _. Defined.

(** [records_root.rglob("*.json")], in some order; the modelled files are
    those below the records root. *)
Definition rglob_json (st : fs) : list Path :=
  filter (fun path => Is_true (endswith (name path) (py ".json")))
         ((files st).*1).

(** ** The module's functions *)

(** [iter_record_files], over the paths the glob yields. *)
Definition iter_record_files (st : fs) (globbed : list Path) : list Path :=
  filter (fun path =>
    Is_true (
      negb (endswith (name path) (py ".detailed.json")
            || endswith (name path) (py ".compacted.json"))
      && negb (endswith (name path) (py ".json")
               && negb (endswith (name path) (py ".core.json"))
               && path_exists st (with_name path (stem path ++ py ".core.json")))))
    globbed.

Definition record_id_from_path (path : Path) : result pystr :=
  if endswith (name path) (py ".core.json")
  then Ok (drop_last (length (py ".core.json")) (name path))
  else if endswith (name path) (py ".json")
  then Ok (drop_last (length (py ".json")) (name path))
  else Raise ValueError.

Definition detailed_path_for_record_path (path : Path) : result Path :=
  record_id ← record_id_from_path path;
  Ok (with_name path (record_id ++ py ".detailed.jsonl")).

Definition legacy_detailed_path_for_record_path (path : Path) : result Path :=
  record_id ← record_id_from_path path;
  Ok (with_name path (record_id ++ py ".detailed.json")).

Definition core_path_for_record_path (path : Path) : result Path :=
  record_id ← record_id_from_path path;
  Ok (with_name path (record_id ++ py ".core.json")).

Definition legacy_compacted_path_for_record_path (path : Path) : result Path :=
  record_id ← record_id_from_path path;
  Ok (with_name path (record_id ++ py ".compacted.json")).

Definition as_str (v : json) : option pystr :=
  match v with JStr s => Some s | _ => None end.

(** [coerce_compacted]: a list of strings, or [None]. *)
Definition coerce_compacted (value : json) : option (list pystr) :=
  match value with
  | JArr items =>
      if forallb (fun item => bool_decide (is_Some (as_str item))) items
      then Some (omap as_str items) else None
  | _ => None
  end.

(** [value == "literal"] for a decoded value and a string literal. *)
Definition str_equals (value : json) (literal : pystr) : bool :=
  match value with
  | JStr s => bool_decide (s = literal)
  | _ => false
  end.

(** [isinstance(item, dict) and item.get("kind") == "response"]. *)
Definition is_response (item : json) : option (list (pystr * json)) :=
  match item with
  | JObj d => if str_equals (py_get d (py "kind")) (py "response") then Some d else None
  | _ => None
  end.

(** [extract_legacy_model_responses]. *)
Definition extract_legacy_model_responses (value : json)
    : list (list (pystr * json)) :=
  match value with
  | JArr items => omap is_response items
  | _ => []
  end.

(** The checks both extraction loops make on one candidate tool call, a
    [dict] with a non-empty string [tool_name] and [args] that is [None],
    a string or a [dict]; the result is [{"tool_name": ..., "args": ...}]. *)
Definition tool_call_of (d : list (pystr * json)) : option json :=
  match py_get d (py "tool_name") with
  | JStr tool_name =>
      match tool_name with
      | [] => None
      | _ =>
          let args := py_get d (py "args") in
          match args with
          | JNull | JStr _ | JObj _ =>
              Some (JObj [(py "tool_name", JStr tool_name); (py "args", args)])
          | _ => None
          end
      end
  | _ => None
  end.

(** [_extract_tool_calls_from_response_dict]. *)
Definition _extract_tool_calls_from_response_dict (resp : list (pystr * json))
    : list json :=
  match py_get resp (py "parts") with
  | JArr parts =>
      omap (fun part =>
              match part with
              | JObj d =>
                  if str_equals (py_get d (py "part_kind")) (py "tool-call")
                  then tool_call_of d else None
              | _ => None
              end) parts
  | _ => []
  end.

(** [_extract_tool_calls_from_legacy_detailed]. *)
Definition _extract_tool_calls_from_legacy_detailed (value : json) : list json :=
  concat (_extract_tool_calls_from_response_dict
            <$> extract_legacy_model_responses value).

Section Interpreter.

(** The number of nested objects and arrays [json.loads] may still enter
    where the module calls it, and [float.__repr__] on the literal of a
    decoded float. *)
Variable recursion_limit : nat.
Variable float_repr : pystr -> pystr.

(** [json.loads] under [try: ... except ValueError]: [None] when the
    decoder refused the text. A [RecursionError] is not caught. *)
Definition loads_or_none (text : pystr) : result (option json) :=
  try_except (v ← loads recursion_limit text; Ok (Some v)) is_ValueError (Ok None).

(** The loop over the lines after the second, in the prior schema. *)
Fixpoint response_lines_tool_calls (lines : list pystr) : result (list json) :=
  match lines with
  | [] => Ok []
  | line :: rest =>
      obj ← loads_or_none line;
      tail ← response_lines_tool_calls rest;
      match obj with
      | Some (JObj d) =>
          if str_equals (py_get d (py "kind")) (py "response")
          then Ok (_extract_tool_calls_from_response_dict d ++ tail)
          else Ok tail
      | _ => Ok tail
      end
  end.

(** [_parse_existing_detailed_jsonl]. *)
Definition _parse_existing_detailed_jsonl (text : pystr)
    : result (option pystr * option pystr * list json) :=
  let non_empty :=
    strip <$> filter (fun ln => strip ln <> []) (splitlines text) in
  match non_empty with
  | first :: second :: more =>
      decoded_input ← loads_or_none first;
      match decoded_input with
      | None => Ok (None, None, [])
      | Some decoded_input =>
          decoded_output ← loads_or_none second;
          match decoded_output with
          | None => Ok (None, None, [])
          | Some decoded_output =>
              match decoded_input, decoded_output with
              | JStr decoded_input, JStr decoded_output =>
                  match more with
                  | [] => Ok (Some decoded_input, Some decoded_output, [])
                  | third_line :: _ =>
                      third ← loads_or_none third_line;
                      match third with
                      | Some (JArr items) =>
                          Ok (Some decoded_input, Some decoded_output,
                              omap (fun item =>
                                      match item with
                                      | JObj d => tool_call_of d
                                      | _ => None
                                      end) items)
                      | _ =>
                          tool_calls ← response_lines_tool_calls more;
                          Ok (Some decoded_input, Some decoded_output, tool_calls)
                      end
                  end
              | _, _ => Ok (None, None, [])
              end
          end
      end
  | _ => Ok (None, None, [])
  end.

(** [record.get(key)] for the [input] and [output] fields: absent or
    [None], a string, or a [ValueError]. *)
Definition optional_str_field (record : list (pystr * json)) (key : pystr)
    : result (option pystr) :=
  match py_get record key with
  | JNull => Ok None
  | JStr s => Ok (Some s)
  | _ => Raise ValueError
  end.

(** The text to parse for detail lines: the legacy [.detailed.json] if
    there is one, else the [.detailed.jsonl], else nothing. *)
Definition read_existing_detailed (st : fs)
    (legacy_detailed_path detailed_path : Path) : result pystr :=
  if path_exists st legacy_detailed_path
  then read_text st legacy_detailed_path
  else if path_exists st detailed_path
  then read_text st detailed_path
  else Ok [].

(** Whether a generated text differs from what is on disk: the file is
    missing, or it reads differently. *)
Definition text_differs (st : fs) (path : Path) (text : pystr) : result bool :=
  if path_exists st path then
    on_disk ← read_text st path;
    Ok (bool_decide (on_disk <> text))
  else Ok true.

(** What [migrate_record_file] has computed when it reaches its
    [if dry_run or not changed] test: the four paths, the generated texts
    and the [changed] flag. *)
Record plan := mk_plan {
  core_path : Path;
  detailed_path : Path;
  legacy_detailed_path : Path;
  legacy_compacted_path : Path;
  core_text : pystr;
  detailed_text : pystr;
  changed : bool
}.

(** [migrate_record_file] up to that test: it only reads. *)
Definition plan_migration (path : Path) (st : fs) : result plan :=
  raw ← read_text st path;
  record ← loads recursion_limit raw;
  match record with
  | JObj record =>
      core_path ← core_path_for_record_path path;
      detailed_path ← detailed_path_for_record_path path;
      legacy_detailed_path ← legacy_detailed_path_for_record_path path;
      legacy_compacted_path ← legacy_compacted_path_for_record_path path;
      input_value ← optional_str_field record (py "input");
      output_value ← optional_str_field record (py "output");
      compacted ←
        match coerce_compacted (py_get record (py "compacted")) with
        | Some c => Ok (Some c)
        | None =>
            if path_exists st legacy_compacted_path then
              text ← read_text st legacy_compacted_path;
              sidecar ← loads recursion_limit text;
              Ok (coerce_compacted sidecar)
            else Ok None
        end;
      let compacted := default [] compacted in
      let core_payload :=
        dict_set
          (filter (fun kv => kv.1 ∉ [py "input"; py "output"; py "detailed"]) record)
          (py "compacted") (JArr (JStr <$> compacted)) in
      let core_text := dumps_compact float_repr (JObj core_payload) ++ [LF] in
      existing_detailed_text ←
        read_existing_detailed st legacy_detailed_path detailed_path;
      detail_lines ←
        match input_value, output_value with
        | Some input_value, Some output_value =>
            let tool_calls :=
              _extract_tool_calls_from_legacy_detailed (py_get record (py "detailed")) in
            Ok [dumps_default float_repr (JStr input_value);
                dumps_default float_repr (JStr output_value);
                dumps_compact float_repr (JArr tool_calls)]
        | _, _ =>
            match existing_detailed_text with
            | [] => Ok []
            | _ =>
                '(parsed_input, parsed_output, parsed_tool_calls) ←
                  _parse_existing_detailed_jsonl existing_detailed_text;
                match parsed_input, parsed_output with
                | Some parsed_input, Some parsed_output =>
                    Ok [dumps_default float_repr (JStr parsed_input);
                        dumps_default float_repr (JStr parsed_output);
                        dumps_compact float_repr (JArr parsed_tool_calls)]
                | _, _ => Ok []
                end
            end
        end;
      let detailed_text :=
        match detail_lines with
        | [] => []
        | _ => join [LF] detail_lines ++ [LF]
        end in
      changed ← text_differs st core_path core_text;
      changed ←
        match detailed_text with
        | [] => Ok changed
        | _ =>
            differs ← text_differs st detailed_path detailed_text;
            Ok (changed || differs)
        end;
      Ok {| core_path := core_path; detailed_path := detailed_path;
            legacy_detailed_path := legacy_detailed_path;
            legacy_compacted_path := legacy_compacted_path;
            core_text := core_text; detailed_text := detailed_text;
            changed := changed |}
  | _ => Raise ValueError
  end.

(** The writes of [migrate_record_file], after the test: the core file,
    then the detailed file, then the deletions. A write that raises ends
    them, with what was written before left in place. *)
Definition apply_plan (p : plan) (delete_legacy_compacted : bool) (st : fs)
    : result unit * fs :=
  and_then (atomic_write_text (core_path p) (core_text p) st) (fun _ st =>
  and_then
    match detailed_text p with
    | [] => (Ok tt, st)
    | _ =>
        and_then (atomic_write_text (detailed_path p) (detailed_text p) st) (fun _ st =>
        (Ok tt, if path_exists st (legacy_detailed_path p)
                then unlink (legacy_detailed_path p) st else st))
    end (fun _ st =>
  (Ok tt, if delete_legacy_compacted && path_exists st (legacy_compacted_path p)
          then unlink (legacy_compacted_path p) st else st))).

(** [migrate_record_file]: the returned flag or the exception raised, and
    the file system it leaves. The [force] argument is accepted and not
    read. *)
Definition migrate_record_file (path : Path)
    (delete_legacy_compacted force dry_run : bool) (st : fs) : result bool * fs :=
  match plan_migration path st with
  | Raise e => (Raise e, st)
  | Ok p =>
      if dry_run || negb (changed p) then (Ok (changed p), st)
      else and_then (apply_plan p delete_legacy_compacted st) (fun _ st =>
           (Ok true, st))
  end.

(** The loop of [main] over the record files: the counts of changed,
    skipped and failed files and the file system left. Every exception of
    a file is caught and counted, and the loop goes on. *)
Fixpoint main_loop (paths : list Path)
    (delete_legacy_compacted force dry_run : bool) (st : fs)
    (changed skipped errors : nat) : nat * nat * nat * fs :=
  match paths with
  | [] => (changed, skipped, errors, st)
  | path :: rest =>
      match migrate_record_file path delete_legacy_compacted force dry_run st with
      | (Raise _, st') =>
          main_loop rest delete_legacy_compacted force dry_run st'
            changed skipped (S errors)
      | (Ok did_change, st') =>
          if did_change
          then main_loop rest delete_legacy_compacted force dry_run st'
                 (S changed) skipped errors
          else main_loop rest delete_legacy_compacted force dry_run st'
                 changed (S skipped) errors
      end
  end.

(** [main], from the parsed arguments on: the exit status, the three
    counts of the summary line, and the file system left. *)
Definition main (delete_legacy_compacted force dry_run : bool) (st : fs)
    : Z * (nat * nat * nat) * fs :=
  let '(changed, skipped, errors, st') :=
    main_loop (merge_sort path_le (iter_record_files st (rglob_json st)))
      delete_legacy_compacted force dry_run st 0 0 0 in
  (match errors with O => 0 | _ => 1 end, (changed, skipped, errors), st').

End Interpreter.

End Migrate.

(* ================================================================== *)
(** * Sample records and directories *)
(* ================================================================== *)

Module Samples.
Import PyStr Json Migrate.

(** U+2028 LINE SEPARATOR. *)
Definition LINE_SEPARATOR : N := 8232%N.

Definition records_dir : list pystr :=
  [py "2026"; py "01"; py "01"; py "00"].

Definition file (n : string) : Path := mkPath records_dir (py n).

(** The interpreter's default recursion limit. *)
Definition sample_limit : nat := 1000.

(** Sample texts hold no float, so any float printer serves to write them. *)
Definition text_of (v : json) : pystr := dumps_default (fun literal => literal) v.

(** A legacy record with [input] and [output], and a compacted sidecar. *)
Definition legacy_hi : json :=
  JObj [(py "id_", JStr (py "X")); (py "parents", JArr []);
        (py "input", JStr (py "hi")); (py "output", JStr (py "ok"))].

Definition legacy_dir : fs :=
  {| files := [(file "X.json", text_of legacy_hi);
                (file "X.compacted.json", text_of (JArr [JStr (py "summary")]))];
     events := [] |}.

(** The same record in the split layout. *)
Definition core_hi : pystr :=
  dumps_compact (fun literal => literal)
    (JObj [(py "id_", JStr (py "X")); (py "parents", JArr []);
           (py "compacted", JArr [JStr (py "summary")])]) ++ [LF].

Definition detailed_hi : pystr :=
  join [LF] [text_of (JStr (py "hi")); text_of (JStr (py "ok")); text_of (JArr [])]
  ++ [LF].

Definition migrated_dir : fs :=
  {| files := [(file "X.core.json", core_hi);
                (file "X.detailed.jsonl", detailed_hi)];
     events := [] |}.

(** [legacy_dir] after a migration of [X.json] that also deletes the
    sidecar. *)
Definition legacy_dir_after : fs :=
  {| files := [(file "X.json", text_of legacy_hi);
                (file "X.core.json", core_hi);
                (file "X.detailed.jsonl", detailed_hi)];
     events := [EvWrite (file "X.core.json") core_hi;
                EvWrite (file "X.detailed.jsonl") detailed_hi;
                EvUnlink (file "X.compacted.json")] |}.

Definition quoted (s : string) : pystr := [QUOTE] ++ py s ++ [QUOTE].

(** A legacy file with the fields [id_], [note], [input] and [output],
    whose [note] is written as the escape of the surrogate U+D800, with no
    partner; the text itself is plain ASCII. *)
Definition legacy_surrogate_text : pystr :=
  py "{" ++ quoted "id_" ++ py ": " ++ quoted "X" ++ py ", "
  ++ quoted "note" ++ py ": " ++ [QUOTE; BACKSLASH] ++ py "ud800" ++ [QUOTE] ++ py ", "
  ++ quoted "input" ++ py ": " ++ quoted "hi" ++ py ", "
  ++ quoted "output" ++ py ": " ++ quoted "ok" ++ py "}".

(** What [json.loads] makes of it. *)
Definition legacy_surrogate : json :=
  JObj [(py "id_", JStr (py "X")); (py "note", JStr [55296%N]);
        (py "input", JStr (py "hi")); (py "output", JStr (py "ok"))].

Definition surrogate_dir : fs :=
  {| files := [(file "X.json", legacy_surrogate_text);
                (file "X.compacted.json", text_of (JArr [JStr (py "summary")]))];
     events := [] |}.

(** The same, with the surrogate in the [output] and no sidecar. *)
Definition output_surrogate_text : pystr :=
  py "{" ++ quoted "input" ++ py ": " ++ quoted "hi" ++ py ", "
  ++ quoted "output" ++ py ": " ++ [QUOTE; BACKSLASH] ++ py "ud800" ++ [QUOTE] ++ py "}".

Definition output_surrogate_dir : fs :=
  {| files := [(file "X.json", output_surrogate_text)]; events := [] |}.

(** A legacy record whose input holds a line separator. *)
Definition legacy_input_ls : json :=
  JObj [(py "id_", JStr (py "X"));
        (py "input", JStr (py "a" ++ [LINE_SEPARATOR] ++ py "b"));
        (py "output", JStr (py "ok"))].

(** A legacy record with one traced tool call whose argument holds a line
    separator. *)
Definition tool_call_ls : json :=
  JObj [(py "tool_name", JStr (py "bash"));
        (py "args", JStr (py "echo a" ++ [LINE_SEPARATOR] ++ py "b"))].

Definition legacy_tool_ls : json :=
  JObj [(py "id_", JStr (py "X"));
        (py "input", JStr (py "hi")); (py "output", JStr (py "ok"));
        (py "detailed",
         JArr [JObj [(py "kind", JStr (py "response"));
                     (py "parts",
                      JArr [JObj [(py "part_kind", JStr (py "tool-call"));
                                  (py "tool_name", JStr (py "bash"));
                                  (py "args",
                                   JStr (py "echo a" ++ [LINE_SEPARATOR] ++ py "b"))]])]])].

Definition dir_of (legacy : json) : fs :=
  {| files := [(file "X.json", text_of legacy)]; events := [] |}.

(** A directory holding the legacy file beside the two split files. *)
Definition split_dir (legacy : json) (core detailed : pystr)
    (log : list fs_event) : fs :=
  {| files := [(file "X.json", text_of legacy);
                (file "X.core.json", core);
                (file "X.detailed.jsonl", detailed)];
     events := log |}.

Definition core_X : pystr :=
  dumps_compact (fun literal => literal)
    (JObj [(py "id_", JStr (py "X")); (py "compacted", JArr [])]) ++ [LF].

Definition detailed_lines (input output : pystr) (tool_calls : list json) : pystr :=
  join [LF] [text_of (JStr input); text_of (JStr output);
             dumps_compact (fun literal => literal) (JArr tool_calls)] ++ [LF].

(** A stored record with the given id and links. *)
Definition sample_record (id : pystr) (ps cs : list pystr) : Store.MemoryRecord :=
  Store.mk_record (Ident.datetime_of_epoch_us 0) id ps cs (py "i", py "o") [py "c"].

End Samples.

(* ================================================================== *)
(** * Shapes of decoded documents *)
(* ================================================================== *)

Module Shapes.
Import PyStr Json.

(** A simplified tool call as the migration writes it:
    [{"tool_name": <non-empty string>, "args": <null, string or object>}]. *)
Definition is_tool_call (v : json) : bool :=
  match v with
  | JObj [(k1, JStr tool_name); (k2, args)] =>
      bool_decide (k1 = py "tool_name") && bool_decide (k2 = py "args")
      && negb (bool_decide (tool_name = []))
      && match args with
         | JNull | JStr _ | JObj _ => true
         | _ => false
         end
  | _ => false
  end.

(** The document holds no float. *)
Fixpoint float_free (v : json) : bool :=
  match v with
  | JFloat _ => false
  | JArr items => forallb float_free items
  | JObj members => forallb (fun kv => float_free kv.2) members
  | _ => true
  end.

(** The decimal form of the integer has at most 4300 digits, the most
    that [int(text)] reads back. *)
Definition int_ok (z : Z) : bool :=
  (length (int_repr (Z.abs z)) <=? max_str_digits)%nat.

(** A document as the decoder builds them: the keys of every object are
    distinct, and the integers are within the limit of the decoder. *)
Fixpoint well_formed (v : json) : bool :=
  match v with
  | JInt z => int_ok z
  | JArr items => forallb well_formed items
  | JObj members =>
      bool_decide (NoDup members.*1) && forallb (fun kv => well_formed kv.2) members
  | _ => true
  end.

(** The number of objects and arrays, one inside the other, that the
    decoder enters to read the document. *)
Fixpoint nesting (v : json) : nat :=
  match v with
  | JArr items => S (foldr (fun item depth => Nat.max (nesting item) depth) 0%nat items)
  | JObj members =>
      S (foldr (fun kv depth => Nat.max (nesting kv.2) depth) 0%nat members)
  | _ => 0%nat
  end.

(** No string and no key of the document holds a surrogate code point. *)
Fixpoint surrogate_free (v : json) : bool :=
  match v with
  | JStr s => Migrate.encodable s
  | JArr items => forallb surrogate_free items
  | JObj members =>
      forallb (fun kv => Migrate.encodable kv.1 && surrogate_free kv.2) members
  | _ => true
  end.

(** The three characters that [str.splitlines] takes for a line boundary
    and that [json.dumps(..., ensure_ascii=False)] writes unescaped:
    U+0085, U+2028 and U+2029. *)
Definition is_raw_linebreak (c : N) : bool :=
  (c =? 133)%N || (c =? 8232)%N || (c =? 8233)%N.

Definition line_safe_str (s : pystr) : bool :=
  forallb (fun c => negb (is_raw_linebreak c)) s.

(** None of these characters occurs in a string or a key of the document. *)
Fixpoint line_safe (v : json) : bool :=
  match v with
  | JStr s => line_safe_str s
  | JArr items => forallb line_safe items
  | JObj members => forallb (fun kv => line_safe_str kv.1 && line_safe kv.2) members
  | _ => true
  end.

(** The text holds none of the line boundaries of [str.splitlines]. *)
Definition one_line (s : pystr) : bool :=
  forallb (fun c => negb (is_linebreak c)) s.

(** What may follow a number in a text for the number to end there. *)
Definition number_boundary (rest : pystr) : bool :=
  match rest with
  | [] => true
  | c :: _ => negb (is_digit c || (c =? 46)%N || (c =? 101)%N || (c =? 69)%N)
  end.

(** The digits of a decimal number, as text. *)
Definition digits (d : Decimal.uint) : pystr := py (NilEmpty.string_of_uint d).

(** One step of reading a decimal number, digit by digit. *)
Definition digit_step (acc : Z) (c : N) : Z := acc * 10 + Z.of_N (c - 48).


(** What [json.dumps] writes first: the start of a number, of a string, of
    a list, of an object, or of [null], [true], [false]. *)
Definition value_start (c : N) : bool :=
  is_digit c || bool_decide (c ∈ [45; 34; 91; 123; 110; 116; 102]%N).

(** The encoding of one member of an object. *)
Definition member_text (float_repr : pystr -> pystr)
    (item_separator key_separator : pystr) (kv : pystr * json) : pystr :=
  encode_basestring kv.1 ++ key_separator
  ++ dumps float_repr item_separator key_separator kv.2.


(** A scanner reads the value back when, given the encoded value followed
    by any text at which a number would end, it returns the value and
    that text. *)
Definition reads_back (float_repr : pystr -> pystr)
    (item_separator key_separator : pystr)
    (scan : pystr -> result (json * pystr)) (v : json) : Prop :=
  forall rest, number_boundary rest = true ->
    scan (dumps float_repr item_separator key_separator v ++ rest) = Ok (v, rest).

End Shapes.

(* ================================================================== *)
(** * The steps of [migrate_record_file] *)
(* ================================================================== *)

(** The function body of [migrate_record_file] cut into its steps, for
    stating what each step contributes. [MigrateProps.plan_migration_steps]
    shows that [Migrate.plan_migration] is their composition. *)
Module MigrateSteps.
Import PyStr Json Migrate.

Section Interpreter.

Variable recursion_limit : nat.
Variable float_repr : pystr -> pystr.

(** Lines 232 to 237: [compacted] from the record, or else from the
    sidecar if there is one. *)
Definition find_compacted (st : fs) (record : list (pystr * json))
    (legacy_compacted_path : Path) : result (option (list pystr)) :=
  match coerce_compacted (py_get record (py "compacted")) with
  | Some c => Ok (Some c)
  | None =>
      if path_exists st legacy_compacted_path then
        text ← read_text st legacy_compacted_path;
        sidecar ← loads recursion_limit text;
        Ok (coerce_compacted sidecar)
      else Ok None
  end.

(** Lines 239 to 242: the object written to the core file. *)
Definition core_payload (record : list (pystr * json))
    (compacted : option (list pystr)) : list (pystr * json) :=
  dict_set
    (filter (fun kv => kv.1 ∉ [py "input"; py "output"; py "detailed"]) record)
    (py "compacted") (JArr (JStr <$> default [] compacted)).

Definition core_text_of (record : list (pystr * json))
    (compacted : option (list pystr)) : pystr :=
  dumps_compact float_repr (JObj (core_payload record compacted)) ++ [LF].

(** The three lines of the detailed file. *)
Definition three_lines (input output : pystr) (tool_calls : list json)
    : list pystr :=
  [dumps_default float_repr (JStr input);
   dumps_default float_repr (JStr output);
   dumps_compact float_repr (JArr tool_calls)].

(** Lines 254 to 273: the detail lines, from the record's own [input] and
    [output], or else parsed back from the existing detailed text. *)
Definition detail_lines (record : list (pystr * json))
    (input_value output_value : option pystr) (existing_detailed_text : pystr)
    : result (list pystr) :=
  match input_value, output_value with
  | Some input_value, Some output_value =>
      Ok (three_lines input_value output_value
            (_extract_tool_calls_from_legacy_detailed (py_get record (py "detailed"))))
  | _, _ =>
      match existing_detailed_text with
      | [] => Ok []
      | _ =>
          '(parsed_input, parsed_output, parsed_tool_calls) ←
            _parse_existing_detailed_jsonl recursion_limit existing_detailed_text;
          match parsed_input, parsed_output with
          | Some parsed_input, Some parsed_output =>
              Ok (three_lines parsed_input parsed_output parsed_tool_calls)
          | _, _ => Ok []
          end
      end
  end.

End Interpreter.

(** Line 274. *)
Definition detailed_text_of (lines : list pystr) : pystr :=
  match lines with
  | [] => []
  | _ => join [LF] lines ++ [LF]
  end.

(** Lines 276 to 288: whether a generated text differs from its file. *)
Definition plan_changed (st : fs) (core_path : Path) (core_text : pystr)
    (detailed_path : Path) (detailed_text : pystr) : result bool :=
  changed ← text_differs st core_path core_text;
  match detailed_text with
  | [] => Ok changed
  | _ =>
      differs ← text_differs st detailed_path detailed_text;
      Ok (changed || differs)
  end.

(** The id consists of dots alone, or is empty. For such an id the
    [path.stem] of [<id>.json] need not be the id. *)
Definition dots_only (X : pystr) : bool := forallb (fun c => (c =? 46)%N) X.

(** The four files named after a record id, beside [path]. *)
Definition siblings (path : Path) (X : pystr) : list Path :=
  [with_name path (X ++ py ".core.json");
   with_name path (X ++ py ".detailed.jsonl");
   with_name path (X ++ py ".detailed.json");
   with_name path (X ++ py ".compacted.json")].

(** The files that a run over [path] looks at: the record file, and the
    four files named after its id. *)
Definition footprint (path : Path) : list Path :=
  path :: match record_id_from_path path with
          | Ok X => siblings path X
          | Raise _ => []
          end.

(** The value of a field that [migrate_record_file] accepts for [input]
    and [output]: [None] (also for an absent key) or a string. *)
Definition str_or_none (v : json) : Prop := v = JNull \/ exists s, v = JStr s.

(** The sidecar is in the way of a record only when the record has no
    list of strings under [compacted] and the sidecar exists and does not
    decode. *)
Definition sidecar_ok (recursion_limit : nat) (st : fs)
    (record : list (pystr * json)) (sidecar : Path) : Prop :=
  is_Some (coerce_compacted (py_get record (py "compacted")))
  \/ match files st !! sidecar with
     | None => True
     | Some text => exists v, loads recursion_limit text = Ok v
     end.

(** The detailed text is in the way of a record only when the record
    lacks an [input] or an [output] string, so that the text is parsed,
    and the decoder raises [RecursionError] on one of its lines. *)
Definition detailed_ok (recursion_limit : nat) (st : fs)
    (record : list (pystr * json)) (legacy_detailed detailed : Path) : Prop :=
  (exists input output,
     py_get record (py "input") = JStr input
     /\ py_get record (py "output") = JStr output)
  \/ exists existing parsed,
       read_existing_detailed st legacy_detailed detailed = Ok existing
       /\ _parse_existing_detailed_jsonl recursion_limit existing = Ok parsed.

(** The file system after a write that succeeds. *)
Definition write (path : Path) (text : pystr) (st : fs) : fs :=
  {| files := <[path := text]> (files st);
     events := events st ++ [EvWrite path text] |}.

(** The file system after a write that fails. *)
Definition temp_left (path : Path) (st : fs) : fs :=
  {| files := files st; events := events st ++ [EvTempLeft path] |}.

(** The file system after the writes and deletions of a plan, when both
    writes succeed. *)
Definition written (p : plan) (delete_legacy_compacted : bool) (st : fs) : fs :=
  let st := write (core_path p) (core_text p) st in
  let st :=
    match detailed_text p with
    | [] => st
    | _ =>
        let st := write (detailed_path p) (detailed_text p) st in
        if path_exists st (legacy_detailed_path p)
        then unlink (legacy_detailed_path p) st else st
    end in
  if delete_legacy_compacted && path_exists st (legacy_compacted_path p)
  then unlink (legacy_compacted_path p) st else st.

(** Both texts of a plan can be written. *)
Definition writable (p : plan) : bool :=
  encodable (core_text p) && encodable (detailed_text p).

(** A run over [path] that is no dry run gets as far as writing, and one
    of its writes fails. *)
Definition write_fails (recursion_limit : nat) (float_repr : pystr -> pystr)
    (path : Path) (st : fs) : bool :=
  match plan_migration recursion_limit float_repr path st with
  | Ok p => changed p && negb (writable p)
  | Raise _ => false
  end.

(** The call returned the flag [b]. *)
Definition returned (b : bool) (outcome : result bool) : bool :=
  match outcome with
  | Ok b' => Bool.eqb b b'
  | Raise _ => false
  end.

(** The call raised. *)
Definition raised (outcome : result bool) : bool :=
  match outcome with
  | Ok _ => false
  | Raise _ => true
  end.

(** How many elements of a list pass a test. *)
Fixpoint count {A : Type} (test : A -> bool) (l : list A) : nat :=
  match l with
  | [] => 0
  | x :: l => (if test x then 1 else 0) + count test l
  end.

End MigrateSteps.

(* ================================================================== *)
(** * neighborhood.py: bounded traversal of the record graph *)
(* ================================================================== *)

Module Neighborhood.
Import PyStr.

(** What the traversal reads from a loaded record: the ids under
    ["parents"] and under ["children"] ([rec.get(edge, []) or []]). *)
Record record := mk_rec {
  parents : list pystr;
  children : list pystr
}.

(** The index sends an id to its record file; a file is seen through the
    record decoded from it. An id without entry, or whose file cannot be
    read, has no record. *)
Definition load_record (index : gmap pystr record) (mid : pystr) : option record :=
  index !! mid.

(** The inner [for nxt in ...] loop of [related], for one edge list. *)
Fixpoint visit (nbrs : list pystr) (d max_depth : Z)
    (depths : gmap pystr Z) (q : list pystr) : gmap pystr Z * list pystr :=
  match nbrs with
  | [] => (depths, q)
  | nxt :: rest =>
      let nd := d + 1 in
      if match depths !! nxt with Some dn => dn <=? nd | None => false end
      then visit rest d max_depth depths q
      else if max_depth <? nd then visit rest d max_depth depths q
      else visit rest d max_depth (<[nxt := nd]> depths) (q ++ [nxt])
  end.

(** The [while q] loop of [related]. [None] is an exhausted iteration
    budget; [depths[cur]] on a missing key is a [KeyError]. *)
Fixpoint related_loop (fuel : nat) (index : gmap pystr record) (max_depth : Z)
    (depths : gmap pystr Z) (q : list pystr) : option (result (gmap pystr Z)) :=
  match q with
  | [] => Some (Ok depths)
  | cur :: q' =>
      match fuel with
      | O => None
      | S fuel' =>
          match depths !! cur with
          | None => Some (Raise KeyError)
          | Some d =>
              if d =? max_depth then related_loop fuel' index max_depth depths q'
              else
                match load_record index cur with
                | None => related_loop fuel' index max_depth depths q'
                | Some rec =>
                    let '(depths1, q1) := visit (parents rec) d max_depth depths q' in
                    let '(depths2, q2) := visit (children rec) d max_depth depths1 q1 in
                    related_loop fuel' index max_depth depths2 q2
                end
          end
      end
  end.

(** Every id the traversal can meet: the start and the ids listed in the
    indexed records. *)
Definition universe (index : gmap pystr record) (start : pystr) : list pystr :=
  remove_dups
    (start :: concat ((fun kr => parents kr.2 ++ children kr.2) <$> map_to_list index)).

(** Iterations that always suffice: each one dequeues an id, and an id is
    enqueued only when its depth is set or lowered. *)
Definition related_fuel (index : gmap pystr record) (start : pystr)
    (max_depth : Z) : nat :=
  S (S (length (universe index start) * Z.to_nat (max_depth + 1))).

(** [related(index, start, max_depth)]. *)
Definition related (index : gmap pystr record) (start : pystr) (max_depth : Z)
    : option (result (gmap pystr Z)) :=
  related_loop (related_fuel index start max_depth) index max_depth
    {[ start := 0 ]} [start].

Definition str_le (a b : pystr) : Prop := Is_true (PyStr.le a b).

Global Instance str_le_dec a b : Decision (str_le a b).
Proof. unfold str_le. apply _. Defined.

(** [sorted(depths.keys())]. *)
Definition sorted_keys (depths : gmap pystr Z) : list pystr :=
  merge_sort str_le (elements (dom depths)).

(** The ids whose records [main] prints, in print order: the sorted keys,
    skipping those for which [load_record] finds nothing. *)
Definition printed_ids (index : gmap pystr record) (depths : gmap pystr Z)
    : list pystr :=
  filter (fun mid => is_Some (load_record index mid)) (sorted_keys depths).

(** [main], from the built index on, for the command-line arguments
    [id] and [--levels]. *)
Definition main (index : gmap pystr record) (id : pystr) (levels : Z)
    : option (result (list pystr)) :=
  (fun r => depths ← r; Ok (printed_ids index depths)) <$> related index id levels.

(** ** Reachability, for stating what the traversal computes *)

(** One hop: [y] is listed as a parent or a child in [x]'s record. *)
Definition hop (index : gmap pystr record) (x y : pystr) : Prop :=
  exists rec, load_record index x = Some rec /\ y ∈ parents rec ++ children rec.

(** [walk index start n v]: [v] is reached from [start] by [n] hops. *)
Inductive walk (index : gmap pystr record) (start : pystr) : nat -> pystr -> Prop :=
| walk_start : walk index start 0 start
| walk_hop n x y : walk index start n x -> hop index x y -> walk index start (S n) y.


(** ** The loop invariant and the termination measure *)

Section Invariant.

Context (index : gmap pystr record) (start : pystr) (D : Z).

(** Recorded depths are walk lengths within the bound; queued ids have a
    depth; and an id that is not waiting in the queue has all its
    neighbours recorded at most one level further. *)
Record Inv (depths : gmap pystr Z) (q : list pystr) : Prop := {
  inv_start : depths !! start = Some 0;
  inv_sound : forall v k, depths !! v = Some k ->
    0 <= k <= D /\ walk index start (Z.to_nat k) v;
  inv_queue : forall v, v ∈ q -> is_Some (depths !! v);
  inv_closed : forall v k rec y,
    depths !! v = Some k -> v ∉ q -> k < D ->
    load_record index v = Some rec -> y ∈ parents rec ++ children rec ->
    exists k', depths !! y = Some k' /\ k' <= k + 1
}.

(** A potential that every enqueue raises: the levels still below each
    recorded depth, summed over the universe. *)
Definition phi (o : option Z) : nat :=
  match o with None => 0%nat | Some k => Z.to_nat (D + 1 - k) end.

Definition Phi (U : list pystr) (depths : gmap pystr Z) : nat :=
  sum_list_with (fun v => phi (depths !! v)) U.

Definition bounded (depths : gmap pystr Z) : Prop :=
  forall v k, depths !! v = Some k -> 0 <= k <= D.

End Invariant.

Arguments inv_start {index start D depths q} _.
Arguments inv_sound {index start D depths q} _ _ _ _.
Arguments inv_queue {index start D depths q} _ _ _.
Arguments inv_closed {index start D depths q} _ _ _ _ _ _ _ _ _ _.

(** The chain A -> B -> C -> D, each record naming its neighbours. *)
Definition chain : gmap pystr record :=
  {[ py "A" := mk_rec [] [py "B"];
     py "B" := mk_rec [py "A"] [py "C"];
     py "C" := mk_rec [py "B"] [py "D"];
     py "D" := mk_rec [py "C"] [] ]}.

End Neighborhood.

(* ================================================================== *)
(** * Properties of the identifier scheme *)
(* ================================================================== *)

Module IdentFacts.
Import PyStr Ident.

(** ** Exhaustive checks over small ranges *)

Lemma below_spec n P x :
  below n P = true -> (x < N.of_nat n)%N -> P x = true.
Proof.
  unfold below. rewrite forallb_forall. intros H Hx.
  apply H. apply list_elem_of_In, list_elem_of_fmap.
  exists (N.to_nat x). split; [lia|].
  apply elem_of_seq. lia.
Qed.

Lemma below2_spec n m P x y :
  below2 n m P = true -> (x < N.of_nat n)%N -> (y < N.of_nat m)%N -> P x y = true.
Proof.
  intros H Hx Hy. eapply (below_spec m); [|done].
  by apply (below_spec n (fun x => below m (P x))).
Qed.

Lemma b64_char_roundtrip i :
  (i < 64)%N ->
  let c := urlsafe_translate (b64_char i) in
  b64_value (urlsafe_untranslate c) = Some i /\ is_b64url_char c = true
  /\ (urlsafe_untranslate c =? PAD)%N = false /\ (c <? 128)%N = true.
Proof.
  intros Hi.
  pose proof (below_spec 64 (fun i =>
    let c := urlsafe_translate (b64_char i) in
    bool_decide (b64_value (urlsafe_untranslate c) = Some i) && is_b64url_char c
    && negb (urlsafe_untranslate c =? PAD)%N && (c <? 128)%N) i) as H.
  cbv zeta in H. specialize (H ltac:(vm_compute; reflexivity) Hi).
  repeat (apply andb_prop in H as [H ?]).
  apply bool_decide_eq_true in H. apply negb_true_iff in H1. done.
Qed.


Lemma sextets_hi a b :
  (a < 256)%N -> (b < 256)%N ->
  let s0 := N.shiftr a 2 in
  let s1 := N.lor (N.shiftl (N.land a 3) 4) (N.shiftr b 4) in
  (s0 < 64)%N /\ (s1 < 64)%N
  /\ N.land (N.lor (N.shiftl s0 2) (N.shiftr s1 4)) 255 = a
  /\ N.land s1 15 = N.shiftr b 4.
Proof.
  intros Ha Hb.
  pose proof (below2_spec 256 256 (fun a b =>
    let s0 := N.shiftr a 2 in
    let s1 := N.lor (N.shiftl (N.land a 3) 4) (N.shiftr b 4) in
    (s0 <? 64)%N && (s1 <? 64)%N
    && (N.land (N.lor (N.shiftl s0 2) (N.shiftr s1 4)) 255 =? a)%N
    && (N.land s1 15 =? N.shiftr b 4)%N) a b) as H.
  cbv zeta in H. specialize (H ltac:(vm_compute; reflexivity) Ha Hb).
  repeat (apply andb_prop in H as [H ?]).
  cbv zeta. rewrite ?N.ltb_lt, ?N.eqb_eq in *. done.
Qed.

Lemma sextets_lo b c :
  (b < 256)%N -> (c < 256)%N ->
  let s2 := N.lor (N.shiftl (N.land b 15) 2) (N.shiftr c 6) in
  let s3 := N.land c 63 in
  (s2 < 64)%N /\ (s3 < 64)%N
  /\ N.land (N.lor (N.shiftl (N.shiftr b 4) 4) (N.shiftr s2 2)) 255 = b
  /\ N.land (N.lor (N.shiftl (N.land s2 3) 6) s3) 255 = c.
Proof.
  intros Hb Hc.
  pose proof (below2_spec 256 256 (fun b c =>
    let s2 := N.lor (N.shiftl (N.land b 15) 2) (N.shiftr c 6) in
    let s3 := N.land c 63 in
    (s2 <? 64)%N && (s3 <? 64)%N
    && (N.land (N.lor (N.shiftl (N.shiftr b 4) 4) (N.shiftr s2 2)) 255 =? b)%N
    && (N.land (N.lor (N.shiftl (N.land s2 3) 6) s3) 255 =? c)%N) b c) as H.
  cbv zeta in H. specialize (H ltac:(vm_compute; reflexivity) Hb Hc).
  repeat (apply andb_prop in H as [H ?]).
  cbv zeta. rewrite ?N.ltb_lt, ?N.eqb_eq in *. done.
Qed.

(** One data character advances the decoder's quad. *)
Lemma a2b_base64_data i r quad_pos leftchar pads out :
  (i < 64)%N ->
  a2b_base64 (urlsafe_untranslate (urlsafe_translate (b64_char i)) :: r)
    quad_pos leftchar pads out =
  match quad_pos with
  | 0%nat => a2b_base64 r 1 i 0 out
  | 1%nat =>
      a2b_base64 r 2 (N.land i 15) 0
        (out ++ [N.land (N.lor (N.shiftl leftchar 2) (N.shiftr i 4)) 255])
  | 2%nat =>
      a2b_base64 r 3 (N.land i 3) 0
        (out ++ [N.land (N.lor (N.shiftl leftchar 4) (N.shiftr i 2)) 255])
  | _ =>
      a2b_base64 r 0 0 0 (out ++ [N.land (N.lor (N.shiftl leftchar 6) i) 255])
  end.
Proof.
  intros Hi. destruct (b64_char_roundtrip i Hi) as (Hv & _ & Hp & _).
  cbn [a2b_base64]. cbv zeta in Hv, Hp. by rewrite Hp, Hv.
Qed.

(** Decoding undoes the encoding of every complete 3-byte group. *)
Lemma a2b_base64_encoded bs out :
  Forall (fun b => (b < 256)%N) bs ->
  (length bs mod 3 = 0)%nat ->
  a2b_base64 (urlsafe_untranslate <$> urlsafe_b64encode bs) 0 0 0 out
  = Ok (out ++ bs).
Proof.
  unfold urlsafe_b64encode.
  revert out. induction bs as [bs IH] using (induction_ltof1 _ (@length N)).
  unfold ltof in IH. intros out Hall Hlen.
  destruct bs as [|a [|b [|c r]]]; try (cbn in Hlen; discriminate).
  { cbn. by rewrite app_nil_r. }
  apply Forall_cons in Hall as [Ha Hall].
  apply Forall_cons in Hall as [Hb Hall].
  apply Forall_cons in Hall as [Hc Hall].
  destruct (sextets_hi a b Ha Hb) as (H0 & H1 & E0 & E1).
  destruct (sextets_lo b c Hb Hc) as (H2 & H3 & E2 & E3).
  cbv zeta in *.
  cbn [b64encode fmap list_fmap app].
  rewrite !a2b_base64_data by done.
  rewrite E0, E1, E2, E3.
  rewrite IH; [ | cbn; lia | done | ].
  - by rewrite <- !app_assoc.
  - cbn [length] in Hlen.
    replace (S (S (S (length r)))) with (length r + 1 * 3)%nat in Hlen by lia.
    by rewrite Nat.Div0.mod_add in Hlen.
Qed.


Lemma from_bytes_cons b bs :
  from_bytes (b :: bs) = Z.of_N b * 256 ^ Z.of_nat (length bs) + from_bytes bs.
Proof.
  unfold from_bytes. cbn [fold_left].
  assert (G : forall l acc,
    fold_left (fun acc b => acc * 256 + Z.of_N b) l acc
    = acc * 256 ^ Z.of_nat (length l)
      + fold_left (fun acc b => acc * 256 + Z.of_N b) l 0).
  { induction l as [|x l IH]; intros acc; cbn [fold_left length].
    - change (Z.of_nat 0) with 0. lia.
    - rewrite IH, (IH (0 * 256 + Z.of_N x)).
      rewrite Nat2Z.inj_succ, Z.pow_succ_r by lia. lia. }
  rewrite G. lia.
Qed.

Lemma length_be_bytes len n : length (be_bytes len n) = len.
Proof. induction len; cbn; congruence. Qed.

Lemma be_bytes_lt len n : Forall (fun b => (b < 256)%N) (be_bytes len n).
Proof.
  induction len as [|k IH]; cbn [be_bytes]; constructor; [|done].
  change 255 with (Z.ones 8). rewrite Z.land_ones by lia.
  pose proof (Z.mod_pos_bound (Z.shiftr n (8 * Z.of_nat k)) (2 ^ 8) ltac:(lia)).
  change (2 ^ 8) with 256 in *. lia.
Qed.

(** The big-endian bytes of [n] denote [n] again, up to the width. *)
Lemma from_bytes_be_bytes len n :
  0 <= n -> from_bytes (be_bytes len n) = n mod 256 ^ Z.of_nat len.
Proof.
  intros Hn. induction len as [|k IH].
  - cbn. by rewrite Z.mod_1_r.
  - cbn [be_bytes]. rewrite from_bytes_cons, length_be_bytes, IH.
    change 255 with (Z.ones 8). rewrite Z.land_ones by lia.
    rewrite Z.shiftr_div_pow2 by lia.
    rewrite Z2N.id by (apply Z.mod_pos_bound; lia).
    rewrite Nat2Z.inj_succ, Z.pow_succ_r by lia.
    replace (2 ^ (8 * Z.of_nat k)) with (256 ^ Z.of_nat k)
      by (change 256 with (2 ^ 8); rewrite <- Z.pow_mul_r; lia).
    change (2 ^ 8) with 256.
    rewrite (Z.mul_comm 256), Z.rem_mul_r by lia. lia.
Qed.

Lemma encode_6_bytes a b c d e f :
  (a < 256)%N -> (b < 256)%N -> (c < 256)%N ->
  (d < 256)%N -> (e < 256)%N -> (f < 256)%N ->
  let id := urlsafe_b64encode [a; b; c; d; e; f] in
  length id = 8%nat /\ forallb is_b64url_char id = true.
Proof.
  intros Ha Hb Hc Hd He Hf.
  destruct (sextets_hi a b Ha Hb) as (H0 & H1 & _).
  destruct (sextets_lo b c Hb Hc) as (H2 & H3 & _).
  destruct (sextets_hi d e Hd He) as (H4 & H5 & _).
  destruct (sextets_lo e f He Hf) as (H6 & H7 & _).
  cbv zeta in *. split; [done|].
  unfold urlsafe_b64encode.
  cbn [b64encode fmap list_fmap app forallb].
  repeat match goal with
  | |- context [is_b64url_char (urlsafe_translate (b64_char ?i))] =>
      rewrite (proj1 (proj2 (b64_char_roundtrip i ltac:(done))))
  end.
  done.
Qed.

Lemma Z_shiftl_1_48 : Z.shiftl 1 48 = 2 ^ 48.
Proof. reflexivity. Qed.

(** What the function returns once the millisecond count is known. *)
Lemma memory_record_id_from_created_at_millis created_at millis :
  created_at_millis created_at = Ok millis ->
  memory_record_id_from_created_at created_at =
  if (millis <? 0) || (2 ^ 48 <=? millis) then Raise ValueError
  else Ok (urlsafe_b64encode (be_bytes 6 millis)).
Proof.
  intros Hm. unfold memory_record_id_from_created_at.
  rewrite Hm. cbn [mbind result_bind]. rewrite Z_shiftl_1_48.
  destruct (millis <? 0) eqn:E1; [done|].
  destruct (2 ^ 48 <=? millis) eqn:E2; [done|].
  cbn [orb]. unfold to_bytes. rewrite E1.
  change (2 ^ (8 * Z.of_nat 6)) with (2 ^ 48). by rewrite E2.
Qed.

(** ** C2 *)

(** C2. Id derivation round-trips: when the millisecond count [m] of
    [created_at] satisfies [0 <= m < 2^48], the derived id has 8 characters,
    all of the base64url alphabet (hence no padding), it decodes to the 6
    big-endian bytes of [m], and these bytes denote [m]; for [m = 0] the id
    is [AAAAAAAA] and its decoded bytes are all zero. *)
Theorem C2_derive_id_roundtrip created_at m :
  created_at_millis created_at = Ok m ->
  0 <= m < 2 ^ 48 ->
  exists id,
    memory_record_id_from_created_at created_at = Ok id
    /\ length id = 8%nat
    /\ forallb is_b64url_char id = true
    /\ B64URL_8_fullmatch id = true
    /\ urlsafe_b64decode id = Ok (be_bytes 6 m)
    /\ from_bytes (be_bytes 6 m) = m
    /\ (m = 0 -> id = py "AAAAAAAA" /\ be_bytes 6 m = [0; 0; 0; 0; 0; 0]%N).
Proof.
  intros Hm [Hlo Hhi].
  rewrite (memory_record_id_from_created_at_millis _ _ Hm).
  destruct (Z.ltb_spec m 0) as [?|_]; [lia|].
  destruct (Z.leb_spec (2 ^ 48) m) as [?|_]; [lia|].
  cbn [orb]. eexists; split; [reflexivity|].
  pose proof (be_bytes_lt 6 m) as Hlt.
  pose proof (length_be_bytes 6 m) as Hlen.
  assert (Henc : length (urlsafe_b64encode (be_bytes 6 m)) = 8%nat
                 /\ forallb is_b64url_char (urlsafe_b64encode (be_bytes 6 m)) = true).
  { cbn [be_bytes] in *.
    repeat match goal with H : Forall _ (_ :: _) |- _ =>
      apply Forall_cons in H as [? H] end.
    by apply encode_6_bytes. }
  destruct Henc as [Hl Hall].
  split; [done|]. split; [done|].
  split; [unfold B64URL_8_fullmatch; by rewrite Hl, Hall|].
  split.
  - unfold urlsafe_b64decode.
    assert (Hascii : forallb (fun c => (c <? 128)%N) (urlsafe_b64encode (be_bytes 6 m)) = true).
    { apply forallb_forall. intros c Hc.
      rewrite forallb_forall in Hall. specialize (Hall c Hc).
      unfold is_b64url_char, inrange in Hall.
      rewrite !orb_true_iff, !andb_true_iff, !N.leb_le, !N.eqb_eq in Hall.
      apply N.ltb_lt. lia. }
    rewrite Hascii.
    rewrite a2b_base64_encoded; [done|done|by rewrite Hlen].
  - split.
    + rewrite from_bytes_be_bytes by lia.
      change (256 ^ Z.of_nat 6) with (2 ^ 48). apply Z.mod_small. lia.
    + intros ->. split; reflexivity.
Qed.

Lemma C2_derive_id_roundtrip_witness :
  exists id,
    memory_record_id_from_created_at (datetime_of_epoch_us 1772000000123456) = Ok id
    /\ length id = 8%nat
    /\ forallb is_b64url_char id = true
    /\ B64URL_8_fullmatch id = true
    /\ urlsafe_b64decode id = Ok (be_bytes 6 1772000000123)
    /\ from_bytes (be_bytes 6 1772000000123) = 1772000000123
    /\ (1772000000123 = 0 ->
        id = py "AAAAAAAA" /\ be_bytes 6 1772000000123 = [0; 0; 0; 0; 0; 0]%N).
Proof.
  apply (C2_derive_id_roundtrip (datetime_of_epoch_us 1772000000123456) 1772000000123).
  - vm_compute. reflexivity.
  - lia.
Defined.


Example epoch_id :
  memory_record_id_from_created_at (datetime_of_epoch_us 0) = Ok (py "AAAAAAAA").
Proof. reflexivity. Qed.

(** ** C7 *)

(** [int()] and [floor] agree except on negative non-integers, where
    [int()] is one above. *)
Lemma int_of_float_vs_floor x i f :
  int_of_float x = Ok i -> floor_of_float x = Ok f ->
  i = f \/ (i = f + 1 /\ f < 0).
Proof.
  destruct x as [s|s| |s m e]; cbn; try congruence.
  { intros [= <-] [= <-]. by left. }
  destruct e as [|p|p]; intros [= <-] [= <-]; destruct s; try (left; lia).
  assert (0 < 2 ^ Z.pos p) by (apply Z.pow_pos_nonneg; lia).
  pose proof (Z.div_mod (Z.pos m) (2 ^ Z.pos p) ltac:(lia)).
  pose proof (Z.mod_pos_bound (Z.pos m) (2 ^ Z.pos p) ltac:(lia)).
  pose proof (Z.div_mod (- Z.pos m) (2 ^ Z.pos p) ltac:(lia)).
  pose proof (Z.mod_pos_bound (- Z.pos m) (2 ^ Z.pos p) ltac:(lia)).
  pose proof (Z.div_pos (Z.pos m) (2 ^ Z.pos p) ltac:(lia) ltac:(lia)).
  nia.
Qed.

(** C7, as the code has it. The millisecond count is
    [int(created_at.timestamp() * 1000)], the float product truncated toward
    zero (not floored). Whenever that count [m] exists, the function raises
    [ValueError] exactly when [m < 0] or [m >= 2^48], and returns an id
    otherwise. *)
Theorem C7_range_error_on_truncated_millis created_at m :
  created_at_millis created_at = Ok m ->
  (raises (memory_record_id_from_created_at created_at) ValueError
     <-> m < 0 \/ 2 ^ 48 <= m)
  /\ (0 <= m < 2 ^ 48 ->
      memory_record_id_from_created_at created_at
      = Ok (urlsafe_b64encode (be_bytes 6 m))).
Proof.
  intros Hm. unfold raises.
  rewrite (memory_record_id_from_created_at_millis _ _ Hm).
  destruct (Z.ltb_spec m 0), (Z.leb_spec (2 ^ 48) m); cbn [orb];
    (split; [split; [intros; try discriminate; lia | intros; try reflexivity; lia]
            | intros; try reflexivity; lia]).
Qed.

Lemma C7_range_error_on_truncated_millis_witness :
  (raises (memory_record_id_from_created_at (datetime_of_epoch_us (-1000))) ValueError
     <-> -1 < 0 \/ 2 ^ 48 <= -1)
  /\ (0 <= -1 < 2 ^ 48 ->
      memory_record_id_from_created_at (datetime_of_epoch_us (-1000))
      = Ok (urlsafe_b64encode (be_bytes 6 (-1)))).
Proof.
  apply (C7_range_error_on_truncated_millis (datetime_of_epoch_us (-1000)) (-1)).
  vm_compute. reflexivity.
Defined.

(** C7 as stated fails half a millisecond before the epoch
    (1969-12-31T23:59:59.999500Z): the timestamp is -0.0005, the product
    with 1000 is -0.5, whose floor -1 is below zero, yet the function
    truncates to 0 and returns [AAAAAAAA] instead of raising. *)
Lemma C7_floor_counterexample :
  let created_at := datetime_of_epoch_us (-500) in
  float_mul (timestamp created_at) (float_of_int 1000)
    = S754_finite true 4503599627370496 (-53)
  /\ floor_of_float (float_mul (timestamp created_at) (float_of_int 1000)) = Ok (-1)
  /\ created_at_millis created_at = Ok 0
  /\ memory_record_id_from_created_at created_at = Ok (py "AAAAAAAA").
Proof. cbv zeta. repeat split; vm_compute; reflexivity. Qed.


(** ** C5 and C9 *)

Lemma a2b_base64_raises s quad_pos leftchar pads out e :
  a2b_base64 s quad_pos leftchar pads out = Raise e -> e = BinasciiError.
Proof.
  revert quad_pos leftchar pads out.
  induction s as [|ch r IH]; intros quad_pos leftchar pads out; cbn [a2b_base64].
  - destruct quad_pos; congruence.
  - destruct (ch =? PAD)%N.
    + destruct ((2 <=? quad_pos)%nat && (4 <=? quad_pos + S pads)%nat);
        [congruence | apply IH].
    + destruct (b64_value ch); [|apply IH].
      destruct quad_pos as [|[|[|?]]]; apply IH.
Qed.

Lemma urlsafe_b64decode_raises s e :
  urlsafe_b64decode s = Raise e -> is_ValueError e = true.
Proof.
  unfold urlsafe_b64decode. destruct (forallb _ s).
  - intros ->%a2b_base64_raises. done.
  - intros [= <-]. done.
Qed.

Lemma b64url_char_decodes c :
  is_b64url_char c = true ->
  (c <? 128)%N = true
  /\ (urlsafe_untranslate c =? PAD)%N = false
  /\ exists v, b64_value (urlsafe_untranslate c) = Some v.
Proof.
  intros Hc.
  assert (Hlt : (c < 128)%N).
  { unfold is_b64url_char, inrange in Hc.
    rewrite !orb_true_iff, !andb_true_iff, !N.leb_le, !N.eqb_eq in Hc. lia. }
  pose proof (below_spec 128 (fun c =>
    implb (is_b64url_char c)
      ((c <? 128)%N && negb (urlsafe_untranslate c =? PAD)%N
       && match b64_value (urlsafe_untranslate c) with
          | Some _ => true
          | None => false
          end)) c
    ltac:(vm_compute; reflexivity) Hlt) as H.
  cbv beta in H. rewrite Hc in H. cbn [implb] in H.
  apply andb_prop in H as [[H1 H2]%andb_prop H3].
  apply negb_true_iff in H2.
  destruct (b64_value (urlsafe_untranslate c)) as [v|]; [eauto | discriminate].
Qed.

(** Eight alphabet characters always decode, to six bytes. *)
Lemma fullmatch_decodes value :
  B64URL_8_fullmatch value = true ->
  exists bs, urlsafe_b64decode value = Ok bs /\ length bs = 6%nat.
Proof.
  unfold B64URL_8_fullmatch. intros [Hlen Hall]%andb_prop.
  apply Nat.eqb_eq in Hlen.
  do 9 (destruct value as [|? value]; try discriminate Hlen).
  cbn [forallb] in Hall.
  repeat (apply andb_prop in Hall as [?%b64url_char_decodes Hall]).
  repeat match goal with
  | H : _ /\ _ |- _ => destruct H
  | H : exists _, _ |- _ => destruct H
  end.
  unfold urlsafe_b64decode. cbn [forallb].
  repeat match goal with H : (_ <? 128)%N = true |- _ => rewrite H; clear H end.
  cbn [andb fmap list_fmap a2b_base64].
  repeat match goal with
  | H : (urlsafe_untranslate _ =? PAD)%N = false |- _ => rewrite H; clear H
  | H : b64_value _ = Some _ |- _ => rewrite H; clear H
  end.
  eexists; split; reflexivity.
Qed.

Section WithUUID.

Variable UUID : pystr -> result unit.

(** The library's parser signals every malformed string by [ValueError]. *)
Hypothesis UUID_raises : forall s e, UUID s = Raise e -> is_ValueError e = true.

Lemma is_memory_record_id_eq value :
  is_memory_record_id UUID value =
  Ok (match UUID value with
      | Ok _ => true
      | Raise _ => B64URL_8_fullmatch value
      end).
Proof using UUID_raises.
  unfold is_memory_record_id, try_except.
  destruct (UUID value) as [[]|e] eqn:EU; cbn [mbind result_bind]; [done|].
  rewrite (UUID_raises _ _ EU).
  destruct (B64URL_8_fullmatch value) eqn:EM; cbn [negb]; [|done].
  destruct (fullmatch_decodes _ EM) as (bs & -> & Hbs).
  cbn [mbind result_bind]. by rewrite Hbs.
Qed.

(** C5. [is_memory_record_id s] is true exactly when [s] parses as a UUID,
    or [s] matches the 8-character base64url pattern and decodes to 6 raw
    bytes; every other string is rejected with false. *)
Theorem C5_is_memory_record_id_iff s :
  let accepted :=
    UUID s = Ok tt
    \/ (B64URL_8_fullmatch s = true
        /\ exists bs, urlsafe_b64decode s = Ok bs /\ length bs = 6%nat) in
  (is_memory_record_id UUID s = Ok true <-> accepted)
  /\ (~ accepted -> is_memory_record_id UUID s = Ok false).
Proof using UUID_raises.
  cbv zeta. rewrite is_memory_record_id_eq.
  destruct (UUID s) as [[]|e] eqn:EU.
  - split; [split; auto | intros []; auto].
  - destruct (B64URL_8_fullmatch s) eqn:EM.
    + split; [split; [intros _; right; split; [done|] | done] | intros []; right;
              split; [done|]]; by apply fullmatch_decodes.
    + split; [split; [done|] | done].
      intros [? | [? _]]; congruence.
Qed.

(** C9. [is_memory_record_id] is total: on every string it returns a
    boolean; the exceptions of UUID parsing and of base64 decoding are
    caught inside. *)
Theorem C9_is_memory_record_id_total s :
  exists b, is_memory_record_id UUID s = Ok b.
Proof using UUID_raises.
  unfold is_memory_record_id, try_except.
  destruct (UUID s) as [[]|e] eqn:EU; cbn [mbind result_bind]; [by eexists|].
  rewrite (UUID_raises _ _ EU).
  destruct (negb (B64URL_8_fullmatch s)); [by eexists|].
  destruct (urlsafe_b64decode s) as [bs|e'] eqn:ED; cbn [mbind result_bind];
    [by eexists|].
  rewrite (urlsafe_b64decode_raises _ _ ED). by eexists.
Qed.

End WithUUID.

Lemma UUID_canonical_raises s e :
  UUID_canonical s = Raise e -> is_ValueError e = true.
Proof. unfold UUID_canonical. case_match; intros [= <-]. done. Qed.

Lemma C5_is_memory_record_id_iff_witness :
  let s := py "00000000-0000-0000-0000-000000000000" in
  let accepted :=
    UUID_canonical s = Ok tt
    \/ (B64URL_8_fullmatch s = true
        /\ exists bs, urlsafe_b64decode s = Ok bs /\ length bs = 6%nat) in
  (is_memory_record_id UUID_canonical s = Ok true <-> accepted)
  /\ (~ accepted -> is_memory_record_id UUID_canonical s = Ok false).
Proof.
  exact (C5_is_memory_record_id_iff UUID_canonical UUID_canonical_raises
           (py "00000000-0000-0000-0000-000000000000")).
Defined.

Lemma C9_is_memory_record_id_total_witness :
  exists b, is_memory_record_id UUID_canonical (py "not-a-uuid") = Ok b.
Proof.
  exact (C9_is_memory_record_id_total UUID_canonical UUID_canonical_raises
           (py "not-a-uuid")).
Defined.

Example legacy_uuid_accepted :
  is_memory_record_id UUID_canonical (py "00000000-0000-0000-0000-000000000000")
  = Ok true.
Proof. reflexivity. Qed.

Example not_a_uuid_rejected :
  is_memory_record_id UUID_canonical (py "not-a-uuid") = Ok false.
Proof. reflexivity. Qed.

Example canonical_id_accepted :
  is_memory_record_id UUID_canonical (py "AZyTbjh7") = Ok true.
Proof. reflexivity. Qed.

End IdentFacts.

(* ================================================================== *)
(** * Properties of the store contract *)
(* ================================================================== *)

Module StoreFacts.
Import PyStr Ident Store Samples.

Lemma id_add_child c r : id_ (add_child c r) = id_ r.
Proof. unfold add_child. by case_bool_decide. Qed.

Lemma find_fmap_id (f : MemoryRecord -> MemoryRecord) id l :
  (forall r, id_ (f r) = id_ r) ->
  find (fun r => bool_decide (id_ r = id)) (f <$> l)
  = f <$> find (fun r => bool_decide (id_ r = id)) l.
Proof.
  intros Hf. induction l as [|r l IH]; [done|].
  cbn [fmap list_fmap find]. rewrite Hf.
  case_bool_decide; [done|]. apply IH.
Qed.

Lemma find_app_Some {A} (P : A -> bool) l1 l2 x :
  find P l1 = Some x -> find P (l1 ++ l2) = Some x.
Proof.
  induction l1 as [|y l1 IH]; [done|]. cbn. destruct (P y); [done|apply IH].
Qed.

Lemma find_app_None {A} (P : A -> bool) l1 l2 :
  find P l1 = None -> find P (l1 ++ l2) = find P l2.
Proof.
  induction l1 as [|y l1 IH]; [done|]. cbn. destruct (P y); [done|apply IH].
Qed.

Lemma children_add_child c r :
  children (add_child c r)
  = if bool_decide (c ∈ children r) then children r else children r ++ [c].
Proof. unfold add_child. by case_bool_decide. Qed.

(** After a successful append of [r] with [parents = [P]], the stored [P]
    is the former one with the back-link added, and [r] is stored. *)
Lemma append_stores_link st r P p st' :
  get_by_id st P = Some p ->
  parents r = [P] ->
  append st r = Ok st' ->
  get_by_id st' P = Some (add_child (id_ r) p)
  /\ get_by_id st' (id_ r) = Some r.
Proof.
  intros HP Hpar Happ. unfold append in Happ.
  destruct (contains st (id_ r)) eqn:Hdup; [discriminate|].
  destruct (strict_parents st && _); [discriminate|].
  injection Happ as <-.
  apply bool_decide_eq_false in Hdup.
  assert (Hnone : get_by_id st (id_ r) = None).
  { destruct (get_by_id st (id_ r)) eqn:E; [|done]. destruct Hdup. eauto. }
  assert (HidP : id_ p = P).
  { unfold get_by_id in HP. apply find_some in HP as [_ HP].
    by apply bool_decide_eq_true in HP. }
  set (upd := fun q => if bool_decide (id_ q ∈ parents r)
                       then add_child (id_ r) q else q).
  assert (Hupd : forall q, id_ (upd q) = id_ q).
  { intros q. unfold upd. case_bool_decide; [apply id_add_child|done]. }
  unfold get_by_id in *. cbn [records]. split.
  - apply find_app_Some. rewrite find_fmap_id by done.
    rewrite HP. cbn. f_equal.
    unfold upd. rewrite Hpar, HidP.
    rewrite bool_decide_eq_true_2; [done|]. by apply list_elem_of_singleton.
  - rewrite find_app_None.
    + cbn. by rewrite bool_decide_eq_true_2.
    + rewrite find_fmap_id by done. by rewrite Hnone.
Qed.

Lemma get_children_stored st P p :
  get_by_id st P = Some p -> get_children st P false = Ok (children p).
Proof. unfold get_children. by intros ->. Qed.

(** C3. In a store holding [P], appending a record [r] with
    [parents = [P]] leaves [get_children(P)] equal to [P]'s former children
    with [r]'s id added at the end unless it was already listed: the id is
    included, the former children keep their order, and a duplicate-free
    list stays duplicate-free. The returned store is the persisted state:
    it holds [r] and the back-link when [append] returns. A repeated
    append of [r] is refused, and appending a further record with the
    same parent again adds just that record's id at the end. *)
Theorem C3_append_links_parent st r P p st' :
  get_by_id st P = Some p ->
  parents r = [P] ->
  append st r = Ok st' ->
  let cs := if bool_decide (id_ r ∈ children p)
            then children p else children p ++ [id_ r] in
  get_children st' P false = Ok cs
  /\ id_ r ∈ cs
  /\ children p `prefix_of` cs
  /\ (NoDup (children p) -> NoDup cs)
  /\ get_by_id st' (id_ r) = Some r
  /\ append st' r = Raise DuplicateIdError
  /\ (forall r2 st2,
        parents r2 = [P] -> append st' r2 = Ok st2 ->
        get_children st2 P false
        = Ok (if bool_decide (id_ r2 ∈ cs) then cs else cs ++ [id_ r2])).
Proof.
  intros HP Hpar Happ. cbv zeta.
  destruct (append_stores_link _ _ _ _ _ HP Hpar Happ) as [HP' Hr'].
  rewrite <- children_add_child.
  split; [by apply get_children_stored|].
  rewrite children_add_child.
  split.
  { case_bool_decide; [done|]. apply elem_of_app. right.
    by apply list_elem_of_singleton. }
  split; [case_bool_decide; [done|]; by apply prefix_app_r|].
  split.
  { intros Hnd. case_bool_decide; [done|].
    apply NoDup_app. split; [done|]. split; [|apply NoDup_singleton].
    intros x Hx ->%list_elem_of_singleton. done. }
  split; [done|].
  split.
  { unfold append, contains. rewrite bool_decide_eq_true_2; [done|].
    rewrite Hr'. eauto. }
  intros r2 st2 Hpar2 Happ2.
  destruct (append_stores_link _ _ _ _ _ HP' Hpar2 Happ2) as [HP2 _].
  rewrite (get_children_stored _ _ _ HP2), children_add_child.
  by rewrite children_add_child.
Qed.

Lemma C3_append_links_parent_witness :
  let p := sample_record (py "AAAAAAAA") [] [py "AAAAAAAB"] in
  let r := sample_record (py "AAAAAAAC") [py "AAAAAAAA"] [] in
  let st := mk_store [p; sample_record (py "AAAAAAAB") [py "AAAAAAAA"] []] false in
  let st' := mk_store [sample_record (py "AAAAAAAA") [] [py "AAAAAAAB"; py "AAAAAAAC"];
                       sample_record (py "AAAAAAAB") [py "AAAAAAAA"] []; r] false in
  let cs := if bool_decide (id_ r ∈ children p)
            then children p else children p ++ [id_ r] in
  get_children st' (py "AAAAAAAA") false = Ok cs
  /\ id_ r ∈ cs
  /\ children p `prefix_of` cs
  /\ (NoDup (children p) -> NoDup cs)
  /\ get_by_id st' (id_ r) = Some r
  /\ append st' r = Raise DuplicateIdError
  /\ (forall r2 st2,
        parents r2 = [py "AAAAAAAA"] -> append st' r2 = Ok st2 ->
        get_children st2 (py "AAAAAAAA") false
        = Ok (if bool_decide (id_ r2 ∈ cs) then cs else cs ++ [id_ r2])).
Proof.
  cbv zeta.
  apply (C3_append_links_parent
           (mk_store [sample_record (py "AAAAAAAA") [] [py "AAAAAAAB"];
                      sample_record (py "AAAAAAAB") [py "AAAAAAAA"] []] false)
           (sample_record (py "AAAAAAAC") [py "AAAAAAAA"] [])
           (py "AAAAAAAA")).
  - reflexivity.
  - reflexivity.
  - vm_compute. reflexivity.
Defined.

End StoreFacts.

(* ================================================================== *)
(** * Properties of the neighbourhood traversal *)
(* ================================================================== *)

Module NeighborhoodFacts.
Import PyStr Neighborhood.

Section Traversal.

Context (index : gmap pystr record) (start : pystr) (D : Z).

(** ** The inner loop *)

Lemma visit_app (a b : list pystr) (d : Z) (depths : gmap pystr Z) (q : list pystr) :
  visit (a ++ b) d D depths q =
  let '(depths1, q1) := visit a d D depths q in visit b d D depths1 q1.
Proof.
  revert depths q. induction a as [|nxt a IH]; intros depths q; [done|].
  cbn [visit app].
  destruct (match depths !! nxt with Some dn => dn <=? d + 1 | None => false end);
    [apply IH|].
  destruct (D <? d + 1); apply IH.
Qed.

(** What one pass over an edge list does: it only appends to the queue;
    a depth either stays, or is set to [d + 1] for an enqueued id that had
    none or a larger one; afterwards every listed id has depth at most
    [d + 1] when that is within the bound. *)
Lemma visit_spec (nbrs : list pystr) (d : Z) (depths : gmap pystr Z)
    (q : list pystr) (depths' : gmap pystr Z) (q' : list pystr) :
  visit nbrs d D depths q = (depths', q') ->
  exists extra,
    q' = q ++ extra
    /\ (forall v, depths' !! v = depths !! v
          \/ (v ∈ extra /\ depths' !! v = Some (d + 1) /\ d + 1 <= D
              /\ forall k, depths !! v = Some k -> d + 1 < k))
    /\ (forall v, v ∈ extra -> v ∈ nbrs /\ depths' !! v = Some (d + 1))
    /\ (d < D -> forall y, y ∈ nbrs ->
          exists k', depths' !! y = Some k' /\ k' <= d + 1).
Proof.
  revert depths q. induction nbrs as [|nxt rest IH]; intros depths q Hv.
  { cbn in Hv. injection Hv as <- <-. exists []. rewrite app_nil_r.
    split; [done|]. split; [by left|].
    split; [intros v Hin; by apply elem_of_nil in Hin|].
    intros _ y Hin. by apply elem_of_nil in Hin. }
  cbn [visit] in Hv.
  destruct (match depths !! nxt with Some dn => dn <=? d + 1 | None => false end)
    eqn:Hseen.
  { destruct (IH _ _ Hv) as (extra & Hq & Hb & Hc & Hd).
    exists extra. split; [done|]. split; [done|]. split.
    - intros v Hin. destruct (Hc v Hin). split; [by apply elem_of_cons; right|done].
    - intros Hlt y [->|Hin]%elem_of_cons; [|by apply Hd].
      destruct (depths !! nxt) as [dn|] eqn:E; [|discriminate].
      apply Z.leb_le in Hseen.
      destruct (Hb nxt) as [Hsame|(_ & Hnew & _)].
      + exists dn. by rewrite Hsame, E.
      + exists (d + 1). split; [done|lia]. }
  destruct (D <? d + 1) eqn:Hfar.
  { apply Z.ltb_lt in Hfar.
    destruct (IH _ _ Hv) as (extra & Hq & Hb & Hc & Hd).
    exists extra. split; [done|]. split; [done|]. split.
    - intros v Hin. destruct (Hc v Hin). split; [by apply elem_of_cons; right|done].
    - intros Hlt. lia. }
  apply Z.ltb_ge in Hfar.
  assert (Hold : forall k, depths !! nxt = Some k -> d + 1 < k).
  { intros k E. rewrite E in Hseen. apply Z.leb_gt in Hseen. lia. }
  destruct (IH _ _ Hv) as (extra & Hq & Hb & Hc & Hd).
  assert (Hnxt : depths' !! nxt = Some (d + 1)).
  { destruct (Hb nxt) as [Hsame|(_ & Hnew & _)]; [|done].
    by rewrite Hsame, lookup_insert_eq. }
  exists (nxt :: extra). split; [by rewrite Hq, <- app_assoc|].
  split; [|split].
  - intros v. destruct (decide (v = nxt)) as [->|Hne].
    + right. split; [by apply elem_of_cons; left|]. done.
    + destruct (Hb v) as [Hsame|(Hin & Hnew & Hle & Hk)].
      * left. by rewrite Hsame, lookup_insert_ne.
      * right. split; [by apply elem_of_cons; right|].
        split; [done|]. split; [done|].
        intros k E. apply Hk. by rewrite lookup_insert_ne.
  - intros v [->|Hin]%elem_of_cons.
    + split; [by apply elem_of_cons; left|done].
    + destruct (Hc v Hin). split; [by apply elem_of_cons; right|done].
  - intros Hlt y [->|Hin]%elem_of_cons; [|by apply Hd].
    exists (d + 1). split; [done|lia].
Qed.

(** ** Termination: a potential that every enqueue raises *)

Lemma Phi_insert_notin (U : list pystr) (depths : gmap pystr Z) (x : pystr) (k : Z) :
  x ∉ U -> Phi D U (<[x := k]> depths) = Phi D U depths.
Proof.
  unfold Phi. induction U as [|u U IH]; intros Hx; [done|].
  apply not_elem_of_cons in Hx as [Hne Hx]. cbn [sum_list_with].
  rewrite lookup_insert_ne by done. by rewrite IH.
Qed.

Lemma Phi_insert (U : list pystr) (depths : gmap pystr Z) (x : pystr) (k : Z) :
  NoDup U -> x ∈ U ->
  (Phi D U (<[x := k]> depths) + phi D (depths !! x) = Phi D U depths + phi D (Some k))%nat.
Proof.
  induction 1 as [|u U Hu Hnd IH]; intros Hx; [by apply elem_of_nil in Hx|].
  unfold Phi in *. cbn [sum_list_with].
  apply elem_of_cons in Hx as [->|Hx].
  - rewrite lookup_insert_eq. fold (Phi D U (<[u:=k]> depths)).
    rewrite Phi_insert_notin by done. unfold Phi. lia.
  - assert (u <> x) by (intros ->; done).
    rewrite lookup_insert_ne by done. specialize (IH Hx). lia.
Qed.

Lemma Phi_bound (U : list pystr) (depths : gmap pystr Z) :
  bounded D depths -> (Phi D U depths <= length U * Z.to_nat (D + 1))%nat.
Proof.
  intros Hb. unfold Phi. induction U as [|u U IH]; [done|].
  cbn [sum_list_with length].
  assert (phi D (depths !! u) <= Z.to_nat (D + 1))%nat.
  { destruct (depths !! u) as [k|] eqn:E; cbn; [|lia].
    specialize (Hb _ _ E). lia. }
  lia.
Qed.

Lemma visit_fuel (U nbrs : list pystr) (d : Z) (depths : gmap pystr Z)
    (q : list pystr) (depths' : gmap pystr Z) (q' : list pystr) :
  NoDup U -> (forall y, y ∈ nbrs -> y ∈ U) -> 0 <= d -> bounded D depths ->
  visit nbrs d D depths q = (depths', q') ->
  bounded D depths' /\ (Phi D U depths + length q' <= Phi D U depths' + length q)%nat.
Proof.
  intros HU. revert depths q.
  induction nbrs as [|nxt rest IH]; intros depths q Hsub Hd Hb Hv.
  { cbn in Hv. injection Hv as <- <-. split; [done|lia]. }
  assert (Hsub' : forall y, y ∈ rest -> y ∈ U).
  { intros y Hy. apply Hsub. by apply elem_of_cons; right. }
  cbn [visit] in Hv.
  destruct (match depths !! nxt with Some dn => dn <=? d + 1 | None => false end)
    eqn:Hseen; [by eapply IH|].
  destruct (D <? d + 1) eqn:Hfar; [by eapply IH|].
  apply Z.ltb_ge in Hfar.
  assert (Hb1 : bounded D (<[nxt := d + 1]> depths)).
  { intros v k. destruct (decide (v = nxt)) as [->|Hne].
    - rewrite lookup_insert_eq. intros [= <-]. lia.
    - rewrite lookup_insert_ne by done. apply Hb. }
  destruct (IH _ _ Hsub' Hd Hb1 Hv) as [Hb' Hle]. split; [done|].
  pose proof (Phi_insert U depths nxt (d + 1) HU
                (Hsub nxt ltac:(by apply elem_of_cons; left))) as HP.
  rewrite length_app in Hle. cbn [length] in Hle.
  assert (phi D (depths !! nxt) < phi D (Some (d + 1)%Z))%nat.
  { destruct (depths !! nxt) as [k|] eqn:E; cbn.
    - apply Z.leb_gt in Hseen. specialize (Hb _ _ E). lia.
    - lia. }
  lia.
Qed.

(** ** The universe contains every id that can be met *)

Lemma start_universe : start ∈ universe index start.
Proof. unfold universe. apply elem_of_remove_dups, elem_of_cons. by left. Qed.

Lemma hop_universe (x y : pystr) : hop index x y -> y ∈ universe index start.
Proof.
  intros (rec & Hrec & Hy). unfold universe.
  apply elem_of_remove_dups, elem_of_cons. right.
  apply list_elem_of_In, in_concat. exists (parents rec ++ children rec).
  split; [|by apply list_elem_of_In].
  apply list_elem_of_In, list_elem_of_fmap. exists (x, rec). split; [done|].
  by apply elem_of_map_to_list.
Qed.

Lemma walk_universe n v : walk index start n v -> v ∈ universe index start.
Proof.
  destruct 1; [apply start_universe | by eapply hop_universe].
Qed.

(** ** The loop invariant *)

Lemma Inv_init : 0 <= D -> Inv index start D {[ start := 0 ]} [start].
Proof.
  intros HD. split.
  - apply lookup_singleton_eq.
  - intros v k [-> <-]%lookup_singleton_Some. split; [lia|]. apply walk_start.
  - intros v ->%list_elem_of_singleton. rewrite lookup_singleton_eq. eauto.
  - intros v k rec y [-> <-]%lookup_singleton_Some Hq. destruct Hq.
    by apply list_elem_of_singleton.
Qed.

Lemma Inv_skip cur q' depths d :
  Inv index start D depths (cur :: q') -> depths !! cur = Some d ->
  d = D \/ load_record index cur = None ->
  Inv index start D depths q'.
Proof.
  intros [Hs Hso Hq Hc] Hcur Hskip. split; [done|done| |].
  - intros v Hv. apply Hq. by apply elem_of_cons; right.
  - intros v k rec y Hv Hnq Hk Hrec Hy.
    destruct (decide (v = cur)) as [->|Hne].
    + rewrite Hcur in Hv. injection Hv as <-.
      destruct Hskip as [->|Hnone]; [lia|congruence].
    + eapply Hc; [done| |done|done|done].
      by intros [?|?]%elem_of_cons.
Qed.

Lemma Inv_visit cur q' depths d rec depths2 q2 :
  Inv index start D depths (cur :: q') -> depths !! cur = Some d -> d <> D ->
  load_record index cur = Some rec ->
  visit (parents rec ++ children rec) d D depths q' = (depths2, q2) ->
  Inv index start D depths2 q2.
Proof.
  intros [Hs Hso Hq Hc] Hcur HdD Hrec Hv.
  destruct (Hso _ _ Hcur) as [Hd Hwalk].
  destruct (visit_spec _ _ _ _ _ _ Hv) as (extra & -> & Hb & Hx & Hn).
  split.
  - destruct (Hb start) as [->|(_ & _ & _ & Hk)]; [done|].
    specialize (Hk _ Hs). lia.
  - intros v k Hvk. destruct (Hb v) as [Hsame|(Hin & Hnew & Hle & _)].
    + apply Hso. by rewrite <- Hsame.
    + rewrite Hnew in Hvk. injection Hvk as <-. split; [lia|].
      replace (Z.to_nat (d + 1)) with (S (Z.to_nat d)) by lia.
      eapply walk_hop; [done|]. exists rec. split; [done|].
      by destruct (Hx v Hin).
  - intros v [Hv'|Hv']%elem_of_app.
    + destruct (Hq v ltac:(by apply elem_of_cons; right)) as [k Hk].
      destruct (Hb v) as [->|(_ & -> & _)]; eauto.
    + destruct (Hx v Hv') as [_ ->]. eauto.
  - intros v k rec' y Hvk Hnq Hk Hrec' Hy.
    apply not_elem_of_app in Hnq as [Hnq Hnx].
    destruct (Hb v) as [Hsame|(Hin & _)]; [|done].
    rewrite Hsame in Hvk.
    destruct (decide (v = cur)) as [->|Hne].
    + rewrite Hcur in Hvk. injection Hvk as <-.
      rewrite Hrec in Hrec'. injection Hrec' as <-.
      apply Hn; [lia|done].
    + destruct (Hc v k rec' y Hvk) as (k0 & Hk0 & Hle); try done.
      { by intros [?|?]%elem_of_cons. }
      destruct (Hb y) as [Hsame'|(_ & Hnew & _ & Hlow)].
      * exists k0. by rewrite Hsame'.
      * exists (d + 1). split; [done|]. specialize (Hlow _ Hk0). lia.
Qed.

(** On a drained queue the recorded ids are closed under hops within the
    bound, so every id within [D] hops is recorded. *)
Lemma Inv_complete depths n v :
  Inv index start D depths [] -> walk index start n v -> Z.of_nat n <= D ->
  exists k, depths !! v = Some k /\ k <= Z.of_nat n.
Proof.
  intros [Hs Hso _ Hc]. induction 1 as [|n x y Hw IH (rec & Hrec & Hy)]; intros Hn.
  - exists 0. split; [done|lia].
  - destruct IH as (k & Hk & Hle); [lia|].
    destruct (Hc x k rec y Hk) as (k' & Hk' & Hle'); try done.
    + apply not_elem_of_nil.
    + lia.
    + exists k'. split; [done|lia].
Qed.

(** ** The loop terminates and establishes the invariant *)

Lemma Inv_bounded depths q : Inv index start D depths q -> bounded D depths.
Proof. intros HI v k Hv. by destruct (inv_sound HI _ _ Hv). Qed.

Lemma related_loop_correct fuel depths q :
  Inv index start D depths q ->
  (length q + length (universe index start) * Z.to_nat (D + 1)
     < fuel + Phi D (universe index start) depths)%nat ->
  exists depths', related_loop fuel index D depths q = Some (Ok depths')
                  /\ Inv index start D depths' [].
Proof.
  set (U := universe index start).
  assert (HU : NoDup U) by apply NoDup_remove_dups.
  revert depths q. induction fuel as [|fuel IH]; intros depths q HI Hfuel.
  { assert (Hb : bounded D depths) by (by eapply Inv_bounded).
    pose proof (Phi_bound U depths Hb). destruct q; cbn in *; [|lia].
    eauto. }
  destruct q as [|cur q']; [cbn; eauto|].
  assert (Hb : bounded D depths) by (by eapply Inv_bounded).
  cbn [related_loop].
  destruct (inv_queue HI cur ltac:(by apply elem_of_cons; left)) as [d Hcur].
  rewrite Hcur. cbn [length] in Hfuel.
  destruct (Z.eqb_spec d D) as [HdD|HdD].
  { apply IH; [|lia]. eapply Inv_skip; eauto. }
  destruct (load_record index cur) as [rec|] eqn:Hrec.
  2:{ apply IH; [|lia]. eapply Inv_skip; eauto. }
  pose proof (visit_app (parents rec) (children rec) d depths q') as Happ.
  destruct (visit (parents rec) d D depths q') as [depths1 q1].
  destruct (visit (children rec) d D depths1 q1) as [depths2 q2].
  cbn zeta in Happ.
  destruct (inv_sound HI _ _ Hcur) as [Hd _].
  assert (Hsub : forall y, y ∈ parents rec ++ children rec -> y ∈ U).
  { intros y Hy. apply (hop_universe cur). by exists rec. }
  destruct (visit_fuel U _ _ _ _ _ _ HU Hsub (proj1 Hd) Hb Happ) as [Hb2 Hle].
  apply IH; [by eapply Inv_visit|]. lia.
Qed.

Lemma related_correct :
  0 <= D ->
  exists depths, related index start D = Some (Ok depths) /\ Inv index start D depths [].
Proof.
  intros HD. unfold related, related_fuel.
  apply related_loop_correct; [by apply Inv_init|].
  cbn [length]. lia.
Qed.


End Traversal.

(** ** Sorting *)

Lemma le_refl a : PyStr.le a a = true.
Proof.
  induction a as [|x a IH]; [done|]. cbn.
  rewrite N.eqb_refl, IH. by rewrite orb_true_r.
Qed.

Lemma le_total a b : PyStr.le a b = true \/ PyStr.le b a = true.
Proof.
  revert b. induction a as [|x a IH]; intros [|y b]; cbn; auto.
  destruct (N.compare_spec x y) as [->|Hlt|Hgt].
  - rewrite N.ltb_irrefl, N.eqb_refl. cbn. apply IH.
  - left. apply N.ltb_lt in Hlt. by rewrite Hlt.
  - right. apply N.ltb_lt in Hgt. by rewrite Hgt.
Qed.

Lemma le_trans a b c :
  PyStr.le a b = true -> PyStr.le b c = true -> PyStr.le a c = true.
Proof.
  revert b c. induction a as [|x a IH]; intros [|y b] [|z c]; cbn; try done.
  rewrite !orb_true_iff, !andb_true_iff, !N.ltb_lt, !N.eqb_eq.
  intros [Hxy|[-> Hab]] [Hyz|[-> Hbc]]; try (left; lia).
  right. split; [done|]. by eapply IH.
Qed.

Lemma le_antisym a b :
  PyStr.le a b = true -> PyStr.le b a = true -> a = b.
Proof.
  revert b. induction a as [|x a IH]; intros [|y b]; cbn; try done.
  rewrite !orb_true_iff, !andb_true_iff, !N.ltb_lt, !N.eqb_eq.
  intros [Hxy|[-> Hab]] [Hyx|[Heq Hba]]; try lia.
  f_equal. by apply IH.
Qed.

Global Instance str_le_total : Total str_le.
Proof.
  intros a b. unfold str_le. destruct (le_total a b) as [->| ->]; cbn; auto.
Qed.

Global Instance str_le_trans : Transitive str_le.
Proof.
  intros a b c. unfold str_le. rewrite !Is_true_true. apply le_trans.
Qed.

Global Instance str_le_antisym : AntiSymm (=) str_le.
Proof.
  intros a b. unfold str_le. rewrite !Is_true_true. apply le_antisym.
Qed.



(** ** C6 *)




End NeighborhoodFacts.

(* ================================================================== *)
(** * Properties of the JSON encoder *)
(* ================================================================== *)

Module JsonFacts.
Import PyStr Json.

(** Induction over documents, through arrays and objects. *)
Lemma json_ind (P : json -> Prop) :
  P JNull ->
  (forall b, P (JBool b)) ->
  (forall z, P (JInt z)) ->
  (forall literal, P (JFloat literal)) ->
  (forall s, P (JStr s)) ->
  (forall items, Forall P items -> P (JArr items)) ->
  (forall members, Forall (fun kv => P kv.2) members -> P (JObj members)) ->
  forall v, P v.
Proof.
  intros Hnull Hbool Hint Hfloat Hstr Harr Hobj.
  fix IH 1. intros [ |b|z|literal|s|items|members].
  - exact Hnull.
  - apply Hbool.
  - apply Hint.
  - apply Hfloat.
  - apply Hstr.
  - apply Harr. induction items as [|x items IHi]; constructor.
    + apply IH.
    + exact IHi.
  - apply Hobj. induction members as [|[k x] members IHm]; constructor.
    + apply IH.
    + exact IHm.
Qed.

Lemma forallb_Forall_true {A} (f : A -> bool) l :
  Forall (fun x => f x = true) l <-> forallb f l = true.
Proof.
  rewrite forallb_forall, Forall_forall. split; intros H x Hx; apply H.
  - by apply list_elem_of_In.
  - by apply list_elem_of_In.
Qed.

Lemma dict_get_set_eq d k v : dict_get (dict_set d k v) k = Some v.
Proof.
  induction d as [|[k' v'] d IH]; cbn.
  - by rewrite decide_True.
  - destruct (decide (k' = k)) as [->|Hne]; cbn.
    + by rewrite decide_True.
    + by rewrite decide_False.
Qed.

Lemma dict_get_set_ne d k k' v :
  k <> k' -> dict_get (dict_set d k v) k' = dict_get d k'.
Proof.
  intros Hne. induction d as [|[k0 v0] d IH]; cbn.
  - by rewrite decide_False.
  - destruct (decide (k0 = k)) as [->|Hne0]; cbn.
    + by rewrite !decide_False.
    + destruct (decide (k0 = k')); [done|apply IH].
Qed.

Lemma dict_get_filter_out (d : list (pystr * json)) (ks : list pystr) k :
  k ∈ ks -> dict_get (filter (fun kv => kv.1 ∉ ks) d) k = None.
Proof.
  intros Hk. induction d as [|[k0 v0] d IH]; [done|].
  rewrite filter_cons. cbn [fst]. case_decide as Hin; [|apply IH].
  cbn. rewrite decide_False; [apply IH|]. intros ->. done.
Qed.

(** ** The decoder consumes its text *)

Lemma skip_ws_length s : (length (skip_ws s) <= length s)%nat.
Proof.
  induction s as [|c s IH]; [done|]. cbn. destruct (is_ws c); cbn; lia.
Qed.

Lemma scanstring_length s : forall acc str rest,
  scanstring s acc = Some (str, rest) -> (length rest < length s)%nat.
Proof.
  induction s as [s IH] using (induction_ltof1 _ (@length N)).
  unfold ltof in IH. intros acc str rest H.
  destruct s as [|c r]; [discriminate|]. cbn [scanstring] in H.
  repeat match type of H with
  | Some _ = Some _ => injection H as <- <-; cbn [length]; lia
  | None = Some _ => discriminate H
  | scanstring _ _ = Some _ => apply IH in H; cbn [length] in *; lia
  | (if ?b then _ else _) = Some _ => destruct b
  | match ?x with _ => _ end = Some _ => destruct x
  end.
Qed.

Lemma take_digits_length s ds rest :
  take_digits s = (ds, rest) -> (length rest <= length s)%nat.
Proof.
  revert ds rest. induction s as [|c s IH]; intros ds rest; cbn.
  - by intros [= <- <-].
  - destruct (is_digit c).
    + destruct (take_digits s) as [ds' rest'] eqn:E. intros [= <- <-].
      specialize (IH _ _ eq_refl). lia.
    + intros [= <- <-]. cbn. lia.
Qed.

Lemma match_number_spec s r rest :
  match_number s = Some (r, rest) ->
  (length rest < length s)%nat /\ (forall e, r = Raise e -> e = ValueError).
Proof.
  unfold match_number.
  set (sign_rest := match s with
                    | c :: r => if (c =? 45)%N then ([45%N], r) else ([], s)
                    | [] => ([], s)
                    end).
  assert (Hsign : (length sign_rest.2 <= length s)%nat).
  { subst sign_rest. destruct s as [|c r0]; [done|]. destruct (c =? 45)%N; cbn; lia. }
  destruct sign_rest as [sign s1]. cbn [snd] in Hsign.
  set (int_part := match s1 with
                   | c :: r =>
                       if (c =? 48)%N then Some ([c], r)
                       else if is_digit c
                       then let '(ds, rest) := take_digits r in Some (c :: ds, rest)
                       else None
                   | [] => None
                   end).
  assert (Hint : forall ds s2, int_part = Some (ds, s2) ->
                               (length s2 < length s1)%nat).
  { subst int_part. intros ds s2. destruct s1 as [|c r0]; [done|].
    destruct (c =? 48)%N; [intros [= <- <-]; cbn; lia|].
    destruct (is_digit c); [|done].
    destruct (take_digits r0) as [ds' rest'] eqn:E. intros [= <- <-].
    apply take_digits_length in E. cbn. lia. }
  destruct int_part as [[ds s2]|]; [|discriminate].
  specialize (Hint _ _ eq_refl).
  set (frac_rest := match s2 with
                    | c :: r =>
                        if (c =? 46)%N then
                          match take_digits r with
                          | ([], _) => ([], s2)
                          | (fs, rest) => (c :: fs, rest)
                          end
                        else ([], s2)
                    | [] => ([], s2)
                    end).
  assert (Hfrac : (length frac_rest.2 <= length s2)%nat).
  { subst frac_rest. destruct s2 as [|c r0]; [done|].
    destruct (c =? 46)%N; [|done].
    destruct (take_digits r0) as [[|f fs] rest'] eqn:E; [done|].
    apply take_digits_length in E. cbn. lia. }
  destruct frac_rest as [frac s3]. cbn [snd] in Hfrac.
  set (exp_rest := match s3 with
                   | c :: r =>
                       if (c =? 101)%N || (c =? 69)%N then
                         let '(esign, r') :=
                           match r with
                           | c' :: r0 =>
                               if (c' =? 43)%N || (c' =? 45)%N then ([c'], r0) else ([], r)
                           | [] => ([], r)
                           end in
                         match take_digits r' with
                         | ([], _) => ([], s3)
                         | (es, rest) => (c :: esign ++ es, rest)
                         end
                       else ([], s3)
                   | [] => ([], s3)
                   end).
  assert (Hexp : (length exp_rest.2 <= length s3)%nat).
  { subst exp_rest. destruct s3 as [|c r0]; [done|].
    destruct ((c =? 101)%N || (c =? 69)%N); [|done].
    set (er := match r0 with
               | c' :: r1 => if (c' =? 43)%N || (c' =? 45)%N then ([c'], r1) else ([], r0)
               | [] => ([], r0)
               end).
    assert (Her : (length er.2 <= length r0)%nat).
    { subst er. destruct r0 as [|c' r1]; [done|].
      destruct ((c' =? 43)%N || (c' =? 45)%N); cbn; lia. }
    destruct er as [esign r']. cbn [snd] in Her.
    destruct (take_digits r') as [[|e es] rest'] eqn:E; [done|].
    apply take_digits_length in E. cbn. lia. }
  destruct exp_rest as [exp s4]. cbn [snd] in Hexp.
  intros H. split.
  - destruct frac, exp; [destruct (_ <? _)%nat|..]; injection H as <- <-; lia.
  - destruct frac, exp; [destruct (_ <? _)%nat|..]; injection H as <- <-;
      intros e; congruence.
Qed.

Section Loops.

Context (scan : pystr -> result (json * pystr)) (bound : nat).

Hypothesis scan_shrinks : forall s v rest,
  scan s = Ok (v, rest) -> (length rest < length s)%nat.
Hypothesis scan_fuel : forall s,
  (length s <= bound)%nat -> scan s <> Raise RecursionError.

Lemma array_items_shrinks fuel : forall s acc items rest,
  array_items scan fuel s acc = Ok (items, rest) -> (length rest < length s)%nat.
Proof using scan_shrinks.
  induction fuel as [|fuel IH]; intros s acc items rest; cbn [array_items];
    [discriminate|].
  destruct (scan s) as [[v r0]|e] eqn:Es; cbn [mbind result_bind]; [|discriminate].
  apply scan_shrinks in Es. pose proof (skip_ws_length r0).
  destruct (skip_ws r0) as [|c r] eqn:Ew; [discriminate|]. cbn [length] in *.
  destruct (c =? 93)%N; [intros [= <- <-]; lia|].
  destruct (c =? 44)%N; [|discriminate].
  intros H1%IH. pose proof (skip_ws_length r). lia.
Qed.

Lemma array_items_fuel fuel : forall s acc,
  (length s < fuel)%nat -> (length s <= bound)%nat ->
  array_items scan fuel s acc <> Raise RecursionError.
Proof using scan_shrinks scan_fuel.
  induction fuel as [|fuel IH]; intros s acc Hf Hb; [lia|]. cbn [array_items].
  pose proof (scan_fuel s Hb) as Hs.
  destruct (scan s) as [[v r0]|e] eqn:Es; cbn [mbind result_bind]; [|congruence].
  apply scan_shrinks in Es. pose proof (skip_ws_length r0).
  destruct (skip_ws r0) as [|c r] eqn:Ew; [done|]. cbn [length] in *.
  destruct (c =? 93)%N; [done|].
  destruct (c =? 44)%N; [|done].
  pose proof (skip_ws_length r). apply IH; lia.
Qed.

Lemma object_members_shrinks fuel : forall s acc members rest,
  object_members scan fuel s acc = Ok (members, rest) ->
  (length rest < length s)%nat.
Proof using scan_shrinks.
  induction fuel as [|fuel IH]; intros s acc members rest; cbn [object_members];
    [discriminate|].
  destruct (scanstring s []) as [[key r0]|] eqn:Ek; [|discriminate].
  apply scanstring_length in Ek. pose proof (skip_ws_length r0).
  destruct (skip_ws r0) as [|c r] eqn:Ew; [discriminate|]. cbn [length] in *.
  destruct (c =? 58)%N; [|discriminate].
  pose proof (skip_ws_length r).
  destruct (scan (skip_ws r)) as [[v r1]|e] eqn:Es; cbn [mbind result_bind];
    [|discriminate].
  apply scan_shrinks in Es. pose proof (skip_ws_length r1).
  destruct (skip_ws r1) as [|c2 r2] eqn:Ew2; [discriminate|]. cbn [length] in *.
  destruct (c2 =? 125)%N; [intros [= <- <-]; lia|].
  destruct (c2 =? 44)%N; [|discriminate].
  pose proof (skip_ws_length r2).
  destruct (skip_ws r2) as [|c3 r3] eqn:Ew3; [discriminate|]. cbn [length] in *.
  destruct (c3 =? QUOTE)%N; [|discriminate].
  intros H5%IH. lia.
Qed.

Lemma object_members_fuel fuel : forall s acc,
  (length s < fuel)%nat -> (length s <= bound)%nat ->
  object_members scan fuel s acc <> Raise RecursionError.
Proof using scan_shrinks scan_fuel.
  induction fuel as [|fuel IH]; intros s acc Hf Hb; [lia|]. cbn [object_members].
  destruct (scanstring s []) as [[key r0]|] eqn:Ek; [|done].
  apply scanstring_length in Ek. pose proof (skip_ws_length r0).
  destruct (skip_ws r0) as [|c r] eqn:Ew; [done|]. cbn [length] in *.
  destruct (c =? 58)%N; [|done].
  pose proof (skip_ws_length r).
  pose proof (scan_fuel (skip_ws r) ltac:(lia)) as Hs.
  destruct (scan (skip_ws r)) as [[v r1]|e] eqn:Es; cbn [mbind result_bind];
    [|congruence].
  apply scan_shrinks in Es. pose proof (skip_ws_length r1).
  destruct (skip_ws r1) as [|c2 r2] eqn:Ew2; [done|]. cbn [length] in *.
  destruct (c2 =? 125)%N; [done|].
  destruct (c2 =? 44)%N; [|done].
  pose proof (skip_ws_length r2).
  destruct (skip_ws r2) as [|c3 r3] eqn:Ew3; [done|]. cbn [length] in *.
  destruct (c3 =? QUOTE)%N; [|done].
  apply IH; lia.
Qed.

(** The budgets of the loops are never used up: any budget above the
    length of the text gives the same. *)
Lemma array_items_budget fuel : forall fuel' s acc,
  (length s < fuel)%nat -> (length s < fuel')%nat ->
  array_items scan fuel s acc = array_items scan fuel' s acc.
Proof using scan_shrinks.
  induction fuel as [|fuel IH]; intros fuel' s acc Hf Hf'; [lia|].
  destruct fuel' as [|fuel']; [lia|]. cbn [array_items].
  destruct (scan s) as [[v r0]|e] eqn:Es; cbn [mbind result_bind]; [|done].
  apply scan_shrinks in Es. pose proof (skip_ws_length r0).
  destruct (skip_ws r0) as [|c r] eqn:Ew; [done|]. cbn [length] in *.
  destruct (c =? 93)%N; [done|].
  destruct (c =? 44)%N; [|done].
  pose proof (skip_ws_length r). apply IH; lia.
Qed.

Lemma object_members_budget fuel : forall fuel' s acc,
  (length s < fuel)%nat -> (length s < fuel')%nat ->
  object_members scan fuel s acc = object_members scan fuel' s acc.
Proof using scan_shrinks.
  induction fuel as [|fuel IH]; intros fuel' s acc Hf Hf'; [lia|].
  destruct fuel' as [|fuel']; [lia|]. cbn [object_members].
  destruct (scanstring s []) as [[key r0]|] eqn:Ek; [|done].
  apply scanstring_length in Ek. pose proof (skip_ws_length r0).
  destruct (skip_ws r0) as [|c r] eqn:Ew; [done|]. cbn [length] in *.
  destruct (c =? 58)%N; [|done].
  pose proof (skip_ws_length r).
  destruct (scan (skip_ws r)) as [[v r1]|e] eqn:Es; cbn [mbind result_bind];
    [|done].
  apply scan_shrinks in Es. pose proof (skip_ws_length r1).
  destruct (skip_ws r1) as [|c2 r2] eqn:Ew2; [done|]. cbn [length] in *.
  destruct (c2 =? 125)%N; [done|].
  destruct (c2 =? 44)%N; [|done].
  pose proof (skip_ws_length r2).
  destruct (skip_ws r2) as [|c3 r3] eqn:Ew3; [done|]. cbn [length] in *.
  destruct (c3 =? QUOTE)%N; [|done].
  apply IH; lia.
Qed.

End Loops.

Lemma startswith_length s prefix :
  startswith s prefix = true -> (length prefix <= length s)%nat.
Proof.
  unfold startswith. intros H%bool_decide_eq_true.
  rewrite <- H, length_take. lia.
Qed.

(** The equation of [scan_once] at a text that is not empty. *)
Lemma scan_once_eq depth c r :
  scan_once depth (c :: r) =
    (if (c =? QUOTE)%N then
       match scanstring r [] with
       | Some (str, rest) => Ok (JStr str, rest)
       | None => Raise JSONDecodeError
       end
     else if (c =? 123)%N then
       match depth with
       | O => Raise RecursionError
       | S depth' =>
           match skip_ws r with
           | c1 :: r1 =>
               if (c1 =? 125)%N then Ok (JObj [], r1)
               else if (c1 =? QUOTE)%N then
                 '(pairs, rest) ← object_members (scan_once depth') (S (length r1)) r1 [];
                 Ok (JObj (dict_of_pairs pairs), rest)
               else Raise JSONDecodeError
           | [] => Raise JSONDecodeError
           end
       end
     else if (c =? 91)%N then
       match depth with
       | O => Raise RecursionError
       | S depth' =>
           match skip_ws r with
           | c1 :: r1 =>
               if (c1 =? 93)%N then Ok (JArr [], r1)
               else
                 '(items, rest) ← array_items (scan_once depth') (S (S (length r1))) (c1 :: r1) [];
                 Ok (JArr items, rest)
           | [] => Raise JSONDecodeError
           end
       end
     else if startswith (c :: r) (py "null") then Ok (JNull, drop 4 (c :: r))
     else if startswith (c :: r) (py "true") then Ok (JBool true, drop 4 (c :: r))
     else if startswith (c :: r) (py "false") then Ok (JBool false, drop 5 (c :: r))
     else
       match match_number (c :: r) with
       | Some (Ok v, rest) => Ok (v, rest)
       | Some (Raise e, _) => Raise e
       | None =>
           if startswith (c :: r) (py "NaN") then Ok (JFloat (py "NaN"), drop 3 (c :: r))
           else if startswith (c :: r) (py "Infinity")
           then Ok (JFloat (py "Infinity"), drop 8 (c :: r))
           else if startswith (c :: r) (py "-Infinity")
           then Ok (JFloat (py "-Infinity"), drop 9 (c :: r))
           else Raise JSONDecodeError
       end).
Proof. by destruct depth. Qed.

Lemma scan_once_shrinks depth : forall s v rest,
  scan_once depth s = Ok (v, rest) -> (length rest < length s)%nat.
Proof.
  induction depth as [depth IH] using lt_wf_ind. intros s v rest.
  destruct s as [|c r]; [by destruct depth|]. rewrite scan_once_eq.
  destruct (c =? QUOTE)%N.
  { destruct (scanstring r []) as [[str r0]|] eqn:E; [|discriminate].
    apply scanstring_length in E. intros [= <- <-]. cbn. lia. }
  destruct (c =? 123)%N.
  { destruct depth as [|depth]; [discriminate|].
    pose proof (skip_ws_length r).
    destruct (skip_ws r) as [|c1 r1]; [discriminate|]. cbn [length] in *.
    destruct (c1 =? 125)%N; [intros [= <- <-]; lia|].
    destruct (c1 =? QUOTE)%N; [|discriminate].
    destruct (object_members _ _ r1 []) as [[pairs r2]|] eqn:E;
      cbn [mbind result_bind]; [|discriminate].
    apply (object_members_shrinks _ (IH depth ltac:(lia))) in E.
    intros [= <- <-]. lia. }
  destruct (c =? 91)%N.
  { destruct depth as [|depth]; [discriminate|].
    pose proof (skip_ws_length r).
    destruct (skip_ws r) as [|c1 r1]; [discriminate|]. cbn [length] in *.
    destruct (c1 =? 93)%N; [intros [= <- <-]; lia|].
    destruct (array_items _ _ (c1 :: r1) []) as [[items r2]|] eqn:E;
      cbn [mbind result_bind]; [|discriminate].
    apply (array_items_shrinks _ (IH depth ltac:(lia))) in E.
    intros [= <- <-]. cbn [length] in *. lia. }
  repeat match goal with
  | |- (if startswith ?s ?p then _ else _) = _ -> _ =>
      let E := fresh "E" in
      destruct (startswith s p) eqn:E;
      [apply startswith_length in E; cbn [length] in E; intros [= <- <-];
       rewrite length_drop; change (length (py _)) with 4%nat in E;
       cbn [length] in *; lia|]
  end.
  destruct (startswith (c :: r) (py "false")) eqn:E5.
  { apply startswith_length in E5. intros [= <- <-]. rewrite length_drop.
    cbn [length] in *. lia. }
  destruct (match_number (c :: r)) as [[[v0|e] r0]|] eqn:Em.
  - apply match_number_spec in Em as [Hl _]. by intros [= <- <-].
  - discriminate.
  - repeat match goal with
    | |- (if startswith ?s ?p then _ else _) = _ -> _ =>
        let E := fresh "E" in
        destruct (startswith s p) eqn:E;
        [apply startswith_length in E; intros [= <- <-];
         rewrite length_drop; cbn [length] in *; lia|]
    end.
    discriminate.
Qed.

(** A limit of the length of the text is never reached, nor are the
    budgets of the loops: [RecursionError] tells of nothing but the
    depth of the document. *)
Lemma scan_once_fuel depth : forall s,
  (length s <= depth)%nat -> scan_once depth s <> Raise RecursionError.
Proof.
  induction depth as [depth IH] using lt_wf_ind. intros s Hf.
  destruct s as [|c r]; [by destruct depth|]. rewrite scan_once_eq.
  cbn [length] in Hf.
  destruct (c =? QUOTE)%N.
  { by destruct (scanstring r []) as [[str r0]|]. }
  destruct (c =? 123)%N.
  { destruct depth as [|depth]; [lia|].
    pose proof (skip_ws_length r).
    destruct (skip_ws r) as [|c1 r1]; [done|]. cbn [length] in *.
    destruct (c1 =? 125)%N; [done|].
    destruct (c1 =? QUOTE)%N; [|done].
    pose proof (object_members_fuel (scan_once depth) (length r1)
                  (scan_once_shrinks depth)
                  (fun s' Hs' => IH depth ltac:(lia) s' ltac:(lia))
                  (S (length r1)) r1 [] ltac:(lia) ltac:(lia)) as Hm.
    destruct (object_members _ _ r1 []) as [[pairs r2]|];
      cbn [mbind result_bind]; [done|congruence]. }
  destruct (c =? 91)%N.
  { destruct depth as [|depth]; [lia|].
    pose proof (skip_ws_length r).
    destruct (skip_ws r) as [|c1 r1]; [done|]. cbn [length] in *.
    destruct (c1 =? 93)%N; [done|].
    pose proof (array_items_fuel (scan_once depth) (S (length r1))
                  (scan_once_shrinks depth)
                  (fun s' Hs' => IH depth ltac:(lia) s' ltac:(lia))
                  (S (S (length r1))) (c1 :: r1) []
                  ltac:(cbn [length]; lia) ltac:(cbn [length]; lia)) as Hm.
    destruct (array_items _ _ (c1 :: r1) []) as [[items r2]|];
      cbn [mbind result_bind]; [done|congruence]. }
  repeat (case_match; [done|]).
  destruct (match_number (c :: r)) as [[[v0|e] r0]|] eqn:Em.
  - done.
  - apply match_number_spec in Em as [_ He]. intros [= ->].
    by specialize (He _ eq_refl).
  - by repeat case_match.
Qed.

(** ** A higher limit changes no outcome but [RecursionError] *)

Section LoopsStable.

Context (scan scan' : pystr -> result (json * pystr)).

Hypothesis scan_stable : forall s r,
  scan s = r -> hit_recursion_limit r = false -> scan' s = r.

Lemma array_items_stable fuel : forall s acc r,
  array_items scan fuel s acc = r -> hit_recursion_limit r = false ->
  array_items scan' fuel s acc = r.
Proof using scan_stable.
  induction fuel as [|fuel IH]; intros s acc r; cbn [array_items];
    [by intros <-|].
  destruct (scan s) as [[v r0]|e] eqn:Es; cbn [mbind result_bind].
  - rewrite (scan_stable _ _ Es) by done. cbn [mbind result_bind].
    destruct (skip_ws r0) as [|c r1]; [done|].
    destruct (c =? 93)%N; [done|]. destruct (c =? 44)%N; [|done]. apply IH.
  - intros <- Hr. by rewrite (scan_stable _ _ Es Hr).
Qed.

Lemma object_members_stable fuel : forall s acc r,
  object_members scan fuel s acc = r -> hit_recursion_limit r = false ->
  object_members scan' fuel s acc = r.
Proof using scan_stable.
  induction fuel as [|fuel IH]; intros s acc r; cbn [object_members];
    [by intros <-|].
  destruct (scanstring s []) as [[key r0]|]; [|done].
  destruct (skip_ws r0) as [|c r1]; [done|].
  destruct (c =? 58)%N; [|done].
  destruct (scan (skip_ws r1)) as [[v r2]|e] eqn:Es; cbn [mbind result_bind].
  - rewrite (scan_stable _ _ Es) by done. cbn [mbind result_bind].
    destruct (skip_ws r2) as [|c2 r3]; [done|].
    destruct (c2 =? 125)%N; [done|]. destruct (c2 =? 44)%N; [|done].
    destruct (skip_ws r3) as [|c3 r4]; [done|].
    destruct (c3 =? QUOTE)%N; [|done]. apply IH.
  - intros <- Hr. by rewrite (scan_stable _ _ Es Hr).
Qed.

End LoopsStable.

Lemma scan_once_stable depth : forall depth' s r,
  (depth <= depth')%nat -> scan_once depth s = r -> hit_recursion_limit r = false ->
  scan_once depth' s = r.
Proof.
  induction depth as [depth IH] using lt_wf_ind. intros depth' s r Hle.
  destruct s as [|c t]; [by destruct depth, depth'|]. rewrite !scan_once_eq.
  destruct (c =? QUOTE)%N; [done|].
  destruct (c =? 123)%N.
  { destruct depth as [|depth]; [by intros <-|].
    destruct depth' as [|depth']; [lia|].
    destruct (skip_ws t) as [|c1 r1]; [done|].
    destruct (c1 =? 125)%N; [done|]. destruct (c1 =? QUOTE)%N; [|done].
    pose proof (object_members_stable (scan_once depth) (scan_once depth')
                  (fun s0 r0 => IH depth ltac:(lia) depth' s0 r0 ltac:(lia))
                  (S (length r1)) r1 []) as Hm.
    destruct (object_members (scan_once depth) _ r1 []) as [[pairs r2]|e] eqn:E;
      cbn [mbind result_bind].
    - by rewrite (Hm _ eq_refl).
    - intros <- Hr. by rewrite (Hm _ eq_refl Hr). }
  destruct (c =? 91)%N; [|done].
  destruct depth as [|depth]; [by intros <-|].
  destruct depth' as [|depth']; [lia|].
  destruct (skip_ws t) as [|c1 r1]; [done|].
  destruct (c1 =? 93)%N; [done|].
  pose proof (array_items_stable (scan_once depth) (scan_once depth')
                (fun s0 r0 => IH depth ltac:(lia) depth' s0 r0 ltac:(lia))
                (S (S (length r1))) (c1 :: r1) []) as Hm.
  destruct (array_items (scan_once depth) _ (c1 :: r1) []) as [[items r2]|e] eqn:E;
    cbn [mbind result_bind].
  - by rewrite (Hm _ eq_refl).
  - intros <- Hr. by rewrite (Hm _ eq_refl Hr).
Qed.

(** What [loads] returns, and what it raises other than [RecursionError],
    it returns and raises the same at every higher limit. *)
Lemma loads_stable depth depth' s r :
  (depth <= depth')%nat -> loads depth s = r -> hit_recursion_limit r = false ->
  loads depth' s = r.
Proof.
  intros Hle. unfold loads. destruct (startswith s [65279%N]); [done|].
  pose proof (scan_once_stable depth depth' (skip_ws s) _ Hle eq_refl) as Hs.
  destruct (scan_once depth (skip_ws s)) as [[v0 rest]|e] eqn:E;
    cbn [mbind result_bind].
  - by rewrite Hs.
  - intros <- Hr. by rewrite (Hs Hr).
Qed.

Lemma loads_mono depth depth' s v :
  (depth <= depth')%nat -> loads depth s = Ok v -> loads depth' s = Ok v.
Proof. intros Hle H. by apply (loads_stable depth depth' s (Ok v)). Qed.

(** A text that is read without entering an object or an array is read
    at every limit. *)
Lemma loads_flat recursion_limit s v :
  loads 0 s = Ok v -> loads recursion_limit s = Ok v.
Proof. apply loads_mono. lia. Qed.

(** What [scan_once] raises is a [ValueError] or a [RecursionError]. *)
Lemma scan_once_raises depth : forall s e,
  scan_once depth s = Raise e -> is_ValueError e = true \/ e = RecursionError.
Proof.
  induction depth as [depth IH] using lt_wf_ind. intros s0 e.
  assert (Harr : forall d n s1 acc e, (d < depth)%nat ->
                   array_items (scan_once d) n s1 acc = Raise e ->
                   is_ValueError e = true \/ e = RecursionError).
  { intros d n. induction n as [|n IHn]; intros s1 acc e0 Hd; cbn [array_items];
      [intros [= <-]; by right|].
    destruct (scan_once d s1) as [[v r0]|e1] eqn:Es; cbn [mbind result_bind].
    - repeat case_match; try (intros [= <-]; by left). by apply IHn.
    - intros [= <-]. by apply IH in Es. }
  assert (Hobj : forall d n s1 acc e, (d < depth)%nat ->
                   object_members (scan_once d) n s1 acc = Raise e ->
                   is_ValueError e = true \/ e = RecursionError).
  { intros d n. induction n as [|n IHn]; intros s1 acc e0 Hd; cbn [object_members];
      [intros [= <-]; by right|].
    destruct (scanstring s1 []) as [[key r0]|]; [|intros [= <-]; by left].
    destruct (skip_ws r0) as [|c r]; [intros [= <-]; by left|].
    destruct (c =? 58)%N; [|intros [= <-]; by left].
    destruct (scan_once d (skip_ws r)) as [[v r1]|e1] eqn:Es;
      cbn [mbind result_bind].
    - repeat case_match; try (intros [= <-]; by left). by apply IHn.
    - intros [= <-]. by apply IH in Es. }
  destruct s0 as [|c r]; [destruct depth; intros [= <-]; by left|].
  rewrite scan_once_eq.
  destruct (c =? QUOTE)%N.
  { destruct (scanstring r []) as [[? ?]|]; [done|intros [= <-]; by left]. }
  destruct (c =? 123)%N.
  { destruct depth as [|depth]; [intros [= <-]; by right|].
    destruct (skip_ws r) as [|c1 r1]; [intros [= <-]; by left|].
    destruct (c1 =? 125)%N; [done|].
    destruct (c1 =? QUOTE)%N; [|intros [= <-]; by left].
    destruct (object_members _ _ r1 []) as [[? ?]|e1] eqn:E;
      cbn [mbind result_bind]; [done|].
    intros [= <-]. apply Hobj in E; [done|lia]. }
  destruct (c =? 91)%N.
  { destruct depth as [|depth]; [intros [= <-]; by right|].
    destruct (skip_ws r) as [|c1 r1]; [intros [= <-]; by left|].
    destruct (c1 =? 93)%N; [done|].
    destruct (array_items _ _ (c1 :: r1) []) as [[? ?]|e1] eqn:E;
      cbn [mbind result_bind]; [done|].
    intros [= <-]. apply Harr in E; [done|lia]. }
  repeat (case_match; [done|]).
  destruct (match_number (c :: r)) as [[[v0|e1] r0]|] eqn:Em; [done| |].
  - intros [= <-]. apply match_number_spec in Em as [_ He].
    rewrite (He _ eq_refl). by left.
  - repeat case_match; try done. intros [= <-]. by left.
Qed.

(** [loads] returns a document, or raises a [ValueError], or raises
    [RecursionError]; the last, never when the limit is the length of the
    text or more. *)
Lemma loads_total recursion_limit s :
  (exists v, loads recursion_limit s = Ok v)
  \/ (exists e, loads recursion_limit s = Raise e /\
                (is_ValueError e = true \/ e = RecursionError)).
Proof.
  unfold loads. destruct (startswith s [65279%N]); [right; eauto|].
  destruct (scan_once recursion_limit (skip_ws s)) as [[v rest]|e] eqn:E;
    cbn [mbind result_bind].
  - destruct (skip_ws rest); [left|right]; eauto.
  - right. exists e. split; [done|]. by apply scan_once_raises in E.
Qed.

Lemma loads_within_limit recursion_limit s :
  (length s <= recursion_limit)%nat ->
  loads recursion_limit s <> Raise RecursionError.
Proof.
  intros Hl. unfold loads. destruct (startswith s [65279%N]); [done|].
  pose proof (skip_ws_length s).
  pose proof (scan_once_fuel recursion_limit (skip_ws s) ltac:(lia)) as Hf.
  destruct (scan_once recursion_limit (skip_ws s)) as [[v rest]|e] eqn:E;
    cbn [mbind result_bind]; [by destruct (skip_ws rest)|congruence].
Qed.

(** ** The encoder never emits a line feed *)

Lemma no_lf_check s : forallb (fun c => negb (c =? LF)%N) s = true -> no_lf s.
Proof.
  rewrite forallb_forall. intros H Hin%list_elem_of_In.
  specialize (H _ Hin). by rewrite N.eqb_refl in H.
Qed.

Lemma no_lf_app a b : no_lf a -> no_lf b -> no_lf (a ++ b).
Proof. unfold no_lf. intros Ha Hb [?|?]%elem_of_app; auto. Qed.

Lemma no_lf_nil : no_lf [].
Proof. apply not_elem_of_nil. Qed.

Lemma no_lf_join sep parts :
  no_lf sep -> Forall no_lf parts -> no_lf (join sep parts).
Proof.
  intros Hsep. induction 1 as [|p rest Hp Hrest IH]; [apply no_lf_nil|].
  cbn [join]. destruct rest as [|p' rest']; [done|].
  apply no_lf_app; [done|]. by apply no_lf_app.
Qed.

Lemma no_lf_escape_char c : no_lf (escape_char c).
Proof.
  unfold escape_char, no_lf, hex_digit, LF, QUOTE, BACKSLASH.
  repeat case_match; rewrite ?elem_of_cons, elem_of_nil;
    rewrite ?N.eqb_neq, ?N.ltb_lt, ?N.ltb_ge in *; try lia.
  all: generalize (c / 16)%N, (c mod 16)%N; intros; lia.
Qed.

Lemma no_lf_encode_basestring s : no_lf (encode_basestring s).
Proof.
  unfold encode_basestring.
  apply no_lf_app; [by apply no_lf_check|].
  apply no_lf_app; [|by apply no_lf_check].
  induction s as [|c s IH]; [apply no_lf_nil|].
  cbn. apply no_lf_app; [apply no_lf_escape_char|done].
Qed.

Lemma py_String a s : py (String a s) = N_of_ascii a :: py s.
Proof. reflexivity. Qed.

Lemma no_lf_digits d : no_lf (py (NilEmpty.string_of_uint d)).
Proof.
  unfold no_lf, LF.
  induction d as [|d IH|d IH|d IH|d IH|d IH|d IH|d IH|d IH|d IH|d IH];
    cbn [NilEmpty.string_of_uint]; [apply not_elem_of_nil|..];
    rewrite py_String, elem_of_cons;
    (intros [H|H]; [vm_compute in H; discriminate|done]).
Qed.

Lemma no_lf_uint d : no_lf (py (NilZero.string_of_uint d)).
Proof.
  destruct d; try apply (no_lf_digits (_ _)).
  by apply no_lf_check.
Qed.

Lemma no_lf_int_repr z : no_lf (int_repr z).
Proof.
  unfold int_repr. destruct (Z.to_int z) as [d|d]; cbn [NilZero.string_of_int].
  - apply no_lf_uint.
  - unfold no_lf. rewrite py_String, elem_of_cons.
    intros [H|H]; [vm_compute in H; discriminate|].
    by apply (no_lf_uint d).
Qed.

Section Dumps.

Context (float_repr : pystr -> pystr) (item_separator key_separator : pystr).

Hypothesis float_repr_line : forall literal, no_lf (float_repr literal).
Hypothesis item_separator_line : no_lf item_separator.
Hypothesis key_separator_line : no_lf key_separator.

Lemma no_lf_dumps v : no_lf (dumps float_repr item_separator key_separator v).
Proof using All.
  induction v as [ |b|z|literal|s|items IH|members IH] using json_ind;
    cbn [dumps].
  - by apply no_lf_check.
  - destruct b; by apply no_lf_check.
  - apply no_lf_int_repr.
  - apply float_repr_line.
  - apply no_lf_encode_basestring.
  - apply no_lf_app; [by apply no_lf_check|].
    apply no_lf_app; [|by apply no_lf_check].
    apply no_lf_join; [done|]. by apply Forall_fmap.
  - apply no_lf_app; [by apply no_lf_check|].
    apply no_lf_app; [|by apply no_lf_check].
    apply no_lf_join; [done|]. apply Forall_fmap.
    eapply Forall_impl; [exact IH|]. intros [k x] Hx. cbn [fst snd] in *.
    apply no_lf_app; [apply no_lf_encode_basestring|].
    by apply no_lf_app.
Qed.

End Dumps.

Lemma no_lf_dumps_compact float_repr v :
  (forall literal, no_lf (float_repr literal)) ->
  no_lf (dumps_compact float_repr v).
Proof.
  intros H. apply no_lf_dumps; [done|..]; by apply no_lf_check.
Qed.

End JsonFacts.

(* ================================================================== *)
(** * Properties of the migration *)
(* ================================================================== *)

Module MigrateFacts.
Import PyStr Json Migrate Samples Shapes MigrateSteps JsonFacts.

(** ** Names and paths *)

Lemma endswith_inv s suffix :
  endswith s suffix = true -> s = drop_last (length suffix) s ++ suffix.
Proof.
  unfold endswith, drop_last. intros H%bool_decide_eq_true.
  rewrite <- (take_drop (length s - length suffix) s) at 1. by rewrite H.
Qed.

Lemma endswith_app pre suffix : endswith (pre ++ suffix) suffix = true.
Proof.
  unfold endswith. apply bool_decide_eq_true.
  rewrite length_app. replace (length pre + length suffix - length suffix)%nat
    with (length pre) by lia.
  by rewrite drop_app_length.
Qed.

(** The id is what precedes [.core.json], or else what precedes [.json]. *)
Lemma record_id_from_path_inv path X :
  record_id_from_path path = Ok X ->
  name path = X ++ py ".core.json"
  \/ (name path = X ++ py ".json"
      /\ endswith (name path) (py ".core.json") = false).
Proof.
  unfold record_id_from_path.
  destruct (endswith (name path) (py ".core.json")) eqn:E1.
  - intros [= <-]. left. exact (endswith_inv _ _ E1).
  - destruct (endswith (name path) (py ".json")) eqn:E2; [|discriminate].
    intros [= <-]. right. split; [exact (endswith_inv _ _ E2)|done].
Qed.

Lemma with_name_inj path a b : with_name path a = with_name path b -> a = b.
Proof. by intros [= ?]. Qed.

Lemma with_name_suffix_ne path X a b :
  a <> b -> with_name path (X ++ a) <> with_name path (X ++ b).
Proof. intros Hne [= H%app_inv_head]. done. Qed.

(** ** Directories *)

Lemma dir_lookup_insert_eq (d : dir) path text :
  <[path := text]> d !! path = Some text.
Proof.
  unfold insert, lookup, dir_insert_inst, dir_lookup_inst.
  induction d as [|[q old] d IH]; cbn.
  - by rewrite decide_True.
  - destruct (decide (q = path)) as [->|Hq]; cbn.
    + by rewrite decide_True.
    + by rewrite decide_False.
Qed.

Lemma dir_lookup_insert_ne (d : dir) path q text :
  path <> q -> <[path := text]> d !! q = d !! q.
Proof.
  unfold insert, lookup, dir_insert_inst, dir_lookup_inst. intros Hne.
  induction d as [|[r old] d IH]; cbn.
  - by rewrite decide_False.
  - destruct (decide (r = path)) as [->|Hr]; cbn.
    + by rewrite !decide_False.
    + by rewrite IH.
Qed.

Lemma dir_lookup_delete_eq (d : dir) path : delete path d !! path = None.
Proof.
  unfold delete, lookup, dir_delete_inst, dir_lookup_inst.
  induction d as [|[q old] d IH]; cbn; [done|].
  destruct (decide (q = path)) as [->|Hq]; cbn; [done|].
  by rewrite decide_False.
Qed.

Lemma dir_lookup_delete_ne (d : dir) path q :
  path <> q -> delete path d !! q = d !! q.
Proof.
  unfold delete, lookup, dir_delete_inst, dir_lookup_inst. intros Hne.
  induction d as [|[r old] d IH]; cbn; [done|].
  destruct (decide (r = path)) as [->|Hr]; cbn.
  - by rewrite decide_False.
  - by rewrite IH.
Qed.

(** ** Reading *)

Lemma path_exists_read st path :
  path_exists st path = true ->
  exists text, files st !! path = Some text /\ read_text st path = Ok text.
Proof.
  unfold path_exists, read_text. destruct (files st !! path) as [text|]; [|done].
  intros _. by exists text.
Qed.

Lemma path_exists_false st path :
  path_exists st path = false -> files st !! path = None.
Proof. unfold path_exists. by destruct (files st !! path). Qed.

Ltac bind_inv H :=
  repeat match type of H with
  | mbind _ ?r = Ok _ =>
      let E := fresh "E" in
      destruct r eqn:E; cbn [mbind result_bind] in H; [|discriminate H]
  end.

(** ** Texts that can be encoded *)

Lemma encodable_cons c t : encodable (c :: t) = negb (is_surrogate c) && encodable t.
Proof. reflexivity. Qed.

Lemma encodable_app a b : encodable (a ++ b) = encodable a && encodable b.
Proof. apply forallb_app. Qed.

Lemma encodable_app_true a b :
  encodable a = true -> encodable b = true -> encodable (a ++ b) = true.
Proof. rewrite encodable_app. by intros -> ->. Qed.

Lemma encodable_join sep parts :
  encodable sep = true -> Forall (fun p => encodable p = true) parts ->
  encodable (join sep parts) = true.
Proof.
  intros Hsep. induction 1 as [|p rest Hp Hrest IH]; [done|].
  cbn [join]. destruct rest as [|p' rest']; [done|].
  apply encodable_app_true; [done|]. by apply encodable_app_true.
Qed.

Lemma hex_digit_ascii n : (n < 16)%N -> is_surrogate (hex_digit n) = false.
Proof.
  intros Hn. unfold hex_digit, is_surrogate, inrange.
  destruct (N.ltb_spec n 10); apply andb_false_intro1, N.leb_gt; lia.
Qed.

Lemma encodable_escape_char c :
  is_surrogate c = false -> encodable (escape_char c) = true.
Proof.
  intros Hc. unfold escape_char.
  repeat (case_match; [reflexivity|]).
  case_match eqn:E32.
  - apply N.ltb_lt in E32. rewrite !encodable_cons.
    rewrite !hex_digit_ascii; [reflexivity|..].
    + apply N.mod_lt. lia.
    + apply N.Div0.div_lt_upper_bound. lia.
  - by rewrite encodable_cons, Hc.
Qed.

Lemma encodable_encode_basestring s :
  encodable s = true -> encodable (encode_basestring s) = true.
Proof.
  intros Hs. unfold encode_basestring.
  apply encodable_app_true; [done|]. apply encodable_app_true; [|done].
  induction s as [|c s IH]; [done|].
  rewrite encodable_cons in Hs. apply andb_prop in Hs as [Hc Hs].
  cbn [fmap list_fmap concat]. apply encodable_app_true; [|by apply IH].
  apply encodable_escape_char. by apply negb_true_iff.
Qed.

Lemma encodable_digits d : encodable (py (NilEmpty.string_of_uint d)) = true.
Proof.
  induction d as [|d IH|d IH|d IH|d IH|d IH|d IH|d IH|d IH|d IH|d IH];
    cbn [NilEmpty.string_of_uint]; [done|..];
    by rewrite py_String, encodable_cons, IH.
Qed.

Lemma encodable_uint d : encodable (py (NilZero.string_of_uint d)) = true.
Proof. destruct d; try apply (encodable_digits (_ _)). done. Qed.

Lemma encodable_int_repr z : encodable (int_repr z) = true.
Proof.
  unfold int_repr. destruct (Z.to_int z) as [d|d]; cbn [NilZero.string_of_int].
  - apply encodable_uint.
  - rewrite py_String, encodable_cons. by rewrite (encodable_uint d).
Qed.

Section EncodableDumps.

Context (float_repr : pystr -> pystr) (item_separator key_separator : pystr).

Hypothesis float_repr_plain : forall literal, encodable (float_repr literal) = true.
Hypothesis item_separator_plain : encodable item_separator = true.
Hypothesis key_separator_plain : encodable key_separator = true.

(** A document without surrogates is encoded without surrogates. *)
Lemma encodable_dumps v :
  surrogate_free v = true ->
  encodable (dumps float_repr item_separator key_separator v) = true.
Proof using All.
  induction v as [ |b|z|literal|s|items IH|members IH] using json_ind;
    cbn [dumps surrogate_free]; intros Hs.
  - done.
  - by destruct b.
  - apply encodable_int_repr.
  - apply float_repr_plain.
  - by apply encodable_encode_basestring.
  - apply encodable_app_true; [done|]. apply encodable_app_true; [|done].
    apply encodable_join; [done|]. apply Forall_fmap.
    apply forallb_Forall_true in Hs.
    induction IH as [|x items Hx _ IHi]; [constructor|].
    apply Forall_cons in Hs as [Hs1 Hs].
    constructor; [by apply Hx|by apply IHi].
  - apply encodable_app_true; [done|]. apply encodable_app_true; [|done].
    apply encodable_join; [done|]. apply Forall_fmap.
    apply (forallb_Forall_true (fun kv => encodable kv.1 && surrogate_free kv.2)) in Hs.
    induction IH as [|[k x] members Hx _ IHm]; [constructor|].
    apply Forall_cons in Hs as [Hs1 Hs].
    cbn [fst snd] in *. apply andb_prop in Hs1 as [Hk Hs1].
    constructor; [|by apply IHm]. cbn [fst snd].
    apply encodable_app_true; [by apply encodable_encode_basestring|].
    apply encodable_app_true; [done|by apply Hx].
Qed.

End EncodableDumps.

Lemma encodable_dumps_compact float_repr v :
  (forall literal, encodable (float_repr literal) = true) ->
  surrogate_free v = true -> encodable (dumps_compact float_repr v) = true.
Proof. intros H. by apply encodable_dumps. Qed.

Lemma encodable_dumps_default float_repr v :
  (forall literal, encodable (float_repr literal) = true) ->
  surrogate_free v = true -> encodable (dumps_default float_repr v) = true.
Proof. intros H. by apply encodable_dumps. Qed.

(** ** What every part of a document inherits *)

Lemma Forall_omap_from {A B} (f : A -> option B) (Q : A -> Prop) (P : B -> Prop) l :
  (forall x y, Q x -> f x = Some y -> P y) -> Forall Q l -> Forall P (omap f l).
Proof.
  intros H. induction 1 as [|x l Hx Hl IH]; [constructor|].
  cbn [omap list_omap]. destruct (f x) as [y|] eqn:E; [|done].
  constructor; [by eapply H|done].
Qed.

Section Hereditary.

Context (P : json -> bool).

Hypothesis P_null : P JNull = true.
Hypothesis P_items : forall items,
  P (JArr items) = true -> Forall (fun v => P v = true) items.
Hypothesis P_members : forall d,
  P (JObj d) = true -> Forall (fun kv => P kv.2 = true) d.
Hypothesis P_call : forall n a,
  P (JStr n) = true -> P a = true ->
  P (JObj [(py "tool_name", JStr n); (py "args", a)]) = true.

Lemma py_get_inherits d k : P (JObj d) = true -> P (py_get d k) = true.
Proof using P_null P_members.
  intros Hd%P_members. unfold py_get.
  induction Hd as [|[k' v] d Hv Hd IH]; [done|]. cbn [dict_get].
  destruct (decide (k' = k)); [done|apply IH].
Qed.

Lemma tool_call_of_inherits d c :
  P (JObj d) = true -> tool_call_of d = Some c -> P c = true.
Proof using All.
  intros Hd. unfold tool_call_of.
  pose proof (py_get_inherits d (py "tool_name") Hd) as Hn.
  pose proof (py_get_inherits d (py "args") Hd) as Ha.
  destruct (py_get d (py "tool_name")) as [| | | |n| |]; try discriminate.
  destruct n as [|x n]; [discriminate|].
  destruct (py_get d (py "args")); try discriminate; intros [= <-]; by apply P_call.
Qed.

Lemma response_tool_calls_inherit resp :
  P (JObj resp) = true ->
  Forall (fun c => P c = true) (_extract_tool_calls_from_response_dict resp).
Proof using All.
  intros Hd. unfold _extract_tool_calls_from_response_dict.
  pose proof (py_get_inherits resp (py "parts") Hd) as Hp.
  destruct (py_get resp (py "parts")) as [| | | | |parts|]; try constructor.
  apply P_items in Hp. eapply Forall_omap_from; [|exact Hp].
  intros [| | | | | |d] c Hx; try discriminate. cbn beta iota.
  destruct (str_equals _ _); [|discriminate]. by apply tool_call_of_inherits.
Qed.

Lemma legacy_tool_calls_inherit value :
  P value = true ->
  Forall (fun c => P c = true) (_extract_tool_calls_from_legacy_detailed value).
Proof using All.
  intros Hv. unfold _extract_tool_calls_from_legacy_detailed.
  apply Forall_concat, Forall_fmap. unfold extract_legacy_model_responses.
  destruct value as [| | | | |items|]; try constructor.
  apply P_items in Hv. eapply Forall_omap_from; [|exact Hv].
  intros [| | | | | |d] resp Hx; try discriminate. cbn [is_response].
  destruct (str_equals _ _); [|discriminate]. intros [= <-].
  by apply response_tool_calls_inherit.
Qed.

End Hereditary.

Lemma surrogate_free_items items :
  surrogate_free (JArr items) = true -> Forall (fun v => surrogate_free v = true) items.
Proof. cbn [surrogate_free]. apply forallb_Forall_true. Qed.

Lemma surrogate_free_members d :
  surrogate_free (JObj d) = true ->
  Forall (fun kv => encodable kv.1 && surrogate_free kv.2 = true) d.
Proof.
  cbn [surrogate_free].
  apply (forallb_Forall_true (fun kv => encodable kv.1 && surrogate_free kv.2)).
Qed.

(** The tool calls taken from a traced run hold no surrogate when the
    trace holds none. *)
Lemma legacy_tool_calls_surrogate_free value :
  surrogate_free value = true ->
  surrogate_free (JArr (_extract_tool_calls_from_legacy_detailed value)) = true.
Proof.
  intros Hv. cbn [surrogate_free]. apply forallb_Forall_true. revert Hv.
  apply legacy_tool_calls_inherit; [done|apply surrogate_free_items| |].
  - intros d Hd%surrogate_free_members.
    eapply Forall_impl; [exact Hd|]. by intros kv [_ ?]%andb_prop.
  - intros n a Hn Ha. cbn [surrogate_free forallb fst snd] in *.
    rewrite Hn, Ha. done.
Qed.

Lemma dict_set_all (Q : pystr * json -> Prop) d k v :
  Forall Q d -> Q (k, v) -> Forall Q (dict_set d k v).
Proof.
  intros Hd Hk. induction Hd as [|[k' v'] d Hh Hd IH]; cbn [dict_set].
  - by constructor.
  - destruct (decide (k' = k)) as [->|]; constructor; done.
Qed.

Lemma Forall_filter_keeps {A} (Q R : A -> Prop) `{!forall x, Decision (R x)} l :
  Forall Q l -> Forall Q (filter R l).
Proof.
  rewrite !Forall_forall. intros Hl x [_ Hx]%list_elem_of_filter. by apply Hl.
Qed.

(** The object written to the core file holds no surrogate when the
    record holds none. *)
Lemma core_payload_surrogate_free record compacted :
  surrogate_free (JObj record) = true ->
  forallb encodable compacted = true ->
  surrogate_free
    (JObj (dict_set
             (filter (fun kv => kv.1 ∉ [py "input"; py "output"; py "detailed"]) record)
             (py "compacted") (JArr (JStr <$> compacted)))) = true.
Proof.
  intros Hr%surrogate_free_members Hc. cbn [surrogate_free].
  apply (forallb_Forall_true (fun kv => encodable kv.1 && surrogate_free kv.2)).
  apply (dict_set_all (fun kv => encodable kv.1 && surrogate_free kv.2 = true)).
  - by apply Forall_filter_keeps.
  - cbn [fst snd surrogate_free]. apply andb_true_intro. split; [done|].
    apply forallb_Forall_true, Forall_fmap. by apply forallb_Forall_true in Hc.
Qed.

(** ** The writes *)

(** [apply_plan] writes both texts, or stops at the first that cannot be
    encoded. *)
Lemma apply_plan_outcome p dlc st :
  apply_plan p dlc st =
    if encodable (core_text p) then
      if encodable (detailed_text p) then (Ok tt, written p dlc st)
      else (Raise UnicodeError,
            temp_left (detailed_path p) (write (core_path p) (core_text p) st))
    else (Raise UnicodeError, temp_left (core_path p) st).
Proof.
  unfold apply_plan, written, atomic_write_text, and_then.
  destruct (encodable (core_text p)); [|done].
  destruct (detailed_text p) as [|c t]; [done|].
  by destruct (encodable (c :: t)).
Qed.

(** The events the writes of a plan add when they succeed, and the files
    they leave. *)
Lemma written_spec p dlc st :
  core_path p <> detailed_path p ->
  exists det comp,
    events (written p dlc st)
      = events st ++ EvWrite (core_path p) (core_text p) :: det ++ comp
    /\ (det = []
        \/ (detailed_text p <> []
            /\ (det = [EvWrite (detailed_path p) (detailed_text p)]
                \/ det = [EvWrite (detailed_path p) (detailed_text p);
                          EvUnlink (legacy_detailed_path p)])))
    /\ (comp = [] \/ (dlc = true /\ comp = [EvUnlink (legacy_compacted_path p)]))
    /\ (forall q, q <> core_path p -> q <> detailed_path p ->
          q <> legacy_detailed_path p -> q <> legacy_compacted_path p ->
          files (written p dlc st) !! q = files st !! q).
Proof.
  intros Hcd. unfold written.
  set (st1 := write (core_path p) (core_text p) st).
  set (st2 := match detailed_text p with
              | [] => st1
              | _ => let st := write (detailed_path p) (detailed_text p) st1 in
                     if path_exists st (legacy_detailed_path p)
                     then unlink (legacy_detailed_path p) st else st
              end).
  assert (H2 : exists det,
    events st2 = events st1 ++ det
    /\ (det = []
        \/ (detailed_text p <> []
            /\ (det = [EvWrite (detailed_path p) (detailed_text p)]
                \/ det = [EvWrite (detailed_path p) (detailed_text p);
                          EvUnlink (legacy_detailed_path p)])))
    /\ (forall q, q <> detailed_path p -> q <> legacy_detailed_path p ->
          files st2 !! q = files st1 !! q)).
  { subst st2. destruct (detailed_text p) as [|c t] eqn:Edt.
    - exists []. rewrite app_nil_r. auto.
    - cbv zeta.
      destruct (path_exists _ (legacy_detailed_path p)).
      + exists [EvWrite (detailed_path p) (c :: t); EvUnlink (legacy_detailed_path p)].
        cbn [unlink write events files].
        rewrite <- app_assoc. split; [done|]. split; [right; split; [done|by right]|].
        intros q Hq1 Hq2. rewrite dir_lookup_delete_ne, dir_lookup_insert_ne; done.
      + exists [EvWrite (detailed_path p) (c :: t)].
        cbn [write events files].
        split; [done|]. split; [right; split; [done|by left]|].
        intros q Hq1 Hq2. by rewrite dir_lookup_insert_ne. }
  destruct H2 as (det & Hev2 & Hdet & Hf2).
  exists det.
  destruct (dlc && path_exists st2 (legacy_compacted_path p)) eqn:Ec.
  - apply andb_prop in Ec as [-> _].
    exists [EvUnlink (legacy_compacted_path p)].
    cbn [unlink events files]. rewrite Hev2. subst st1.
    cbn [write events files].
    rewrite <- !app_assoc. split; [done|]. split; [done|]. split; [by right|].
    intros q Hq1 Hq2 Hq3 Hq4.
    rewrite dir_lookup_delete_ne, Hf2 by done.
    cbn [files write]. by rewrite dir_lookup_insert_ne.
  - exists []. rewrite Hev2. subst st1.
    cbn [write events files].
    rewrite app_nil_r, <- !app_assoc. split; [done|]. split; [done|]. split; [by left|].
    intros q Hq1 Hq2 Hq3 Hq4. rewrite Hf2 by done.
    cbn [files write]. by rewrite dir_lookup_insert_ne.
Qed.

Lemma text_differs_spec st path text :
  text_differs st path text = Ok (bool_decide (files st !! path <> Some text)).
Proof.
  unfold text_differs, path_exists, read_text.
  destruct (files st !! path) as [on_disk|] eqn:E.
  - cbn [mbind result_bind].
    f_equal. apply bool_decide_ext. split; congruence.
  - by rewrite bool_decide_eq_true_2.
Qed.

Lemma read_existing_detailed_ok st legacy detailed :
  exists text, read_existing_detailed st legacy detailed = Ok text.
Proof.
  unfold read_existing_detailed.
  destruct (path_exists st legacy) eqn:E1.
  { destruct (path_exists_read _ _ E1) as (t & _ & ->). eauto. }
  destruct (path_exists st detailed) eqn:E2; [|eauto].
  destruct (path_exists_read _ _ E2) as (t & _ & ->). eauto.
Qed.

Lemma with_name_name path : with_name path (name path) = path.
Proof. by destruct path. Qed.

Section Interpreter.

Context (recursion_limit : nat) (float_repr : pystr -> pystr).

(** The four paths of a plan are the siblings of [path] named after the
    record id. *)
Lemma plan_migration_paths path st p :
  plan_migration recursion_limit float_repr path st = Ok p ->
  exists X,
    record_id_from_path path = Ok X
    /\ core_path p = with_name path (X ++ py ".core.json")
    /\ detailed_path p = with_name path (X ++ py ".detailed.jsonl")
    /\ legacy_detailed_path p = with_name path (X ++ py ".detailed.json")
    /\ legacy_compacted_path p = with_name path (X ++ py ".compacted.json").
Proof.
  unfold plan_migration. intros H.
  bind_inv H. destruct a0; try discriminate H.
  unfold core_path_for_record_path, detailed_path_for_record_path,
    legacy_detailed_path_for_record_path,
    legacy_compacted_path_for_record_path in H.
  destruct (record_id_from_path path) as [X|] eqn:EX;
    cbn [mbind result_bind] in H; [|discriminate H].
  bind_inv H. injection H as <-. exists X. cbn. done.
Qed.

(** [migrate_record_file] by cases: the plan fails; nothing is to be
    done; both texts are written; or a write fails. *)
Lemma migrate_record_file_outcome path dlc force dry_run st :
  migrate_record_file recursion_limit float_repr path dlc force dry_run st =
    match plan_migration recursion_limit float_repr path st with
    | Raise e => (Raise e, st)
    | Ok p =>
        if dry_run || negb (changed p) then (Ok (changed p), st)
        else if encodable (core_text p) then
          if encodable (detailed_text p) then (Ok true, written p dlc st)
          else (Raise UnicodeError,
                temp_left (detailed_path p) (write (core_path p) (core_text p) st))
        else (Raise UnicodeError, temp_left (core_path p) st)
    end.
Proof.
  unfold migrate_record_file.
  destruct (plan_migration recursion_limit float_repr path st) as [p|e]; [|done].
  destruct (dry_run || negb (changed p)); [done|].
  rewrite apply_plan_outcome. unfold and_then.
  by destruct (encodable (core_text p)), (encodable (detailed_text p)).
Qed.

(** When [migrate_record_file] returns, it made no write or both. *)
Lemma migrate_record_file_returns path dlc force dry_run st b st' :
  migrate_record_file recursion_limit float_repr path dlc force dry_run st = (Ok b, st') ->
  exists p,
    plan_migration recursion_limit float_repr path st = Ok p
    /\ ((dry_run || negb (changed p) = true /\ b = changed p /\ st' = st)
        \/ (dry_run = false /\ changed p = true /\ b = true
            /\ encodable (core_text p) = true /\ encodable (detailed_text p) = true
            /\ st' = written p dlc st)).
Proof.
  rewrite migrate_record_file_outcome.
  destruct (plan_migration recursion_limit float_repr path st) as [p|e]; [|done].
  exists p. split; [done|].
  destruct (dry_run || negb (changed p)) eqn:Eskip.
  - injection H as <- <-. by left.
  - apply orb_false_iff in Eskip as [-> Hc]. apply negb_false_iff in Hc.
    destruct (encodable (core_text p)); [|done].
    destruct (encodable (detailed_text p)); [|done].
    injection H as <- <-. by right.
Qed.

(** ** C10 *)


(** ** C4 *)

(** C4, for a record without surrogates. Let the record file of id [X]
    decode to an object with [input = "hi"], [output = "ok"] and no
    [compacted] key, in which no string and no key holds a surrogate code
    point, and let [X.compacted.json] decode to [["summary"]]. Then
    [migrate_record_file] (not a dry run) returns, and afterwards
    [X.core.json] is the one-line encoding of an object, followed by a
    line feed, in which [compacted] is [["summary"]] and [input], [output]
    and [detailed] are absent; and [X.detailed.jsonl] consists of exactly
    three non-empty lines, each ended by a line feed, of which the first
    decodes to ["hi"] and the second to ["ok"] (the third is the encoded
    list of tool calls). *)
Theorem C4_migrates_legacy_with_sidecar
    (float_repr_line : forall literal, no_lf (float_repr literal))
    (float_repr_plain : forall literal, encodable (float_repr literal) = true)
    path X st raw record sidecar dlc force :
  record_id_from_path path = Ok X ->
  files st !! path = Some raw ->
  loads recursion_limit raw = Ok (JObj record) ->
  surrogate_free (JObj record) = true ->
  dict_get record (py "input") = Some (JStr (py "hi")) ->
  dict_get record (py "output") = Some (JStr (py "ok")) ->
  dict_get record (py "compacted") = None ->
  files st !! with_name path (X ++ py ".compacted.json") = Some sidecar ->
  loads recursion_limit sidecar = Ok (JArr [JStr (py "summary")]) ->
  exists b st' payload line1 line2 line3,
    migrate_record_file recursion_limit float_repr path dlc force false st
      = (Ok b, st')
    /\ files st' !! with_name path (X ++ py ".core.json")
       = Some (dumps_compact float_repr (JObj payload) ++ [LF])
    /\ no_lf (dumps_compact float_repr (JObj payload))
    /\ dict_get payload (py "compacted") = Some (JArr [JStr (py "summary")])
    /\ dict_get payload (py "input") = None
    /\ dict_get payload (py "output") = None
    /\ dict_get payload (py "detailed") = None
    /\ files st' !! with_name path (X ++ py ".detailed.jsonl")
       = Some (line1 ++ [LF] ++ line2 ++ [LF] ++ line3 ++ [LF])
    /\ (no_lf line1 /\ no_lf line2 /\ no_lf line3)
    /\ (line1 <> [] /\ line2 <> [] /\ line3 <> [])
    /\ loads recursion_limit line1 = Ok (JStr (py "hi"))
    /\ loads recursion_limit line2 = Ok (JStr (py "ok")).
Proof.
  intros HX Hraw Hrec Hfree Hin Hout Hnc Hside Hsl.
  set (payload := dict_set
         (filter (fun kv => kv.1 ∉ [py "input"; py "output"; py "detailed"]) record)
         (py "compacted") (JArr [JStr (py "summary")])).
  set (calls := _extract_tool_calls_from_legacy_detailed (py_get record (py "detailed"))).
  set (core := with_name path (X ++ py ".core.json")).
  set (detailed := with_name path (X ++ py ".detailed.jsonl")).
  set (ctext := dumps_compact float_repr (JObj payload) ++ [LF]).
  set (line1 := dumps_default float_repr (JStr (py "hi"))).
  set (line2 := dumps_default float_repr (JStr (py "ok"))).
  set (line3 := dumps_compact float_repr (JArr calls)).
  set (dtext := line1 ++ [LF] ++ line2 ++ [LF] ++ line3 ++ [LF]).
  assert (Hplan : exists b,
    plan_migration recursion_limit float_repr path st
    = Ok {| core_path := core; detailed_path := detailed;
            legacy_detailed_path := with_name path (X ++ py ".detailed.json");
            legacy_compacted_path := with_name path (X ++ py ".compacted.json");
            core_text := ctext; detailed_text := dtext; changed := b |}
    /\ (b = false -> files st !! core = Some ctext /\ files st !! detailed = Some dtext)).
  { unfold plan_migration, read_text. rewrite Hraw. cbn [mbind result_bind].
    rewrite Hrec. cbn [mbind result_bind].
    unfold core_path_for_record_path, detailed_path_for_record_path,
      legacy_detailed_path_for_record_path, legacy_compacted_path_for_record_path.
    rewrite HX. cbn [mbind result_bind].
    unfold optional_str_field, py_get. rewrite Hin, Hout, Hnc.
    cbn [default from_option id mbind result_bind coerce_compacted].
    unfold path_exists at 1. rewrite Hside.
    cbn [mbind result_bind].
    rewrite Hsl. cbn [mbind result_bind].
    change (coerce_compacted (JArr [JStr (py "summary")])) with (Some [py "summary"]).
    cbn [default from_option id fmap list_fmap].
    destruct (read_existing_detailed_ok st
                (with_name path (X ++ py ".detailed.json"))
                (with_name path (X ++ py ".detailed.jsonl"))) as (existing & ->).
    cbn [mbind result_bind join].
    rewrite !text_differs_spec. cbn [mbind result_bind].
    fold payload. fold ctext. fold core. fold detailed.
    change (default JNull (dict_get record (py "detailed")))
      with (py_get record (py "detailed")).
    fold calls. fold line1. fold line2. fold line3.
    assert (Hd : line1 ++ [LF] ++ line2 ++ [LF] ++ line3 = join [LF] [line1; line2; line3])
      by reflexivity.
    assert (Hne : exists c t, (line1 ++ [LF] ++ line2 ++ [LF] ++ line3) ++ [LF] = c :: t).
    { by exists QUOTE, (tl line1 ++ [LF] ++ line2 ++ [LF] ++ line3 ++ [LF]). }
    destruct Hne as (c & t & Hne). rewrite Hne.
    cbn [mbind result_bind]. rewrite <- Hne.
    replace ((line1 ++ [LF] ++ line2 ++ [LF] ++ line3) ++ [LF]) with dtext
      by (unfold dtext; by rewrite <- !app_assoc).
    eexists. split; [reflexivity|].
    intros [H1 H2]%orb_false_iff.
    apply bool_decide_eq_false in H1, H2.
    split; [by destruct (decide (files st !! core = Some ctext))
           | by destruct (decide (files st !! detailed = Some dtext))]. }
  destruct Hplan as (b & Hplan & Hb).
  assert (Hcd : core <> detailed) by (by apply with_name_suffix_ne).
  assert (Hctext : encodable ctext = true).
  { apply encodable_app_true; [|done]. apply encodable_dumps_compact; [done|].
    by apply (core_payload_surrogate_free record [py "summary"]). }
  assert (Hdtext : encodable dtext = true).
  { unfold dtext.
    apply encodable_app_true; [done|]. apply (encodable_app_true [LF]); [done|].
    apply encodable_app_true; [done|]. apply (encodable_app_true [LF]); [done|].
    apply encodable_app_true; [|done].
    apply encodable_dumps_compact; [done|].
    apply legacy_tool_calls_surrogate_free.
    apply (py_get_inherits surrogate_free); [done| |done].
    intros d Hd%surrogate_free_members.
    eapply Forall_impl; [exact Hd|]. by intros kv [_ ?]%andb_prop. }
  assert (Hfinal : exists st',
                     migrate_record_file recursion_limit float_repr path dlc force false st
                     = (Ok b, st')
                   /\ files st' !! core = Some ctext
                   /\ files st' !! detailed = Some dtext).
  { rewrite migrate_record_file_outcome, Hplan.
    cbn [changed orb core_text detailed_text core_path detailed_path].
    destruct b; cbn [negb].
    - rewrite Hctext, Hdtext. eexists. split; [reflexivity|].
      unfold written.
      cbn [core_path core_text detailed_path detailed_text legacy_detailed_path
           legacy_compacted_path].
      assert (Hne : exists c t, dtext = c :: t).
      { by exists QUOTE, (tl line1 ++ [LF] ++ line2 ++ [LF] ++ line3 ++ [LF]). }
      destruct Hne as (c & t & Hne). rewrite Hne. rewrite <- Hne.
      repeat match goal with
      | |- context [if ?c then _ else _] => destruct c
      end;
      cbn [files unlink write];
      rewrite ?dir_lookup_delete_ne by (by apply with_name_suffix_ne);
      rewrite ?dir_lookup_insert_eq; rewrite ?dir_lookup_insert_ne by done;
      rewrite ?dir_lookup_insert_eq; done.
    - destruct (Hb eq_refl) as [H1 H2]. eauto. }
  destruct Hfinal as (st' & Hm & Hc & Hd).
  exists b, st', payload, line1, line2, line3.
  split; [done|]. split; [done|].
  split; [by apply no_lf_dumps_compact|].
  split; [apply dict_get_set_eq|].
  split.
  { unfold payload. rewrite dict_get_set_ne by done.
    apply dict_get_filter_out. rewrite !elem_of_cons. by left. }
  split.
  { unfold payload. rewrite dict_get_set_ne by done.
    apply dict_get_filter_out. rewrite !elem_of_cons. right. by left. }
  split.
  { unfold payload. rewrite dict_get_set_ne by done.
    apply dict_get_filter_out. rewrite !elem_of_cons. right. right. by left. }
  split; [done|].
  split.
  { split; [by apply no_lf_check|]. split; [by apply no_lf_check|].
    by apply no_lf_dumps_compact. }
  split; [done|].
  split; apply loads_flat; vm_refl.
Qed.

End Interpreter.

Lemma C4_migrates_legacy_with_sidecar_witness :
  let float_repr := fun _ : pystr => py "0.0" in
  exists b st' payload line1 line2 line3,
    migrate_record_file sample_limit float_repr (file "X.json") false false false
      legacy_dir = (Ok b, st')
    /\ files st' !! with_name (file "X.json") (py "X" ++ py ".core.json")
       = Some (dumps_compact float_repr (JObj payload) ++ [LF])
    /\ no_lf (dumps_compact float_repr (JObj payload))
    /\ dict_get payload (py "compacted") = Some (JArr [JStr (py "summary")])
    /\ dict_get payload (py "input") = None
    /\ dict_get payload (py "output") = None
    /\ dict_get payload (py "detailed") = None
    /\ files st' !! with_name (file "X.json") (py "X" ++ py ".detailed.jsonl")
       = Some (line1 ++ [LF] ++ line2 ++ [LF] ++ line3 ++ [LF])
    /\ (no_lf line1 /\ no_lf line2 /\ no_lf line3)
    /\ (line1 <> [] /\ line2 <> [] /\ line3 <> [])
    /\ loads sample_limit line1 = Ok (JStr (py "hi"))
    /\ loads sample_limit line2 = Ok (JStr (py "ok")).
Proof.
  cbv zeta.
  apply (C4_migrates_legacy_with_sidecar sample_limit (fun _ => py "0.0")
           (fun _ => no_lf_check (py "0.0") eq_refl) (fun _ => eq_refl)
           (file "X.json") (py "X") legacy_dir (text_of legacy_hi)
           [(py "id_", JStr (py "X")); (py "parents", JArr []);
            (py "input", JStr (py "hi")); (py "output", JStr (py "ok"))]
           (text_of (JArr [JStr (py "summary")])) false false).
  - vm_refl.
  - vm_refl.
  - vm_refl.
  - vm_refl.
  - reflexivity.
  - reflexivity.
  - reflexivity.
  - vm_refl.
  - vm_refl.
Defined.

(** C4 as stated fails on the code. The file [X.json] of [surrogate_dir]
    is plain ASCII and decodes to an object with [input = "hi"],
    [output = "ok"], no [compacted] key, and a [note] that is the surrogate
    U+D800, written in the file as an escape; the sidecar decodes to
    [["summary"]]. [migrate_record_file] (not a dry run) keeps the note in
    the core text and raises [UnicodeEncodeError] when it writes it:
    afterwards there is no [X.core.json] and no [X.detailed.jsonl], and
    all that has happened is that a temporary file was left beside the
    place of [X.core.json]. *)
Lemma C4_lone_surrogate_counterexample :
  let float_repr := fun literal : pystr => literal in
  let path := file "X.json" in
  let record :=
    [(py "id_", JStr (py "X")); (py "note", JStr [55296%N]);
     (py "input", JStr (py "hi")); (py "output", JStr (py "ok"))] in
  let sidecar := text_of (JArr [JStr (py "summary")]) in
  (record_id_from_path path = Ok (py "X")
   /\ files surrogate_dir !! path = Some legacy_surrogate_text
   /\ encodable legacy_surrogate_text = true
   /\ loads sample_limit legacy_surrogate_text = Ok (JObj record)
   /\ dict_get record (py "input") = Some (JStr (py "hi"))
   /\ dict_get record (py "output") = Some (JStr (py "ok"))
   /\ dict_get record (py "compacted") = None
   /\ files surrogate_dir !! with_name path (py "X" ++ py ".compacted.json")
      = Some sidecar
   /\ loads sample_limit sidecar = Ok (JArr [JStr (py "summary")]))
  /\ exists st',
       migrate_record_file sample_limit float_repr path false false false
         surrogate_dir = (Raise UnicodeError, st')
       /\ files st' !! with_name path (py "X" ++ py ".core.json") = None
       /\ files st' !! with_name path (py "X" ++ py ".detailed.jsonl") = None
       /\ events st' = [EvTempLeft (file "X.core.json")].
Proof.
  cbv zeta. split; [repeat split; vm_refl|].
  exists (temp_left (file "X.core.json") surrogate_dir).
  repeat split; vm_refl.
Qed.


(** ** A higher recursion limit *)

Lemma bind_stable {A B} (m m' : result A) (f f' : A -> result B) :
  (hit_recursion_limit m = false -> m' = m) ->
  (forall a, hit_recursion_limit (f a) = false -> f' a = f a) ->
  hit_recursion_limit (m ≫= f) = false -> m' ≫= f' = m ≫= f.
Proof.
  intros Hm Hf. destruct m as [a|e]; cbn [mbind result_bind].
  - rewrite Hm by done. cbn [mbind result_bind]. apply Hf.
  - intros He. by rewrite (Hm He).
Qed.

Lemma main_loop_errors limit float_repr paths dlc force dry_run : forall st c s e c' s' e' st',
  main_loop limit float_repr paths dlc force dry_run st c s e = (c', s', e', st') ->
  (e <= e')%nat.
Proof.
  induction paths as [|path paths IH]; intros st c s e c' s' e' st'; cbn [main_loop].
  - intros [= _ _ <- _]. lia.
  - destruct (migrate_record_file limit float_repr path dlc force dry_run st)
      as [[[|]|] st1]; intros H%IH; lia.
Qed.

Section Stable.

Context (limit limit' : nat) (float_repr : pystr -> pystr).

Hypothesis limit_le : (limit <= limit')%nat.

Lemma loads_at_higher_limit text :
  hit_recursion_limit (loads limit text) = false ->
  loads limit' text = loads limit text.
Proof using limit_le. intros H. by apply (loads_stable limit limit'). Qed.

Lemma loads_or_none_stable text :
  hit_recursion_limit (loads_or_none limit text) = false ->
  loads_or_none limit' text = loads_or_none limit text.
Proof using limit_le.
  unfold loads_or_none, try_except.
  pose proof (loads_stable limit limit' text _ limit_le eq_refl) as Hl.
  destruct (loads limit text) as [v|e]; cbn [mbind result_bind].
  - by rewrite Hl.
  - intros He. rewrite Hl; [done|]. by destruct e.
Qed.

Lemma response_lines_tool_calls_stable lines :
  hit_recursion_limit (response_lines_tool_calls limit lines) = false ->
  response_lines_tool_calls limit' lines = response_lines_tool_calls limit lines.
Proof using limit_le.
  induction lines as [|line lines IH]; [done|]. cbn [response_lines_tool_calls].
  apply bind_stable; [apply loads_or_none_stable|]. intros obj.
  apply bind_stable; [apply IH|]. done.
Qed.

Lemma parse_existing_detailed_stable text :
  hit_recursion_limit (_parse_existing_detailed_jsonl limit text) = false ->
  _parse_existing_detailed_jsonl limit' text = _parse_existing_detailed_jsonl limit text.
Proof using limit_le.
  unfold _parse_existing_detailed_jsonl.
  destruct (strip <$> filter _ (splitlines text)) as [|first [|second more]];
    [done..|].
  apply bind_stable; [apply loads_or_none_stable|]. intros [decoded_input|]; [|done].
  apply bind_stable; [apply loads_or_none_stable|]. intros [decoded_output|]; [|done].
  destruct decoded_input; try done. destruct decoded_output; try done.
  destruct more as [|third_line more]; [done|].
  apply bind_stable; [apply loads_or_none_stable|]. intros third.
  assert (Hrest :
    hit_recursion_limit
      (response_lines_tool_calls limit (third_line :: more)
         ≫= fun tool_calls => Ok (Some s, Some s0, tool_calls)) = false ->
    response_lines_tool_calls limit' (third_line :: more)
      ≫= (fun tool_calls => Ok (Some s, Some s0, tool_calls))
    = response_lines_tool_calls limit (third_line :: more)
      ≫= (fun tool_calls => Ok (Some s, Some s0, tool_calls))).
  { apply bind_stable; [apply response_lines_tool_calls_stable|done]. }
  destruct third as [[| | | | | |]|]; done || exact Hrest.
Qed.

(** What [plan_migration] returns, and what it raises other than
    [RecursionError], is the same at every higher limit. *)
Lemma plan_migration_stable path st :
  hit_recursion_limit (plan_migration limit float_repr path st) = false ->
  plan_migration limit' float_repr path st = plan_migration limit float_repr path st.
Proof using limit_le.
  unfold plan_migration.
  apply bind_stable; [done|]. intros raw.
  apply bind_stable; [apply loads_at_higher_limit|]. intros [| | | | | |record]; try done.
  do 6 (apply bind_stable; [done|]; intros ?).
  apply bind_stable.
  { destruct (coerce_compacted _); [done|]. destruct (path_exists _ _); [|done].
    apply bind_stable; [done|]. intros text.
    apply bind_stable; [apply loads_at_higher_limit|done]. }
  intros compacted. cbv zeta.
  apply bind_stable; [done|]. intros existing.
  apply bind_stable; [|done].
  assert (Hparse :
    hit_recursion_limit
      match existing with
      | [] => Ok []
      | _ :: _ =>
          '(parsed_input, parsed_output, parsed_tool_calls) ←
            _parse_existing_detailed_jsonl limit existing;
          match parsed_input, parsed_output with
          | Some parsed_input, Some parsed_output =>
              Ok [dumps_default float_repr (JStr parsed_input);
                  dumps_default float_repr (JStr parsed_output);
                  dumps_compact float_repr (JArr parsed_tool_calls)]
          | _, _ => Ok []
          end
      end = false ->
    match existing with
    | [] => Ok []
    | _ :: _ =>
        '(parsed_input, parsed_output, parsed_tool_calls) ←
          _parse_existing_detailed_jsonl limit' existing;
        match parsed_input, parsed_output with
        | Some parsed_input, Some parsed_output =>
            Ok [dumps_default float_repr (JStr parsed_input);
                dumps_default float_repr (JStr parsed_output);
                dumps_compact float_repr (JArr parsed_tool_calls)]
        | _, _ => Ok []
        end
    end
    = match existing with
      | [] => Ok []
      | _ :: _ =>
          '(parsed_input, parsed_output, parsed_tool_calls) ←
            _parse_existing_detailed_jsonl limit existing;
          match parsed_input, parsed_output with
          | Some parsed_input, Some parsed_output =>
              Ok [dumps_default float_repr (JStr parsed_input);
                  dumps_default float_repr (JStr parsed_output);
                  dumps_compact float_repr (JArr parsed_tool_calls)]
          | _, _ => Ok []
          end
      end).
  { destruct existing as [|c t]; [done|].
    apply bind_stable; [apply parse_existing_detailed_stable|done]. }
  repeat case_match; done || exact Hparse.
Qed.

Lemma migrate_record_file_stable path dlc force dry_run st r st' :
  migrate_record_file limit float_repr path dlc force dry_run st = (r, st') ->
  hit_recursion_limit r = false ->
  migrate_record_file limit' float_repr path dlc force dry_run st = (r, st').
Proof using limit_le.
  rewrite !migrate_record_file_outcome.
  pose proof (plan_migration_stable path st) as Hp.
  destruct (plan_migration limit float_repr path st) as [p|e].
  - by rewrite Hp.
  - intros [= <- <-] Hr. by rewrite (Hp Hr).
Qed.

Lemma main_loop_stable paths dlc force dry_run : forall st c s e c' s' st',
  main_loop limit float_repr paths dlc force dry_run st c s e = (c', s', e, st') ->
  main_loop limit' float_repr paths dlc force dry_run st c s e = (c', s', e, st').
Proof using limit_le.
  induction paths as [|path paths IH]; intros st c s e c' s' st'; cbn [main_loop];
    [done|].
  destruct (migrate_record_file limit float_repr path dlc force dry_run st)
    as [r st1] eqn:Em.
  destruct r as [b|err].
  - rewrite (migrate_record_file_stable _ _ _ _ _ _ _ Em eq_refl).
    destruct b; apply IH.
  - intros H%main_loop_errors. lia.
Qed.

(** A run of [main] that reports no error reports the same at every
    higher limit. *)
Lemma main_stable dlc force dry_run st counts st' :
  main limit float_repr dlc force dry_run st = (0, counts, st') ->
  main limit' float_repr dlc force dry_run st = (0, counts, st').
Proof using limit_le.
  unfold main.
  destruct (main_loop limit float_repr _ dlc force dry_run st 0 0 0)
    as [[[c s] e] st1] eqn:Eloop.
  destruct e as [|e]; [|discriminate].
  by rewrite (main_loop_stable _ _ _ _ _ _ _ _ _ _ _ Eloop).
Qed.

End Stable.

(** ** C8 *)

(** The [force] argument never reaches a test: the outcome is the same
    with and without it. *)
Lemma migrate_record_file_force recursion_limit float_repr path dlc force dry_run st :
  migrate_record_file recursion_limit float_repr path dlc force dry_run st
  = migrate_record_file recursion_limit float_repr path dlc false dry_run st.
Proof. reflexivity. Qed.

(** C8 fails on the code. On the already migrated record of
    [migrated_dir], [migrate_record_file] with [force=True] and
    [dry_run=False] finds nothing changed, returns false and writes
    nothing; a whole run of [main] with [--force] counts the file as
    skipped and leaves the directory and the (empty) log of writes as they
    were. This is so for every [float_repr], and at every recursion limit
    that lets the record be read, which nests two levels deep. *)
Theorem C8_force_does_not_rewrite float_repr dlc (spare : nat) :
  let recursion_limit := (2 + spare)%nat in
  migrate_record_file recursion_limit float_repr (file "X.core.json") dlc true false
    migrated_dir = (Ok false, migrated_dir)
  /\ main recursion_limit float_repr dlc true false migrated_dir
     = (0, (0, 1, 0)%nat, migrated_dir)
  /\ events migrated_dir = [].
Proof.
  cbv zeta. split; [|split; [|reflexivity]].
  - apply (migrate_record_file_stable 2); [lia|destruct dlc; vm_refl|done].
  - apply (main_stable 2); [lia|destruct dlc; vm_refl].
Qed.

(** ** C1 *)

(** C1 fails on the code for text holding a character that
    [str.splitlines] takes for a line boundary and [json.dumps] does not
    escape, such as U+2028. (1) With such a character in a traced tool
    call: the first run writes the tool call into the third line of
    [X.detailed.jsonl]; the second run, on [X.core.json] (the only file
    the directory scan then yields), reads that line back in pieces,
    finds no tool call, reports a change and rewrites the file with an
    empty list. (2) With such a character in [input]: the second run
    cannot read the first line back; it reports no change, but what it
    generates for [X.detailed.jsonl] is empty, not the three lines the
    first run wrote. This is so for every [float_repr], and at every
    recursion limit that lets the records be read, of which the first
    nests five levels deep. *)
Theorem C1_second_run_not_idempotent float_repr (spare : nat) :
  let recursion_limit := (5 + spare)%nat in
  let wrote core detailed := [EvWrite (file "X.core.json") core;
                              EvWrite (file "X.detailed.jsonl") detailed] in
  (let with_call := detailed_lines (py "hi") (py "ok") [tool_call_ls] in
   let without_call := detailed_lines (py "hi") (py "ok") [] in
   let st1 := split_dir legacy_tool_ls core_X with_call (wrote core_X with_call) in
   let st2 := split_dir legacy_tool_ls core_X without_call
                (wrote core_X with_call ++ wrote core_X without_call) in
   migrate_record_file recursion_limit float_repr (file "X.json") false false false
     (dir_of legacy_tool_ls) = (Ok true, st1)
   /\ iter_record_files st1 (rglob_json st1) = [file "X.core.json"]
   /\ migrate_record_file recursion_limit float_repr (file "X.core.json")
        false false false st1 = (Ok true, st2)
   /\ main recursion_limit float_repr false false false (dir_of legacy_tool_ls)
      = (0, (1, 0, 0)%nat, st1)
   /\ main recursion_limit float_repr false false false st1 = (0, (1, 0, 0)%nat, st2)
   /\ with_call <> without_call)
  /\ (let input := py "a" ++ [LINE_SEPARATOR] ++ py "b" in
      let three_lines := detailed_lines input (py "ok") [] in
      let st1 := split_dir legacy_input_ls core_X three_lines
                   (wrote core_X three_lines) in
      migrate_record_file recursion_limit float_repr (file "X.json") false false false
        (dir_of legacy_input_ls) = (Ok true, st1)
      /\ iter_record_files st1 (rglob_json st1) = [file "X.core.json"]
      /\ plan_migration recursion_limit float_repr (file "X.core.json") st1
         = Ok {| core_path := file "X.core.json";
                 detailed_path := file "X.detailed.jsonl";
                 legacy_detailed_path := file "X.detailed.json";
                 legacy_compacted_path := file "X.compacted.json";
                 core_text := core_X;
                 detailed_text := [];
                 changed := false |}
      /\ main recursion_limit float_repr false false false st1
         = (0, (0, 1, 0)%nat, st1)
      /\ three_lines <> []).
Proof.
  cbv zeta.
  assert (Hle : (5 <= 5 + spare)%nat) by lia.
  split.
  - split; [apply (migrate_record_file_stable 5); [done|vm_refl|done]|].
    split; [vm_refl|].
    split; [apply (migrate_record_file_stable 5); [done|vm_refl|done]|].
    split; [apply (main_stable 5); [done|vm_refl]|].
    split; [apply (main_stable 5); [done|vm_refl]|].
    by vm_compute.
  - split; [apply (migrate_record_file_stable 5); [done|vm_refl|done]|].
    split; [vm_refl|].
    split.
    { rewrite (plan_migration_stable 5); [vm_refl|done|vm_refl]. }
    split; [apply (main_stable 5); [done|vm_refl]|].
    by vm_compute.
Qed.

End MigrateFacts.

(* ================================================================== *)
(** * Properties of derived ids and of record validation *)
(* ================================================================== *)

Module EntitiesFacts.
Import PyStr Ident Store Entities IdentFacts.

Lemma Ok_inj {A} (a b : A) : Ok a = Ok b -> a = b.
Proof. by intros [= ->]. Qed.

(** ** Derived ids *)

(** A successful derivation went through a millisecond count in range. *)
Lemma derived_id_inv created_at id :
  memory_record_id_from_created_at created_at = Ok id ->
  exists m, created_at_millis created_at = Ok m /\ 0 <= m < 2 ^ 48
            /\ id = urlsafe_b64encode (be_bytes 6 m).
Proof.
  intros H. destruct (created_at_millis created_at) as [m|e] eqn:Em.
  - rewrite (memory_record_id_from_created_at_millis _ _ Em) in H.
    destruct (Z.ltb_spec m 0); [discriminate H|].
    destruct (Z.leb_spec (2 ^ 48) m); [discriminate H|].
    cbn [orb] in H. apply Ok_inj in H as <-. exists m. split; [done|]. split; [lia|done].
  - unfold memory_record_id_from_created_at in H. rewrite Em in H. discriminate H.
Qed.

Lemma six_bytes_id m :
  let id := urlsafe_b64encode (be_bytes 6 m) in
  length id = 8%nat /\ forallb is_b64url_char id = true
  /\ B64URL_8_fullmatch id = true
  /\ urlsafe_b64decode id = Ok (be_bytes 6 m).
Proof.
  cbv zeta.
  pose proof (be_bytes_lt 6 m) as Hlt.
  assert (Henc : length (urlsafe_b64encode (be_bytes 6 m)) = 8%nat
                 /\ forallb is_b64url_char (urlsafe_b64encode (be_bytes 6 m)) = true).
  { cbn [be_bytes] in *.
    repeat match goal with H : Forall _ (_ :: _) |- _ =>
      apply Forall_cons in H as [? H] end.
    by apply encode_6_bytes. }
  destruct Henc as [Hl Hall].
  split; [done|]. split; [done|].
  split; [unfold B64URL_8_fullmatch; by rewrite Hl, Hall|].
  unfold urlsafe_b64decode.
  assert (Hascii : forallb (fun c => (c <? 128)%N) (urlsafe_b64encode (be_bytes 6 m)) = true).
  { apply forallb_forall. intros c Hc.
    rewrite forallb_forall in Hall. specialize (Hall c Hc).
    by destruct (b64url_char_decodes c Hall). }
  rewrite Hascii.
  rewrite a2b_base64_encoded; [done|done|by rewrite length_be_bytes].
Qed.

(** Two timestamps get the same id exactly when they fall into the same
    millisecond: the scheme has no other collision. *)
Theorem same_id_iff_same_millisecond a b ia ib :
  memory_record_id_from_created_at a = Ok ia ->
  memory_record_id_from_created_at b = Ok ib ->
  ia = ib <-> created_at_millis a = created_at_millis b.
Proof.
  intros (ma & Hma & Ha & ->)%derived_id_inv (mb & Hmb & Hb & ->)%derived_id_inv.
  rewrite Hma, Hmb. split.
  - intros Heq.
    destruct (six_bytes_id ma) as (_ & _ & _ & Hda).
    destruct (six_bytes_id mb) as (_ & _ & _ & Hdb).
    cbv zeta in Hda, Hdb. rewrite Heq, Hdb in Hda.
    apply Ok_inj, (f_equal from_bytes) in Hda as Hbytes.
    rewrite !from_bytes_be_bytes in Hbytes by lia.
    change (256 ^ Z.of_nat 6) with (2 ^ 48) in Hbytes.
    rewrite !Z.mod_small in Hbytes by lia. by subst.
  - by intros [= ->].
Qed.

Lemma same_id_iff_same_millisecond_witness :
  py "AZyTbjh7" = py "AZyTbjh7"
  <-> created_at_millis (datetime_of_epoch_us 1772000000123456)
      = created_at_millis (datetime_of_epoch_us 1772000000123999).
Proof.
  apply (same_id_iff_same_millisecond
           (datetime_of_epoch_us 1772000000123456)
           (datetime_of_epoch_us 1772000000123999)); vm_refl.
Defined.

(** ** The order of ids *)

Lemma be_bytes_succ m :
  0 <= m -> m mod 64 = 51 \/ m mod 64 = 61 ->
  exists a b c d e f,
    be_bytes 6 m = [a; b; c; d; e; f]
    /\ be_bytes 6 (m + 1) = [a; b; c; d; e; (f + 1)%N]
    /\ (a < 256)%N /\ (b < 256)%N /\ (c < 256)%N /\ (d < 256)%N
    /\ (e < 256)%N /\ (f < 256)%N
    /\ ((f mod 64 = 51)%N \/ (f mod 64 = 61)%N).
Proof.
  intros Hm Hlow.
  assert (Hhi : forall k, 0 < k ->
    Z.shiftr (m + 1) (8 * k) = Z.shiftr m (8 * k)).
  { intros k Hk. rewrite !Z.shiftr_div_pow2 by lia.
    replace (8 * k) with (6 + (8 * k - 6)) by lia.
    rewrite Z.pow_add_r by lia. change (2 ^ 6) with 64.
    rewrite <- !Z.div_div by lia. f_equal.
    Z.div_mod_to_equations. lia. }
  assert (Hlo : Z.land (m + 1) 255 = Z.land m 255 + 1
                /\ (Z.land m 255 mod 64 = 51 \/ Z.land m 255 mod 64 = 61)
                /\ 0 <= Z.land m 255 < 255).
  { change 255 with (Z.ones 8). rewrite !Z.land_ones by lia.
    change (2 ^ 8) with 256. change (Z.ones 8) with 255.
    Z.div_mod_to_equations. lia. }
  destruct Hlo as (Hlo1 & Hlo2 & Hlo3).
  pose proof (be_bytes_lt 6 m) as Hlt.
  cbn [be_bytes] in *. change (Z.of_nat 0) with 0 in *.
  rewrite !Hhi by lia. rewrite !Z.shiftr_0_r in *. rewrite Hlo1.
  repeat match goal with H : Forall _ (_ :: _) |- _ =>
    apply Forall_cons in H as [? H] end.
  do 6 eexists. split; [reflexivity|]. split.
  { repeat f_equal. rewrite Z2N.inj_add by lia. reflexivity. }
  repeat (split; [done|]).
  destruct Hlo2 as [H51|H61]; [left|right].
  - apply N2Z.inj. rewrite N2Z.inj_mod, Z2N.id by lia. done.
  - apply N2Z.inj. rewrite N2Z.inj_mod, Z2N.id by lia. done.
Qed.

Lemma id_chars_rollover e f :
  (e < 256)%N -> (f < 256)%N -> (f mod 64 = 51)%N \/ (f mod 64 = 61)%N ->
  id_char6 e (f + 1) = id_char6 e f /\ (id_char7 (f + 1) < id_char7 f)%N.
Proof.
  intros He Hf Hlow.
  pose proof (below2_spec 256 256 (fun e f =>
    implb ((f mod 64 =? 51)%N || (f mod 64 =? 61)%N)
      ((id_char6 e (f + 1) =? id_char6 e f)%N
       && (id_char7 (f + 1) <? id_char7 f)%N)) e f
    ltac:(vm_compute; reflexivity) He Hf) as H.
  cbv beta in H.
  assert (Hb : ((f mod 64 =? 51)%N || (f mod 64 =? 61)%N) = true).
  { apply orb_true_iff. rewrite !N.eqb_eq. done. }
  rewrite Hb in H. cbn [implb] in H.
  apply andb_prop in H as [H1%N.eqb_eq H2%N.ltb_lt]. done.
Qed.

Lemma le_cons_same x a b : PyStr.le (x :: a) (x :: b) = PyStr.le a b.
Proof. cbn [PyStr.le]. by rewrite N.ltb_irrefl, N.eqb_refl. Qed.

(** The ids do not sort chronologically. Whenever the millisecond count
    [m] ends in the sextet 51 or 61, the id of the next millisecond sorts
    strictly before the id of [m] in the order of [str] (that [sorted]
    uses): the last character goes from [z] to [0], or from [9] to [-]. *)
Theorem id_order_inverts_at_rollover a b m ia ib :
  created_at_millis a = Ok m ->
  created_at_millis b = Ok (m + 1) ->
  m mod 64 = 51 \/ m mod 64 = 61 ->
  memory_record_id_from_created_at a = Ok ia ->
  memory_record_id_from_created_at b = Ok ib ->
  PyStr.le ib ia = true /\ PyStr.le ia ib = false.
Proof.
  intros Hma Hmb Hlow (ma & Hma' & Ha & ->)%derived_id_inv
    (mb & Hmb' & Hb & ->)%derived_id_inv.
  rewrite Hma in Hma'. rewrite Hmb in Hmb'.
  apply Ok_inj in Hma' as <-. apply Ok_inj in Hmb' as <-.
  destruct (be_bytes_succ m ltac:(lia) Hlow)
    as (x0 & x1 & x2 & x3 & e & f & -> & -> & _ & _ & _ & _ & He & Hf & Hf').
  destruct (id_chars_rollover e f He Hf Hf') as [H6 H7].
  unfold urlsafe_b64encode. cbn [b64encode fmap list_fmap app].
  fold (id_char6 e f). fold (id_char6 e (f + 1)).
  fold (id_char7 f). fold (id_char7 (f + 1)).
  rewrite H6, !le_cons_same. cbn [PyStr.le].
  apply N.ltb_lt in H7 as H7'. rewrite H7'. split; [done|].
  apply orb_false_iff. split; [apply N.ltb_ge; lia|].
  apply andb_false_iff. left. apply N.eqb_neq. lia.
Qed.

Lemma id_order_inverts_at_rollover_witness :
  PyStr.le (py "AAAAAAA0") (py "AAAAAAAz") = true
  /\ PyStr.le (py "AAAAAAAz") (py "AAAAAAA0") = false.
Proof.
  apply (id_order_inverts_at_rollover
           (datetime_of_epoch_us 51000) (datetime_of_epoch_us 52000) 51).
  - vm_refl.
  - vm_refl.
  - left. reflexivity.
  - vm_refl.
  - vm_refl.
Defined.

(** ** Validation *)

Section WithUUID.

Variable UUID : pystr -> result unit.

(** The library's parser signals every malformed string by [ValueError]. *)
Hypothesis UUID_raises : forall s e, UUID s = Raise e -> is_ValueError e = true.

(** Every derived id passes the checks made on ids: [is_memory_record_id]
    accepts it, [coerce_record_id] returns it unchanged, and it has 8
    characters, so that it is its own [short_id]. *)
Theorem derived_id_is_accepted created_at r :
  memory_record_id_from_created_at created_at = Ok (id_ r) ->
  is_memory_record_id UUID (id_ r) = Ok true
  /\ coerce_record_id UUID (id_ r) = Ok (id_ r)
  /\ length (id_ r) = 8%nat
  /\ short_id r = id_ r.
Proof using UUID_raises.
  intros (m & _ & _ & Hid)%derived_id_inv.
  destruct (six_bytes_id m) as (Hlen & _ & Hfull & _). cbv zeta in *.
  rewrite <- Hid in Hlen, Hfull.
  assert (Hacc : is_memory_record_id UUID (id_ r) = Ok true).
  { rewrite is_memory_record_id_eq by done. rewrite Hfull. by destruct (UUID (id_ r)). }
  split; [done|]. split; [|split; [done|]].
  - unfold coerce_record_id. by rewrite Hacc.
  - unfold short_id. apply take_ge. lia.
Qed.

Lemma bad_ids_spec ids :
  exists bad, bad_ids UUID ids = Ok bad
    /\ (bad = [] <-> Forall (fun i => is_memory_record_id UUID i = Ok true) ids).
Proof using UUID_raises.
  induction ids as [|i ids (bad & Hbad & IH)]; [by exists []|].
  cbn [bad_ids]. rewrite Hbad.
  pose proof (is_memory_record_id_eq UUID UUID_raises i) as Hi.
  destruct (match UUID i with Ok _ => true | Raise _ => B64URL_8_fullmatch i end);
    rewrite Hi; cbn [mbind result_bind].
  - exists bad. split; [done|]. rewrite Forall_cons, <- IH, Hi.
    split; [by intros -> | by intros [_ ?]].
  - exists (i :: bad). split; [done|]. rewrite Forall_cons, Hi.
    split; [done|]. intros [[=] _].
Qed.

Lemma check_ids_spec self :
  (all_valid UUID self /\ check_ids UUID self = Ok self)
  \/ (~ all_valid UUID self /\ check_ids UUID self = Raise ValueError).
Proof using UUID_raises.
  unfold check_ids, all_valid.
  pose proof (is_memory_record_id_eq UUID UUID_raises (id_ self)) as Hi.
  destruct (match UUID (id_ self) with
            | Ok _ => true | Raise _ => B64URL_8_fullmatch (id_ self) end);
    rewrite Hi; cbn [mbind result_bind negb];
    [|right; split; [intros [[=] _]|done]].
  destruct (bad_ids_spec (parents self)) as (bp & -> & Hp).
  destruct (bad_ids_spec (children self)) as (bc & -> & Hc).
  cbn [mbind result_bind].
  destruct bp as [|? ?].
  - destruct bc as [|? ?].
    + left. split; [|done]. split; [done|]. split; [by apply Hp | by apply Hc].
    + right. split; [|done]. intros (_ & _ & H%Hc). discriminate H.
  - right. split; [|done]. intros (_ & H%Hp & _). discriminate H.
Qed.

(** For a record with an id the validator is a pure check: the record is
    returned as it is when its id and all its links are valid ids, and a
    [ValueError] is raised in every other case. *)
Theorem validator_checks_given_id r :
  id_ r <> [] ->
  (all_valid UUID r -> _finalize_and_validate_ids UUID r = Ok r)
  /\ (~ all_valid UUID r -> _finalize_and_validate_ids UUID r = Raise ValueError).
Proof using UUID_raises.
  intros Hid. unfold _finalize_and_validate_ids. rewrite bool_decide_eq_false_2 by done.
  cbn [mbind result_bind].
  destruct (check_ids_spec r) as [[Hv ->]|[Hn ->]]; split; done.
Qed.

(** What a validated record looks like. When the validator returns, the
    result is the record itself if it had an id, and otherwise the record
    with the id derived from [created_at]; its id is not empty and is a
    valid id, as are all its links; and validating the result again
    returns it unchanged. *)
Theorem validator_postcondition r r' :
  _finalize_and_validate_ids UUID r = Ok r' ->
  (if bool_decide (id_ r = []) then
     memory_record_id_from_created_at (created_at r) = Ok (id_ r')
     /\ r' = with_id r (id_ r')
   else r' = r)
  /\ id_ r' <> []
  /\ all_valid UUID r'
  /\ _finalize_and_validate_ids UUID r' = Ok r'.
Proof using UUID_raises.
  unfold _finalize_and_validate_ids at 1. intros H.
  assert (Hpost : forall self, check_ids UUID self = Ok r' -> id_ self <> [] ->
    r' = self /\ id_ r' <> [] /\ all_valid UUID r'
    /\ _finalize_and_validate_ids UUID r' = Ok r').
  { intros self Hc Hne.
    destruct (check_ids_spec self) as [[Hv Hs]|[_ Hs]]; rewrite Hs in Hc;
      [|discriminate Hc].
    apply Ok_inj in Hc as <-. split; [done|]. split; [done|]. split; [done|].
    unfold _finalize_and_validate_ids. rewrite bool_decide_eq_false_2 by done.
    cbn [mbind result_bind]. exact Hs. }
  case_bool_decide as Hid.
  - destruct (memory_record_id_from_created_at (created_at r)) as [id|e] eqn:Eid;
      cbn [mbind result_bind] in H; [|discriminate H].
    assert (Hlen : length id = 8%nat).
    { apply derived_id_inv in Eid as (m & _ & _ & ->).
      by destruct (six_bytes_id m) as (Hlen & _). }
    destruct (Hpost (with_id r id) H) as (-> & Hne & Hv & Hagain).
    { cbn [id_ with_id]. by destruct id. }
    cbn [id_ with_id] in *. done.
  - cbn [mbind result_bind] in H. by destruct (Hpost r H Hid) as (-> & ? & ? & ?).
Qed.

End WithUUID.

Lemma derived_id_is_accepted_witness :
  let r := Samples.sample_record (py "AAAAAAAA") [] [] in
  is_memory_record_id UUID_canonical (id_ r) = Ok true
  /\ coerce_record_id UUID_canonical (id_ r) = Ok (id_ r)
  /\ length (id_ r) = 8%nat
  /\ short_id r = id_ r.
Proof.
  apply (derived_id_is_accepted UUID_canonical UUID_canonical_raises
           (datetime_of_epoch_us 0) (Samples.sample_record (py "AAAAAAAA") [] [])).
  vm_refl.
Defined.

Lemma validator_checks_given_id_witness :
  let r := Samples.sample_record (py "AAAAAAAA") [py "not-a-uuid"] [] in
  (all_valid UUID_canonical r -> _finalize_and_validate_ids UUID_canonical r = Ok r)
  /\ (~ all_valid UUID_canonical r ->
      _finalize_and_validate_ids UUID_canonical r = Raise ValueError).
Proof.
  apply (validator_checks_given_id UUID_canonical UUID_canonical_raises
           (Samples.sample_record (py "AAAAAAAA") [py "not-a-uuid"] [])).
  discriminate.
Defined.

Lemma validator_postcondition_witness :
  let r := Samples.sample_record [] [py "AAAAAAAA"] [] in
  let r' := Samples.sample_record (py "AAAAAAAA") [py "AAAAAAAA"] [] in
  (if bool_decide (id_ r = []) then
     memory_record_id_from_created_at (created_at r) = Ok (id_ r')
     /\ r' = with_id r (id_ r')
   else r' = r)
  /\ id_ r' <> []
  /\ all_valid UUID_canonical r'
  /\ _finalize_and_validate_ids UUID_canonical r' = Ok r'.
Proof.
  apply (validator_postcondition UUID_canonical UUID_canonical_raises
           (Samples.sample_record [] [py "AAAAAAAA"] [])
           (Samples.sample_record (py "AAAAAAAA") [py "AAAAAAAA"] [])).
  vm_refl.
Defined.

End EntitiesFacts.

(* ================================================================== *)
(** * Decoding what was encoded *)
(* ================================================================== *)

Module JsonRoundTrip.
Import PyStr Json Shapes JsonFacts.

(** ** Strings *)

Lemma scanstring_plain c r acc :
  (c =? QUOTE)%N = false -> (c =? BACKSLASH)%N = false -> (c <? 32)%N = false ->
  scanstring (c :: r) acc = scanstring r (acc ++ [c]).
Proof. intros H1 H2 H3. cbn [scanstring]. by rewrite H1, H2, H3. Qed.

Lemma scanstring_escape_char c r acc :
  scanstring (escape_char c ++ r) acc = scanstring r (acc ++ [c]).
Proof.
  destruct (N.ltb_spec c 32) as [Hlt|Hge].
  - destruct c as [|p]; [reflexivity|].
    do 5 (destruct p as [p|p|]; try (exfalso; lia); try reflexivity).
  - unfold escape_char.
    destruct (N.eqb_spec c QUOTE) as [->|H1]; [reflexivity|].
    destruct (N.eqb_spec c BACKSLASH) as [->|H2]; [reflexivity|].
    repeat (match goal with |- context [(c =? ?k)%N] =>
              destruct (N.eqb_spec c k); [subst; lia|] end).
    destruct (N.ltb_spec c 32); [lia|].
    cbn [app]. apply scanstring_plain.
    + by apply N.eqb_neq.
    + by apply N.eqb_neq.
    + apply N.ltb_ge. lia.
Qed.

(** Scanning an encoded string gives the string back. *)
Lemma scanstring_encoded s rest acc :
  scanstring (concat (escape_char <$> s) ++ QUOTE :: rest) acc = Some (acc ++ s, rest).
Proof.
  revert acc. induction s as [|c s IH]; intros acc.
  - cbn. by rewrite app_nil_r.
  - cbn [fmap list_fmap concat]. rewrite <- app_assoc, scanstring_escape_char, IH.
    by rewrite <- app_assoc.
Qed.


(** ** Blanks, heads and objects *)

Lemma skip_ws_blanks w s : forallb is_ws w = true -> skip_ws (w ++ s) = skip_ws s.
Proof.
  induction w as [|c w IH]; [done|]. cbn [forallb app skip_ws].
  intros [-> Hw]%andb_prop. by apply IH.
Qed.

Lemma skip_ws_head c t : is_ws c = false -> skip_ws (c :: t) = c :: t.
Proof. intros H. cbn [skip_ws]. by rewrite H. Qed.

Lemma startswith_head_ne c r p ps : c <> p -> startswith (c :: r) (p :: ps) = false.
Proof.
  intros Hne. unfold startswith. apply bool_decide_eq_false.
  cbn [length take]. intros [= ? _]. done.
Qed.

Lemma length_join_elem sep (l : list pystr) x :
  x ∈ l -> (length x <= length (join sep l))%nat.
Proof.
  induction l as [|y [|z l] IH]; [by intros ?%elem_of_nil|..].
  - intros ->%list_elem_of_singleton. done.
  - intros [->|Hx]%elem_of_cons; cbn [join]; rewrite !length_app; [lia|].
    specialize (IH Hx). cbn [join] in IH. lia.
Qed.

Lemma length_join_ge sep (l : list pystr) :
  Forall (fun x => (1 <= length x)%nat) l -> (length l <= length (join sep l))%nat.
Proof.
  induction l as [|y [|z l] IH]; [done|..].
  - intros [Hy _]%Forall_cons. cbn. lia.
  - intros [Hy Hl]%Forall_cons. specialize (IH Hl).
    cbn [join length] in *. rewrite !length_app. lia.
Qed.

Lemma dict_set_fresh d k v : k ∉ d.*1 -> dict_set d k v = d ++ [(k, v)].
Proof.
  induction d as [|[k' v'] d IH]; [done|]. cbn [fmap list_fmap fst dict_set app].
  intros [Hne Hd]%not_elem_of_cons. rewrite decide_False by done. by rewrite IH.
Qed.

(** A list of members with distinct keys is the [dict] of its pairs. *)
Lemma dict_of_pairs_distinct members :
  NoDup members.*1 -> dict_of_pairs members = members.
Proof.
  unfold dict_of_pairs.
  assert (G : forall pairs acc, NoDup ((acc ++ pairs).*1) ->
    fold_left (fun d kv => dict_set d kv.1 kv.2) pairs acc = acc ++ pairs).
  { induction pairs as [|[k v] pairs IH]; intros acc Hnd; cbn [fold_left].
    - by rewrite app_nil_r.
    - cbn [fst snd]. rewrite dict_set_fresh.
      + rewrite IH; rewrite <- app_assoc; done.
      + rewrite fmap_app in Hnd. apply NoDup_app in Hnd as (_ & Hnd & _).
        intros Hk. apply (Hnd k Hk). cbn. by left. }
  intros Hnd. by apply (G members []).
Qed.

(** ** Integers *)


Lemma digits_cons d :
  match d with
  | Decimal.Nil => digits d = []
  | Decimal.D0 d' => digits d = 48%N :: digits d'
  | Decimal.D1 d' => digits d = 49%N :: digits d'
  | Decimal.D2 d' => digits d = 50%N :: digits d'
  | Decimal.D3 d' => digits d = 51%N :: digits d'
  | Decimal.D4 d' => digits d = 52%N :: digits d'
  | Decimal.D5 d' => digits d = 53%N :: digits d'
  | Decimal.D6 d' => digits d = 54%N :: digits d'
  | Decimal.D7 d' => digits d = 55%N :: digits d'
  | Decimal.D8 d' => digits d = 56%N :: digits d'
  | Decimal.D9 d' => digits d = 57%N :: digits d'
  end.
Proof. by destruct d. Qed.

Lemma digits_are_digits d : forallb is_digit (digits d) = true.
Proof.
  induction d; pose proof (digits_cons ltac:(eassumption || exact Decimal.Nil)) as _;
    [reflexivity|..];
    match goal with |- forallb _ (digits (?D ?d')) = true =>
      rewrite (digits_cons (D d')); cbn [forallb]; by rewrite IHd
    end.
Qed.


Lemma digits_value_acc d (acc : positive) :
  fold_left digit_step (digits d) (Zpos acc) = Zpos (Pos.of_uint_acc d acc).
Proof.
  revert acc. induction d; intros acc; [reflexivity|..];
    match goal with |- fold_left _ (digits (?D ?d')) _ = _ =>
      rewrite (digits_cons (D d')); cbn [fold_left Pos.of_uint_acc];
      rewrite <- IHd; f_equal; unfold digit_step; cbn [N.sub]; lia
    end.
Qed.

Lemma digits_value_digits d : digits_value (digits d) = Z.of_N (Pos.of_uint d).
Proof.
  unfold digits_value. change (fun acc c => acc * 10 + Z.of_N (c - 48)) with digit_step.
  induction d; [reflexivity|..];
    match goal with |- fold_left _ (digits (?D ?d')) _ = _ =>
      rewrite (digits_cons (D d')); cbn [fold_left Pos.of_uint]
    end;
    first [ exact IHd
          | match goal with |- fold_left _ _ ?a = _ =>
              let a' := eval vm_compute in a in change a with a' end;
            apply digits_value_acc ].
Qed.

Lemma take_digits_app t rest :
  forallb is_digit t = true -> number_boundary rest = true ->
  take_digits (t ++ rest) = (t, rest).
Proof.
  intros Ht Hrest. induction t as [|c t IH]; cbn [app take_digits].
  - destruct rest as [|c r]; [done|]. cbn [number_boundary] in Hrest.
    apply negb_true_iff, orb_false_iff in Hrest as [Hrest _].
    apply orb_false_iff in Hrest as [Hrest _].
    apply orb_false_iff in Hrest as [Hrest _]. cbn [take_digits]. by rewrite Hrest.
  - cbn [forallb] in Ht. apply andb_prop in Ht as [Hc Ht]. rewrite Hc, IH by done. done.
Qed.

Lemma boundary_tests rest :
  number_boundary rest = true ->
  match rest with
  | [] => True
  | c :: _ => is_digit c = false /\ (c =? 46)%N = false
              /\ (c =? 101)%N = false /\ (c =? 69)%N = false
  end.
Proof.
  destruct rest as [|c r]; [done|]. cbn [number_boundary].
  intros H. apply negb_true_iff in H.
  repeat (apply orb_false_iff in H as [H ?]). done.
Qed.

Lemma match_number_digits c t rest (neg : bool) :
  is_digit c = true -> (c =? 48)%N = false -> forallb is_digit t = true ->
  (length (c :: t) <= max_str_digits)%nat ->
  number_boundary rest = true ->
  match_number ((if neg then [45%N] else []) ++ c :: t ++ rest)
  = Some (Ok (JInt (if neg then - digits_value (c :: t) else digits_value (c :: t))), rest).
Proof.
  intros Hc Hc0 Ht Hlen Hrest.
  assert (Hc45 : (c =? 45)%N = false).
  { unfold is_digit, inrange in Hc. apply andb_prop in Hc as [?%N.leb_le ?%N.leb_le].
    apply N.eqb_neq. lia. }
  pose proof (boundary_tests rest Hrest) as Hb.
  unfold match_number.
  destruct neg; cbn [app]; [change (45 =? 45)%N with true|rewrite Hc45]; cbv iota;
    rewrite Hc0, Hc, (take_digits_app t rest Ht Hrest).
  all: assert (Hl : (max_str_digits <? length (c :: t))%nat = false)
    by (apply Nat.ltb_ge; lia).
  all: destruct rest as [|c0 r]; [cbv zeta iota beta; by rewrite Hl|].
  all: destruct Hb as (_ & H46 & H101 & H69).
  all: rewrite H46; cbv zeta iota beta; rewrite H101, H69; cbn [orb];
       cbv zeta iota beta; by rewrite Hl.
Qed.

Lemma match_number_zero rest :
  number_boundary rest = true ->
  match_number (48%N :: rest) = Some (Ok (JInt 0), rest).
Proof.
  intros Hrest. pose proof (boundary_tests rest Hrest) as Hb.
  unfold match_number. change (48 =? 45)%N with false. cbv iota.
  change (48 =? 48)%N with true. cbv iota.
  destruct rest as [|c0 r]; [reflexivity|].
  destruct Hb as (_ & H46 & H101 & H69).
  rewrite H46; cbv zeta iota beta; rewrite H101, H69; cbn [orb]. reflexivity.
Qed.


Lemma int_repr_0 : int_repr 0 = [48%N].
Proof. reflexivity. Qed.

Lemma int_repr_pos p : int_repr (Zpos p) = digits (Pos.to_uint p).
Proof.
  unfold int_repr, digits. cbn [Z.to_int NilZero.string_of_int].
  pose proof (DecimalPos.Unsigned.to_uint_nonnil p) as Hnil.
  unfold NilZero.string_of_uint. by destruct (Pos.to_uint p).
Qed.

Lemma int_repr_neg p : int_repr (Zneg p) = 45%N :: digits (Pos.to_uint p).
Proof.
  unfold int_repr, digits. cbn [Z.to_int NilZero.string_of_int].
  pose proof (DecimalPos.Unsigned.to_uint_nonnil p) as Hnil.
  unfold NilZero.string_of_uint. by destruct (Pos.to_uint p).
Qed.

(** The decimal form of a positive number starts with a digit other
    than 0. *)
Lemma to_uint_digits p :
  exists c t, digits (Pos.to_uint p) = c :: t
    /\ is_digit c = true /\ (c =? 48)%N = false /\ forallb is_digit t = true.
Proof.
  pose proof (DecimalPos.Unsigned.to_of (Pos.to_uint p)) as Hnorm.
  rewrite DecimalPos.Unsigned.of_to in Hnorm. cbn [N.to_uint] in Hnorm.
  pose proof (DecimalPos.Unsigned.to_uint_nonnil p) as Hnil.
  pose proof (DecimalPos.Unsigned.to_uint_nonzero p) as Hzero.
  destruct (Pos.to_uint p) as [|d|d|d|d|d|d|d|d|d|d]; [done|..].
  { exfalso. unfold Decimal.unorm in Hnorm. cbn [Decimal.nzhead] in Hnorm.
    destruct (Decimal.nzhead d) eqn:E; try discriminate Hnorm.
    - by rewrite Hnorm in Hzero.
    - by apply DecimalFacts.nzhead_nonzero in E. }
  all: match goal with |- context [digits (?D ?d')] =>
         rewrite (digits_cons (D d')) end.
  all: eexists _, _; split; [reflexivity|]; split; [reflexivity|];
       split; [reflexivity|apply digits_are_digits].
Qed.

(** The decoder reads an encoded integer back. *)
Lemma match_number_int z rest :
  int_ok z = true -> number_boundary rest = true ->
  match_number (int_repr z ++ rest) = Some (Ok (JInt z), rest).
Proof.
  unfold int_ok. intros Hz%Nat.leb_le Hrest. destruct z as [|p|p].
  - rewrite int_repr_0. by apply match_number_zero.
  - change (Z.abs (Z.pos p)) with (Z.pos p) in Hz. rewrite int_repr_pos in *.
    destruct (to_uint_digits p) as (c & t & Hd & Hc & Hc0 & Ht).
    pose proof (digits_value_digits (Pos.to_uint p)) as Hv.
    rewrite DecimalPos.Unsigned.of_to in Hv. rewrite Hd in *.
    pose proof (match_number_digits c t rest false Hc Hc0 Ht Hz Hrest) as Hm.
    rewrite Hv in Hm. exact Hm.
  - change (Z.abs (Z.neg p)) with (Z.pos p) in Hz.
    rewrite int_repr_neg. rewrite int_repr_pos in Hz.
    destruct (to_uint_digits p) as (c & t & Hd & Hc & Hc0 & Ht).
    pose proof (digits_value_digits (Pos.to_uint p)) as Hv.
    rewrite DecimalPos.Unsigned.of_to in Hv. rewrite Hd in *.
    pose proof (match_number_digits c t rest true Hc Hc0 Ht Hz Hrest) as Hm.
    rewrite Hv in Hm. exact Hm.
Qed.

(** An encoded integer starts with a digit or a minus sign. *)
Lemma int_repr_head z :
  exists c t, int_repr z = c :: t /\ (is_digit c = true \/ c = 45%N).
Proof.
  destruct z as [|p|p].
  - exists 48%N, []. by split; [|left].
  - rewrite int_repr_pos. destruct (to_uint_digits p) as (c & t & -> & Hc & _).
    exists c, t. by split; [|left].
  - rewrite int_repr_neg. eexists _, _. by split; [|right].
Qed.

(** ** Nesting *)

Lemma nesting_items items x :
  x ∈ items -> (S (nesting x) <= nesting (JArr items))%nat.
Proof.
  cbn [nesting]. intros Hx. apply le_n_S.
  induction items as [|y items IH]; [by apply elem_of_nil in Hx|].
  cbn [foldr]. apply elem_of_cons in Hx as [->|Hx]; [lia|].
  specialize (IH Hx). lia.
Qed.

Lemma nesting_members (members : list (pystr * json)) kv :
  kv ∈ members -> (S (nesting kv.2) <= nesting (JObj members))%nat.
Proof.
  cbn [nesting]. intros Hx. apply le_n_S.
  induction members as [|y members IH]; [by apply elem_of_nil in Hx|].
  cbn [foldr]. apply elem_of_cons in Hx as [->|Hx]; [lia|].
  specialize (IH Hx). lia.
Qed.

(** The first element that nests deeper than [depth], when the list as a
    whole does. *)
Lemma first_deep_item depth items :
  (S depth < nesting (JArr items))%nat ->
  exists pre x post,
    items = pre ++ x :: post
    /\ Forall (fun v => (nesting v <= depth)%nat) pre
    /\ (depth < nesting x)%nat.
Proof.
  cbn [nesting]. intros H. apply Nat.succ_lt_mono in H.
  induction items as [|y items IH]; cbn [foldr] in H; [lia|].
  destruct (le_lt_dec (nesting y) depth) as [Hy|Hy].
  - destruct IH as (pre & x & post & -> & Hpre & Hx); [lia|].
    exists (y :: pre), x, post. split; [done|]. split; [by constructor|done].
  - exists [], y, items. split; [done|]. split; [constructor|done].
Qed.

Lemma first_deep_member depth (members : list (pystr * json)) :
  (S depth < nesting (JObj members))%nat ->
  exists pre kv post,
    members = pre ++ kv :: post
    /\ Forall (fun kv => (nesting kv.2 <= depth)%nat) pre
    /\ (depth < nesting kv.2)%nat.
Proof.
  cbn [nesting]. intros H. apply Nat.succ_lt_mono in H.
  induction members as [|y members IH]; cbn [foldr] in H; [lia|].
  destruct (le_lt_dec (nesting y.2) depth) as [Hy|Hy].
  - destruct IH as (pre & x & post & -> & Hpre & Hx); [lia|].
    exists (y :: pre), x, post. split; [done|]. split; [by constructor|done].
  - exists [], y, members. split; [done|]. split; [constructor|done].
Qed.

(** ** Values *)

Section RoundTrip.

(** The separators are a comma and a colon, each followed by blanks. *)
Context (float_repr : pystr -> pystr) (item_blanks key_blanks : pystr).
Hypothesis item_blanks_ws : forallb is_ws item_blanks = true.
Hypothesis key_blanks_ws : forallb is_ws key_blanks = true.

#[local] Abbreviation item_separator := (44%N :: item_blanks).
#[local] Abbreviation key_separator := (58%N :: key_blanks).
#[local] Abbreviation dumps := (Json.dumps float_repr item_separator key_separator).
#[local] Abbreviation member_text :=
  (Shapes.member_text float_repr item_separator key_separator).
#[local] Abbreviation reads_back :=
  (Shapes.reads_back float_repr item_separator key_separator).

Lemma value_start_tests c :
  value_start c = true ->
  is_ws c = false /\ (c =? 93)%N = false /\ (c =? 125)%N = false
  /\ c <> 65279%N.
Proof.
  unfold value_start, is_digit, inrange, is_ws.
  rewrite orb_true_iff, andb_true_iff, !N.leb_le, bool_decide_eq_true.
  rewrite !elem_of_cons, elem_of_nil.
  intros H. repeat split; rewrite ?orb_false_iff, ?N.eqb_neq; repeat split; lia.
Qed.

Lemma dumps_head v :
  float_free v = true -> exists c t, dumps v = c :: t /\ value_start c = true.
Proof.
  destruct v as [ |[]|z|literal|s|items|members]; cbn [dumps float_free];
    try discriminate; intros _.
  - by eexists _, _.
  - by eexists _, _.
  - by eexists _, _.
  - destruct (int_repr_head z) as (c & t & -> & [Hc| ->]).
    + exists c, t. split; [done|]. unfold value_start. by rewrite Hc.
    + by eexists _, _.
  - by eexists _, _.
  - by eexists _, _.
  - by eexists _, _.
Qed.

Lemma skip_ws_dumps v rest :
  float_free v = true -> skip_ws (dumps v ++ rest) = dumps v ++ rest.
Proof.
  intros (c & t & -> & Hc)%dumps_head.
  apply skip_ws_head. by destruct (value_start_tests c Hc).
Qed.


Lemma array_items_dumps scan items : forall acc rest n,
  items <> [] -> (length items <= n)%nat ->
  Forall (reads_back scan) items ->
  Forall (fun v => float_free v = true) items ->
  array_items scan n (join item_separator (dumps <$> items) ++ 93%N :: rest) acc
  = Ok (acc ++ items, rest).
Proof using All.
  induction items as [|v [|v2 more] IH]; intros acc rest n Hne Hn Hread Hff; [done|..].
  - destruct n as [|n]; [cbn in Hn; lia|].
    apply Forall_cons in Hread as [Hv _].
    cbn [fmap list_fmap join array_items].
    rewrite (Hv (93%N :: rest)) by reflexivity. cbn [mbind result_bind].
    rewrite skip_ws_head by reflexivity. by rewrite N.eqb_refl.
  - destruct n as [|n]; [cbn in Hn; lia|].
    apply Forall_cons in Hread as [Hv Hread].
    apply Forall_cons in Hff as [_ Hff].
    change (dumps <$> v :: v2 :: more) with (dumps v :: (dumps <$> v2 :: more)).
    change (join item_separator (dumps v :: (dumps <$> v2 :: more)))
      with (dumps v ++ item_separator ++ join item_separator (dumps <$> v2 :: more)).
    rewrite <- !app_assoc. cbn [array_items].
    rewrite Hv by reflexivity. cbn [mbind result_bind app].
    rewrite skip_ws_head by reflexivity.
    change (44 =? 93)%N with false. change (44 =? 44)%N with true. cbv iota.
    rewrite skip_ws_blanks by done.
    assert (Hhead : skip_ws (join item_separator (dumps <$> v2 :: more) ++ 93%N :: rest)
                    = join item_separator (dumps <$> v2 :: more) ++ 93%N :: rest).
    { apply Forall_cons in Hff as [Hv2 _].
      destruct more; cbn [fmap list_fmap join]; rewrite <- ?app_assoc;
        by apply skip_ws_dumps. }
    rewrite Hhead, IH; [by rewrite <- app_assoc|done|cbn in *; lia|done|done].
Qed.


Lemma member_text_head kv more X :
  exists tail,
    join item_separator (member_text <$> kv :: more) ++ X = QUOTE :: tail.
Proof.
  destruct more; cbn [fmap list_fmap join]; unfold Shapes.member_text at 1,
    encode_basestring; rewrite <- ?app_assoc; cbn [app]; by eexists.
Qed.

Lemma object_members_dumps scan members : forall acc rest n tail,
  members <> [] -> (length members <= n)%nat ->
  Forall (fun kv => reads_back scan kv.2) members ->
  Forall (fun kv => float_free kv.2 = true) members ->
  join item_separator (member_text <$> members) ++ 125%N :: rest = QUOTE :: tail ->
  object_members scan n tail acc = Ok (acc ++ members, rest).
Proof using All.
  induction members as [|[k v] [|kv2 more] IH]; intros acc rest n tail Hne Hn Hread Hff;
    [done|..].
  - destruct n as [|n]; [cbn in Hn; lia|].
    apply Forall_cons in Hread as [Hv _]. apply Forall_cons in Hff as [Hfv _].
    cbn [fst snd] in Hv, Hfv.
    cbn [fmap list_fmap join]. unfold Shapes.member_text, encode_basestring.
    cbn [fst snd]. rewrite <- !app_assoc. cbn [app]. intros [= <-].
    cbn [object_members]. rewrite scanstring_encoded. cbn [app].
    rewrite skip_ws_head by reflexivity. change (58 =? 58)%N with true. cbv iota.
    rewrite skip_ws_blanks, skip_ws_dumps by done.
    rewrite Hv by reflexivity. cbn [mbind result_bind].
    rewrite skip_ws_head by reflexivity. by rewrite N.eqb_refl.
  - destruct n as [|n]; [cbn in Hn; lia|].
    apply Forall_cons in Hread as [Hv Hread]. apply Forall_cons in Hff as [Hfv Hff].
    cbn [fst snd] in Hv, Hfv.
    change (member_text <$> (k, v) :: kv2 :: more)
      with (member_text (k, v) :: (member_text <$> kv2 :: more)).
    change (join item_separator (member_text (k, v) :: (member_text <$> kv2 :: more)))
      with (member_text (k, v) ++ item_separator
            ++ join item_separator (member_text <$> kv2 :: more)).
    destruct (member_text_head kv2 more (125%N :: rest)) as (tail2 & Htail2).
    set (J := join item_separator (member_text <$> kv2 :: more)) in *.
    clearbody J.
    unfold Shapes.member_text at 1, encode_basestring.
    cbn [fst snd]. rewrite <- !app_assoc. cbn [app]. intros [= <-].
    cbn [object_members]. rewrite scanstring_encoded. cbn [app].
    rewrite skip_ws_head by reflexivity. change (58 =? 58)%N with true. cbv iota.
    rewrite skip_ws_blanks, skip_ws_dumps by done.
    rewrite Hv by reflexivity. cbn [mbind result_bind].
    rewrite skip_ws_head by reflexivity.
    change (44 =? 125)%N with false. change (44 =? 44)%N with true. cbv iota.
    rewrite skip_ws_blanks by done.
    rewrite Htail2. rewrite skip_ws_head by reflexivity.
    rewrite N.eqb_refl.
    rewrite (IH (acc ++ [(k, v)]) rest n tail2); [by rewrite <- app_assoc|done|
      cbn in *; lia|done|done|done].
Qed.


Lemma number_start_dispatch c r :
  is_digit c = true \/ c = 45%N ->
  (c =? QUOTE)%N = false /\ (c =? 123)%N = false /\ (c =? 91)%N = false
  /\ startswith (c :: r) (py "null") = false
  /\ startswith (c :: r) (py "true") = false
  /\ startswith (c :: r) (py "false") = false.
Proof.
  intros Hc.
  assert (Hr : (45 <= c <= 57)%N).
  { destruct Hc as [Hc| ->]; [|lia]. unfold is_digit, inrange in Hc.
    apply andb_prop in Hc as [?%N.leb_le ?%N.leb_le]. lia. }
  rewrite !N.eqb_neq. unfold QUOTE.
  change (py "null") with (110%N :: py "ull").
  change (py "true") with (116%N :: py "rue").
  change (py "false") with (102%N :: py "alse").
  repeat split; try lia; apply startswith_head_ne; lia.
Qed.

Lemma dumps_length v : float_free v = true -> (1 <= length (dumps v))%nat.
Proof. intros (c & t & -> & _)%dumps_head. cbn. lia. Qed.

(** The scanner reads an encoded document back when it may enter as
    many levels as the document nests. *)
Lemma scan_once_dumps v :
  well_formed v = true -> float_free v = true ->
  forall depth, (nesting v <= depth)%nat -> reads_back (scan_once depth) v.
Proof using All.
  induction v as [ |b|z|literal|s|items IH|members IH] using json_ind;
    intros Hwf Hff depth Hdepth rest Hrest.
  - by destruct depth.
  - by destruct b, depth.
  - destruct (int_repr_head z) as (c & t & Hd & Hc).
    pose proof (match_number_int z rest Hwf Hrest) as Hm.
    cbn [dumps] in *. rewrite Hd in *. cbn [app] in *. rewrite scan_once_eq.
    destruct (number_start_dispatch c (t ++ rest) Hc) as (-> & -> & -> & -> & -> & ->).
    by rewrite Hm.
  - discriminate Hff.
  - cbn [dumps]. unfold encode_basestring. rewrite <- !app_assoc.
    cbn [app]. rewrite scan_once_eq, N.eqb_refl. by rewrite scanstring_encoded.
  - destruct items as [|v items].
    { destruct depth; [cbn in Hdepth; lia|]. reflexivity. }
    assert (Hlen : forall x, x ∈ v :: items -> (S (nesting x) <= depth)%nat).
    { intros x Hx%nesting_items. lia. }
    clear Hdepth.
    cbn [dumps well_formed float_free] in *.
    set (J := join item_separator (dumps <$> v :: items)) in *.
    change (py "[") with [91%N] in *. change (py "]") with [93%N] in *.
    destruct depth as [|depth]; [specialize (Hlen v ltac:(by left)); lia|].
    assert (Hitems : (length (v :: items) <= length J)%nat).
    { pose proof (length_join_ge item_separator (dumps <$> v :: items)) as Hge.
      rewrite length_fmap in Hge. apply Hge. apply Forall_fmap, Forall_forall.
      intros x Hx. apply dumps_length.
      rewrite forallb_forall in Hff. by apply Hff, list_elem_of_In. }
    assert (Hhead : exists c1 r1, J = c1 :: r1 /\ value_start c1 = true).
    { assert (Hv : float_free v = true) by (cbn [forallb] in Hff; by apply andb_prop in Hff as [? _]).
      destruct (dumps_head v Hv) as (c1 & r1 & Hd & Hc1). subst J.
      destruct items; cbn [fmap list_fmap join]; rewrite Hd; by eexists _, _. }
    destruct Hhead as (c1 & r1 & HJ & Hc1).
    destruct (value_start_tests c1 Hc1) as (Hws & H93 & _ & _).
    rewrite <- !app_assoc. cbn [app scan_once].
    change (91 =? QUOTE)%N with false. change (91 =? 123)%N with false.
    change (91 =? 91)%N with true. cbv iota.
    rewrite HJ. cbn [app]. rewrite skip_ws_head by done. rewrite H93.
    change (c1 :: r1 ++ 93%N :: rest) with ((c1 :: r1) ++ 93%N :: rest).
    rewrite <- HJ. subst J.
    rewrite array_items_dumps; [done|done| | |].
    + apply (f_equal length) in HJ. rewrite length_app. cbn [length] in *. lia.
    + rewrite Forall_forall in IH. apply Forall_forall. intros x Hx.
      rewrite forallb_forall in Hwf, Hff.
      apply IH; [done|by apply Hwf, list_elem_of_In|by apply Hff, list_elem_of_In|].
      specialize (Hlen x Hx). lia.
    + apply Forall_forall. intros x Hx. rewrite forallb_forall in Hff.
      by apply Hff, list_elem_of_In.
  - destruct members as [|kv members].
    { destruct depth; [cbn in Hdepth; lia|]. reflexivity. }
    assert (Hlen : forall x, x ∈ kv :: members -> (S (nesting x.2) <= depth)%nat).
    { intros x Hx%nesting_members. lia. }
    clear Hdepth.
    cbn [dumps well_formed float_free] in *.
    change (fun kv0 : pystr * json =>
              encode_basestring kv0.1 ++ key_separator ++ dumps kv0.2)
      with member_text in *.
    set (J := join item_separator (member_text <$> kv :: members)) in *.
    change (py "{") with [123%N] in *. change (py "}") with [125%N] in *.
    destruct depth as [|depth]; [specialize (Hlen kv ltac:(by left)); lia|].
    apply andb_prop in Hwf as [Hnd%bool_decide_eq_true Hwf].
    assert (Hitems : (length (kv :: members) <= length J)%nat).
    { pose proof (length_join_ge item_separator (member_text <$> kv :: members)) as Hge.
      rewrite length_fmap in Hge. apply Hge. apply Forall_fmap, Forall_forall.
      intros x Hx. change (1 <= length (member_text x))%nat.
      unfold Shapes.member_text, encode_basestring.
      rewrite !length_app. cbn [length]. lia. }
    destruct (member_text_head kv members (125%N :: rest)) as (tail & Htail).
    rewrite <- !app_assoc. cbn [app scan_once].
    change (123 =? QUOTE)%N with false. change (123 =? 123)%N with true. cbv iota.
    match goal with |- context [skip_ws ?t] =>
      replace t with (QUOTE :: tail) by (symmetry; exact Htail) end.
    rewrite skip_ws_head by reflexivity.
    change (QUOTE =? 125)%N with false. rewrite N.eqb_refl.
    rewrite (object_members_dumps _ (kv :: members) [] rest); [| done | | | | done].
    + cbn [mbind result_bind app]. by rewrite dict_of_pairs_distinct.
    + apply (f_equal length) in Htail. rewrite length_app in Htail.
      fold J in Htail. cbn [length] in *. lia.
    + rewrite Forall_forall in IH. apply Forall_forall. intros x Hx.
      rewrite forallb_forall in Hwf, Hff.
      apply IH; [done|by apply Hwf, list_elem_of_In|by apply Hff, list_elem_of_In|].
      specialize (Hlen x Hx). lia.
    + apply Forall_forall. intros x Hx. rewrite forallb_forall in Hff.
      by apply Hff, list_elem_of_In.
Qed.


(** *** Documents nested deeper than the limit *)

Lemma array_items_too_deep scan pre x post : forall acc rest n,
  (length pre < n)%nat ->
  Forall (reads_back scan) pre ->
  Forall (fun v => float_free v = true) (pre ++ x :: post) ->
  (forall rest', number_boundary rest' = true ->
     scan (dumps x ++ rest') = Raise RecursionError) ->
  array_items scan n
    (join item_separator (dumps <$> (pre ++ x :: post)) ++ 93%N :: rest) acc
  = Raise RecursionError.
Proof using All.
  induction pre as [|v pre IH]; intros acc rest n Hn Hread Hff Hx.
  - destruct n as [|n]; [lia|]. cbn [app array_items].
    destruct post as [|p post]; cbn [fmap list_fmap join].
    + by rewrite Hx.
    + rewrite <- !app_assoc. by rewrite Hx.
  - destruct n as [|n]; [cbn in Hn; lia|].
    apply Forall_cons in Hread as [Hv Hread].
    cbn [app] in Hff. apply Forall_cons in Hff as [_ Hff].
    assert (Hne : exists y more, pre ++ x :: post = y :: more /\ float_free y = true).
    { destruct pre as [|y pre']; cbn [app] in *.
      - exists x, post. split; [done|]. by apply Forall_cons in Hff as [? _].
      - exists y, (pre' ++ x :: post). split; [done|].
        by apply Forall_cons in Hff as [? _]. }
    destruct Hne as (y & more & Hitems & Hy).
    change (dumps <$> (v :: pre) ++ x :: post)
      with (dumps v :: (dumps <$> pre ++ x :: post)).
    assert (Hjoin : join item_separator (dumps v :: (dumps <$> pre ++ x :: post))
                    = dumps v ++ item_separator
                      ++ join item_separator (dumps <$> pre ++ x :: post)).
    { rewrite Hitems. reflexivity. }
    rewrite Hjoin. rewrite <- !app_assoc. cbn [array_items].
    rewrite Hv by reflexivity. cbn [mbind result_bind app].
    rewrite skip_ws_head by reflexivity.
    change (44 =? 93)%N with false. change (44 =? 44)%N with true. cbv iota.
    rewrite skip_ws_blanks by done.
    assert (Hhead : skip_ws (join item_separator (dumps <$> pre ++ x :: post)
                             ++ 93%N :: rest)
                    = join item_separator (dumps <$> pre ++ x :: post) ++ 93%N :: rest).
    { rewrite Hitems.
      destruct more; cbn [fmap list_fmap join]; rewrite <- ?app_assoc;
        by apply skip_ws_dumps. }
    rewrite Hhead. apply IH; [cbn in Hn; lia|done..].
Qed.

Lemma object_members_too_deep scan pre kv post : forall acc rest n tail,
  (length pre < n)%nat ->
  Forall (fun kv => reads_back scan kv.2) pre ->
  Forall (fun kv => float_free kv.2 = true) (pre ++ kv :: post) ->
  (forall rest', number_boundary rest' = true ->
     scan (dumps kv.2 ++ rest') = Raise RecursionError) ->
  join item_separator (member_text <$> (pre ++ kv :: post)) ++ 125%N :: rest
    = QUOTE :: tail ->
  object_members scan n tail acc = Raise RecursionError.
Proof using All.
  induction pre as [|[k v] pre IH]; intros acc rest n tail Hn Hread Hff Hx.
  - destruct n as [|n]; [lia|]. destruct kv as [k x]. cbn [app snd] in *.
    apply Forall_cons in Hff as [Hfx _]. cbn [snd] in Hfx.
    destruct post as [|p post]; cbn [fmap list_fmap join];
      unfold Shapes.member_text at 1, encode_basestring; cbn [fst snd];
      rewrite <- !app_assoc; cbn [app]; intros [= <-];
      cbn [object_members]; rewrite scanstring_encoded; cbn [app];
      rewrite skip_ws_head by reflexivity; change (58 =? 58)%N with true; cbv iota;
      rewrite skip_ws_blanks, skip_ws_dumps by done; by rewrite Hx.
  - destruct n as [|n]; [cbn in Hn; lia|].
    apply Forall_cons in Hread as [Hv Hread].
    cbn [app] in Hff. apply Forall_cons in Hff as [Hfv Hff].
    cbn [fst snd] in Hv, Hfv.
    assert (Hne : exists y more, pre ++ kv :: post = y :: more).
    { destruct pre as [|y pre']; cbn [app]; eauto. }
    destruct Hne as (y & more & Hitems).
    change (member_text <$> ((k, v) :: pre) ++ kv :: post)
      with (member_text (k, v) :: (member_text <$> pre ++ kv :: post)).
    assert (Hjoin : join item_separator
                      (member_text (k, v) :: (member_text <$> pre ++ kv :: post))
                    = member_text (k, v) ++ item_separator
                      ++ join item_separator (member_text <$> pre ++ kv :: post)).
    { rewrite Hitems. reflexivity. }
    rewrite Hjoin.
    destruct (member_text_head y more (125%N :: rest)) as (tail2 & Htail2).
    rewrite <- Hitems in Htail2.
    set (J := join item_separator (member_text <$> pre ++ kv :: post)) in *.
    unfold Shapes.member_text at 1, encode_basestring.
    cbn [fst snd]. rewrite <- !app_assoc. cbn [app]. intros [= <-].
    cbn [object_members]. rewrite scanstring_encoded. cbn [app].
    rewrite skip_ws_head by reflexivity. change (58 =? 58)%N with true. cbv iota.
    rewrite skip_ws_blanks, skip_ws_dumps by done.
    rewrite Hv by reflexivity. cbn [mbind result_bind].
    rewrite skip_ws_head by reflexivity.
    change (44 =? 125)%N with false. change (44 =? 44)%N with true. cbv iota.
    rewrite skip_ws_blanks by done.
    rewrite Htail2. rewrite skip_ws_head by reflexivity.
    rewrite N.eqb_refl.
    apply (IH (acc ++ [(k, v)]) rest n tail2); [cbn in Hn; lia|done..].
Qed.

(** An encoded document that nests deeper than the scanner may go makes
    it raise [RecursionError]. *)
Lemma scan_once_too_deep v :
  well_formed v = true -> float_free v = true ->
  forall depth rest, (depth < nesting v)%nat -> number_boundary rest = true ->
    scan_once depth (dumps v ++ rest) = Raise RecursionError.
Proof using All.
  induction v as [ |b|z|literal|s|items IH|members IH] using json_ind;
    intros Hwf Hff depth rest Hdepth Hrest; try (cbn [nesting] in Hdepth; lia).
  - destruct depth as [|depth].
    { cbn [dumps]. change (py "[") with [91%N]. by rewrite <- app_assoc. }
    destruct (first_deep_item depth items Hdepth) as (pre & x & post & -> & Hpre & Hx).
    cbn [dumps well_formed float_free] in *.
    apply forallb_Forall_true in Hwf, Hff.
    set (items := pre ++ x :: post) in *.
    set (J := join item_separator (dumps <$> items)) in *.
    change (py "[") with [91%N] in *. change (py "]") with [93%N] in *.
    assert (Hitems : (length items <= length J)%nat).
    { pose proof (length_join_ge item_separator (dumps <$> items)) as Hge.
      rewrite length_fmap in Hge. apply Hge. apply Forall_fmap.
      eapply Forall_impl; [exact Hff|]. intros y Hy. by apply dumps_length. }
    assert (Hhead : exists c1 r1, J = c1 :: r1 /\ value_start c1 = true).
    { subst J items. destruct pre as [|y pre]; cbn [app] in *.
      - apply Forall_cons in Hff as [Hy _].
        destruct (dumps_head x Hy) as (c1 & r1 & Hd & Hc1).
        destruct post; cbn [fmap list_fmap join]; rewrite Hd; by eexists _, _.
      - apply Forall_cons in Hff as [Hy _].
        destruct (dumps_head y Hy) as (c1 & r1 & Hd & Hc1).
        destruct (pre ++ x :: post); cbn [fmap list_fmap join]; rewrite Hd;
          by eexists _, _. }
    destruct Hhead as (c1 & r1 & HJ & Hc1).
    destruct (value_start_tests c1 Hc1) as (Hws & H93 & _ & _).
    assert (Hlen : (length pre < S (S (length r1)))%nat).
    { assert (length items = length pre + S (length post))%nat as Hsplit
        by (subst items; by rewrite length_app).
      rewrite HJ in Hitems. cbn [length] in Hitems. lia. }
    rewrite <- !app_assoc. cbn [app scan_once].
    change (91 =? QUOTE)%N with false. change (91 =? 123)%N with false.
    change (91 =? 91)%N with true. cbv iota.
    rewrite HJ. cbn [app]. rewrite skip_ws_head by done. rewrite H93.
    change (c1 :: r1 ++ 93%N :: rest) with ((c1 :: r1) ++ 93%N :: rest).
    rewrite <- HJ. subst J items.
    rewrite array_items_too_deep; [done| | |done|].
    + rewrite length_app. lia.
    + apply Forall_forall. intros y Hy.
      apply scan_once_dumps.
      * rewrite Forall_forall in Hwf. apply Hwf. apply elem_of_app. by left.
      * rewrite Forall_forall in Hff. apply Hff. apply elem_of_app. by left.
      * rewrite Forall_forall in Hpre. by apply Hpre.
    + intros rest' Hrest'. rewrite Forall_forall in IH.
      assert (Hin : x ∈ pre ++ x :: post) by (apply elem_of_app; right; by left).
      apply IH; [done| | |done|done].
      * rewrite Forall_forall in Hwf. by apply Hwf.
      * rewrite Forall_forall in Hff. by apply Hff.
  - destruct depth as [|depth].
    { cbn [dumps]. change (py "{") with [123%N]. by rewrite <- app_assoc. }
    destruct (first_deep_member depth members Hdepth)
      as (pre & kv & post & -> & Hpre & Hx).
    cbn [dumps well_formed float_free] in *.
    change (fun kv0 : pystr * json =>
              encode_basestring kv0.1 ++ key_separator ++ dumps kv0.2)
      with member_text in *.
    apply andb_prop in Hwf as [_ Hwf].
    apply (forallb_Forall_true (fun kv => well_formed kv.2)) in Hwf.
    apply (forallb_Forall_true (fun kv => float_free kv.2)) in Hff.
    set (members := pre ++ kv :: post) in *.
    set (J := join item_separator (member_text <$> members)) in *.
    change (py "{") with [123%N] in *. change (py "}") with [125%N] in *.
    assert (Hitems : (length members <= length J)%nat).
    { pose proof (length_join_ge item_separator (member_text <$> members)) as Hge.
      rewrite length_fmap in Hge. apply Hge. apply Forall_fmap, Forall_forall.
      intros y Hy. change (1 <= length (member_text y))%nat.
      unfold Shapes.member_text, encode_basestring.
      rewrite !length_app. cbn [length]. lia. }
    assert (Htail : exists tail, J ++ 125%N :: rest = QUOTE :: tail).
    { subst J members. destruct pre as [|y pre]; cbn [app].
      - apply member_text_head.
      - apply member_text_head. }
    destruct Htail as (tail & Htail).
    rewrite <- !app_assoc. cbn [app scan_once].
    change (123 =? QUOTE)%N with false. change (123 =? 123)%N with true. cbv iota.
    match goal with |- context [skip_ws ?t] =>
      replace t with (QUOTE :: tail) by (symmetry; exact Htail) end.
    rewrite skip_ws_head by reflexivity.
    change (QUOTE =? 125)%N with false. rewrite N.eqb_refl.
    rewrite (object_members_too_deep (scan_once depth) pre kv post [] rest
               (S (length tail)) tail); [done| | |done| |exact Htail].
    + assert (length members = length pre + S (length post))%nat as Hsplit
        by (subst members; by rewrite length_app).
      apply (f_equal length) in Htail. rewrite length_app in Htail.
      cbn [length] in Htail. lia.
    + apply Forall_forall. intros y Hy.
      apply scan_once_dumps.
      * rewrite Forall_forall in Hwf. apply Hwf. apply elem_of_app. by left.
      * rewrite Forall_forall in Hff. apply Hff. apply elem_of_app. by left.
      * rewrite Forall_forall in Hpre. by apply Hpre.
    + intros rest' Hrest'. rewrite Forall_forall in IH.
      assert (Hin : kv ∈ pre ++ kv :: post) by (apply elem_of_app; right; by left).
      apply IH; [done| | |done|done].
      * rewrite Forall_forall in Hwf. by apply Hwf.
      * rewrite Forall_forall in Hff. by apply Hff.
Qed.

Lemma skip_ws_all w : forallb is_ws w = true -> skip_ws w = [].
Proof. intros Hw. rewrite <- (app_nil_r w). by rewrite skip_ws_blanks. Qed.

Lemma blanks_boundary w : forallb is_ws w = true -> number_boundary w = true.
Proof.
  destruct w as [|c w]; [done|]. cbn [forallb number_boundary].
  intros [Hc _]%andb_prop. unfold is_ws in Hc. unfold is_digit, inrange.
  rewrite !orb_true_iff, !N.eqb_eq in Hc.
  apply negb_true_iff. rewrite !orb_false_iff, andb_false_iff, !N.eqb_neq, !N.leb_gt.
  repeat split; lia.
Qed.

(** Decoding an encoded document, followed by blanks or not, gives the
    document back, when the document nests no deeper than the limit. *)
Lemma loads_dumps recursion_limit v blanks :
  well_formed v = true -> float_free v = true ->
  (nesting v <= recursion_limit)%nat -> forallb is_ws blanks = true ->
  loads recursion_limit (dumps v ++ blanks) = Ok v.
Proof using All.
  intros Hwf Hff Hn Hb. unfold loads.
  pose proof (scan_once_dumps v Hwf Hff recursion_limit Hn) as Hscan.
  rewrite skip_ws_dumps by done.
  rewrite Hscan; [|by apply blanks_boundary].
  destruct (dumps_head v Hff) as (c & t & Hd & Hc).
  destruct (value_start_tests c Hc) as (_ & _ & _ & Hbom).
  rewrite Hd. cbn [app]. rewrite startswith_head_ne by done.
  cbn [mbind result_bind]. by rewrite skip_ws_all.
Qed.

(** An encoded document that nests deeper than the limit is refused. *)
Lemma loads_dumps_too_deep recursion_limit v blanks :
  well_formed v = true -> float_free v = true ->
  (recursion_limit < nesting v)%nat -> forallb is_ws blanks = true ->
  loads recursion_limit (dumps v ++ blanks) = Raise RecursionError.
Proof using All.
  intros Hwf Hff Hn Hb. unfold loads.
  rewrite skip_ws_dumps by done.
  rewrite (scan_once_too_deep v Hwf Hff recursion_limit blanks Hn)
    by (by apply blanks_boundary).
  destruct (dumps_head v Hff) as (c & t & Hd & Hc).
  destruct (value_start_tests c Hc) as (_ & _ & _ & Hbom).
  rewrite Hd. cbn [app]. by rewrite startswith_head_ne.
Qed.

End RoundTrip.

Lemma loads_dumps_compact recursion_limit float_repr v blanks :
  well_formed v = true -> float_free v = true ->
  (nesting v <= recursion_limit)%nat -> forallb is_ws blanks = true ->
  loads recursion_limit (dumps_compact float_repr v ++ blanks) = Ok v.
Proof. by apply (loads_dumps float_repr [] []). Qed.

Lemma loads_dumps_default recursion_limit float_repr v blanks :
  well_formed v = true -> float_free v = true ->
  (nesting v <= recursion_limit)%nat -> forallb is_ws blanks = true ->
  loads recursion_limit (dumps_default float_repr v ++ blanks) = Ok v.
Proof. by apply (loads_dumps float_repr [32%N] [32%N]). Qed.

End JsonRoundTrip.

(* ================================================================== *)
(** * What the decoder returns *)
(* ================================================================== *)

Module JsonShape.
Import PyStr Json Shapes JsonFacts JsonRoundTrip.

(** ** Integers *)

Lemma digit_cases c :
  is_digit c = true ->
  (c = 48 \/ c = 49 \/ c = 50 \/ c = 51 \/ c = 52 \/ c = 53 \/ c = 54 \/ c = 55
   \/ c = 56 \/ c = 57)%N.
Proof.
  unfold is_digit, inrange. intros [H1%N.leb_le H2%N.leb_le]%andb_prop. lia.
Qed.

Lemma digits_surj ds : forallb is_digit ds = true -> exists d, digits d = ds.
Proof.
  induction ds as [|c ds IH]; [by exists Decimal.Nil|].
  cbn [forallb]. intros [Hc [d <-]%IH]%andb_prop.
  destruct (digit_cases c Hc) as [->|[->|[->|[->|[->|[->|[->|[->|[->| ->]]]]]]]]].
  - exists (Decimal.D0 d). apply (digits_cons (Decimal.D0 d)).
  - exists (Decimal.D1 d). apply (digits_cons (Decimal.D1 d)).
  - exists (Decimal.D2 d). apply (digits_cons (Decimal.D2 d)).
  - exists (Decimal.D3 d). apply (digits_cons (Decimal.D3 d)).
  - exists (Decimal.D4 d). apply (digits_cons (Decimal.D4 d)).
  - exists (Decimal.D5 d). apply (digits_cons (Decimal.D5 d)).
  - exists (Decimal.D6 d). apply (digits_cons (Decimal.D6 d)).
  - exists (Decimal.D7 d). apply (digits_cons (Decimal.D7 d)).
  - exists (Decimal.D8 d). apply (digits_cons (Decimal.D8 d)).
  - exists (Decimal.D9 d). apply (digits_cons (Decimal.D9 d)).
Qed.

(** A digit string without leading zero is the decimal form of its value. *)
Lemma int_repr_digits_value c ds :
  is_digit c = true -> (c =? 48)%N = false -> forallb is_digit ds = true ->
  0 <= digits_value (c :: ds) /\ int_repr (digits_value (c :: ds)) = c :: ds.
Proof.
  intros Hc Hc0 [d <-]%digits_surj. apply N.eqb_neq in Hc0.
  assert (exists d0, digits d0 = c :: digits d /\ Decimal.unorm d0 = d0
                     /\ d0 <> Decimal.Nil) as (d0 & <- & Hnorm & Hnil).
  { destruct (digit_cases c Hc) as [->|[->|[->|[->|[->|[->|[->|[->|[->| ->]]]]]]]]];
      [done|..].
    - exists (Decimal.D1 d). by rewrite (digits_cons (Decimal.D1 d)).
    - exists (Decimal.D2 d). by rewrite (digits_cons (Decimal.D2 d)).
    - exists (Decimal.D3 d). by rewrite (digits_cons (Decimal.D3 d)).
    - exists (Decimal.D4 d). by rewrite (digits_cons (Decimal.D4 d)).
    - exists (Decimal.D5 d). by rewrite (digits_cons (Decimal.D5 d)).
    - exists (Decimal.D6 d). by rewrite (digits_cons (Decimal.D6 d)).
    - exists (Decimal.D7 d). by rewrite (digits_cons (Decimal.D7 d)).
    - exists (Decimal.D8 d). by rewrite (digits_cons (Decimal.D8 d)).
    - exists (Decimal.D9 d). by rewrite (digits_cons (Decimal.D9 d)). }
  rewrite digits_value_digits. split; [lia|].
  pose proof (DecimalPos.Unsigned.to_of d0) as Hto. rewrite Hnorm in Hto.
  destruct (Pos.of_uint d0) as [|p].
  - cbn [N.to_uint] in Hto. subst d0. done.
  - cbn [N.to_uint] in Hto. cbn [Z.of_N]. rewrite int_repr_pos. by rewrite Hto.
Qed.

(** The number pattern gives integers that are within the limit. *)
Lemma match_number_well_formed s v rest :
  match_number s = Some (Ok v, rest) -> well_formed v = true.
Proof.
  unfold match_number.
  set (sign_rest := match s with
                    | c :: r => if (c =? 45)%N then ([45%N], r) else ([], s)
                    | [] => ([], s)
                    end).
  destruct sign_rest as [sign s1].
  set (int_part := match s1 with
                   | c :: r =>
                       if (c =? 48)%N then Some ([c], r)
                       else if is_digit c
                       then let '(ds, rest) := take_digits r in Some (c :: ds, rest)
                       else None
                   | [] => None
                   end).
  assert (Hint : forall ds s2, int_part = Some (ds, s2) ->
            0 <= digits_value ds /\ int_repr (digits_value ds) = ds).
  { subst int_part. intros ds s2. destruct s1 as [|c r0]; [done|].
    destruct (c =? 48)%N eqn:E0.
    { apply N.eqb_eq in E0 as ->. by intros [= <- <-]. }
    destruct (is_digit c) eqn:Ec; [|done].
    destruct (take_digits r0) as [ds' rest'] eqn:E. intros [= <- <-].
    apply int_repr_digits_value; [done..|].
    clear -E. revert ds' rest' E. induction r0 as [|x r0 IH]; intros ds' rest';
      cbn [take_digits]; [by intros [= <- <-]|].
    destruct (is_digit x) eqn:Ex; [|by intros [= <- <-]].
    destruct (take_digits r0) as [ds0 rest0]. intros [= <- <-].
    cbn [forallb]. rewrite Ex. by apply (IH _ _ eq_refl). }
  destruct int_part as [[ds s2]|]; [|discriminate].
  destruct (Hint _ _ eq_refl) as [Hpos Hrepr]. clear Hint.
  set (frac_rest := match s2 with
                    | c :: r =>
                        if (c =? 46)%N then
                          match take_digits r with
                          | ([], _) => ([], s2)
                          | (fs, rest) => (c :: fs, rest)
                          end
                        else ([], s2)
                    | [] => ([], s2)
                    end).
  destruct frac_rest as [frac s3].
  set (exp_rest := match s3 with
                   | c :: r =>
                       if (c =? 101)%N || (c =? 69)%N then
                         let '(esign, r') :=
                           match r with
                           | c' :: r0 =>
                               if (c' =? 43)%N || (c' =? 45)%N then ([c'], r0) else ([], r)
                           | [] => ([], r)
                           end in
                         match take_digits r' with
                         | ([], _) => ([], s3)
                         | (es, rest) => (c :: esign ++ es, rest)
                         end
                       else ([], s3)
                   | [] => ([], s3)
                   end).
  destruct exp_rest as [exp s4].
  intros H. destruct frac, exp; [|by injection H as <- <-..].
  destruct (max_str_digits <? length ds)%nat eqn:El; [discriminate|].
  apply Nat.ltb_ge in El. injection H as <- <-.
  cbn [well_formed]. unfold int_ok. apply Nat.leb_le.
  replace (Z.abs (if sign is [] then digits_value ds else - digits_value ds))
    with (digits_value ds) by (destruct sign; lia).
  by rewrite Hrepr.
Qed.

(** ** Objects *)

Lemma dict_set_keys d k v :
  (dict_set d k v).*1 = if decide (k ∈ d.*1) then d.*1 else d.*1 ++ [k].
Proof.
  induction d as [|[k' v'] d IH]; [done|]. cbn [dict_set fmap list_fmap fst].
  destruct (decide (k' = k)) as [->|Hne].
  - rewrite decide_True by left. done.
  - cbn [fmap list_fmap fst]. change (list_fmap _ _ fst ?l) with (l.*1). rewrite IH.
    destruct (decide (k ∈ d.*1)) as [Hin|Hin].
    + rewrite decide_True by (by right). done.
    + rewrite decide_False; [done|]. intros [?|?]%elem_of_cons; congruence.
Qed.

Lemma dict_set_NoDup d k v : NoDup d.*1 -> NoDup (dict_set d k v).*1.
Proof.
  intros Hd. rewrite dict_set_keys. destruct (decide (k ∈ d.*1)); [done|].
  apply NoDup_app. split_and!; [done| |apply NoDup_singleton].
  intros x Hx ->%list_elem_of_singleton. done.
Qed.

Lemma dict_set_Forall (P : json -> Prop) d k v :
  Forall (fun kv => P kv.2) d -> P v -> Forall (fun kv => P kv.2) (dict_set d k v).
Proof.
  intros Hd Hv. induction d as [|[k' v'] d IH]; cbn [dict_set].
  - by constructor.
  - apply Forall_cons in Hd as [Hh Hd]. destruct (decide (k' = k)).
    + by constructor.
    + constructor; [done|by apply IH].
Qed.

Lemma dict_of_pairs_shape (P : json -> Prop) pairs :
  Forall (fun kv => P kv.2) pairs ->
  NoDup (dict_of_pairs pairs).*1 /\ Forall (fun kv => P kv.2) (dict_of_pairs pairs).
Proof.
  unfold dict_of_pairs.
  assert (G : forall pairs acc,
    Forall (fun kv => P kv.2) pairs ->
    NoDup acc.*1 -> Forall (fun kv => P kv.2) acc ->
    NoDup (fold_left (fun d kv => dict_set d kv.1 kv.2) pairs acc).*1
    /\ Forall (fun kv => P kv.2) (fold_left (fun d kv => dict_set d kv.1 kv.2) pairs acc)).
  { clear pairs. induction pairs as [|[k v] pairs IH]; intros acc Hp Hn Ha;
      cbn [fold_left]; [done|].
    apply Forall_cons in Hp as [Hv Hp].
    apply IH; [done|by apply dict_set_NoDup|by apply dict_set_Forall]. }
  intros Hp. apply G; [done|constructor|constructor].
Qed.

(** ** The loops *)

Section Loops.

Context (scan : pystr -> result (json * pystr)) (P : json -> Prop).

Hypothesis scan_P : forall s v rest, scan s = Ok (v, rest) -> P v.

Lemma array_items_Forall fuel : forall s acc items rest,
  array_items scan fuel s acc = Ok (items, rest) -> Forall P acc -> Forall P items.
Proof using scan_P.
  induction fuel as [|fuel IH]; intros s acc items rest; cbn [array_items];
    [discriminate|].
  destruct (scan s) as [[v r0]|e] eqn:Es; cbn [mbind result_bind]; [|discriminate].
  apply scan_P in Es.
  destruct (skip_ws r0) as [|c r] eqn:Ew; [discriminate|].
  destruct (c =? 93)%N.
  { intros [= <- <-] Ha. apply Forall_app. split; [done|by constructor]. }
  destruct (c =? 44)%N; [|discriminate].
  intros H1 Ha. eapply IH; [exact H1|]. apply Forall_app. split; [done|by constructor].
Qed.

Lemma object_members_Forall fuel : forall s acc members rest,
  object_members scan fuel s acc = Ok (members, rest) ->
  Forall (fun kv => P kv.2) acc -> Forall (fun kv => P kv.2) members.
Proof using scan_P.
  induction fuel as [|fuel IH]; intros s acc members rest; cbn [object_members];
    [discriminate|].
  destruct (scanstring s []) as [[key r0]|] eqn:Ek; [|discriminate].
  destruct (skip_ws r0) as [|c r] eqn:Ew; [discriminate|].
  destruct (c =? 58)%N; [|discriminate].
  destruct (scan (skip_ws r)) as [[v r1]|e] eqn:Es; cbn [mbind result_bind];
    [|discriminate].
  apply scan_P in Es.
  destruct (skip_ws r1) as [|c2 r2] eqn:Ew2; [discriminate|].
  destruct (c2 =? 125)%N.
  { intros [= <- <-] Ha. apply Forall_app. split; [done|by constructor]. }
  destruct (c2 =? 44)%N; [|discriminate].
  destruct (skip_ws r2) as [|c3 r3] eqn:Ew3; [discriminate|].
  destruct (c3 =? QUOTE)%N; [|discriminate].
  intros H5 Ha. eapply IH; [exact H5|]. apply Forall_app. split; [done|by constructor].
Qed.

End Loops.

(** The documents the scanner returns have distinct keys in every object
    and integers within the limit. *)
Lemma scan_once_well_formed depth : forall s v rest,
  scan_once depth s = Ok (v, rest) -> well_formed v = true.
Proof.
  induction depth as [depth IH] using lt_wf_ind. intros s v rest.
  destruct s as [|c r]; [by destruct depth|]. rewrite scan_once_eq.
  destruct (c =? QUOTE)%N.
  { destruct (scanstring r []) as [[str r0]|] eqn:E; [|discriminate].
    by intros [= <- <-]. }
  destruct (c =? 123)%N.
  { destruct depth as [|depth]; [discriminate|].
    destruct (skip_ws r) as [|c1 r1]; [discriminate|].
    destruct (c1 =? 125)%N; [by intros [= <- <-]|].
    destruct (c1 =? QUOTE)%N; [|discriminate].
    destruct (object_members _ _ r1 []) as [[pairs r2]|] eqn:E;
      cbn [mbind result_bind]; [|discriminate].
    apply (object_members_Forall _ (fun v => well_formed v = true)
             (IH depth ltac:(lia))) in E; [|constructor].
    intros [= <- <-]. cbn [well_formed].
    destruct (dict_of_pairs_shape (fun v => well_formed v = true) pairs E) as [Hn Hf].
    apply andb_true_intro. split; [by apply bool_decide_eq_true_2|].
    by apply (forallb_Forall_true (fun kv => well_formed kv.2)). }
  destruct (c =? 91)%N.
  { destruct depth as [|depth]; [discriminate|].
    destruct (skip_ws r) as [|c1 r1]; [discriminate|].
    destruct (c1 =? 93)%N; [by intros [= <- <-]|].
    destruct (array_items _ _ (c1 :: r1) []) as [[items r2]|] eqn:E;
      cbn [mbind result_bind]; [|discriminate].
    apply (array_items_Forall _ (fun v => well_formed v = true)
             (IH depth ltac:(lia))) in E; [|constructor].
    intros [= <- <-]. cbn [well_formed]. by apply forallb_Forall_true. }
  destruct (startswith (c :: r) (py "null")); [by intros [= <- <-]|].
  destruct (startswith (c :: r) (py "true")); [by intros [= <- <-]|].
  destruct (startswith (c :: r) (py "false")); [by intros [= <- <-]|].
  destruct (match_number (c :: r)) as [[[v0|e] r0]|] eqn:Em.
  - apply match_number_well_formed in Em. by intros [= <- <-].
  - discriminate.
  - destruct (startswith (c :: r) (py "NaN")); [by intros [= <- <-]|].
    destruct (startswith (c :: r) (py "Infinity")); [by intros [= <- <-]|].
    destruct (startswith (c :: r) (py "-Infinity")); [by intros [= <- <-]|].
    discriminate.
Qed.

Lemma loads_well_formed recursion_limit s v :
  loads recursion_limit s = Ok v -> well_formed v = true.
Proof.
  unfold loads. destruct (startswith s [65279%N]); [discriminate|].
  destruct (scan_once _ _) as [[v0 rest]|] eqn:E; cbn [mbind result_bind];
    [|discriminate].
  apply scan_once_well_formed in E. destruct (skip_ws rest); [|discriminate].
  by intros [= <-].
Qed.

(** ** The documents the decoder returns nest within the limit *)

Lemma nesting_items_le depth items :
  Forall (fun v => (nesting v <= depth)%nat) items ->
  (nesting (JArr items) <= S depth)%nat.
Proof.
  intros H. cbn [nesting]. apply le_n_S.
  induction H as [|x items Hx _ IH]; cbn [foldr]; lia.
Qed.

Lemma nesting_members_le depth (members : list (pystr * json)) :
  Forall (fun kv => (nesting kv.2 <= depth)%nat) members ->
  (nesting (JObj members) <= S depth)%nat.
Proof.
  intros H. cbn [nesting]. apply le_n_S.
  induction H as [|x members Hx _ IH]; cbn [foldr]; lia.
Qed.

Lemma nesting_items_inv depth items :
  (nesting (JArr items) <= S depth)%nat ->
  Forall (fun v => (nesting v <= depth)%nat) items.
Proof.
  intros H. apply Forall_forall. intros x Hx%nesting_items. lia.
Qed.

Lemma nesting_members_inv depth (members : list (pystr * json)) :
  (nesting (JObj members) <= S depth)%nat ->
  Forall (fun kv => (nesting kv.2 <= depth)%nat) members.
Proof.
  intros H. apply Forall_forall. intros x Hx%nesting_members. lia.
Qed.

Lemma scan_once_nesting depth : forall s v rest,
  scan_once depth s = Ok (v, rest) -> (nesting v <= depth)%nat.
Proof.
  induction depth as [depth IH] using lt_wf_ind. intros s v rest.
  destruct s as [|c r]; [by destruct depth|]. rewrite scan_once_eq.
  destruct (c =? QUOTE)%N.
  { destruct (scanstring r []) as [[str r0]|] eqn:E; [|discriminate].
    intros [= <- <-]. cbn. lia. }
  destruct (c =? 123)%N.
  { destruct depth as [|depth]; [discriminate|].
    destruct (skip_ws r) as [|c1 r1]; [discriminate|].
    destruct (c1 =? 125)%N; [intros [= <- <-]; cbn; lia|].
    destruct (c1 =? QUOTE)%N; [|discriminate].
    destruct (object_members _ _ r1 []) as [[pairs r2]|] eqn:E;
      cbn [mbind result_bind]; [|discriminate].
    apply (object_members_Forall _ (fun v => (nesting v <= depth)%nat)
             (IH depth ltac:(lia))) in E; [|constructor].
    intros [= <- <-].
    destruct (dict_of_pairs_shape (fun v => (nesting v <= depth)%nat) pairs E)
      as [_ Hf].
    by apply nesting_members_le. }
  destruct (c =? 91)%N.
  { destruct depth as [|depth]; [discriminate|].
    destruct (skip_ws r) as [|c1 r1]; [discriminate|].
    destruct (c1 =? 93)%N; [intros [= <- <-]; cbn; lia|].
    destruct (array_items _ _ (c1 :: r1) []) as [[items r2]|] eqn:E;
      cbn [mbind result_bind]; [|discriminate].
    apply (array_items_Forall _ (fun v => (nesting v <= depth)%nat)
             (IH depth ltac:(lia))) in E; [|constructor].
    intros [= <- <-]. by apply nesting_items_le. }
  destruct (startswith (c :: r) (py "null")); [intros [= <- <-]; cbn; lia|].
  destruct (startswith (c :: r) (py "true")); [intros [= <- <-]; cbn; lia|].
  destruct (startswith (c :: r) (py "false")); [intros [= <- <-]; cbn; lia|].
  destruct (match_number (c :: r)) as [[[v0|e] r0]|] eqn:Em.
  - intros [= <- <-]. unfold match_number in Em.
    repeat match type of Em with
    | context [let '(_, _) := ?x in _] => destruct x
    | context [match ?x with _ => _ end] => destruct x
    end; try discriminate; injection Em as <- _; cbn; lia.
  - discriminate.
  - destruct (startswith (c :: r) (py "NaN")); [intros [= <- <-]; cbn; lia|].
    destruct (startswith (c :: r) (py "Infinity")); [intros [= <- <-]; cbn; lia|].
    destruct (startswith (c :: r) (py "-Infinity")); [intros [= <- <-]; cbn; lia|].
    discriminate.
Qed.

(** A decoded document nests no deeper than the limit. *)
Lemma loads_nesting recursion_limit s v :
  loads recursion_limit s = Ok v -> (nesting v <= recursion_limit)%nat.
Proof.
  unfold loads. destruct (startswith s [65279%N]); [discriminate|].
  destruct (scan_once _ _) as [[v0 rest]|] eqn:E; cbn [mbind result_bind];
    [|discriminate].
  apply scan_once_nesting in E. destruct (skip_ws rest); [|discriminate].
  by intros [= <-].
Qed.

End JsonShape.

(* ================================================================== *)
(** * Further properties of the migration *)
(* ================================================================== *)

Module MigrateProps.
Import PyStr Json Migrate Samples Shapes MigrateSteps JsonFacts MigrateFacts.

(** ** Record ids and the four paths *)

Lemma drop_last_app pre suffix : drop_last (length suffix) (pre ++ suffix) = pre.
Proof.
  unfold drop_last. rewrite length_app.
  replace (length pre + length suffix - length suffix)%nat with (length pre) by lia.
  by rewrite take_app_length.
Qed.

Lemma endswith_suffix s a b : endswith s (a ++ b) = true -> endswith s b = true.
Proof.
  intros H%endswith_inv. rewrite H, app_assoc. apply endswith_app.
Qed.

(** Two suffixes of one string agree on their common length. *)
Lemma endswith_both s a b :
  endswith s a = true -> endswith s b = true ->
  (length a <= length b)%nat -> endswith b a = true.
Proof.
  unfold endswith. rewrite !bool_decide_eq_true. intros Ha Hb Hlen.
  pose proof (f_equal length Hb) as Hl. rewrite length_drop in Hl.
  transitivity (drop (length b - length a) (drop (length s - length b) s));
    [by rewrite Hb|].
  rewrite drop_drop. etransitivity; [|exact Ha]. f_equal. lia.
Qed.

Lemma record_id_core path X :
  record_id_from_path (with_name path (X ++ py ".core.json")) = Ok X.
Proof.
  unfold record_id_from_path. cbn [name with_name].
  by rewrite endswith_app, drop_last_app.
Qed.

(** A record file and the core file of its record lead to the same four
    paths: the core path is a fixed point of [core_path_for_record_path],
    so that migrating [<id>.json] and migrating [<id>.core.json] read and
    write the same files. *)
Theorem core_file_names_the_same_record path X :
  record_id_from_path path = Ok X ->
  let core := with_name path (X ++ py ".core.json") in
  core_path_for_record_path path = Ok core
  /\ record_id_from_path core = Ok X
  /\ core_path_for_record_path core = Ok core
  /\ detailed_path_for_record_path core = detailed_path_for_record_path path
  /\ legacy_detailed_path_for_record_path core
     = legacy_detailed_path_for_record_path path
  /\ legacy_compacted_path_for_record_path core
     = legacy_compacted_path_for_record_path path.
Proof.
  intros HX. cbv zeta.
  unfold core_path_for_record_path, detailed_path_for_record_path,
    legacy_detailed_path_for_record_path, legacy_compacted_path_for_record_path.
  rewrite record_id_core, HX. cbn [mbind result_bind]. done.
Qed.

Lemma core_file_names_the_same_record_witness :
  let path := file "X.json" in
  let core := with_name path (py "X" ++ py ".core.json") in
  core_path_for_record_path path = Ok core
  /\ record_id_from_path core = Ok (py "X")
  /\ core_path_for_record_path core = Ok core
  /\ detailed_path_for_record_path core = detailed_path_for_record_path path
  /\ legacy_detailed_path_for_record_path core
     = legacy_detailed_path_for_record_path path
  /\ legacy_compacted_path_for_record_path core
     = legacy_compacted_path_for_record_path path.
Proof.
  apply (core_file_names_the_same_record (file "X.json") (py "X")). vm_refl.
Defined.

(** ** The files [iter_record_files] yields *)

Lemma dir_lookup_listed (d : dir) path : path ∈ d.*1 -> is_Some (d !! path).
Proof.
  unfold lookup, dir_lookup_inst.
  induction d as [|[q text] d IH]; cbn [fmap list_fmap fst dir_lookup].
  - by intros ?%elem_of_nil.
  - intros [->|Hin]%elem_of_cons.
    + rewrite decide_True by done. eauto.
    + destruct (decide (q = path)); [eauto | by apply IH].
Qed.

Lemma dir_lookup_Some_listed (d : dir) path text :
  d !! path = Some text -> path ∈ d.*1.
Proof.
  unfold lookup, dir_lookup_inst.
  induction d as [|[q old] d IH]; cbn [fmap list_fmap fst dir_lookup]; [done|].
  destruct (decide (q = path)) as [->|Hq].
  - intros _. by left.
  - intros H. right. by apply IH.
Qed.

(** Every path that [iter_record_files] yields over the [*.json] glob is a
    file that exists, has a record id (so that [record_id_from_path] does
    not raise on it), and is neither a legacy detailed file nor a
    compacted sidecar; when it is not a core file, no core file stands
    beside it under its stem. *)
Theorem iter_record_files_yields_records st path :
  path ∈ iter_record_files st (rglob_json st) ->
  path_exists st path = true
  /\ (exists X, record_id_from_path path = Ok X)
  /\ endswith (name path) (py ".detailed.json") = false
  /\ endswith (name path) (py ".compacted.json") = false
  /\ (endswith (name path) (py ".core.json") = false ->
      path_exists st (with_name path (stem path ++ py ".core.json")) = false).
Proof.
  unfold iter_record_files, rglob_json.
  rewrite !list_elem_of_filter. intros [Hkeep [Hjson Hin]].
  apply Is_true_true in Hkeep, Hjson.
  apply andb_prop in Hkeep as [Hside Hcore].
  apply negb_true_iff, orb_false_iff in Hside as [Hd Hc].
  apply negb_true_iff in Hcore. rewrite Hjson in Hcore. cbn [andb] in Hcore.
  split.
  { unfold path_exists. by destruct (dir_lookup_listed _ _ Hin) as [? ->]. }
  split.
  { unfold record_id_from_path. rewrite Hjson.
    destruct (endswith (name path) (py ".core.json")); eauto. }
  split; [done|]. split; [done|].
  intros Hnc. rewrite Hnc in Hcore. done.
Qed.

Lemma iter_record_files_yields_records_witness :
  let path := file "X.core.json" in
  path_exists migrated_dir path = true
  /\ (exists X, record_id_from_path path = Ok X)
  /\ endswith (name path) (py ".detailed.json") = false
  /\ endswith (name path) (py ".compacted.json") = false
  /\ (endswith (name path) (py ".core.json") = false ->
      path_exists migrated_dir (with_name path (stem path ++ py ".core.json")) = false).
Proof.
  apply (iter_record_files_yields_records migrated_dir (file "X.core.json")).
  by vm_compute; left.
Defined.


(** ** The legacy file and its core file *)

Lemma rfind_dot_app X t :
  rfind_dot t = None -> rfind_dot (X ++ 46%N :: t) = Some (length X).
Proof.
  intros Ht. induction X as [|c X IH]; cbn [app rfind_dot length].
  - by rewrite Ht.
  - by rewrite IH.
Qed.

Lemma stem_json path X :
  name path = X ++ py ".json" -> X <> [] -> stem path = X.
Proof.
  intros Hn HX. unfold stem. rewrite Hn.
  change (py ".json") with (46%N :: py "json").
  rewrite rfind_dot_app by reflexivity.
  rewrite length_app. change (length (46%N :: py "json")) with 5%nat.
  destruct X as [|c X]; [done|]. cbn [length].
  replace (0 <? S (length X))%nat with true by (symmetry; apply Nat.ltb_lt; lia).
  replace (S (length X) <? S (length X) + 5 - 1)%nat with true
    by (symmetry; apply Nat.ltb_lt; lia).
  cbn [andb]. by rewrite (take_app_length (c :: X)).
Qed.

Lemma not_dots_only X : dots_only X = false -> X <> [].
Proof. by intros H ->. Qed.

(** For a legacy file [<id>.json] whose id has a character other than a
    dot, the file whose existence makes [iter_record_files] skip it is the
    core file that its migration writes: the legacy file is yielded
    exactly when it is among the globbed paths and [<id>.core.json] does
    not exist. *)
Theorem legacy_file_skipped_iff_core_exists st globbed path X :
  name path = X ++ py ".json" -> dots_only X = false ->
  endswith (name path) (py ".core.json") = false ->
  endswith (name path) (py ".detailed.json") = false ->
  endswith (name path) (py ".compacted.json") = false ->
  core_path_for_record_path path = Ok (with_name path (X ++ py ".core.json"))
  /\ (path ∈ iter_record_files st globbed
      <-> path ∈ globbed
          /\ path_exists st (with_name path (X ++ py ".core.json")) = false).
Proof.
  intros Hn HX%not_dots_only Hnc Hnd Hncomp. split.
  - unfold core_path_for_record_path, record_id_from_path.
    rewrite Hnc. rewrite Hn at 1. rewrite endswith_app.
    rewrite Hn, drop_last_app. done.
  - unfold iter_record_files. rewrite list_elem_of_filter.
    rewrite (stem_json path X Hn HX), Hnc, Hnd, Hncomp.
    rewrite Hn at 1. rewrite endswith_app. cbn [orb negb andb].
    destruct (path_exists st (with_name path (X ++ py ".core.json")));
      cbn [negb]; split; intros [? ?]; done.
Qed.

Lemma legacy_file_skipped_iff_core_exists_witness :
  let path := file "X.json" in
  core_path_for_record_path path = Ok (with_name path (py "X" ++ py ".core.json"))
  /\ (path ∈ iter_record_files legacy_dir (rglob_json legacy_dir)
      <-> path ∈ rglob_json legacy_dir
          /\ path_exists legacy_dir (with_name path (py "X" ++ py ".core.json")) = false).
Proof.
  apply (legacy_file_skipped_iff_core_exists legacy_dir (rglob_json legacy_dir)
           (file "X.json") (py "X")); vm_refl.
Defined.

(** ** Dry runs *)

Section DryRun.

Context (recursion_limit : nat) (float_repr : pystr -> pystr).

(** A dry run leaves the file system as it is, and predicts the real run
    up to the writes. When it raises, the real run raises the same and
    changes nothing; when it returns false, so does the real run, and it
    changes nothing. When it returns true, the real run writes: it
    returns true if both generated texts can be encoded, with the files
    written; if one cannot, it raises [UnicodeEncodeError], having
    written the core file or nothing. *)
Theorem dry_run_predicts path dlc force st :
  match migrate_record_file recursion_limit float_repr path dlc force true st with
  | (Raise e, st1) =>
      st1 = st
      /\ migrate_record_file recursion_limit float_repr path dlc force false st
         = (Raise e, st)
  | (Ok false, st1) =>
      st1 = st
      /\ migrate_record_file recursion_limit float_repr path dlc force false st
         = (Ok false, st)
  | (Ok true, st1) =>
      st1 = st
      /\ exists p,
           plan_migration recursion_limit float_repr path st = Ok p
           /\ changed p = true
           /\ migrate_record_file recursion_limit float_repr path dlc force false st
              = if encodable (core_text p) then
                  if encodable (detailed_text p) then (Ok true, written p dlc st)
                  else (Raise UnicodeError,
                        temp_left (detailed_path p)
                          (write (core_path p) (core_text p) st))
                else (Raise UnicodeError, temp_left (core_path p) st)
  end.
Proof.
  rewrite !migrate_record_file_outcome.
  destruct (plan_migration recursion_limit float_repr path st) as [p|e]; [|done].
  cbn [orb]. destruct (changed p) eqn:Ec; [|done].
  split; [done|]. by exists p.
Qed.

End DryRun.

(** ** Decoded values *)

(** [coerce_compacted] accepts exactly the lists of strings, and returns
    the strings of the list. *)
Theorem coerce_compacted_iff value l :
  coerce_compacted value = Some l <-> value = JArr (JStr <$> l).
Proof.
  split.
  - destruct value as [| | | | |items|]; try discriminate. cbn [coerce_compacted].
    destruct (forallb _ items) eqn:Hall; [|discriminate]. intros [= <-]. f_equal.
    induction items as [|[] items IH]; try discriminate Hall; [done|].
    cbn in Hall. cbn [omap list_omap as_str fmap list_fmap]. f_equal. by apply IH.
  - intros ->. cbn [coerce_compacted].
    assert (H : forallb (fun item => bool_decide (is_Some (as_str item))) (JStr <$> l) = true
                /\ omap as_str (JStr <$> l) = l).
    { induction l as [|x l [IH1 IH2]]; [done|].
      cbn [fmap list_fmap forallb omap list_omap as_str].
      split; [|by rewrite IH2].
      rewrite bool_decide_eq_true_2 by eauto. done. }
    destruct H as [-> ->]. done.
Qed.



(** ** Tool calls *)

Lemma tool_call_of_shape d c : tool_call_of d = Some c -> is_tool_call c = true.
Proof.
  unfold tool_call_of.
  destruct (py_get d (py "tool_name")) as [| | | |n| |]; try discriminate.
  destruct n as [|x n]; [discriminate|].
  destruct (py_get d (py "args")); try discriminate; by intros [= <-].
Qed.

Lemma tool_call_of_fixed c :
  is_tool_call c = true -> exists d, c = JObj d /\ tool_call_of d = Some c.
Proof.
  destruct c as [| | | | | |members]; try discriminate.
  destruct members as [|[k1 v1] [|[k2 args] [|? ?]]]; try discriminate;
    destruct v1 as [| | | |n| |]; try discriminate.
  cbn [is_tool_call].
  intros [[[->%bool_decide_eq_true ->%bool_decide_eq_true]%andb_prop
            Hn%negb_true_iff%bool_decide_eq_false]%andb_prop Hargs]%andb_prop.
  eexists. split; [reflexivity|].
  unfold tool_call_of, py_get. cbn [dict_get].
  rewrite decide_True by done. cbn [default from_option id].
  destruct n as [|x n]; [done|].
  rewrite decide_False by discriminate. rewrite decide_True by done.
  cbn [default from_option id]. by destruct args.
Qed.

Lemma Forall_omap {A B} (f : A -> option B) (P : B -> Prop) l :
  (forall x y, f x = Some y -> P y) -> Forall P (omap f l).
Proof.
  intros Hf. apply Forall_forall. intros y (x & _ & Hx)%list_elem_of_omap. eauto.
Qed.

Lemma extracted_tool_calls_shape resp :
  Forall (fun c => is_tool_call c = true) (_extract_tool_calls_from_response_dict resp).
Proof.
  unfold _extract_tool_calls_from_response_dict.
  destruct (py_get resp (py "parts")); try by constructor.
  apply Forall_omap. intros [| | | | | |d] y; try discriminate.
  destruct (str_equals _ _); [|discriminate]. apply tool_call_of_shape.
Qed.

(** What the writer extracts is what the reader accepts. Every tool call
    extracted from a response, or from a legacy [detailed] trace, has the
    simplified form [{"tool_name": n, "args": a}] with [n] a non-empty
    string and [a] null, a string or an object; a value that is no list
    yields no tool call; and the check that
    [_parse_existing_detailed_jsonl] makes on the items of the third line
    returns each item of that form as it is. *)
Theorem tool_calls_normal_form resp value :
  Forall (fun c => is_tool_call c = true) (_extract_tool_calls_from_response_dict resp)
  /\ Forall (fun c => is_tool_call c = true)
       (_extract_tool_calls_from_legacy_detailed value)
  /\ (match value with
      | JArr _ => True
      | _ => _extract_tool_calls_from_legacy_detailed value = []
      end)
  /\ (forall c, is_tool_call c = true ->
        exists d, c = JObj d /\ tool_call_of d = Some c).
Proof.
  split; [apply extracted_tool_calls_shape|].
  split; [|split; [by destruct value|apply tool_call_of_fixed]].
  unfold _extract_tool_calls_from_legacy_detailed.
  apply Forall_concat, Forall_fmap, Forall_forall. intros r _.
  apply extracted_tool_calls_shape.
Qed.

(** ** [migrate_record_file], step by step *)

Section Steps.

Context (recursion_limit : nat) (float_repr : pystr -> pystr).

(** *** Reading the detailed file back *)

(** The decoding errors of a line are caught; a [RecursionError] of the
    decoder is not. *)
Lemma loads_or_none_outcome text :
  (exists o, loads_or_none recursion_limit text = Ok o)
  \/ (loads_or_none recursion_limit text = Raise RecursionError
      /\ loads recursion_limit text = Raise RecursionError).
Proof.
  unfold loads_or_none, try_except.
  destruct (loads_total recursion_limit text) as [[v ->]|[e [-> [He| ->]]]];
    cbn [mbind result_bind].
  - left. eauto.
  - rewrite He. left. eauto.
  - by right.
Qed.

Lemma loads_or_none_returns text o :
  loads_or_none recursion_limit text = Ok o ->
  match o with
  | Some v => loads recursion_limit text = Ok v
  | None => exists e, loads recursion_limit text = Raise e /\ is_ValueError e = true
  end.
Proof.
  unfold loads_or_none, try_except.
  destruct (loads recursion_limit text) as [v|e]; cbn [mbind result_bind].
  - by intros [= <-].
  - destruct (is_ValueError e) eqn:He; [|discriminate]. intros [= <-]. eauto.
Qed.

Lemma response_lines_tool_calls_outcome lines :
  (exists calls, response_lines_tool_calls recursion_limit lines = Ok calls
     /\ Forall (fun c => is_tool_call c = true) calls)
  \/ (response_lines_tool_calls recursion_limit lines = Raise RecursionError
      /\ exists line, line ∈ lines
           /\ loads recursion_limit line = Raise RecursionError).
Proof.
  induction lines as [|line lines IH]; [left; by exists []|].
  cbn [response_lines_tool_calls].
  destruct (loads_or_none_outcome line) as [[o ->]|[-> Hl]]; cbn [mbind result_bind].
  2: { right. split; [done|]. exists line. split; [by left|done]. }
  destruct IH as [(tail & -> & Hall)|(-> & line' & Hin & Hl)];
    cbn [mbind result_bind].
  2: { right. split; [done|]. exists line'. split; [by right|done]. }
  left. destruct o as [[| | | | | |d]|]; eauto.
  destruct (str_equals _ _); eauto.
  eexists. split; [reflexivity|]. apply Forall_app. split; [|done].
  apply extracted_tool_calls_shape.
Qed.

Lemma parse_existing_detailed_cases text :
  (exists i o calls,
     _parse_existing_detailed_jsonl recursion_limit text = Ok (i, o, calls)
     /\ (i = None <-> o = None)
     /\ (i = None -> calls = [])
     /\ Forall (fun c => is_tool_call c = true) calls
     /\ ((length (filter (fun ln => strip ln <> []) (splitlines text)) < 2)%nat ->
         i = None))
  \/ (_parse_existing_detailed_jsonl recursion_limit text = Raise RecursionError
      /\ exists ln, ln ∈ splitlines text /\ strip ln <> []
           /\ loads recursion_limit (strip ln) = Raise RecursionError).
Proof.
  unfold _parse_existing_detailed_jsonl.
  assert (Hin : forall ln, ln ∈ filter (fun ln => strip ln <> []) (splitlines text) ->
                           ln ∈ splitlines text /\ strip ln <> []).
  { intros ln [? ?]%list_elem_of_filter. done. }
  destruct (filter (fun ln => strip ln <> []) (splitlines text))
    as [|l1 [|l2 more]]; cbn [fmap list_fmap length].
  1,2: left; by exists None, None, [].
  assert (Hraise : forall ln, ln ∈ l1 :: l2 :: more ->
    loads recursion_limit (strip ln) = Raise RecursionError ->
    exists ln, ln ∈ splitlines text /\ strip ln <> []
      /\ loads recursion_limit (strip ln) = Raise RecursionError).
  { intros ln Hln Hl. exists ln. destruct (Hin ln Hln). done. }
  clear Hin.
  assert (Hnone : exists (i o : option pystr) (calls : list json),
    Ok (None, None, []) = Ok (i, o, calls)
    /\ (i = None <-> o = None) /\ (i = None -> calls = [])
    /\ Forall (fun c => is_tool_call c = true) calls
    /\ ((S (S (length more)) < 2)%nat -> i = None)) by (by exists None, None, []).
  destruct (loads_or_none_outcome (strip l1)) as [[o1 ->]|[-> Hl]];
    cbn [mbind result_bind].
  2: { right. split; [done|]. apply (Hraise l1); [by left|done]. }
  destruct o1 as [v1|]; [|by left].
  destruct (loads_or_none_outcome (strip l2)) as [[o2 ->]|[-> Hl]];
    cbn [mbind result_bind].
  2: { right. split; [done|]. apply (Hraise l2); [right; by left|done]. }
  destruct o2 as [v2|]; [|by left].
  destruct v1 as [| | | |i| |]; try by left.
  destruct v2 as [| | | |o| |]; try by left.
  destruct more as [|l3 more]; cbn [fmap list_fmap].
  { left. exists (Some i), (Some o), []. repeat split; try done; cbn; lia. }
  destruct (loads_or_none_outcome (strip l3)) as [[o3 ->]|[-> Hl]];
    cbn [mbind result_bind].
  2: { right. split; [done|]. apply (Hraise l3); [right; right; by left|done]. }
  assert (Hdone :
    (exists (i0 o0 : option pystr) (calls0 : list json),
       (response_lines_tool_calls recursion_limit (strip l3 :: (strip <$> more))
          ≫= fun tool_calls => Ok (Some i, Some o, tool_calls)) = Ok (i0, o0, calls0)
       /\ (i0 = None <-> o0 = None) /\ (i0 = None -> calls0 = [])
       /\ Forall (fun c => is_tool_call c = true) calls0
       /\ ((S (S (S (length more))) < 2)%nat -> i0 = None))
    \/ ((response_lines_tool_calls recursion_limit (strip l3 :: (strip <$> more))
          ≫= fun tool_calls => Ok (Some i, Some o, tool_calls)) = Raise RecursionError
        /\ exists ln, ln ∈ splitlines text /\ strip ln <> []
             /\ loads recursion_limit (strip ln) = Raise RecursionError)).
  { destruct (response_lines_tool_calls_outcome (strip l3 :: (strip <$> more)))
      as [(calls & -> & Hc)|(-> & line & Hline & Hl)]; cbn [mbind result_bind].
    - left. exists (Some i), (Some o), calls. repeat split; try done; cbn; lia.
    - right. split; [done|].
      change (strip l3 :: (strip <$> more)) with (strip <$> l3 :: more) in Hline.
      apply list_elem_of_fmap in Hline as (ln & -> & Hln).
      apply (Hraise ln); [by do 2 right|done]. }
  destruct o3 as [[| | | | |items|]|]; try exact Hdone.
  left. eexists (Some i), (Some o), _. split; [reflexivity|].
  repeat split; try done; try (cbn; lia).
  apply Forall_omap. intros [| | | | | |d] y; try discriminate.
  apply tool_call_of_shape.
Qed.

(** [_parse_existing_detailed_jsonl] catches the decoding errors of its
    lines: it raises nothing but the [RecursionError] of the decoder on
    one of the non-blank lines, nested deeper than the limit. Otherwise
    it returns an input and an output together or neither, no tool call
    when it returns neither, and tool calls in the simplified form only;
    a text with fewer than two non-empty lines yields nothing. *)
Theorem parse_existing_detailed_outcomes text :
  (exists i o calls,
     _parse_existing_detailed_jsonl recursion_limit text = Ok (i, o, calls)
     /\ (i = None <-> o = None)
     /\ (i = None -> calls = [])
     /\ Forall (fun c => is_tool_call c = true) calls
     /\ ((length (filter (fun ln => strip ln <> []) (splitlines text)) < 2)%nat ->
         i = None))
  \/ (_parse_existing_detailed_jsonl recursion_limit text = Raise RecursionError
      /\ exists ln, ln ∈ splitlines text /\ strip ln <> []
           /\ loads recursion_limit (strip ln) = Raise RecursionError).
Proof. apply parse_existing_detailed_cases. Qed.

Lemma parse_existing_detailed_shape text i o calls :
  _parse_existing_detailed_jsonl recursion_limit text = Ok (i, o, calls) ->
  Forall (fun c => is_tool_call c = true) calls.
Proof.
  intros H.
  destruct (parse_existing_detailed_cases text)
    as [(i' & o' & calls' & H' & _ & _ & Hc & _)|[H' _]]; rewrite H in H';
    [|discriminate].
  by injection H' as <- <- <-.
Qed.

(** *** The steps *)

Lemma plan_migration_steps path st :
  plan_migration recursion_limit float_repr path st =
  raw ← read_text st path;
  record ← loads recursion_limit raw;
  match record with
  | JObj record =>
      X ← record_id_from_path path;
      let core := with_name path (X ++ py ".core.json") in
      let detailed := with_name path (X ++ py ".detailed.jsonl") in
      let legacy_detailed := with_name path (X ++ py ".detailed.json") in
      let legacy_compacted := with_name path (X ++ py ".compacted.json") in
      input_value ← optional_str_field record (py "input");
      output_value ← optional_str_field record (py "output");
      compacted ← find_compacted recursion_limit st record legacy_compacted;
      existing ← read_existing_detailed st legacy_detailed detailed;
      lines ← detail_lines recursion_limit float_repr record input_value output_value existing;
      changed ← plan_changed st core (core_text_of float_repr record compacted)
                  detailed (detailed_text_of lines);
      Ok {| core_path := core; detailed_path := detailed;
            legacy_detailed_path := legacy_detailed;
            legacy_compacted_path := legacy_compacted;
            core_text := core_text_of float_repr record compacted;
            detailed_text := detailed_text_of lines;
            changed := changed |}
  | _ => Raise ValueError
  end.
Proof.
  unfold plan_migration.
  destruct (read_text st path) as [raw|]; cbn [mbind result_bind]; [|done].
  destruct (loads recursion_limit raw) as [[| | | | | |record]|]; cbn [mbind result_bind]; try done.
  unfold core_path_for_record_path, detailed_path_for_record_path,
    legacy_detailed_path_for_record_path, legacy_compacted_path_for_record_path.
  destruct (record_id_from_path path) as [X|]; cbn [mbind result_bind]; [|done].
  cbv zeta. unfold find_compacted, detail_lines, three_lines.
  do 5 match goal with
  | |- mbind _ ?r = mbind _ ?r =>
      destruct r; cbn [mbind result_bind]; [|reflexivity]
  end.
  unfold plan_changed, core_text_of, core_payload.
  destruct (text_differs st (with_name path (X ++ py ".core.json")) _);
    cbn [mbind result_bind]; [|reflexivity].
  unfold detailed_text_of.
  match goal with |- context [match ?l with [] => [] | _ :: _ => _ end] =>
    destruct l as [|? ?]; [reflexivity|] end.
  match goal with |- context [join ?a ?b ++ ?c] =>
    destruct (join a b ++ c); [reflexivity|] end.
  destruct (text_differs st _ _); reflexivity.
Qed.


Lemma plan_changed_spec st core ctext detailed dtext :
  plan_changed st core ctext detailed dtext =
  Ok (bool_decide (files st !! core <> Some ctext)
      || (negb (bool_decide (dtext = []))
          && bool_decide (files st !! detailed <> Some dtext))).
Proof.
  unfold plan_changed. rewrite (text_differs_spec st core). cbn [mbind result_bind].
  destruct dtext as [|c t].
  - rewrite (bool_decide_eq_true_2 (@nil N = [])) by done.
    cbn [negb andb]. by rewrite orb_false_r.
  - rewrite (text_differs_spec st detailed). cbn [mbind result_bind].
    by rewrite (bool_decide_eq_false_2 (c :: t = [])).
Qed.

(** What a successful plan was computed from. *)
Lemma plan_migration_inv path st p :
  plan_migration recursion_limit float_repr path st = Ok p ->
  exists raw record X iv ov compacted existing lines,
    files st !! path = Some raw
    /\ loads recursion_limit raw = Ok (JObj record)
    /\ record_id_from_path path = Ok X
    /\ optional_str_field record (py "input") = Ok iv
    /\ optional_str_field record (py "output") = Ok ov
    /\ find_compacted recursion_limit st record (with_name path (X ++ py ".compacted.json"))
       = Ok compacted
    /\ read_existing_detailed st (with_name path (X ++ py ".detailed.json"))
         (with_name path (X ++ py ".detailed.jsonl")) = Ok existing
    /\ detail_lines recursion_limit float_repr record iv ov existing = Ok lines
    /\ p = {| core_path := with_name path (X ++ py ".core.json");
              detailed_path := with_name path (X ++ py ".detailed.jsonl");
              legacy_detailed_path := with_name path (X ++ py ".detailed.json");
              legacy_compacted_path := with_name path (X ++ py ".compacted.json");
              core_text := core_text_of float_repr record compacted;
              detailed_text := detailed_text_of lines;
              changed :=
                bool_decide (files st !! with_name path (X ++ py ".core.json")
                             <> Some (core_text_of float_repr record compacted))
                || (negb (bool_decide (detailed_text_of lines = []))
                    && bool_decide
                         (files st !! with_name path (X ++ py ".detailed.jsonl")
                          <> Some (detailed_text_of lines))) |}.
Proof.
  rewrite plan_migration_steps. unfold read_text. intros H.
  destruct (files st !! path) as [raw|] eqn:Eraw; [|discriminate H].
  cbn [mbind result_bind] in H.
  destruct (loads recursion_limit raw) as [[| | | | | |record]|] eqn:Eload; try discriminate H.
  cbn [mbind result_bind] in H.
  destruct (record_id_from_path path) as [X|] eqn:EX; [|discriminate H].
  cbn [mbind result_bind] in H. cbv zeta in H.
  destruct (optional_str_field record (py "input")) as [iv|] eqn:Ein;
    [|discriminate H].
  destruct (optional_str_field record (py "output")) as [ov|] eqn:Eout;
    [|discriminate H].
  cbn [mbind result_bind] in H.
  destruct (find_compacted recursion_limit st record _) as [compacted|] eqn:Ec; [|discriminate H].
  destruct (read_existing_detailed st _ _) as [existing|] eqn:Ee; [|discriminate H].
  cbn [mbind result_bind] in H.
  destruct (detail_lines recursion_limit float_repr record iv ov existing) as [lines|] eqn:El;
    [|discriminate H].
  cbn [mbind result_bind] in H. rewrite plan_changed_spec in H.
  cbn [mbind result_bind] in H. apply EntitiesFacts.Ok_inj in H as <-.
  by exists raw, record, X, iv, ov, compacted, existing, lines.
Qed.

(** The detail lines are none, or the three lines of an input, an output
    and tool calls of the simplified form. *)
Lemma detail_lines_shape record iv ov existing lines :
  detail_lines recursion_limit float_repr record iv ov existing = Ok lines ->
  lines = []
  \/ exists i o calls,
       lines = three_lines float_repr i o calls
       /\ Forall (fun c => is_tool_call c = true) calls.
Proof.
  unfold detail_lines.
  assert (Hparse : match existing with
    | [] => Ok []
    | _ :: _ =>
        '(parsed_input, parsed_output, parsed_tool_calls) ←
          _parse_existing_detailed_jsonl recursion_limit existing;
        match parsed_input, parsed_output with
        | Some parsed_input, Some parsed_output =>
            Ok (three_lines float_repr parsed_input parsed_output parsed_tool_calls)
        | _, _ => Ok []
        end
    end = Ok lines ->
    lines = []
    \/ exists i o calls,
         lines = three_lines float_repr i o calls
         /\ Forall (fun c => is_tool_call c = true) calls).
  { destruct existing as [|c t]; [intros [= <-]; by left|].
    destruct (_parse_existing_detailed_jsonl recursion_limit (c :: t))
      as [[[i o] calls]|] eqn:Ep; cbn [mbind result_bind]; [|discriminate].
    apply parse_existing_detailed_shape in Ep.
    destruct i as [i|], o as [o|]; intros H; apply EntitiesFacts.Ok_inj in H as <-;
      [right|by left..].
    by exists i, o, calls. }
  destruct iv as [i|]; [|exact Hparse].
  destruct ov as [o|]; [|exact Hparse].
  intros H. apply EntitiesFacts.Ok_inj in H as <-. right.
  eexists i, o, _. split; [reflexivity|].
  unfold _extract_tool_calls_from_legacy_detailed.
  apply Forall_concat, Forall_fmap, Forall_forall. intros r _.
  apply extracted_tool_calls_shape.
Qed.


(** ** What is written *)

(** Whatever the record, the generated core text is one line: the compact
    encoding of an object that has [compacted] as a list of strings and
    none of [input], [output], [detailed], followed by a line feed. The
    generated detailed text is empty, or exactly three lines, each ended
    by a line feed: the encoded input, the encoded output, and the
    encoded list of tool calls, all of the simplified form. *)
Theorem written_texts_are_lines
    (float_repr_line : forall literal, no_lf (float_repr literal)) path st p :
  plan_migration recursion_limit float_repr path st = Ok p ->
  (exists payload compacted,
     core_text p = dumps_compact float_repr (JObj payload) ++ [LF]
     /\ no_lf (dumps_compact float_repr (JObj payload))
     /\ dict_get payload (py "compacted") = Some (JArr (JStr <$> compacted))
     /\ dict_get payload (py "input") = None
     /\ dict_get payload (py "output") = None
     /\ dict_get payload (py "detailed") = None)
  /\ (detailed_text p = []
      \/ exists input output calls,
           detailed_text p
           = dumps_default float_repr (JStr input) ++ [LF]
             ++ dumps_default float_repr (JStr output) ++ [LF]
             ++ dumps_compact float_repr (JArr calls) ++ [LF]
           /\ no_lf (dumps_default float_repr (JStr input))
           /\ no_lf (dumps_default float_repr (JStr output))
           /\ no_lf (dumps_compact float_repr (JArr calls))
           /\ Forall (fun c => is_tool_call c = true) calls).
Proof.
  intros (raw & record & X & iv & ov & compacted & existing & lines
          & _ & _ & _ & _ & _ & _ & _ & Hlines & ->)%plan_migration_inv.
  cbn [core_text detailed_text]. split.
  - exists (core_payload record compacted), (default [] compacted).
    split; [done|]. split; [by apply no_lf_dumps_compact|].
    unfold core_payload. split; [apply dict_get_set_eq|].
    repeat split; rewrite dict_get_set_ne by done;
      apply dict_get_filter_out; rewrite !elem_of_cons; auto.
  - destruct (detail_lines_shape _ _ _ _ _ Hlines)
      as [->|(i & o & calls & -> & Hcalls)]; [by left|right].
    exists i, o, calls. split.
    { unfold three_lines, detailed_text_of. cbn [join]. by rewrite <- !app_assoc. }
    split; [apply no_lf_encode_basestring|].
    split; [apply no_lf_encode_basestring|].
    split; [by apply no_lf_dumps_compact|done].
Qed.

Lemma written_files p dlc st :
  core_path p <> detailed_path p ->
  core_path p <> legacy_detailed_path p ->
  core_path p <> legacy_compacted_path p ->
  detailed_path p <> legacy_detailed_path p ->
  detailed_path p <> legacy_compacted_path p ->
  legacy_detailed_path p <> legacy_compacted_path p ->
  let st' := written p dlc st in
  files st' !! core_path p = Some (core_text p)
  /\ files st' !! detailed_path p
     = (if bool_decide (detailed_text p = []) then files st !! detailed_path p
        else Some (detailed_text p))
  /\ files st' !! legacy_detailed_path p
     = (if bool_decide (detailed_text p = []) then files st !! legacy_detailed_path p
        else None)
  /\ files st' !! legacy_compacted_path p
     = (if dlc then None else files st !! legacy_compacted_path p).
Proof.
  intros H1 H2 H3 H4 H5 H6. cbv zeta. unfold written.
  set (st1 := write (core_path p) (core_text p) st).
  set (st2 := match detailed_text p with
              | [] => st1
              | _ => let st := write (detailed_path p) (detailed_text p) st1 in
                     if path_exists st (legacy_detailed_path p)
                     then unlink (legacy_detailed_path p) st else st
              end).
  assert (Hst2 :
    files st2 !! core_path p = Some (core_text p)
    /\ files st2 !! detailed_path p
       = (if bool_decide (detailed_text p = []) then files st !! detailed_path p
          else Some (detailed_text p))
    /\ files st2 !! legacy_detailed_path p
       = (if bool_decide (detailed_text p = []) then files st !! legacy_detailed_path p
          else None)
    /\ files st2 !! legacy_compacted_path p = files st !! legacy_compacted_path p).
  { subst st2 st1. destruct (detailed_text p) as [|c t].
    - rewrite (bool_decide_eq_true_2 (@nil N = [])) by done.
      cbn [files write].
      rewrite dir_lookup_insert_eq, !dir_lookup_insert_ne by done. done.
    - rewrite (bool_decide_eq_false_2 (c :: t = [])) by done. cbv zeta.
      destruct (path_exists _ (legacy_detailed_path p)) eqn:E.
      + cbn [files unlink write].
        rewrite dir_lookup_delete_eq, !dir_lookup_delete_ne by done.
        rewrite dir_lookup_insert_eq, !dir_lookup_insert_ne by done.
        rewrite dir_lookup_insert_eq, !dir_lookup_insert_ne by done. done.
      + apply path_exists_false in E. rewrite E.
        cbn [files write].
        rewrite dir_lookup_insert_eq, !dir_lookup_insert_ne by done.
        rewrite dir_lookup_insert_eq, !dir_lookup_insert_ne by done. done. }
  clearbody st2. destruct Hst2 as (Hc & Hd & Hl & Hs).
  destruct dlc; cbn [andb]; [|done].
  destruct (path_exists st2 (legacy_compacted_path p)) eqn:E.
  - cbn [files unlink].
    rewrite dir_lookup_delete_eq, !dir_lookup_delete_ne by done. done.
  - apply path_exists_false in E. by rewrite E.
Qed.

Lemma migrate_record_file_changed path dlc force st st' :
  migrate_record_file recursion_limit float_repr path dlc force false st
    = (Ok true, st') ->
  exists p, plan_migration recursion_limit float_repr path st = Ok p
            /\ st' = written p dlc st.
Proof.
  intros (p & Hp & [(Hskip & Hb & _)|(_ & _ & _ & _ & _ & ->)])%migrate_record_file_returns.
  - cbn [orb] in Hskip. rewrite <- Hb in Hskip. done.
  - by exists p.
Qed.

(** After a run that made a change, the four files of the record are as
    follows: the core file holds the generated core text; if a detailed
    text was generated, the detailed file holds it and the legacy detailed
    file does not exist, and otherwise both are as before; the compacted
    sidecar does not exist if its deletion was asked, and is as before
    otherwise. *)
Theorem migrate_record_file_postcondition path dlc force st st' :
  migrate_record_file recursion_limit float_repr path dlc force false st
    = (Ok true, st') ->
  exists X p,
    record_id_from_path path = Ok X
    /\ plan_migration recursion_limit float_repr path st = Ok p
    /\ files st' !! with_name path (X ++ py ".core.json") = Some (core_text p)
    /\ files st' !! with_name path (X ++ py ".detailed.jsonl")
       = (if bool_decide (detailed_text p = [])
          then files st !! with_name path (X ++ py ".detailed.jsonl")
          else Some (detailed_text p))
    /\ files st' !! with_name path (X ++ py ".detailed.json")
       = (if bool_decide (detailed_text p = [])
          then files st !! with_name path (X ++ py ".detailed.json")
          else None)
    /\ files st' !! with_name path (X ++ py ".compacted.json")
       = (if dlc then None
          else files st !! with_name path (X ++ py ".compacted.json")).
Proof.
  intros (p & Hp & ->)%migrate_record_file_changed.
  destruct (plan_migration_paths _ _ _ _ _ Hp) as (X & HX & Hc & Hd & Hld & Hlc).
  exists X, p. split; [done|]. split; [done|].
  rewrite <- Hc, <- Hd, <- Hld, <- Hlc.
  apply written_files; rewrite ?Hc, ?Hd, ?Hld, ?Hlc;
    by apply with_name_suffix_ne.
Qed.

(** Once a legacy file [<id>.json] has been migrated, the directory scan
    takes the core file in its place: [iter_record_files] over the new
    directory yields [<id>.core.json] and no longer yields [<id>.json],
    which is still there with its content. *)
Theorem legacy_file_is_superseded path X dlc force st st' :
  name path = X ++ py ".json" -> dots_only X = false ->
  endswith (name path) (py ".core.json") = false ->
  migrate_record_file recursion_limit float_repr path dlc force false st
    = (Ok true, st') ->
  let core := with_name path (X ++ py ".core.json") in
  (path ∉ iter_record_files st' (rglob_json st'))
  /\ (core ∈ iter_record_files st' (rglob_json st'))
  /\ files st' !! path = files st !! path.
Proof.
  intros Hn HX%not_dots_only Hnc Hm. cbv zeta.
  assert (HidX : record_id_from_path path = Ok X).
  { unfold record_id_from_path. rewrite Hnc. rewrite Hn at 1.
    rewrite endswith_app. by rewrite Hn, drop_last_app. }
  pose proof Hm as (p & Hp & ->)%migrate_record_file_changed.
  destruct (plan_migration_paths _ _ _ _ _ Hp) as (X' & HX' & Hc & Hd & Hld & Hlc).
  rewrite HidX in HX'. apply EntitiesFacts.Ok_inj in HX' as <-.
  assert (Hpath : path = with_name path (X ++ py ".json")).
  { rewrite <- Hn. symmetry. apply with_name_name. }
  assert (Hcore : files (written p dlc st) !! with_name path (X ++ py ".core.json")
                  = Some (core_text p)).
  { rewrite <- Hc. apply written_files; rewrite ?Hc, ?Hd, ?Hld, ?Hlc;
      by apply with_name_suffix_ne. }
  assert (Hcore_name : forall suffix,
    (length (py ".core.json") <= length suffix)%nat ->
    endswith suffix (py ".core.json") = false ->
    endswith (X ++ py ".core.json") suffix = false).
  { intros suffix Hlen Hsuf.
    destruct (endswith (X ++ py ".core.json") suffix) eqn:E; [|done].
    rewrite (endswith_both _ _ _ (endswith_app X (py ".core.json")) E Hlen) in Hsuf.
    done. }
  split; [|split].
  - intros Hin. unfold iter_record_files in Hin.
    apply list_elem_of_filter in Hin as [Hkeep _]. apply Is_true_true in Hkeep.
    apply andb_prop in Hkeep as [_ Hkeep]. apply negb_true_iff in Hkeep.
    rewrite (stem_json path X Hn HX), Hnc in Hkeep.
    rewrite Hn in Hkeep at 1. rewrite endswith_app in Hkeep.
    unfold path_exists in Hkeep. rewrite Hcore in Hkeep. done.
  - unfold iter_record_files, rglob_json. rewrite !list_elem_of_filter.
    cbn [name with_name]. split; [|split].
    + apply Is_true_true. rewrite endswith_app.
      rewrite !Hcore_name by (vm_compute; done || lia).
      cbn [orb negb andb]. by rewrite andb_false_r.
    + apply Is_true_true.
      apply (endswith_suffix _ (py ".core") (py ".json")). apply endswith_app.
    + by eapply dir_lookup_Some_listed.
  - destruct (written_spec p dlc st) as (_ & _ & _ & _ & _ & Hframe).
    { rewrite Hc, Hd. by apply with_name_suffix_ne. }
    rewrite Hc, Hd, Hld, Hlc in Hframe. rewrite Hpath at 1 2.
    apply Hframe; by apply with_name_suffix_ne.
Qed.

End Steps.


Lemma written_texts_are_lines_witness :
  let float_repr := fun _ : pystr => py "0.0" in
  let p := {| core_path := file "X.core.json";
              detailed_path := file "X.detailed.jsonl";
              legacy_detailed_path := file "X.detailed.json";
              legacy_compacted_path := file "X.compacted.json";
              core_text := core_hi; detailed_text := detailed_hi;
              changed := true |} in
  (exists payload compacted,
     core_text p = dumps_compact float_repr (JObj payload) ++ [LF]
     /\ no_lf (dumps_compact float_repr (JObj payload))
     /\ dict_get payload (py "compacted") = Some (JArr (JStr <$> compacted))
     /\ dict_get payload (py "input") = None
     /\ dict_get payload (py "output") = None
     /\ dict_get payload (py "detailed") = None)
  /\ (detailed_text p = []
      \/ exists input output calls,
           detailed_text p
           = dumps_default float_repr (JStr input) ++ [LF]
             ++ dumps_default float_repr (JStr output) ++ [LF]
             ++ dumps_compact float_repr (JArr calls) ++ [LF]
           /\ no_lf (dumps_default float_repr (JStr input))
           /\ no_lf (dumps_default float_repr (JStr output))
           /\ no_lf (dumps_compact float_repr (JArr calls))
           /\ Forall (fun c => is_tool_call c = true) calls).
Proof.
  apply (written_texts_are_lines sample_limit (fun _ => py "0.0")
           (fun _ => no_lf_check (py "0.0") eq_refl) (file "X.json") legacy_dir).
  vm_refl.
Defined.

Lemma migrate_record_file_postcondition_witness :
  let float_repr := fun literal : pystr => literal in
  exists X p,
    record_id_from_path (file "X.json") = Ok X
    /\ plan_migration sample_limit float_repr (file "X.json") legacy_dir = Ok p
    /\ files legacy_dir_after !! with_name (file "X.json") (X ++ py ".core.json")
       = Some (core_text p)
    /\ files legacy_dir_after !! with_name (file "X.json") (X ++ py ".detailed.jsonl")
       = (if bool_decide (detailed_text p = [])
          then files legacy_dir !! with_name (file "X.json") (X ++ py ".detailed.jsonl")
          else Some (detailed_text p))
    /\ files legacy_dir_after !! with_name (file "X.json") (X ++ py ".detailed.json")
       = (if bool_decide (detailed_text p = [])
          then files legacy_dir !! with_name (file "X.json") (X ++ py ".detailed.json")
          else None)
    /\ files legacy_dir_after !! with_name (file "X.json") (X ++ py ".compacted.json")
       = (if true then None
          else files legacy_dir !! with_name (file "X.json") (X ++ py ".compacted.json")).
Proof.
  apply (migrate_record_file_postcondition sample_limit (fun literal => literal)
           (file "X.json")
           true false legacy_dir legacy_dir_after).
  vm_refl.
Defined.

Lemma legacy_file_is_superseded_witness :
  let core := with_name (file "X.json") (py "X" ++ py ".core.json") in
  (file "X.json" ∉ iter_record_files legacy_dir_after (rglob_json legacy_dir_after))
  /\ (core ∈ iter_record_files legacy_dir_after (rglob_json legacy_dir_after))
  /\ files legacy_dir_after !! file "X.json" = files legacy_dir !! file "X.json".
Proof.
  apply (legacy_file_is_superseded sample_limit (fun literal => literal)
           (file "X.json") (py "X")
           true false legacy_dir legacy_dir_after);
    vm_refl.
Defined.

End MigrateProps.

(* ================================================================== *)
(** * migrate_split.py: what a run writes, the next run reads back *)
(* ================================================================== *)

Module MigrateIdem.
Import PyStr Json Migrate Samples Shapes MigrateSteps.
Import JsonFacts JsonRoundTrip JsonShape MigrateFacts MigrateProps.

(** ** Texts of one line *)

Ltac n_cases :=
  repeat match goal with
  | |- context [(?a =? ?b)%N] => destruct (N.eqb_spec a b)
  | |- context [(?a <=? ?b)%N] => destruct (N.leb_spec a b)
  | |- context [(?a <? ?b)%N] => destruct (N.ltb_spec a b)
  end; cbn [orb andb negb]; try reflexivity; try lia.

Lemma one_line_app a b :
  one_line a = true -> one_line b = true -> one_line (a ++ b) = true.
Proof. unfold one_line. rewrite forallb_app. by intros -> ->. Qed.

Lemma one_line_join sep parts :
  one_line sep = true -> Forall (fun p => one_line p = true) parts ->
  one_line (join sep parts) = true.
Proof.
  intros Hsep. induction 1 as [|p rest Hp Hrest IH]; [done|].
  cbn [join]. destruct rest as [|p' rest']; [done|].
  apply one_line_app; [done|]. by apply one_line_app.
Qed.

Lemma hex_digit_plain n : (n < 16)%N -> is_linebreak (hex_digit n) = false.
Proof.
  intros Hn. unfold hex_digit. destruct (N.ltb_spec n 10);
    unfold is_linebreak, inrange; n_cases.
Qed.

Lemma escape_char_one_line c :
  is_raw_linebreak c = false -> one_line (escape_char c) = true.
Proof.
  intros Hc. unfold escape_char.
  repeat (case_match; [reflexivity|]).
  case_match eqn:E32.
  - apply N.ltb_lt in E32. unfold one_line. cbn [forallb].
    rewrite !hex_digit_plain; [reflexivity|..].
    + apply N.mod_lt. lia.
    + apply N.Div0.div_lt_upper_bound. lia.
  - apply N.ltb_ge in E32. unfold one_line. cbn [forallb]. rewrite andb_true_r.
    apply negb_true_iff. revert Hc. unfold is_raw_linebreak, is_linebreak, inrange.
    n_cases.
Qed.

Lemma encode_basestring_one_line s :
  line_safe_str s = true -> one_line (encode_basestring s) = true.
Proof.
  intros Hs. unfold encode_basestring.
  apply one_line_app; [done|]. apply one_line_app; [|done].
  induction s as [|c s IH]; [done|].
  cbn [line_safe_str forallb] in Hs. apply andb_prop in Hs as [Hc Hs].
  cbn [fmap list_fmap concat]. apply one_line_app; [|by apply IH].
  apply escape_char_one_line. by apply negb_true_iff.
Qed.

Lemma digits_one_line t : forallb is_digit t = true -> one_line t = true.
Proof.
  induction t as [|c t IH]; [done|]. cbn [forallb].
  intros [Hc Ht]%andb_prop. unfold one_line. cbn [forallb].
  apply andb_true_intro. split; [|by apply IH].
  revert Hc. unfold is_digit, is_linebreak, inrange. n_cases.
Qed.

Lemma int_repr_one_line z : one_line (int_repr z) = true.
Proof.
  destruct z as [|p|p].
  - done.
  - rewrite int_repr_pos. apply digits_one_line, digits_are_digits.
  - rewrite int_repr_neg. apply (one_line_app [45%N]); [done|].
    apply digits_one_line, digits_are_digits.
Qed.

Section Dumps.

Context (float_repr : pystr -> pystr) (item_separator key_separator : pystr).

Hypothesis item_separator_line : one_line item_separator = true.
Hypothesis key_separator_line : one_line key_separator = true.

(** A document without floats and without raw line boundaries in its
    strings is encoded on one line. *)
Lemma dumps_one_line v :
  float_free v = true -> line_safe v = true ->
  one_line (dumps float_repr item_separator key_separator v) = true.
Proof using All.
  induction v as [ |b|z|literal|s|items IH|members IH] using json_ind;
    cbn [dumps float_free line_safe]; intros Hf Hl.
  - done.
  - by destruct b.
  - apply int_repr_one_line.
  - done.
  - by apply encode_basestring_one_line.
  - apply one_line_app; [done|]. apply one_line_app; [|done].
    apply one_line_join; [done|]. apply Forall_fmap.
    apply forallb_Forall_true in Hf, Hl.
    induction IH as [|x items Hx _ IHi]; [constructor|].
    apply Forall_cons in Hf as [Hf1 Hf], Hl as [Hl1 Hl].
    constructor; [by apply Hx|by apply IHi].
  - apply one_line_app; [done|]. apply one_line_app; [|done].
    apply one_line_join; [done|]. apply Forall_fmap.
    apply (forallb_Forall_true (fun kv => float_free kv.2)) in Hf.
    apply (forallb_Forall_true (fun kv => line_safe_str kv.1 && line_safe kv.2)) in Hl.
    induction IH as [|[k x] members Hx _ IHm]; [constructor|].
    apply Forall_cons in Hf as [Hf1 Hf], Hl as [Hl1 Hl].
    cbn [fst snd] in *. apply andb_prop in Hl1 as [Hk Hl1].
    constructor; [|by apply IHm]. cbn [fst snd].
    apply one_line_app; [by apply encode_basestring_one_line|].
    apply one_line_app; [done|by apply Hx].
Qed.

End Dumps.

Lemma dumps_compact_one_line float_repr v :
  float_free v = true -> line_safe v = true ->
  one_line (dumps_compact float_repr v) = true.
Proof. by apply dumps_one_line. Qed.

Lemma dumps_default_one_line float_repr v :
  float_free v = true -> line_safe v = true ->
  one_line (dumps_default float_repr v) = true.
Proof. by apply dumps_one_line. Qed.

(** ** [str.splitlines] and [str.strip] *)

Lemma splitlines_from_line l : forall cur rest,
  one_line l = true ->
  splitlines_from cur (l ++ LF :: rest) = (cur ++ l) :: splitlines_from [] rest.
Proof.
  induction l as [|c l IH]; intros cur rest Hl.
  - by rewrite app_nil_r.
  - unfold one_line in Hl. cbn [forallb] in Hl. apply andb_prop in Hl as [Hc Hl].
    apply negb_true_iff in Hc.
    cbn [app splitlines_from]. rewrite Hc.
    replace (c =? CR)%N with false.
    + rewrite IH by done. by rewrite <- app_assoc.
    + symmetry. revert Hc. unfold is_linebreak, inrange, CR. n_cases.
Qed.

Lemma splitlines_three l1 l2 l3 :
  one_line l1 = true -> one_line l2 = true -> one_line l3 = true ->
  splitlines (join [LF] [l1; l2; l3] ++ [LF]) = [l1; l2; l3].
Proof.
  intros H1 H2 H3. unfold splitlines. cbn [join].
  rewrite <- !app_assoc. cbn [app].
  rewrite !splitlines_from_line by done. done.
Qed.

Lemma strip_fixed a m b :
  is_space a = false -> is_space b = false ->
  strip (a :: m ++ [b]) = a :: m ++ [b].
Proof.
  intros Ha Hb. unfold strip. cbn [lstrip]. rewrite Ha.
  rewrite reverse_cons, reverse_app, reverse_singleton. cbn [app lstrip].
  rewrite Hb. rewrite reverse_cons, reverse_app, reverse_singleton,
    reverse_involutive. done.
Qed.

Lemma strip_encode_basestring s : strip (encode_basestring s) = encode_basestring s.
Proof. unfold encode_basestring. cbn [app]. by apply strip_fixed. Qed.

Lemma strip_dumps_array float_repr items :
  strip (dumps_compact float_repr (JArr items)) = dumps_compact float_repr (JArr items).
Proof.
  unfold dumps_compact. cbn [dumps]. change (py "[") with [91%N].
  cbn [app]. by apply strip_fixed.
Qed.

Lemma well_formed_items items :
  well_formed (JArr items) = true -> Forall (fun v => well_formed v = true) items.
Proof. cbn [well_formed]. apply forallb_Forall_true. Qed.

Lemma well_formed_members d :
  well_formed (JObj d) = true -> Forall (fun kv => well_formed kv.2 = true) d.
Proof.
  cbn [well_formed]. intros [_ H]%andb_prop.
  by apply (forallb_Forall_true (fun kv => well_formed kv.2)).
Qed.

Lemma float_free_items items :
  float_free (JArr items) = true -> Forall (fun v => float_free v = true) items.
Proof. cbn [float_free]. apply forallb_Forall_true. Qed.

Lemma float_free_members d :
  float_free (JObj d) = true -> Forall (fun kv => float_free kv.2 = true) d.
Proof. cbn [float_free]. apply (forallb_Forall_true (fun kv => float_free kv.2)). Qed.

Lemma line_safe_items items :
  line_safe (JArr items) = true -> Forall (fun v => line_safe v = true) items.
Proof. cbn [line_safe]. apply forallb_Forall_true. Qed.

Lemma line_safe_members d :
  line_safe (JObj d) = true -> Forall (fun kv => line_safe kv.2 = true) d.
Proof.
  cbn [line_safe].
  intros H%(forallb_Forall_true (fun kv => line_safe_str kv.1 && line_safe kv.2)).
  eapply Forall_impl; [exact H|]. by intros kv [_ ?]%andb_prop.
Qed.

(** The tool calls taken from a traced run are parts of the trace: they
    are as well formed, as free of floats and of raw line boundaries as
    the trace is. *)
Lemma legacy_tool_calls_well_formed value :
  well_formed value = true ->
  Forall (fun c => well_formed c = true) (_extract_tool_calls_from_legacy_detailed value).
Proof.
  apply legacy_tool_calls_inherit;
    [done|apply well_formed_items|apply well_formed_members|].
  intros n a _ Ha. cbn [well_formed fmap list_fmap fst snd forallb].
  rewrite Ha. apply andb_true_intro. split; [|done].
  apply bool_decide_eq_true_2. apply NoDup_cons. split; [|apply NoDup_singleton].
  by intros [=]%list_elem_of_singleton.
Qed.

Lemma legacy_tool_calls_float_free value :
  float_free value = true ->
  Forall (fun c => float_free c = true) (_extract_tool_calls_from_legacy_detailed value).
Proof.
  apply legacy_tool_calls_inherit;
    [done|apply float_free_items|apply float_free_members|].
  intros n a _ Ha. cbn [float_free forallb snd]. by rewrite Ha.
Qed.

Lemma legacy_tool_calls_line_safe value :
  line_safe value = true ->
  Forall (fun c => line_safe c = true) (_extract_tool_calls_from_legacy_detailed value).
Proof.
  apply legacy_tool_calls_inherit;
    [done|apply line_safe_items|apply line_safe_members|].
  intros n a Hn Ha. cbn [line_safe forallb fst snd] in *. rewrite Hn, Ha. done.
Qed.

Lemma tool_calls_normal value :
  Forall (fun c => is_tool_call c = true) (_extract_tool_calls_from_legacy_detailed value).
Proof.
  unfold _extract_tool_calls_from_legacy_detailed.
  apply Forall_concat, Forall_fmap, Forall_forall. intros resp _.
  apply extracted_tool_calls_shape.
Qed.

(** ** How deep the tool calls nest *)

Lemma py_get_nesting d k : (nesting (py_get d k) < nesting (JObj d))%nat.
Proof.
  unfold py_get. destruct (dict_get d k) as [v|] eqn:E; cbn [default from_option id].
  - assert (Hin : (k, v) ∈ d).
    { induction d as [|[k' v'] d IH]; [done|]. cbn [dict_get] in E.
      destruct (decide (k' = k)) as [->|]; [injection E as ->; by left|].
      right. by apply IH. }
    apply nesting_members in Hin. cbn [snd] in Hin. lia.
  - cbn. lia.
Qed.

Lemma tool_call_of_nesting d c :
  tool_call_of d = Some c -> (nesting c <= nesting (JObj d))%nat.
Proof.
  unfold tool_call_of.
  destruct (py_get d (py "tool_name")) as [| | | |n| |]; try discriminate.
  destruct n as [|x n]; [discriminate|].
  pose proof (py_get_nesting d (py "args")) as Ha.
  destruct (py_get d (py "args")); try discriminate; intros [= <-];
    cbn [nesting foldr snd] in *; lia.
Qed.

Lemma response_tool_calls_nesting resp c :
  c ∈ _extract_tool_calls_from_response_dict resp ->
  (S (S (nesting c)) <= nesting (JObj resp))%nat.
Proof.
  unfold _extract_tool_calls_from_response_dict.
  pose proof (py_get_nesting resp (py "parts")) as Hp.
  destruct (py_get resp (py "parts")) as [| | | | |parts|];
    try (by intros ?%elem_of_nil).
  intros (part & Hpart & Hc)%list_elem_of_omap.
  apply nesting_items in Hpart.
  destruct part as [| | | | | |d]; try discriminate.
  destruct (str_equals _ _); [|discriminate].
  apply tool_call_of_nesting in Hc. lia.
Qed.

Lemma legacy_tool_calls_nesting value :
  Forall (fun c => (S (S (S (nesting c))) <= nesting value)%nat)
    (_extract_tool_calls_from_legacy_detailed value).
Proof.
  unfold _extract_tool_calls_from_legacy_detailed, extract_legacy_model_responses.
  apply Forall_concat, Forall_fmap, Forall_forall. intros resp Hresp.
  destruct value as [| | | | |items|]; try (by apply elem_of_nil in Hresp).
  apply list_elem_of_omap in Hresp as (item & Hitem & Hresp).
  apply nesting_items in Hitem.
  destruct item as [| | | | | |d]; try discriminate. cbn [is_response] in Hresp.
  destruct (str_equals _ _); [|discriminate]. injection Hresp as <-.
  apply Forall_forall. intros c Hc%response_tool_calls_nesting. lia.
Qed.

(** The list of tool calls taken from the trace of a record nests no
    deeper than the record. *)
Lemma tool_calls_nesting record :
  (nesting (JArr (_extract_tool_calls_from_legacy_detailed
                    (py_get record (py "detailed"))))
   <= nesting (JObj record))%nat.
Proof.
  pose proof (py_get_nesting record (py "detailed")) as Hd.
  etransitivity; [apply (nesting_items_le (nesting (py_get record (py "detailed"))))|lia].
  eapply Forall_impl; [apply legacy_tool_calls_nesting|]. intros c Hc. cbn beta in Hc. lia.
Qed.

(** ** The detailed file is read back *)

Lemma loads_or_none_dumps_default recursion_limit float_repr v :
  well_formed v = true -> float_free v = true ->
  (nesting v <= recursion_limit)%nat ->
  loads_or_none recursion_limit (dumps_default float_repr v) = Ok (Some v).
Proof.
  intros Hw Hf Hn. unfold loads_or_none.
  pose proof (loads_dumps_default recursion_limit float_repr v [] Hw Hf Hn eq_refl) as H.
  rewrite app_nil_r in H. by rewrite H.
Qed.

Lemma loads_or_none_dumps_compact recursion_limit float_repr v :
  well_formed v = true -> float_free v = true ->
  (nesting v <= recursion_limit)%nat ->
  loads_or_none recursion_limit (dumps_compact float_repr v) = Ok (Some v).
Proof.
  intros Hw Hf Hn. unfold loads_or_none.
  pose proof (loads_dumps_compact recursion_limit float_repr v [] Hw Hf Hn eq_refl) as H.
  rewrite app_nil_r in H. by rewrite H.
Qed.

Lemma tool_calls_kept calls :
  Forall (fun c => is_tool_call c = true) calls ->
  omap (fun item => match item with JObj d => tool_call_of d | _ => None end) calls
  = calls.
Proof.
  induction 1 as [|c calls Hc Hcalls IH]; [done|].
  cbn [omap list_omap]. destruct (tool_call_of_fixed c Hc) as (d & -> & ->).
  by rewrite IH.
Qed.

Lemma encode_basestring_cons s : exists t, encode_basestring s = QUOTE :: t.
Proof. by eexists. Qed.

Section ParseBack.

Context (recursion_limit : nat) (float_repr : pystr -> pystr).

Lemma parse_three_lines input output calls :
  line_safe_str input = true -> line_safe_str output = true ->
  Forall (fun c => is_tool_call c = true) calls ->
  well_formed (JArr calls) = true ->
  float_free (JArr calls) = true ->
  line_safe (JArr calls) = true ->
  (nesting (JArr calls) <= recursion_limit)%nat ->
  _parse_existing_detailed_jsonl recursion_limit
    (detailed_text_of (three_lines float_repr input output calls))
  = Ok (Some input, Some output, calls).
Proof.
  intros Hi Ho Hc Hw Hf Hl Hn. unfold _parse_existing_detailed_jsonl, three_lines.
  cbn [detailed_text_of].
  rewrite splitlines_three;
    [|by apply dumps_default_one_line|by apply dumps_default_one_line
     |by apply dumps_compact_one_line].
  assert (Hne : forall s, strip (encode_basestring s) <> []).
  { intros s. by rewrite strip_encode_basestring. }
  rewrite !filter_cons, filter_nil.
  change (dumps_default float_repr (JStr input)) with (encode_basestring input).
  change (dumps_default float_repr (JStr output)) with (encode_basestring output).
  rewrite !decide_True; [|by rewrite strip_dumps_array|apply Hne|apply Hne].
  cbn [fmap list_fmap].
  rewrite !strip_encode_basestring, strip_dumps_array.
  change (encode_basestring input) with (dumps_default float_repr (JStr input)).
  change (encode_basestring output) with (dumps_default float_repr (JStr output)).
  rewrite !loads_or_none_dumps_default by (done || (cbn [nesting]; lia)).
  cbn [mbind result_bind].
  rewrite loads_or_none_dumps_compact by done. cbn [mbind result_bind].
  by rewrite tool_calls_kept.
Qed.

End ParseBack.

(** ** The core payload *)

Lemma coerce_compacted_strs l : coerce_compacted (JArr (JStr <$> l)) = Some l.
Proof.
  cbn [coerce_compacted].
  assert (H : forallb (fun item => bool_decide (is_Some (as_str item))) (JStr <$> l) = true
              /\ omap as_str (JStr <$> l) = l).
  { induction l as [|x l [IH1 IH2]]; [done|].
    cbn [fmap list_fmap forallb omap list_omap as_str].
    split; [|by rewrite IH2].
    rewrite bool_decide_eq_true_2 by eauto. done. }
  destruct H as [-> ->]. done.
Qed.

Lemma dict_set_again d k v : dict_set (dict_set d k v) k v = dict_set d k v.
Proof.
  induction d as [|[k' v'] d IH]; cbn [dict_set].
  - by rewrite decide_True.
  - destruct (decide (k' = k)) as [->|Hne]; cbn [dict_set].
    + by rewrite decide_True.
    + rewrite decide_False by done. by rewrite IH.
Qed.

Lemma dict_set_keys_Forall (Q : pystr -> Prop) d k v :
  Forall (fun kv => Q kv.1) d -> Q k -> Forall (fun kv => Q kv.1) (dict_set d k v).
Proof.
  intros Hd Hk. induction Hd as [|[k' v'] d Hh Hd IH]; cbn [dict_set].
  - by constructor.
  - destruct (decide (k' = k)); constructor; done.
Qed.

Lemma filter_all {A} (Q : A -> Prop) `{!forall x, Decision (Q x)} (l : list A) :
  Forall Q l -> filter Q l = l.
Proof.
  induction 1 as [|x l Hx Hl IH]; [done|].
  rewrite filter_cons, decide_True by done. by rewrite IH.
Qed.

Lemma Forall_filter_self {A} (Q : A -> Prop) `{!forall x, Decision (Q x)} (l : list A) :
  Forall Q (filter Q l).
Proof.
  induction l as [|x l IH]; [constructor|].
  rewrite filter_cons. destruct (decide (Q x)); [by constructor|done].
Qed.

Lemma Forall_filter_keep {A} (Q R : A -> Prop) `{!forall x, Decision (Q x)} (l : list A) :
  Forall R l -> Forall R (filter Q l).
Proof.
  induction 1 as [|x l Hx Hl IH]; [constructor|].
  rewrite filter_cons. destruct (decide (Q x)); [by constructor|done].
Qed.

Lemma NoDup_filter_keys (Q : pystr * json -> Prop) `{!forall x, Decision (Q x)}
    (d : list (pystr * json)) :
  NoDup d.*1 -> NoDup (filter Q d).*1.
Proof.
  induction d as [|[k v] d IH]; [done|]. cbn [fmap list_fmap fst].
  intros [Hk Hd]%NoDup_cons. rewrite filter_cons.
  destruct (decide (Q (k, v))); [|by apply IH].
  cbn [fmap list_fmap fst]. apply NoDup_cons. split; [|by apply IH].
  intros Hin. apply Hk. apply list_elem_of_fmap in Hin as ([k' v'] & -> & Hin).
  apply list_elem_of_filter in Hin as [_ Hin].
  apply list_elem_of_fmap. by exists (k', v').
Qed.

Lemma core_payload_fixed record compacted :
  core_payload (core_payload record compacted) (Some (default [] compacted))
  = core_payload record compacted.
Proof.
  unfold core_payload at 1. cbn [default]. rewrite filter_all.
  - unfold core_payload. apply dict_set_again.
  - unfold core_payload.
    apply (dict_set_keys_Forall (fun k => k ∉ [py "input"; py "output"; py "detailed"])).
    + apply (Forall_filter_self
               (fun kv : pystr * json => kv.1 ∉ [py "input"; py "output"; py "detailed"])).
    + rewrite !not_elem_of_cons. split_and!; [done..|apply not_elem_of_nil].
Qed.

Lemma core_payload_compacted record compacted :
  py_get (core_payload record compacted) (py "compacted")
  = JArr (JStr <$> default [] compacted).
Proof. unfold py_get, core_payload. by rewrite dict_get_set_eq. Qed.

Lemma core_payload_no_field record compacted k :
  k ∈ [py "input"; py "output"; py "detailed"] ->
  py_get (core_payload record compacted) k = JNull.
Proof.
  intros Hk. unfold py_get, core_payload. rewrite dict_get_set_ne.
  - by rewrite dict_get_filter_out.
  - intros <-. revert Hk. rewrite !elem_of_cons, elem_of_nil.
    intros [?|[?|[?|[]]]]; discriminate.
Qed.

Lemma strs_shape (l : list pystr) :
  well_formed (JArr (JStr <$> l)) = true /\ float_free (JArr (JStr <$> l)) = true.
Proof.
  cbn [well_formed float_free]. induction l as [|x l [IH1 IH2]]; [done|].
  cbn [fmap list_fmap forallb well_formed float_free]. by rewrite IH1, IH2.
Qed.

Lemma core_payload_well_formed record compacted :
  well_formed (JObj record) = true ->
  well_formed (JObj (core_payload record compacted)) = true.
Proof.
  cbn [well_formed]. intros [Hn%bool_decide_eq_true Hv]%andb_prop.
  apply (forallb_Forall_true (fun kv => well_formed kv.2)) in Hv.
  apply andb_true_intro. unfold core_payload. split.
  - apply bool_decide_eq_true_2, dict_set_NoDup. by apply NoDup_filter_keys.
  - apply (forallb_Forall_true (fun kv => well_formed kv.2)).
    apply (dict_set_Forall (fun v => well_formed v = true)).
    + by apply Forall_filter_keep.
    + apply strs_shape.
Qed.

Lemma core_payload_float_free record compacted :
  float_free (JObj record) = true ->
  float_free (JObj (core_payload record compacted)) = true.
Proof.
  cbn [float_free]. intros Hv.
  apply (forallb_Forall_true (fun kv => float_free kv.2)) in Hv.
  apply (forallb_Forall_true (fun kv => float_free kv.2)).
  unfold core_payload. apply (dict_set_Forall (fun v => float_free v = true)).
  - by apply Forall_filter_keep.
  - apply strs_shape.
Qed.

Lemma dict_set_nesting depth d k v :
  Forall (fun kv => (nesting kv.2 <= depth)%nat) d -> (nesting v <= depth)%nat ->
  Forall (fun kv => (nesting kv.2 <= depth)%nat) (dict_set d k v).
Proof.
  intros Hd Hv. induction Hd as [|[k' v'] d Hh Hd IH]; cbn [dict_set].
  - by constructor.
  - destruct (decide (k' = k)); constructor; done.
Qed.

(** The object written to the core file nests no deeper than the record,
    or two levels, for its list of strings. *)
Lemma core_payload_nesting depth record compacted :
  (nesting (JObj record) <= depth)%nat -> (2 <= depth)%nat ->
  (nesting (JObj (core_payload record compacted)) <= depth)%nat.
Proof.
  intros Hr Hd. destruct depth as [|depth]; [lia|].
  apply nesting_members_inv in Hr. apply nesting_members_le.
  unfold core_payload. apply dict_set_nesting.
  - by apply Forall_filter_keep.
  - etransitivity; [apply (nesting_items_le 0)|lia].
    apply Forall_fmap, Forall_forall. intros x _. cbn. lia.
Qed.

(** The detailed file is read back as it was written: from the three
    lines that hold an input, an output and a list of tool calls,
    [_parse_existing_detailed_jsonl] returns that input, that output and
    those tool calls, provided the strings hold none of U+0085, U+2028 and
    U+2029, and the tool calls hold no float and no repeated key and nest
    no deeper than the decoder goes. *)
Theorem detailed_file_reads_back recursion_limit float_repr input output calls :
  line_safe_str input = true ->
  line_safe_str output = true ->
  Forall (fun c => is_tool_call c = true) calls ->
  well_formed (JArr calls) = true ->
  float_free (JArr calls) = true ->
  line_safe (JArr calls) = true ->
  (nesting (JArr calls) <= recursion_limit)%nat ->
  _parse_existing_detailed_jsonl recursion_limit
    (dumps_default float_repr (JStr input) ++ [LF]
     ++ dumps_default float_repr (JStr output) ++ [LF]
     ++ dumps_compact float_repr (JArr calls) ++ [LF])
  = Ok (Some input, Some output, calls).
Proof.
  intros Hi Ho Hc Hw Hf Hl Hn.
  rewrite <- (parse_three_lines recursion_limit float_repr input output calls) by done.
  unfold three_lines, detailed_text_of. cbn [join]. by rewrite <- !app_assoc.
Qed.

Lemma detailed_file_reads_back_witness :
  let float_repr := fun literal : pystr => literal in
  let call := JObj [(py "tool_name", JStr (py "bash")); (py "args", JStr (py "ls"))] in
  _parse_existing_detailed_jsonl sample_limit
    (dumps_default float_repr (JStr (py "hi")) ++ [LF]
     ++ dumps_default float_repr (JStr (py "ok")) ++ [LF]
     ++ dumps_compact float_repr (JArr [call]) ++ [LF])
  = Ok (Some (py "hi"), Some (py "ok"), [call]).
Proof.
  cbv zeta.
  apply (detailed_file_reads_back sample_limit (fun literal => literal)
           (py "hi") (py "ok")
           [JObj [(py "tool_name", JStr (py "bash")); (py "args", JStr (py "ls"))]]);
    try reflexivity.
  - by repeat constructor.
  - vm_compute. lia.
Defined.

(** ** What the core file keeps *)

Lemma dict_get_filter_in (d : list (pystr * json)) (ks : list pystr) k :
  k ∉ ks -> dict_get (filter (fun kv => kv.1 ∉ ks) d) k = dict_get d k.
Proof.
  intros Hk. induction d as [|[k0 v0] d IH]; [done|].
  rewrite filter_cons. cbn [fst dict_get]. case_decide as Hin.
  - cbn [dict_get]. destruct (decide (k0 = k)); [done|apply IH].
  - rewrite decide_False; [apply IH|]. intros ->. tauto.
Qed.

Section CoreFile.

Context (recursion_limit : nat) (float_repr : pystr -> pystr).

(** The core file of a record without floats decodes to an object that
    holds every field of the record other than [input], [output] and
    [detailed] with the value it had, and under [compacted] a list of
    strings, which is the record's own list when the record has one. The
    decoder has to go two levels deep for it, as the object holds a
    list. *)
Theorem core_file_keeps_other_fields path st p raw record :
  (2 <= recursion_limit)%nat ->
  files st !! path = Some raw ->
  loads recursion_limit raw = Ok (JObj record) ->
  float_free (JObj record) = true ->
  plan_migration recursion_limit float_repr path st = Ok p ->
  exists payload compacted,
    loads recursion_limit (core_text p) = Ok (JObj payload)
    /\ dict_get payload (py "compacted") = Some (JArr (JStr <$> compacted))
    /\ (forall own, coerce_compacted (py_get record (py "compacted")) = Some own ->
        compacted = own)
    /\ (forall k, k ∈ [py "input"; py "output"; py "detailed"] ->
        dict_get payload k = None)
    /\ (forall k, k ∉ [py "input"; py "output"; py "detailed"; py "compacted"] ->
        dict_get payload k = dict_get record k).
Proof.
  intros Hlimit Hraw Hloads Hff Hp.
  destruct (plan_migration_inv _ _ _ _ _ Hp)
    as (raw' & record' & X & iv & ov & compacted & existing & lines
        & Hraw' & Hloads' & HX & Hiv & Hov & Hfc & Hex & Hlines & Hpeq).
  rewrite Hraw in Hraw'. injection Hraw' as <-.
  rewrite Hloads in Hloads'. injection Hloads' as <-.
  pose proof (loads_well_formed _ _ _ Hloads) as Hw.
  pose proof (loads_nesting _ _ _ Hloads) as Hn.
  exists (core_payload record compacted), (default [] compacted).
  split.
  { rewrite Hpeq. cbn [core_text]. unfold core_text_of. apply loads_dumps_compact;
      [by apply core_payload_well_formed|by apply core_payload_float_free
      |by apply core_payload_nesting|done]. }
  unfold core_payload. split; [apply dict_get_set_eq|]. split.
  { intros own Hown. unfold find_compacted in Hfc. rewrite Hown in Hfc.
    by injection Hfc as <-. }
  split.
  - intros k Hk. rewrite dict_get_set_ne.
    + by apply dict_get_filter_out.
    + intros <-. revert Hk. rewrite !elem_of_cons, elem_of_nil.
      intros [?|[?|[?|[]]]]; discriminate.
  - intros k Hk. rewrite !not_elem_of_cons in Hk. destruct Hk as (?&?&?&?&_).
    rewrite dict_get_set_ne by done. apply dict_get_filter_in.
    rewrite !not_elem_of_cons. split_and!; [done..|apply not_elem_of_nil].
Qed.

End CoreFile.

Lemma core_file_keeps_other_fields_witness :
  let record := [(py "id_", JStr (py "X")); (py "parents", JArr []);
                 (py "input", JStr (py "hi")); (py "output", JStr (py "ok"))] in
  exists payload compacted,
    loads sample_limit core_hi = Ok (JObj payload)
    /\ dict_get payload (py "compacted") = Some (JArr (JStr <$> compacted))
    /\ (forall own, coerce_compacted (py_get record (py "compacted")) = Some own ->
        compacted = own)
    /\ (forall k, k ∈ [py "input"; py "output"; py "detailed"] ->
        dict_get payload k = None)
    /\ (forall k, k ∉ [py "input"; py "output"; py "detailed"; py "compacted"] ->
        dict_get payload k = dict_get record k).
Proof.
  cbv zeta.
  apply (core_file_keeps_other_fields sample_limit (fun literal => literal)
           (file "X.json") legacy_dir
           {| core_path := file "X.core.json";
              detailed_path := file "X.detailed.jsonl";
              legacy_detailed_path := file "X.detailed.json";
              legacy_compacted_path := file "X.compacted.json";
              core_text := core_hi; detailed_text := detailed_hi;
              changed := true |}
           (text_of legacy_hi)); try vm_refl.
  vm_compute. lia.
Defined.

(** ** When a record is refused *)

Section Outcomes.

Context (recursion_limit : nat) (float_repr : pystr -> pystr).

Lemma detail_lines_outcome record iv ov existing :
  (exists lines, detail_lines recursion_limit float_repr record iv ov existing = Ok lines)
  \/ (detail_lines recursion_limit float_repr record iv ov existing
        = Raise RecursionError
      /\ (iv = None \/ ov = None)
      /\ _parse_existing_detailed_jsonl recursion_limit existing = Raise RecursionError).
Proof.
  unfold detail_lines.
  assert (Hparse :
    (exists lines,
       match existing with
       | [] => Ok []
       | _ :: _ =>
           '(parsed_input, parsed_output, parsed_tool_calls) ←
             _parse_existing_detailed_jsonl recursion_limit existing;
           match parsed_input, parsed_output with
           | Some parsed_input, Some parsed_output =>
               Ok (three_lines float_repr parsed_input parsed_output parsed_tool_calls)
           | _, _ => Ok []
           end
       end = Ok lines)
    \/ (match existing with
        | [] => Ok []
        | _ :: _ =>
            '(parsed_input, parsed_output, parsed_tool_calls) ←
              _parse_existing_detailed_jsonl recursion_limit existing;
            match parsed_input, parsed_output with
            | Some parsed_input, Some parsed_output =>
                Ok (three_lines float_repr parsed_input parsed_output parsed_tool_calls)
            | _, _ => Ok []
            end
        end = Raise RecursionError
        /\ _parse_existing_detailed_jsonl recursion_limit existing
           = Raise RecursionError)).
  { destruct existing as [|c t]; [left; eauto|].
    destruct (parse_existing_detailed_cases recursion_limit (c :: t))
      as [(i & o & calls & -> & _)|[-> _]]; cbn [mbind result_bind].
    - left. destruct i, o; eauto.
    - by right. }
  destruct iv as [i|]; [destruct ov as [o|]|].
  - left. eauto.
  - destruct Hparse as [?|[? ?]]; [by left|right; auto].
  - destruct Hparse as [?|[? ?]]; [by left|right; auto].
Qed.

Lemma find_compacted_outcome st record sidecar :
  (sidecar_ok recursion_limit st record sidecar
   /\ exists c, find_compacted recursion_limit st record sidecar = Ok c)
  \/ (~ sidecar_ok recursion_limit st record sidecar
      /\ exists e, find_compacted recursion_limit st record sidecar = Raise e
                   /\ (is_ValueError e = true \/ e = RecursionError)).
Proof.
  unfold find_compacted, sidecar_ok, path_exists, read_text.
  destruct (coerce_compacted _) as [c|]; [left; split; eauto|].
  destruct (files st !! sidecar) as [text|]; [|left; split; eauto].
  cbn [mbind result_bind].
  destruct (loads_total recursion_limit text) as [[v Hv]|(e & He & Hve)];
    rewrite ?Hv, ?He; cbn [mbind result_bind].
  - left. split; eauto.
  - right. split; [|eauto]. intros [[? [=]]|[v Hv]]. congruence.
Qed.

Lemma optional_str_field_outcome record key :
  (str_or_none (py_get record key)
   /\ exists o, optional_str_field record key = Ok o)
  \/ (~ str_or_none (py_get record key)
      /\ optional_str_field record key = Raise ValueError).
Proof.
  unfold optional_str_field, str_or_none.
  destruct (py_get record key) as [| | | |s| |];
    try (right; split; [by intros [[=]|[? [=]]]|done]).
  - left. split; [by left|eauto].
  - left. split; [right|]; eauto.
Qed.

Lemma optional_str_field_Some record key s :
  optional_str_field record key = Ok (Some s) -> py_get record key = JStr s.
Proof.
  unfold optional_str_field. destruct (py_get record key); try discriminate.
  by intros [= ->].
Qed.

Lemma optional_str_field_None record key :
  optional_str_field record key = Ok None ->
  forall s, py_get record key <> JStr s.
Proof.
  unfold optional_str_field. by destruct (py_get record key).
Qed.

(** The detail lines are generated exactly when the detailed text is not
    in the way. *)
Lemma detail_lines_iff st record X path iv ov existing :
  optional_str_field record (py "input") = Ok iv ->
  optional_str_field record (py "output") = Ok ov ->
  read_existing_detailed st (with_name path (X ++ py ".detailed.json"))
    (with_name path (X ++ py ".detailed.jsonl")) = Ok existing ->
  (exists lines, detail_lines recursion_limit float_repr record iv ov existing = Ok lines)
  <-> detailed_ok recursion_limit st record
        (with_name path (X ++ py ".detailed.json"))
        (with_name path (X ++ py ".detailed.jsonl")).
Proof.
  intros Hiv Hov Hex. unfold detailed_ok. rewrite Hex. split.
  - intros [lines Hlines].
    destruct (detail_lines_outcome record iv ov existing)
      as [_|(Hr & _)]; [|congruence].
    destruct iv as [i|], ov as [o|].
    1: { left. exists i, o. split; by apply optional_str_field_Some. }
    all: right; exists existing; unfold detail_lines in Hlines;
      destruct existing as [|c t]; [by eexists|];
      destruct (_parse_existing_detailed_jsonl recursion_limit (c :: t)) as [r|];
        [by exists r|discriminate].
  - intros [(i & o & Hi & Ho)|(existing' & r & [= <-] & Hr)].
    + unfold optional_str_field in Hiv, Hov. rewrite Hi in Hiv. rewrite Ho in Hov.
      injection Hiv as <-. injection Hov as <-. unfold detail_lines. eauto.
    + destruct (detail_lines_outcome record iv ov existing)
        as [?|(_ & _ & Hp)]; [done|congruence].
Qed.

(** What makes a record file migratable: [migrate_record_file] returns
    exactly when the file exists and decodes to an object, its name ends
    in [.json], its [input] and [output] are each absent, [None] or a
    string, the sidecar, if it is needed and exists, decodes, the
    detailed text, if it is needed, is parsed without a [RecursionError],
    and, when the run is to write, both generated texts can be encoded.
    Whether the detailed files exist plays no part. *)
Theorem migratable_iff path dlc force dry_run st :
  (exists b st',
     migrate_record_file recursion_limit float_repr path dlc force dry_run st
     = (Ok b, st'))
  <-> exists raw record X,
        files st !! path = Some raw
        /\ loads recursion_limit raw = Ok (JObj record)
        /\ record_id_from_path path = Ok X
        /\ str_or_none (py_get record (py "input"))
        /\ str_or_none (py_get record (py "output"))
        /\ sidecar_ok recursion_limit st record
             (with_name path (X ++ py ".compacted.json"))
        /\ detailed_ok recursion_limit st record
             (with_name path (X ++ py ".detailed.json"))
             (with_name path (X ++ py ".detailed.jsonl"))
        /\ (forall p, plan_migration recursion_limit float_repr path st = Ok p ->
              dry_run = false -> changed p = true -> writable p = true).
Proof.
  split.
  - intros (b & st' & H).
    apply migrate_record_file_returns in H as (p & Hp & Hcases).
    destruct (plan_migration_inv _ _ _ _ _ Hp)
      as (raw & record & X & iv & ov & compacted & existing & lines
          & Hraw & Hloads & HX & Hiv & Hov & Hfc & Hex & Hlines & _).
    exists raw, record, X. split_and!; [done..| | | | |].
    + destruct (optional_str_field_outcome record (py "input")) as [[? _]|[_ Hr]];
        [done|congruence].
    + destruct (optional_str_field_outcome record (py "output")) as [[? _]|[_ Hr]];
        [done|congruence].
    + destruct (find_compacted_outcome st record
                  (with_name path (X ++ py ".compacted.json")))
        as [[? _]|[_ (e & Hr & _)]]; [done|congruence].
    + apply (detail_lines_iff st record X path iv ov existing); eauto.
    + intros p' Hp' -> Hc. rewrite Hp in Hp'. injection Hp' as <-.
      destruct Hcases as [(Hskip & _)|(_ & _ & _ & Hc1 & Hc2 & _)].
      * rewrite Hc in Hskip. done.
      * unfold writable. by rewrite Hc1, Hc2.
  - intros (raw & record & X & Hraw & Hloads & HX & Hi & Ho & Hs & Hd & Hw).
    assert (Hplan : exists p, plan_migration recursion_limit float_repr path st = Ok p).
    { rewrite plan_migration_steps. unfold read_text.
      rewrite Hraw. cbn [mbind result_bind]. rewrite Hloads. cbn [mbind result_bind].
      rewrite HX. cbn [mbind result_bind]. cbv zeta.
      destruct (optional_str_field_outcome record (py "input"))
        as [[_ [iv Hiv]]|[? _]]; [|done].
      destruct (optional_str_field_outcome record (py "output"))
        as [[_ [ov Hov]]|[? _]]; [|done].
      rewrite Hiv, Hov. cbn [mbind result_bind].
      destruct (find_compacted_outcome st record
                  (with_name path (X ++ py ".compacted.json")))
        as [[_ [c ->]]|[? _]]; [|done].
      cbn [mbind result_bind].
      destruct (read_existing_detailed_ok st (with_name path (X ++ py ".detailed.json"))
                  (with_name path (X ++ py ".detailed.jsonl"))) as [existing Hex].
      rewrite Hex. cbn [mbind result_bind].
      apply (detail_lines_iff st record X path iv ov existing Hiv Hov Hex) in Hd
        as [lines ->].
      cbn [mbind result_bind]. rewrite plan_changed_spec.
      cbn [mbind result_bind]. eauto. }
    destruct Hplan as [p Hp]. rewrite migrate_record_file_outcome, Hp.
    destruct dry_run; cbn [orb]; [eauto|].
    destruct (changed p) eqn:Ec; cbn [negb]; [|eauto].
    specialize (Hw p Hp eq_refl Ec). unfold writable in Hw.
    apply andb_prop in Hw as [-> ->]. eauto.
Qed.

(** The exceptions of [migrate_record_file]: [FileNotFoundError] when the
    record file does not exist, and otherwise a [ValueError] (which the
    errors of the decoder and the encoding error of a write are), or the
    [RecursionError] of the decoder on a text nested deeper than its
    limit. *)
Theorem refusals_are_value_errors path dlc force dry_run st e st' :
  migrate_record_file recursion_limit float_repr path dlc force dry_run st
    = (Raise e, st') ->
  match files st !! path with
  | None => e = FileNotFoundError
  | Some _ => is_ValueError e = true \/ e = RecursionError
  end.
Proof.
  rewrite migrate_record_file_outcome.
  assert (Hplan : forall e, plan_migration recursion_limit float_repr path st = Raise e ->
    match files st !! path with
    | None => e = FileNotFoundError
    | Some _ => is_ValueError e = true \/ e = RecursionError
    end).
  { clear e. intros e. rewrite plan_migration_steps. unfold read_text.
    destruct (files st !! path) as [raw|] eqn:Eraw; cbn [mbind result_bind];
      [|by intros [= <-]].
    destruct (loads_total recursion_limit raw) as [[v ->]|(e' & -> & He')];
      cbn [mbind result_bind]; [|by intros [= <-]].
    destruct v as [| | | | | |record]; try (intros [= <-]; by left).
    destruct (record_id_from_path path) as [X|e'] eqn:EX; cbn [mbind result_bind].
    2:{ intros [= <-]. unfold record_id_from_path in EX.
        repeat case_match; try discriminate. injection EX as <-. by left. }
    cbv zeta.
    destruct (optional_str_field_outcome record (py "input")) as [[Hi [iv ->]]|[Hi ->]];
      cbn [mbind result_bind]; [|intros [= <-]; by left].
    destruct (optional_str_field_outcome record (py "output")) as [[Ho [ov ->]]|[Ho ->]];
      cbn [mbind result_bind]; [|intros [= <-]; by left].
    destruct (find_compacted_outcome st record (with_name path (X ++ py ".compacted.json")))
      as [[Hs [c ->]]|[Hs (e' & -> & He')]]; cbn [mbind result_bind];
      [|by intros [= <-]].
    destruct (read_existing_detailed_ok st (with_name path (X ++ py ".detailed.json"))
                (with_name path (X ++ py ".detailed.jsonl"))) as [existing ->].
    cbn [mbind result_bind].
    destruct (detail_lines_outcome record iv ov existing) as [[lines ->]|(-> & _)];
      cbn [mbind result_bind]; [|intros [= <-]; by right].
    by rewrite plan_changed_spec. }
  destruct (plan_migration recursion_limit float_repr path st) as [p|e0] eqn:Hp.
  - destruct (plan_migration_inv _ _ _ _ _ Hp) as (raw & _ & _ & _ & _ & _ & _ & _ & -> & _).
    destruct (dry_run || negb (changed p)); [done|].
    destruct (encodable (core_text p)); [destruct (encodable (detailed_text p))|];
      [done|intros [= <- _]; by left..].
  - intros [= <- _]. by apply Hplan.
Qed.

End Outcomes.

Lemma refusals_are_value_errors_witness :
  match files output_surrogate_dir !! file "X.json" with
  | None => UnicodeError = FileNotFoundError
  | Some _ => is_ValueError UnicodeError = true \/ UnicodeError = RecursionError
  end.
Proof.
  apply (refusals_are_value_errors sample_limit (fun literal => literal) (file "X.json")
           false false false output_surrogate_dir UnicodeError
           (temp_left (file "X.detailed.jsonl")
              (write (file "X.core.json")
                 (dumps_compact (fun literal => literal)
                    (JObj [(py "compacted", JArr [])]) ++ [LF])
                 output_surrogate_dir))).
  vm_refl.
Defined.

(** ** A second run *)

Section SecondRun.

Context (recursion_limit : nat) (float_repr : pystr -> pystr).

Lemma detailed_text_of_three_lines i o calls :
  detailed_text_of (three_lines float_repr i o calls) <> [].
Proof.
  unfold three_lines. cbn [detailed_text_of]. intros [_ H]%app_eq_nil. discriminate.
Qed.

Lemma read_text_Some st path (text : pystr) :
  files st !! path = Some text -> read_text st path = Ok text.
Proof. unfold read_text. by intros ->. Qed.

Lemma read_existing_detailed_new st legacy detailed (text : pystr) :
  files st !! legacy = None -> files st !! detailed = Some text ->
  read_existing_detailed st legacy detailed = Ok text.
Proof.
  unfold read_existing_detailed, path_exists, read_text. by intros -> ->.
Qed.

Lemma read_existing_detailed_none st legacy detailed :
  files st !! legacy = None -> files st !! detailed = None ->
  read_existing_detailed st legacy detailed = Ok [].
Proof.
  unfold read_existing_detailed, path_exists, read_text. by intros -> ->.
Qed.

Lemma three_lines_text input output calls :
  detailed_text_of (three_lines float_repr input output calls)
  = dumps_default float_repr (JStr input) ++ [LF]
    ++ dumps_default float_repr (JStr output) ++ [LF]
    ++ dumps_compact float_repr (JArr calls) ++ [LF].
Proof. unfold three_lines, detailed_text_of. cbn [join]. by rewrite <- !app_assoc. Qed.

Lemma dict_get_None_keys d k : dict_get d k = None -> k ∉ d.*1.
Proof.
  induction d as [|[k' v] d IH]; [intros _; apply not_elem_of_nil|].
  cbn [dict_get fmap list_fmap fst]. destruct (decide (k' = k)); [done|].
  intros H%IH. apply not_elem_of_cons. by split; [congruence|].
Qed.

Lemma dict_set_same d k v : dict_get d k = Some v -> dict_set d k v = d.
Proof.
  induction d as [|[k' v'] d IH]; [done|]. cbn [dict_get dict_set].
  destruct (decide (k' = k)); [by intros [= ->]|]. intros H. by rewrite IH.
Qed.

(** An object that has its list of strings under [compacted] and none of
    the three keys that the core file leaves out is its own core payload. *)
Lemma core_payload_of_payload payload compacted :
  dict_get payload (py "compacted") = Some (JArr (JStr <$> compacted)) ->
  (forall k, k ∈ [py "input"; py "output"; py "detailed"] ->
     dict_get payload k = None) ->
  core_payload payload (Some compacted) = payload.
Proof.
  intros Hc Hno. unfold core_payload. cbn [default]. rewrite filter_all.
  - by apply dict_set_same.
  - apply Forall_forall. intros [k v] Hin. cbn [fst]. intros Hk.
    apply Hno, dict_get_None_keys in Hk. apply Hk.
    apply list_elem_of_fmap. by exists (k, v).
Qed.

(** The plan of a run over a core file that holds a core payload, when
    the detail lines that the run generates are none, or are those of the
    detailed file: nothing differs. *)
Lemma plan_of_split_layout st X path payload compacted existing lines :
  let core := with_name path (X ++ py ".core.json") in
  let detailed := with_name path (X ++ py ".detailed.jsonl") in
  let legacy_detailed := with_name path (X ++ py ".detailed.json") in
  files st !! core = Some (dumps_compact float_repr (JObj payload) ++ [LF]) ->
  well_formed (JObj payload) = true ->
  float_free (JObj payload) = true ->
  (nesting (JObj payload) <= recursion_limit)%nat ->
  dict_get payload (py "compacted") = Some (JArr (JStr <$> compacted)) ->
  (forall k, k ∈ [py "input"; py "output"; py "detailed"] ->
     dict_get payload k = None) ->
  read_existing_detailed st legacy_detailed detailed = Ok existing ->
  detail_lines recursion_limit float_repr payload None None existing = Ok lines ->
  lines = [] \/ files st !! detailed = Some (detailed_text_of lines) ->
  plan_migration recursion_limit float_repr core st
  = Ok {| core_path := core;
          detailed_path := detailed;
          legacy_detailed_path := legacy_detailed;
          legacy_compacted_path := with_name path (X ++ py ".compacted.json");
          core_text := dumps_compact float_repr (JObj payload) ++ [LF];
          detailed_text := detailed_text_of lines;
          changed := false |}.
Proof.
  cbv zeta. intros Hcore Hw Hf Hn Hc Hno Hex Hlines Hdet.
  rewrite plan_migration_steps.
  replace (read_text st (with_name path (X ++ py ".core.json")))
    with (Ok (dumps_compact float_repr (JObj payload) ++ [LF]) : result pystr)
    by (symmetry; apply read_text_Some, Hcore).
  cbn [mbind result_bind].
  rewrite (loads_dumps_compact recursion_limit float_repr (JObj payload) [LF]) by done.
  cbn [mbind result_bind]. rewrite record_id_core. cbn [mbind result_bind].
  unfold optional_str_field, py_get.
  rewrite !Hno by (rewrite !elem_of_cons; auto).
  cbn [default from_option id mbind result_bind].
  unfold find_compacted, py_get. rewrite Hc. cbn [default from_option id].
  rewrite coerce_compacted_strs. cbn [mbind result_bind].
  repeat progress
    change (with_name (with_name path (X ++ py ".core.json")) ?n) with (with_name path n).
  rewrite Hex. cbn [mbind result_bind]. rewrite Hlines. cbn [mbind result_bind].
  rewrite plan_changed_spec. cbn [mbind result_bind].
  unfold core_text_of. rewrite core_payload_of_payload by done.
  rewrite (bool_decide_eq_false_2
             (files st !! with_name path (X ++ py ".core.json") <> Some _))
    by (intros H; apply H; exact Hcore).
  destruct Hdet as [->|Hdet].
  - cbn [detailed_text_of]. by rewrite bool_decide_eq_true_2.
  - rewrite (bool_decide_eq_false_2
               (files st !! with_name path (X ++ py ".detailed.jsonl") <> Some _))
      by (intros H; apply H; exact Hdet).
    by rewrite andb_false_r.
Qed.

(** The detail lines that a run generates from the three lines of a
    detailed file are those three lines. *)
Lemma detail_lines_of_three_lines record input output calls :
  line_safe_str input = true -> line_safe_str output = true ->
  Forall (fun c => is_tool_call c = true) calls ->
  well_formed (JArr calls) = true ->
  float_free (JArr calls) = true ->
  line_safe (JArr calls) = true ->
  (nesting (JArr calls) <= recursion_limit)%nat ->
  detail_lines recursion_limit float_repr record None None
    (detailed_text_of (three_lines float_repr input output calls))
  = Ok (three_lines float_repr input output calls).
Proof.
  intros Hi Ho Hc Hcw Hcf Hcl Hcn. unfold detail_lines.
  pose proof (detailed_text_of_three_lines input output calls) as Hne.
  destruct (detailed_text_of (three_lines float_repr input output calls))
    as [|c0 text0] eqn:Etext; [done|]. rewrite <- Etext in *.
  by rewrite parse_three_lines.
Qed.

(** The plan of a run over the core file a run has written, when the
    detailed file holds the three lines it has written too: nothing
    differs. *)
Lemma plan_of_written_files st X path record compacted input output calls :
  let core := with_name path (X ++ py ".core.json") in
  let detailed_text := detailed_text_of (three_lines float_repr input output calls) in
  files st !! core = Some (core_text_of float_repr record compacted) ->
  files st !! with_name path (X ++ py ".detailed.jsonl") = Some detailed_text ->
  files st !! with_name path (X ++ py ".detailed.json") = None ->
  well_formed (JObj record) = true ->
  float_free (JObj record) = true ->
  (nesting (JObj record) <= recursion_limit)%nat ->
  (2 <= recursion_limit)%nat ->
  line_safe_str input = true -> line_safe_str output = true ->
  Forall (fun c => is_tool_call c = true) calls ->
  well_formed (JArr calls) = true ->
  float_free (JArr calls) = true ->
  line_safe (JArr calls) = true ->
  (nesting (JArr calls) <= recursion_limit)%nat ->
  plan_migration recursion_limit float_repr core st
  = Ok {| core_path := core;
          detailed_path := with_name path (X ++ py ".detailed.jsonl");
          legacy_detailed_path := with_name path (X ++ py ".detailed.json");
          legacy_compacted_path := with_name path (X ++ py ".compacted.json");
          core_text := core_text_of float_repr record compacted;
          detailed_text := detailed_text;
          changed := false |}.
Proof.
  cbv zeta. intros Hcore Hdet Hleg Hw Hf Hn Hlimit Hi Ho Hc Hcw Hcf Hcl Hcn.
  apply (plan_of_split_layout st X path (core_payload record compacted)
           (default [] compacted)
           (detailed_text_of (three_lines float_repr input output calls))
           (three_lines float_repr input output calls)).
  - exact Hcore.
  - by apply core_payload_well_formed.
  - by apply core_payload_float_free.
  - by apply core_payload_nesting.
  - unfold core_payload. apply dict_get_set_eq.
  - intros k Hk. unfold core_payload. rewrite dict_get_set_ne.
    + by apply dict_get_filter_out.
    + intros <-. revert Hk. rewrite !elem_of_cons, elem_of_nil.
      intros [?|[?|[?|[]]]]; discriminate.
  - by apply read_existing_detailed_new.
  - by apply detail_lines_of_three_lines.
  - by right.
Qed.

(** A record in the split layout is left alone. When [<id>.core.json]
    holds the compact encoding of an object without floats that has a
    list of strings under [compacted] and no [input], [output] or
    [detailed], there is no [<id>.detailed.json], and [<id>.detailed.jsonl]
    is absent or holds the three lines of an input, an output and tool
    calls (none of them with a float or with U+0085, U+2028 or U+2029,
    nor nested deeper than the decoder goes), then [migrate_record_file]
    returns [False] and changes no file, whatever its flags. *)
Theorem migrated_record_is_left_alone
    core X payload compacted dlc force dry_run st :
  name core = X ++ py ".core.json" ->
  files st !! core = Some (dumps_compact float_repr (JObj payload) ++ [LF]) ->
  well_formed (JObj payload) = true ->
  float_free (JObj payload) = true ->
  (nesting (JObj payload) <= recursion_limit)%nat ->
  dict_get payload (py "compacted") = Some (JArr (JStr <$> compacted)) ->
  (forall k, k ∈ [py "input"; py "output"; py "detailed"] ->
     dict_get payload k = None) ->
  files st !! with_name core (X ++ py ".detailed.json") = None ->
  match files st !! with_name core (X ++ py ".detailed.jsonl") with
  | None => True
  | Some text =>
      exists input output calls,
        text = dumps_default float_repr (JStr input) ++ [LF]
               ++ dumps_default float_repr (JStr output) ++ [LF]
               ++ dumps_compact float_repr (JArr calls) ++ [LF]
        /\ line_safe_str input = true /\ line_safe_str output = true
        /\ Forall (fun c => is_tool_call c = true) calls
        /\ well_formed (JArr calls) = true
        /\ float_free (JArr calls) = true
        /\ line_safe (JArr calls) = true
        /\ (nesting (JArr calls) <= recursion_limit)%nat
  end ->
  migrate_record_file recursion_limit float_repr core dlc force dry_run st
    = (Ok false, st).
Proof.
  intros Hname Hcore Hw Hf Hn Hc Hno Hleg Hdet.
  assert (Hself : with_name core (X ++ py ".core.json") = core).
  { rewrite <- Hname. apply with_name_name. }
  unfold migrate_record_file. rewrite <- Hself at 1. rewrite <- Hself in Hcore.
  destruct (files st !! with_name core (X ++ py ".detailed.jsonl")) as [text|] eqn:Et.
  - destruct Hdet
      as (input & output & calls & -> & Hi & Ho & Hcs & Hcw & Hcf & Hcl & Hcn).
    rewrite <- three_lines_text in Et.
    rewrite (plan_of_split_layout st X core payload compacted
               (detailed_text_of (three_lines float_repr input output calls))
               (three_lines float_repr input output calls)); try done.
    + cbn [mbind result_bind changed negb]. by rewrite orb_true_r.
    + by apply read_existing_detailed_new.
    + by apply detail_lines_of_three_lines.
    + by right.
  - rewrite (plan_of_split_layout st X core payload compacted [] []); try done.
    + cbn [mbind result_bind changed negb]. by rewrite orb_true_r.
    + by apply read_existing_detailed_none.
    + by left.
Qed.

(** The detailed file keeps the exchange. For a record whose [input] and
    [output] are strings, the detailed text that [migrate_record_file]
    generates is read back by [_parse_existing_detailed_jsonl] as that
    input, that output and the tool calls of the record's trace, when
    input, output and trace hold none of U+0085, U+2028 and U+2029 and
    the trace holds no float. *)
Theorem detailed_file_keeps_the_exchange path st p raw record input output :
  files st !! path = Some raw ->
  loads recursion_limit raw = Ok (JObj record) ->
  py_get record (py "input") = JStr input ->
  py_get record (py "output") = JStr output ->
  float_free (py_get record (py "detailed")) = true ->
  line_safe_str input = true ->
  line_safe_str output = true ->
  line_safe (py_get record (py "detailed")) = true ->
  plan_migration recursion_limit float_repr path st = Ok p ->
  _parse_existing_detailed_jsonl recursion_limit (detailed_text p)
  = Ok (Some input, Some output,
        _extract_tool_calls_from_legacy_detailed (py_get record (py "detailed"))).
Proof.
  intros Hraw Hloads Hin Hout Hdf Hli Hlo Hld Hp.
  destruct (plan_migration_inv _ _ _ _ _ Hp)
    as (raw' & record' & X & iv & ov & compacted & existing & lines
        & Hraw' & Hloads' & HX & Hiv & Hov & Hfc & Hex & Hlines & Hpeq).
  rewrite Hraw in Hraw'. injection Hraw' as <-.
  rewrite Hloads in Hloads'. injection Hloads' as <-.
  unfold optional_str_field in Hiv, Hov. rewrite Hin in Hiv. rewrite Hout in Hov.
  injection Hiv as <-. injection Hov as <-.
  unfold detail_lines in Hlines. injection Hlines as <-.
  pose proof (loads_well_formed _ _ _ Hloads) as Hw.
  assert (Hdw : well_formed (py_get record (py "detailed")) = true).
  { apply py_get_inherits; [done|apply well_formed_members|done]. }
  rewrite Hpeq. cbn [detailed_text]. apply parse_three_lines; try done.
  - apply tool_calls_normal.
  - cbn [well_formed]. apply forallb_Forall_true.
    by apply legacy_tool_calls_well_formed.
  - cbn [float_free]. apply forallb_Forall_true.
    by apply legacy_tool_calls_float_free.
  - cbn [line_safe]. apply forallb_Forall_true.
    by apply legacy_tool_calls_line_safe.
  - etransitivity; [apply tool_calls_nesting|]. by apply loads_nesting in Hloads.
Qed.

(** A run that has migrated a record with its own [input] and [output]
    leaves nothing for a second run: when the record holds no float, and
    its input, its output and its trace hold none of U+0085, U+2028 and
    U+2029, [migrate_record_file] over the core file it has written
    returns [False] and changes no file, whatever its flags. The decoder
    has to go two levels deep to read the core file, which holds a
    list. *)
Theorem second_run_changes_nothing
    path dlc force st st' raw record input output dlc2 force2 dry_run2 :
  (2 <= recursion_limit)%nat ->
  files st !! path = Some raw ->
  loads recursion_limit raw = Ok (JObj record) ->
  py_get record (py "input") = JStr input ->
  py_get record (py "output") = JStr output ->
  float_free (JObj record) = true ->
  line_safe_str input = true ->
  line_safe_str output = true ->
  line_safe (py_get record (py "detailed")) = true ->
  migrate_record_file recursion_limit float_repr path dlc force false st
    = (Ok true, st') ->
  exists core,
    core_path_for_record_path path = Ok core
    /\ files st' !! core <> None
    /\ migrate_record_file recursion_limit float_repr core dlc2 force2 dry_run2 st'
       = (Ok false, st').
Proof.
  intros Hlimit Hraw Hloads Hin Hout Hff Hli Hlo Hld Hm.
  pose proof Hm as (p & Hp & ->)%migrate_record_file_changed.
  pose proof (loads_nesting _ _ _ Hloads) as Hn.
  destruct (plan_migration_inv _ _ _ _ _ Hp)
    as (raw' & record' & X & iv & ov & compacted & existing & lines
        & Hraw' & Hloads' & HX & Hiv & Hov & Hfc & Hex & Hlines & Hpeq).
  rewrite Hraw in Hraw'. injection Hraw' as <-.
  rewrite Hloads in Hloads'. injection Hloads' as <-.
  unfold optional_str_field in Hiv, Hov. rewrite Hin in Hiv. rewrite Hout in Hov.
  injection Hiv as <-. injection Hov as <-.
  unfold detail_lines in Hlines. injection Hlines as <-.
  set (calls := _extract_tool_calls_from_legacy_detailed (py_get record (py "detailed")))
    in *.
  pose proof (loads_well_formed _ _ _ Hloads) as Hw.
  assert (Hdw : well_formed (py_get record (py "detailed")) = true).
  { apply py_get_inherits; [done|apply well_formed_members|done]. }
  assert (Hdf : float_free (py_get record (py "detailed")) = true).
  { apply py_get_inherits; [done|apply float_free_members|done]. }
  pose proof (written_files p dlc st) as Hfiles.
  rewrite Hpeq in Hfiles. cbn [core_path detailed_path legacy_detailed_path
    legacy_compacted_path core_text detailed_text] in Hfiles.
  destruct Hfiles as (Hcore & Hdet & Hleg & _); try (by apply with_name_suffix_ne).
  rewrite <- Hpeq in Hcore, Hdet, Hleg.
  rewrite bool_decide_eq_false_2 in Hdet, Hleg
    by apply detailed_text_of_three_lines.
  exists (with_name path (X ++ py ".core.json")). split.
  { unfold core_path_for_record_path. by rewrite HX. }
  split; [by rewrite Hcore|].
  unfold migrate_record_file.
  rewrite (plan_of_written_files _ X path record compacted input output calls);
    try done.
  - cbn [mbind result_bind changed negb]. by rewrite orb_true_r.
  - apply tool_calls_normal.
  - cbn [well_formed]. apply forallb_Forall_true.
    by apply legacy_tool_calls_well_formed.
  - cbn [float_free]. apply forallb_Forall_true.
    by apply legacy_tool_calls_float_free.
  - cbn [line_safe]. apply forallb_Forall_true.
    by apply legacy_tool_calls_line_safe.
  - etransitivity; [apply tool_calls_nesting|done].
Qed.

End SecondRun.

Lemma migrated_record_is_left_alone_witness :
  migrate_record_file sample_limit (fun literal => literal) (file "X.core.json")
    true true false migrated_dir
  = (Ok false, migrated_dir).
Proof.
  apply (migrated_record_is_left_alone sample_limit (fun literal => literal)
           (file "X.core.json") (py "X")
           [(py "id_", JStr (py "X")); (py "parents", JArr []);
            (py "compacted", JArr [JStr (py "summary")])]
           [py "summary"] true true false migrated_dir); try vm_refl.
  - vm_compute. lia.
  - intros k. rewrite !elem_of_cons, elem_of_nil.
    by intros [->|[->|[->|[]]]].
  - change (files migrated_dir !! with_name (file "X.core.json")
                                    (py "X" ++ py ".detailed.jsonl"))
      with (Some detailed_hi).
    exists (py "hi"), (py "ok"), []. split_and!; try reflexivity; [constructor|].
    vm_compute. lia.
Defined.

Lemma detailed_file_keeps_the_exchange_witness :
  _parse_existing_detailed_jsonl sample_limit detailed_hi
  = Ok (Some (py "hi"), Some (py "ok"),
        _extract_tool_calls_from_legacy_detailed
          (py_get [(py "id_", JStr (py "X")); (py "parents", JArr []);
                   (py "input", JStr (py "hi")); (py "output", JStr (py "ok"))]
             (py "detailed"))).
Proof.
  apply (detailed_file_keeps_the_exchange sample_limit (fun literal => literal)
           (file "X.json") legacy_dir
           {| core_path := file "X.core.json";
              detailed_path := file "X.detailed.jsonl";
              legacy_detailed_path := file "X.detailed.json";
              legacy_compacted_path := file "X.compacted.json";
              core_text := core_hi; detailed_text := detailed_hi;
              changed := true |}
           (text_of legacy_hi)
           [(py "id_", JStr (py "X")); (py "parents", JArr []);
            (py "input", JStr (py "hi")); (py "output", JStr (py "ok"))]
           (py "hi") (py "ok")); vm_refl.
Defined.

Lemma second_run_changes_nothing_witness :
  exists core,
    core_path_for_record_path (file "X.json") = Ok core
    /\ files legacy_dir_after !! core <> None
    /\ migrate_record_file sample_limit (fun literal => literal) core false true false
         legacy_dir_after = (Ok false, legacy_dir_after).
Proof.
  apply (second_run_changes_nothing sample_limit (fun literal => literal)
           (file "X.json")
           true false legacy_dir legacy_dir_after (text_of legacy_hi)
           [(py "id_", JStr (py "X")); (py "parents", JArr []);
            (py "input", JStr (py "hi")); (py "output", JStr (py "ok"))]
           (py "hi") (py "ok") false true false); try vm_refl.
  vm_compute. lia.
Defined.

End MigrateIdem.

(* ================================================================== *)
(** * Further properties of the neighbourhood traversal *)
(* ================================================================== *)

Module NeighborhoodProps.
Import PyStr Neighborhood NeighborhoodFacts.

(** The depth recorded for an id is its distance from the start: the
    length of a shortest chain of parent/child hops that leads to it. *)
Theorem related_depths_are_distances index start D :
  0 <= D ->
  exists depths,
    related index start D = Some (Ok depths)
    /\ forall v k, depths !! v = Some k ->
         0 <= k <= D
         /\ walk index start (Z.to_nat k) v
         /\ forall n, walk index start n v -> k <= Z.of_nat n.
Proof.
  intros HD. destruct (related_correct index start D HD) as (depths & Hrel & HI).
  exists depths. split; [done|]. intros v k Hk.
  destruct (inv_sound HI _ _ Hk) as [Hb Hw]. split; [done|]. split; [done|].
  intros n Hn. destruct (Z.le_gt_cases (Z.of_nat n) D) as [Hle|Hgt]; [|lia].
  destruct (Inv_complete index start D depths n v HI Hn Hle) as (k' & Hk' & Hle').
  rewrite Hk in Hk'. injection Hk' as <-. done.
Qed.

Lemma related_depths_are_distances_witness :
  exists depths,
    related chain (py "B") 1 = Some (Ok depths)
    /\ forall v k, depths !! v = Some k ->
         0 <= k <= 1
         /\ walk chain (py "B") (Z.to_nat k) v
         /\ forall n, walk chain (py "B") n v -> k <= Z.of_nat n.
Proof.
  apply (related_depths_are_distances chain (py "B") 1). lia.
Defined.

(** Raising the bound only adds ids: the ids found within [D] levels are
    found within any larger bound at the same depth, and what a larger
    bound finds at depth [D] or less is what the bound [D] finds. *)
Theorem related_grows_with_levels index start D D' :
  0 <= D -> D <= D' ->
  exists depths depths',
    related index start D = Some (Ok depths)
    /\ related index start D' = Some (Ok depths')
    /\ forall v k, depths !! v = Some k <-> depths' !! v = Some k /\ k <= D.
Proof.
  intros HD HD'.
  destruct (related_correct index start D HD) as (depths & Hrel & HI).
  destruct (related_correct index start D' ltac:(lia)) as (depths' & Hrel' & HI').
  exists depths, depths'. split; [done|]. split; [done|].
  assert (Hmin : forall E m, Inv index start E m [] ->
            forall v k n, m !! v = Some k -> walk index start n v ->
                          Z.of_nat n <= E -> k <= Z.of_nat n).
  { intros E m Hm v k n Hk Hw Hn.
    destruct (Inv_complete index start E m n v Hm Hw Hn) as (k' & Hk' & Hle).
    rewrite Hk in Hk'. by injection Hk' as <-. }
  intros v k. split.
  - intros Hk. destruct (inv_sound HI _ _ Hk) as [Hb Hw].
    destruct (Inv_complete index start D' depths' _ v HI' Hw ltac:(lia))
      as (k' & Hk' & Hle).
    destruct (inv_sound HI' _ _ Hk') as [Hb' Hw'].
    pose proof (Hmin D depths HI v k _ Hk Hw' ltac:(lia)).
    split; [|lia]. rewrite Hk'. f_equal. lia.
  - intros [Hk' HkD]. destruct (inv_sound HI' _ _ Hk') as [Hb' Hw'].
    destruct (Inv_complete index start D depths _ v HI Hw' ltac:(lia))
      as (k0 & Hk0 & Hle).
    destruct (inv_sound HI _ _ Hk0) as [Hb0 Hw0].
    pose proof (Hmin D' depths' HI' v k _ Hk' Hw0 ltac:(lia)).
    rewrite Hk0. f_equal. lia.
Qed.

Lemma related_grows_with_levels_witness :
  exists depths depths',
    related chain (py "B") 1 = Some (Ok depths)
    /\ related chain (py "B") 2 = Some (Ok depths')
    /\ forall v k, depths !! v = Some k <-> depths' !! v = Some k /\ k <= 1.
Proof.
  apply (related_grows_with_levels chain (py "B") 1 2); lia.
Defined.




End NeighborhoodProps.

(* ================================================================== *)
(** * migrate_split.py: the records of a directory are migrated
      independently *)
(* ================================================================== *)

Module MigrateMain.
Import PyStr Json Migrate Samples Shapes MigrateSteps.
Import JsonFacts MigrateFacts MigrateProps.

(** ** What each run reads *)

Section Interpreter.

Context (recursion_limit : nat) (float_repr : pystr -> pystr).

Lemma find_compacted_agree st1 st2 record q :
  files st1 !! q = files st2 !! q ->
  find_compacted recursion_limit st1 record q
  = find_compacted recursion_limit st2 record q.
Proof. intros H. unfold find_compacted, path_exists, read_text. by rewrite H. Qed.

Lemma read_existing_detailed_agree st1 st2 legacy detailed :
  files st1 !! legacy = files st2 !! legacy ->
  files st1 !! detailed = files st2 !! detailed ->
  read_existing_detailed st1 legacy detailed
  = read_existing_detailed st2 legacy detailed.
Proof.
  intros H1 H2. unfold read_existing_detailed, path_exists, read_text.
  by rewrite H1, H2.
Qed.

(** The plan of a run depends on the files of its footprint alone. *)
Lemma plan_migration_agree path st1 st2 :
  (forall r, r ∈ footprint path -> files st1 !! r = files st2 !! r) ->
  plan_migration recursion_limit float_repr path st1
  = plan_migration recursion_limit float_repr path st2.
Proof.
  intros H. rewrite !plan_migration_steps. unfold read_text.
  rewrite (H path) by (unfold footprint; left).
  destruct (files st2 !! path) as [raw|]; [|done]. cbn [mbind result_bind].
  destruct (loads recursion_limit raw) as [[| | | | | |record]|]; try done.
  cbn [mbind result_bind].
  unfold footprint in H. destruct (record_id_from_path path) as [X|]; [|done].
  cbn [mbind result_bind]. cbv zeta.
  assert (Hs : forall r, r ∈ siblings path X -> files st1 !! r = files st2 !! r).
  { intros r Hr. apply H. by right. }
  unfold siblings in Hs.
  destruct (optional_str_field record (py "input")) as [iv|]; [|done].
  destruct (optional_str_field record (py "output")) as [ov|]; [|done].
  cbn [mbind result_bind].
  rewrite (find_compacted_agree st1 st2) by (apply Hs; rewrite !elem_of_cons; auto).
  destruct (find_compacted recursion_limit st2 record _) as [compacted|]; [|done].
  cbn [mbind result_bind].
  rewrite (read_existing_detailed_agree st1 st2)
    by (apply Hs; rewrite !elem_of_cons; auto).
  destruct (read_existing_detailed st2 _ _) as [existing|]; [|done].
  cbn [mbind result_bind].
  destruct (detail_lines recursion_limit float_repr record iv ov existing)
    as [lines|]; [|done].
  cbn [mbind result_bind]. rewrite !plan_changed_spec.
  rewrite !Hs by (rewrite !elem_of_cons; auto). done.
Qed.

(** The outcome of a run depends on the files of its footprint alone. *)
Lemma migrate_record_file_agree path dlc force dry_run st1 st2 :
  (forall r, r ∈ footprint path -> files st1 !! r = files st2 !! r) ->
  (migrate_record_file recursion_limit float_repr path dlc force dry_run st1).1
  = (migrate_record_file recursion_limit float_repr path dlc force dry_run st2).1.
Proof.
  intros H. rewrite !migrate_record_file_outcome.
  rewrite (plan_migration_agree path st1 st2 H).
  destruct (plan_migration recursion_limit float_repr path st2) as [p|]; [|done].
  destruct (dry_run || negb (changed p)); [done|].
  by destruct (encodable (core_text p)), (encodable (detailed_text p)).
Qed.

(** A run changes no file other than the four named after the record id,
    whether it returns or raises. *)
Lemma migrate_record_file_frame path dlc force dry_run st r :
  (forall X, record_id_from_path path = Ok X -> r ∉ siblings path X) ->
  files (migrate_record_file recursion_limit float_repr path dlc force dry_run st).2 !! r
  = files st !! r.
Proof.
  intros Hr. rewrite migrate_record_file_outcome.
  destruct (plan_migration recursion_limit float_repr path st) as [p|] eqn:Hp; [|done].
  destruct (plan_migration_paths _ _ _ _ _ Hp) as (X & HX & Hc & Hd & Hld & Hlc).
  specialize (Hr X HX). unfold siblings in Hr. rewrite !not_elem_of_cons in Hr.
  destruct Hr as (Hr1 & Hr2 & Hr3 & Hr4 & _).
  destruct (dry_run || negb (changed p)); [done|].
  destruct (encodable (core_text p)); [destruct (encodable (detailed_text p))|];
    cbn [snd temp_left write files].
  - destruct (written_spec p dlc st) as (det & comp & _ & _ & _ & Hframe).
    { rewrite Hc, Hd. by apply with_name_suffix_ne. }
    apply Hframe; congruence.
  - apply dir_lookup_insert_ne. congruence.
  - done.
Qed.

End Interpreter.

(** ** The footprints of two record files do not meet *)

Lemma iter_member st path :
  path ∈ iter_record_files st (rglob_json st) ->
  is_Some (files st !! path)
  /\ endswith (name path) (py ".json") = true
  /\ endswith (name path) (py ".detailed.json") = false
  /\ endswith (name path) (py ".compacted.json") = false
  /\ (endswith (name path) (py ".core.json") = false ->
      files st !! with_name path (stem path ++ py ".core.json") = None).
Proof.
  unfold iter_record_files, rglob_json.
  rewrite !list_elem_of_filter. intros [Hkeep [Hjson Hin]].
  apply Is_true_true in Hkeep, Hjson.
  apply andb_prop in Hkeep as [Hside Hcore].
  apply negb_true_iff, orb_false_iff in Hside as [Hd Hc].
  apply negb_true_iff in Hcore. rewrite Hjson in Hcore. cbn [andb] in Hcore.
  split; [by apply dir_lookup_listed|]. split; [done|]. split; [done|].
  split; [done|]. intros Hnc. rewrite Hnc in Hcore. cbn [negb andb] in Hcore.
  unfold path_exists in Hcore. by destruct (files st !! _).
Qed.

Lemma suffix_clash Xp Xq s s' :
  Xp ++ s = Xq ++ s' -> (length s <= length s')%nat -> endswith s' s = true.
Proof.
  intros H Hlen. apply (endswith_both (Xq ++ s')); [|apply endswith_app|done].
  rewrite <- H. apply endswith_app.
Qed.

Lemma path_eq p q : parent p = parent q -> name p = name q -> p = q.
Proof. destruct p, q. cbn. by intros -> ->. Qed.

(** Two of the files named after record ids are the same file only when
    they are named after the same id, with the same suffix, in the same
    directory. *)
Lemma sibling_eq p q Xp Xq r :
  r ∈ siblings p Xp -> r ∈ siblings q Xq ->
  parent p = parent q /\ Xp = Xq.
Proof.
  unfold siblings. rewrite !elem_of_cons, !elem_of_nil.
  intros [->|[->|[->|[->|[]]]]] [Hq|[Hq|[Hq|[Hq|[]]]]];
    injection Hq as Hpar Hname; (split; [done|]);
    first [ by apply app_inv_tail in Hname
          | exfalso; apply suffix_clash in Hname; [by vm_compute in Hname|cbn; lia]
          | exfalso; symmetry in Hname; apply suffix_clash in Hname;
            [by vm_compute in Hname|cbn; lia] ].
Qed.

(** A legacy file with a core file beside it is not a record file. *)
Lemma legacy_beside_core st p q X :
  p ∈ iter_record_files st (rglob_json st) ->
  q ∈ iter_record_files st (rglob_json st) ->
  name p = X ++ py ".json" -> endswith (name p) (py ".core.json") = false ->
  X <> [] ->
  parent q = parent p -> name q = X ++ py ".core.json" ->
  False.
Proof.
  intros Hp Hq Hn Hnc HX Hpar Hnq.
  destruct (iter_member _ _ Hp) as (_ & _ & _ & _ & Hcore).
  destruct (iter_member _ _ Hq) as ([text Hex] & _).
  specialize (Hcore Hnc). rewrite (stem_json p X Hn HX) in Hcore.
  replace (with_name p (X ++ py ".core.json")) with q in Hcore.
  - congruence.
  - apply path_eq; [done|]. by rewrite Hnq.
Qed.

Lemma footprints_apart st p q Xp r :
  (forall x, x ∈ rglob_json st -> name x <> py ".json") ->
  p ∈ iter_record_files st (rglob_json st) ->
  q ∈ iter_record_files st (rglob_json st) ->
  p <> q ->
  record_id_from_path p = Ok Xp ->
  r ∈ footprint q -> r ∉ siblings p Xp.
Proof.
  intros Hnames Hp Hq Hne HXp Hr Hin.
  assert (Hglob : forall x, x ∈ iter_record_files st (rglob_json st) ->
                            x ∈ rglob_json st).
  { intros x. unfold iter_record_files. by intros [_ ?]%list_elem_of_filter. }
  destruct (iter_member _ _ Hq) as (_ & Hqj & Hqd & Hqc & _).
  assert (exists Xq, record_id_from_path q = Ok Xq) as [Xq HXq].
  { unfold record_id_from_path. rewrite Hqj.
    destruct (endswith (name q) (py ".core.json")); eauto. }
  assert (Hnonempty : forall x X, x ∈ iter_record_files st (rglob_json st) ->
            name x = X ++ py ".json" -> X <> []).
  { intros x X Hx Hn ->. by apply (Hnames x (Hglob x Hx)). }
  unfold footprint in Hr. rewrite HXq in Hr. apply elem_of_cons in Hr as [->|Hr].
  - (* the record file [q] is none of the files named after [p]'s id *)
    unfold siblings in Hin. rewrite !elem_of_cons, elem_of_nil in Hin.
    destruct Hin as [Hq'|[Hq'|[Hq'|[Hq'|[]]]]];
      assert (Hpar : parent q = parent p) by (by rewrite Hq');
      assert (Hnq : name q = name (with_name p (Xp ++ py ".core.json"))
                    \/ name q = name (with_name p (Xp ++ py ".detailed.jsonl"))
                    \/ name q = name (with_name p (Xp ++ py ".detailed.json"))
                    \/ name q = name (with_name p (Xp ++ py ".compacted.json")))
        by (rewrite Hq' at 1 2 3 4; cbn [name with_name]; auto);
      clear Hnq; pose proof (f_equal name Hq') as Hnq; cbn [name with_name] in Hnq.
    + destruct (record_id_from_path_inv _ _ HXp) as [Hn|[Hn Hnc]].
      * apply Hne. apply path_eq; [done|]. by rewrite Hn, Hnq.
      * by apply (legacy_beside_core st p q Xp Hp Hq Hn Hnc (Hnonempty p Xp Hp Hn)).
    + rewrite Hnq in Hqj.
      pose proof (endswith_both _ _ _ Hqj (endswith_app Xp (py ".detailed.jsonl"))
                    ltac:(cbn; lia)) as Hbad.
      by vm_compute in Hbad.
    + rewrite Hnq, endswith_app in Hqd. done.
    + rewrite Hnq, endswith_app in Hqc. done.
  - (* nor is any of the files named after [q]'s id *)
    destruct (sibling_eq p q Xp Xq r Hin Hr) as [Hpar <-].
    destruct (record_id_from_path_inv _ _ HXp) as [Hn|[Hn Hnc]];
      destruct (record_id_from_path_inv _ _ HXq) as [Hn'|[Hn' Hnc']].
    + apply Hne. apply path_eq; [done|]. by rewrite Hn, Hn'.
    + by apply (legacy_beside_core st q p Xp Hq Hp Hn' Hnc' (Hnonempty q Xp Hq Hn')).
    + by apply (legacy_beside_core st p q Xp Hp Hq Hn Hnc (Hnonempty p Xp Hp Hn)).
    + apply Hne. apply path_eq; [done|]. by rewrite Hn, Hn'.
Qed.

(** The file named [.json] is the one record file for which the scan and
    the migration disagree on the core file: its record id is empty, so
    that its core file is [.core.json], while the scan, which goes by
    [path.stem], skips it only when [.json.core.json] exists. *)
Theorem dot_json_is_not_skipped st globbed path :
  name path = py ".json" ->
  record_id_from_path path = Ok []
  /\ core_path_for_record_path path = Ok (with_name path (py ".core.json"))
  /\ (path ∈ iter_record_files st globbed
      <-> path ∈ globbed
          /\ path_exists st (with_name path (py ".json.core.json")) = false).
Proof.
  intros Hn.
  assert (Hid : record_id_from_path path = Ok []).
  { unfold record_id_from_path. by rewrite Hn. }
  split; [done|]. split.
  { unfold core_path_for_record_path. by rewrite Hid. }
  assert (Hstem : stem path = py ".json").
  { unfold stem. by rewrite Hn. }
  unfold iter_record_files. rewrite list_elem_of_filter. rewrite Hstem, Hn.
  change (endswith (py ".json") (py ".detailed.json")) with false.
  change (endswith (py ".json") (py ".compacted.json")) with false.
  change (endswith (py ".json") (py ".json")) with true.
  change (endswith (py ".json") (py ".core.json")) with false.
  change (py ".json" ++ py ".core.json") with (py ".json.core.json").
  cbn [orb negb andb].
  destruct (path_exists st (with_name path (py ".json.core.json")));
    cbn [negb]; split; intros [? ?]; done.
Qed.

Lemma dot_json_is_not_skipped_witness :
  let path := mkPath records_dir (py ".json") in
  let st := {| files := [(path, py "{}"); (with_name path (py ".core.json"), py "{}")];
               events := [] |} in
  record_id_from_path path = Ok []
  /\ core_path_for_record_path path = Ok (with_name path (py ".core.json"))
  /\ (path ∈ iter_record_files st (rglob_json st)
      <-> path ∈ rglob_json st
          /\ path_exists st (with_name path (py ".json.core.json")) = false).
Proof.
  cbv zeta.
  apply (dot_json_is_not_skipped _ _ (mkPath records_dir (py ".json"))).
  reflexivity.
Defined.

(** ** Counting *)

Lemma count_length {A} (f g h : A -> bool) l :
  (forall x, (if f x then 1 else 0) + (if g x then 1 else 0) + (if h x then 1 else 0)
             = 1)%nat ->
  (count f l + count g l + count h l = length l)%nat.
Proof.
  intros H. induction l as [|x l IH]; [done|]. cbn [count length].
  specialize (H x). lia.
Qed.

Lemma count_split {A} (f g h : A -> bool) l :
  (forall x, f x = g x || h x) -> (forall x, g x && h x = false) ->
  (count f l = count g l + count h l)%nat.
Proof.
  intros Hf Hgh. induction l as [|x l IH]; [done|]. cbn [count].
  specialize (Hf x). specialize (Hgh x). destruct (f x), (g x), (h x); try done; lia.
Qed.

Lemma count_ext {A} (f g : A -> bool) l :
  (forall x, f x = g x) -> count f l = count g l.
Proof.
  intros H. induction l as [|x l IH]; [done|]. cbn [count]. by rewrite H, IH.
Qed.

Lemma count_Permutation {A} (f : A -> bool) l l' :
  l ≡ₚ l' -> count f l = count f l'.
Proof.
  induction 1 as [|x l l' _ IH|x y l|l l' l'' _ IH1 _ IH2]; cbn [count];
    [done|by rewrite IH|lia|congruence].
Qed.

Lemma triple_eq (a a' b b' c c' : nat) :
  a = a' -> b = b' -> c = c' -> (a, b, c) = (a', b', c').
Proof. by intros -> -> ->. Qed.

(** ** The loop of [main] *)

Section Main.

Context (recursion_limit : nat) (float_repr : pystr -> pystr).
Context (dlc force dry_run : bool) (st0 : fs).

Hypothesis no_empty_id : forall x, x ∈ rglob_json st0 -> name x <> py ".json".

(** The outcome of a record file, migrated alone from the directory as
    [main] finds it. *)
#[local] Abbreviation outcome path :=
  (migrate_record_file recursion_limit float_repr path dlc force dry_run st0).1.

(** Each record file is counted by its own outcome: the records are
    migrated independently of each other. *)
Lemma main_loop_independent paths : forall st c s e,
  NoDup paths ->
  (forall p, p ∈ paths -> p ∈ iter_record_files st0 (rglob_json st0)) ->
  (forall p r, p ∈ paths -> r ∈ footprint p -> files st !! r = files st0 !! r) ->
  (main_loop recursion_limit float_repr paths dlc force dry_run st c s e).1
  = (c + count (fun path => returned true (outcome path)) paths,
     s + count (fun path => returned false (outcome path)) paths,
     e + count (fun path => raised (outcome path)) paths)%nat.
Proof using no_empty_id.
  induction paths as [|path rest IH]; intros st c s e Hnd Hiter Hagree.
  { cbn [main_loop count fst]. by rewrite !Nat.add_0_r. }
  apply NoDup_cons in Hnd as [Hpath Hnd].
  assert (Hout : (migrate_record_file recursion_limit float_repr path dlc force
                    dry_run st).1 = outcome path).
  { apply migrate_record_file_agree. intros r Hr. apply (Hagree path); [left|done]. }
  assert (Hrest : forall p r, p ∈ rest -> r ∈ footprint p ->
    files (migrate_record_file recursion_limit float_repr path dlc force
             dry_run st).2 !! r = files st0 !! r).
  { intros p r Hp Hr. rewrite migrate_record_file_frame.
    - apply (Hagree p); [by right|done].
    - intros X HX. apply (footprints_apart st0 path p X r); try done.
      + apply Hiter. by left.
      + apply Hiter. by right.
      + intros ->. done. }
  assert (Hiter' : forall p, p ∈ rest -> p ∈ iter_record_files st0 (rglob_json st0)).
  { intros p Hp. apply Hiter. by right. }
  cbn [main_loop count].
  destruct (migrate_record_file recursion_limit float_repr path dlc force dry_run st)
    as [r st1]. cbn [fst snd] in Hout, Hrest. rewrite <- Hout.
  destruct r as [[|]|err]; rewrite (IH st1) by done; cbn [returned raised Bool.eqb];
    apply triple_eq; lia.
Qed.

End Main.

(** A dry run of [main] leaves the file system as it is. *)
Lemma main_loop_dry_run recursion_limit float_repr paths dlc force :
  forall st c s e,
    (main_loop recursion_limit float_repr paths dlc force true st c s e).2 = st.
Proof.
  induction paths as [|path paths IH]; intros st c s e; [done|]. cbn [main_loop].
  rewrite migrate_record_file_outcome.
  destruct (plan_migration recursion_limit float_repr path st) as [p|]; [|apply IH].
  cbn [orb]. destruct (changed p); apply IH.
Qed.

(** What [main] returns, from the outcomes of the record files. *)
Lemma main_outcomes recursion_limit float_repr dlc force dry_run st :
  NoDup (files st).*1 ->
  (forall x X, x ∈ (files st).*1 -> name x = X ++ py ".json" ->
               dots_only X = false) ->
  let record_files := iter_record_files st (rglob_json st) in
  let outcome path :=
    (migrate_record_file recursion_limit float_repr path dlc force dry_run st).1 in
  exists st',
    main recursion_limit float_repr dlc force dry_run st
    = (match count (fun path => raised (outcome path)) record_files with
       | O => 0
       | _ => 1
       end,
       (count (fun path => returned true (outcome path)) record_files,
        count (fun path => returned false (outcome path)) record_files,
        count (fun path => raised (outcome path)) record_files),
       st')
    /\ (dry_run = true -> st' = st).
Proof.
  intros Hnd Hnames. cbv zeta.
  pose proof (main_loop_independent recursion_limit float_repr dlc force dry_run st)
    as Hloop.
  specialize (Hloop ltac:(intros x [_ Hx]%list_elem_of_filter Hn;
                          by specialize (Hnames x [] Hx Hn))
                (merge_sort path_le (iter_record_files st (rglob_json st)))
                st 0%nat 0%nat 0%nat).
  pose proof (main_loop_dry_run recursion_limit float_repr
                (merge_sort path_le (iter_record_files st (rglob_json st)))
                dlc force st 0%nat 0%nat 0%nat) as Hdry.
  unfold main.
  destruct (main_loop recursion_limit float_repr _ dlc force dry_run st 0 0 0)
    as [[[c0 s0] e0] st0] eqn:Eloop.
  cbn [fst] in Hloop.
  rewrite !(count_Permutation _ _ _ (merge_sort_Permutation _ _)) in Hloop.
  assert (Hcounts := Hloop
    ltac:(rewrite merge_sort_Permutation; unfold iter_record_files, rglob_json;
          by do 2 apply NoDup_filter)
    ltac:(intros p Hp; by rewrite merge_sort_Permutation in Hp)
    ltac:(done)).
  clear Hloop. injection Hcounts as -> -> ->.
  exists st0. split; [done|]. intros ->. by rewrite Eloop in Hdry.
Qed.

(** [main] counts every record file exactly once, by its own outcome.
    Over a directory that lists each file once and in which the id of
    every [.json] file has a character other than a dot, the counts of
    changed, skipped and failed records are the numbers of record files
    on which [migrate_record_file], run alone on the directory as [main]
    finds it, returns true, returns false, and raises; they add up to the
    number of files that [iter_record_files] yields. The exit status is 1
    when a file failed and 0 otherwise, and with [--dry-run] the file
    system, and the log of writes, are left as they were. *)
Theorem main_counts_every_file recursion_limit float_repr dlc force dry_run st
    status c s e st' :
  NoDup (files st).*1 ->
  (forall x X, x ∈ (files st).*1 -> name x = X ++ py ".json" ->
               dots_only X = false) ->
  main recursion_limit float_repr dlc force dry_run st = (status, (c, s, e), st') ->
  let record_files := iter_record_files st (rglob_json st) in
  let outcome path :=
    (migrate_record_file recursion_limit float_repr path dlc force dry_run st).1 in
  c = count (fun path => returned true (outcome path)) record_files
  /\ s = count (fun path => returned false (outcome path)) record_files
  /\ e = count (fun path => raised (outcome path)) record_files
  /\ (c + s + e = length record_files)%nat
  /\ (e = 0%nat -> status = 0)
  /\ (e <> 0%nat -> status = 1)
  /\ (dry_run = true -> st' = st).
Proof.
  intros Hnd Hnames Hmain. cbv zeta.
  destruct (main_outcomes recursion_limit float_repr dlc force dry_run st Hnd Hnames)
    as (st1 & Hout & Hdry).
  rewrite Hmain in Hout. injection Hout as -> -> -> -> <-.
  split; [done|]. split; [done|]. split; [done|]. split.
  { apply count_length. intros x.
    by destruct (migrate_record_file _ _ x dlc force dry_run st).1 as [[|]|]. }
  split; [by intros ->|]. split; [|done].
  by destruct (count _ _).
Qed.

(** One record file, in a dry run and in a real run. *)
Lemma dry_and_real_outcomes recursion_limit float_repr path dlc force st :
  let dry := (migrate_record_file recursion_limit float_repr path dlc force true st).1 in
  let real := (migrate_record_file recursion_limit float_repr path dlc force false st).1 in
  let fails := write_fails recursion_limit float_repr path st in
  returned false real = returned false dry
  /\ returned true dry = returned true real || fails
  /\ returned true real && fails = false
  /\ raised real = raised dry || fails
  /\ raised dry && fails = false.
Proof.
  cbv zeta. rewrite !migrate_record_file_outcome. unfold write_fails, writable.
  destruct (plan_migration recursion_limit float_repr path st) as [p|]; [|done].
  cbn [orb]. by destruct (changed p), (encodable (core_text p)),
    (encodable (detailed_text p)).
Qed.

(** A dry run of [main] predicts the real run up to the writes. Over a
    directory that lists each file once and in which the id of every
    [.json] file has a character other than a dot, let [failures] be the
    number of record files for which a change is found and one of the two
    generated texts cannot be encoded. [main] with [--dry-run] changes
    nothing and counts these files as changed; [main] without it counts
    them as failed. The counts of skipped files agree, the other counts
    differ by [failures], and the exit status is the same when there is
    no such file. *)
Theorem main_dry_run_predicts recursion_limit float_repr dlc force st :
  NoDup (files st).*1 ->
  (forall x X, x ∈ (files st).*1 -> name x = X ++ py ".json" ->
               dots_only X = false) ->
  let failures :=
    count (fun path => write_fails recursion_limit float_repr path st)
      (iter_record_files st (rglob_json st)) in
  match main recursion_limit float_repr dlc force true st,
        main recursion_limit float_repr dlc force false st with
  | (status_dry, (changed_dry, skipped_dry, errors_dry), st_dry),
    (status, (changed, skipped, errors), _) =>
      st_dry = st
      /\ skipped = skipped_dry
      /\ (changed + failures = changed_dry)%nat
      /\ (errors = errors_dry + failures)%nat
      /\ (failures = 0%nat -> status = status_dry)
  end.
Proof.
  intros Hnd Hnames. cbv zeta.
  destruct (main_outcomes recursion_limit float_repr dlc force true st Hnd Hnames)
    as (st1 & -> & Hdry).
  destruct (main_outcomes recursion_limit float_repr dlc force false st Hnd Hnames)
    as (st2 & -> & _).
  pose proof (dry_and_real_outcomes recursion_limit float_repr) as Hone.
  cbv zeta in Hone.
  split; [by apply Hdry|]. split.
  { apply count_ext. intros x. apply Hone. }
  split.
  { symmetry. apply count_split; intros x; apply Hone. }
  split.
  { apply count_split; intros x; apply Hone. }
  intros Hnone.
  rewrite (count_split
             (fun path => raised (migrate_record_file recursion_limit float_repr
                                    path dlc force false st).1)
             (fun path => raised (migrate_record_file recursion_limit float_repr
                                    path dlc force true st).1)
             (fun path => write_fails recursion_limit float_repr path st));
    [|intros x; apply Hone..].
  by rewrite Hnone, Nat.add_0_r.
Qed.

Lemma main_counts_every_file_witness :
  let st := output_surrogate_dir in
  let record_files := iter_record_files st (rglob_json st) in
  let outcome path :=
    (migrate_record_file sample_limit (fun literal => literal) path
       false false false st).1 in
  0%nat = count (fun path => returned true (outcome path)) record_files
  /\ 0%nat = count (fun path => returned false (outcome path)) record_files
  /\ 1%nat = count (fun path => raised (outcome path)) record_files
  /\ (0 + 0 + 1 = length record_files)%nat
  /\ (1%nat = 0%nat -> 1 = 0)
  /\ (1%nat <> 0%nat -> 1 = 1)
  /\ (false = true ->
      temp_left (file "X.detailed.jsonl")
        (write (file "X.core.json")
           (dumps_compact (fun literal => literal)
              (JObj [(py "compacted", JArr [])]) ++ [LF])
           output_surrogate_dir) = st).
Proof.
  cbv zeta.
  apply (main_counts_every_file sample_limit (fun literal => literal) false false false
           output_surrogate_dir 1 0%nat 0%nat 1%nat).
  - apply (bool_decide_eq_true_1 (NoDup _)). vm_refl.
  - intros x X. change ((files output_surrogate_dir).*1) with [file "X.json"].
    rewrite !elem_of_cons, elem_of_nil.
    intros [->|[]] Hn;
      apply (f_equal (drop_last (length (py ".json")))) in Hn;
      rewrite (drop_last_app X (py ".json")) in Hn; by rewrite <- Hn.
  - vm_refl.
Defined.

Lemma main_dry_run_predicts_witness :
  let st := output_surrogate_dir in
  let float_repr := fun literal : pystr => literal in
  let failures :=
    count (fun path => write_fails sample_limit float_repr path st)
      (iter_record_files st (rglob_json st)) in
  match main sample_limit float_repr false false true st,
        main sample_limit float_repr false false false st with
  | (status_dry, (changed_dry, skipped_dry, errors_dry), st_dry),
    (status, (changed, skipped, errors), _) =>
      st_dry = st
      /\ skipped = skipped_dry
      /\ (changed + failures = changed_dry)%nat
      /\ (errors = errors_dry + failures)%nat
      /\ (failures = 0%nat -> status = status_dry)
  end.
Proof.
  cbv zeta.
  apply (main_dry_run_predicts sample_limit (fun literal => literal) false false
           output_surrogate_dir).
  - apply (bool_decide_eq_true_1 (NoDup _)). vm_refl.
  - intros x X. change ((files output_surrogate_dir).*1) with [file "X.json"].
    rewrite !elem_of_cons, elem_of_nil.
    intros [->|[]] Hn;
      apply (f_equal (drop_last (length (py ".json")))) in Hn;
      rewrite (drop_last_app X (py ".json")) in Hn; by rewrite <- Hn.
Defined.

End MigrateMain.
